(** * Hybrid Sentinel forensics engine: a shallow embedding of
      [backend/engine.py] and the properties of its pipeline.

    Conventions of the embedding.
    - Account ids and pattern labels are [string]s, ordered as Python
      orders [str] (lexicographic on code points, [String.compare]).
    - Amounts and scores are exact rationals ([Q]): the thresholds of the
      engine are compared exactly, binary rounding of Python floats is not
      represented.
    - A [pd.Timestamp] is its integer number of nanoseconds ([Z]).
    - A Python [set] of strings is a [gset string]; [sorted(s)] is
      [sorted_set s]. A [dict] whose iteration order is observable is an
      insertion-ordered association list ([dict_set], [dict_get]).
    - The [nx.MultiDiGraph] is the list of its edges in insertion order. *)

From Stdlib Require Import QArith Qround Qabs Lqa ZArith String Ascii
  DecimalString DecimalNat.
From stdpp Require Import base list sorting gmap strings.

Local Open Scope string_scope.
Local Open Scope list_scope.

(** ** Python's order on strings *)

Module PyStr.

Definition le (a b : string) : Prop := String.leb a b = true.

#[global] Instance le_dec : RelDecision le.
Proof. intros a b. unfold le. apply _. Defined.

(** [sorted(s)] for a Python set of strings. *)
Definition sorted_set (s : gset string) : list string :=
  merge_sort le (elements s).

(** [sorted(l)] for a Python list of strings. *)
Definition sorted_list (l : list string) : list string := merge_sort le l.

End PyStr.

(** ** Stable sorting by a boolean comparison ([list.sort(key=...)]) *)

Section StableSort.
Context {A : Type} (leb : A -> A -> bool).

Fixpoint sort_insert (x : A) (l : list A) : list A :=
  match l with
  | [] => [x]
  | y :: t => if leb x y then x :: y :: t else y :: sort_insert x t
  end.

Fixpoint stable_sort (l : list A) : list A :=
  match l with
  | [] => []
  | x :: t => sort_insert x (stable_sort t)
  end.
End StableSort.

(** ** Insertion-ordered dictionaries *)

Section Dict.
Context {V : Type}.

Fixpoint dict_get (k : string) (d : list (string * V)) : option V :=
  match d with
  | [] => None
  | (k', v) :: t => if String.eqb k k' then Some v else dict_get k t
  end.

(** [d[k] = v]: overwrite in place, or append a new key. *)
Fixpoint dict_set (k : string) (v : V) (d : list (string * V))
  : list (string * V) :=
  match d with
  | [] => [(k, v)]
  | (k', v') :: t =>
      if String.eqb k k' then (k', v) :: t else (k', v') :: dict_set k v t
  end.
End Dict.

(** ** Rationals: comparisons and [round(x, 1)] *)

Definition Qleb (x y : Q) : bool := Qle_bool x y.
Definition Qltb (x y : Q) : bool := negb (Qle_bool y x).
Definition Qmax (x y : Q) : Q := if Qleb x y then y else x.
Definition Qmin (x y : Q) : Q := if Qleb x y then x else y.
Definition Qsum (l : list Q) : Q := foldr Qplus 0%Q l.
Definition Qnat (n : nat) : Q := inject_Z (Z.of_nat n).

(** [int(q)]: truncation towards zero. *)
Definition py_int (q : Q) : Z := Z.quot (Qnum q) (Z.pos (Qden q)).

(** Nearest integer, ties to even: the rounding of Python's [round]. *)
Definition round_half_even (q : Q) : Z :=
  let f := Qfloor q in
  let r := (q - inject_Z f)%Q in
  if Qltb r (1 # 2) then f
  else if Qltb (1 # 2) r then (f + 1)%Z
  else if Z.even f then f else (f + 1)%Z.

(** [round(q, 1)] *)
Definition round1 (q : Q) : Q := (inject_Z (round_half_even (q * 10)) / 10)%Q.

(** ** The transaction multigraph *)

Record Edge := mkEdge {
  e_src : string;
  e_dst : string;
  e_txid : string;
  e_amount : Q;
  e_ts : Z
}.

(** Edges in the order [add_edge] inserted them. *)
Definition Graph := list Edge.

(** Append [n] unless already present (first occurrence wins). *)
Definition add_node (n : string) (l : list string) : list string :=
  if bool_decide (n ∈ l) then l else l ++ [n].

Definition uniq (l : list string) : list string :=
  fold_left (fun acc n => add_node n acc) l [].

(** [G.nodes()]: every endpoint once, in insertion order. *)
Definition nodes (G : Graph) : list string :=
  fold_left (fun acc e => add_node (e_dst e) (add_node (e_src e) acc)) G [].

Definition out_edges (G : Graph) (n : string) : list Edge :=
  filter (fun e => e_src e = n) G.
Definition in_edges (G : Graph) (n : string) : list Edge :=
  filter (fun e => e_dst e = n) G.

(** [G.successors(n)] and [G.predecessors(n)]: distinct neighbours. *)
Definition successors (G : Graph) (n : string) : list string :=
  uniq (map e_dst (out_edges G n)).
Definition predecessors (G : Graph) (n : string) : list string :=
  uniq (map e_src (in_edges G n)).

Definition out_degree (G : Graph) (n : string) : nat := length (out_edges G n).
Definition in_degree (G : Graph) (n : string) : nat := length (in_edges G n).
Definition total_degree (G : Graph) (n : string) : nat :=
  (in_degree G n + out_degree G n)%nat.

(** [_get_edges_between(G, u, v)] *)
Definition get_edges_between (G : Graph) (u v : string) : list Edge :=
  filter (fun e => e_src e = u /\ e_dst e = v) G.

(** ** Rings *)

Record Candidate := mkCand {
  c_members : list string;
  c_pattern_type : string;
  c_risk_score : Q;
  c_confidence_score : Q;
  c_core_account : option string
}.

Record FraudRing := mkRing {
  ring_id : string;
  member_accounts : list string;
  pattern_type : string;
  risk_score : Q
}.

(** A row of the cleaned transaction table ([self.df]). *)
Record Txn := mkTxn {
  transaction_id : string;
  sender_id : string;
  receiver_id : string;
  amount : Q;
  timestamp : Z
}.

(** ** Engine state ([ForensicsEngine.__init__]) *)

Record Engine := mkEngine {
  eng_df : option (list Txn);
  eng_G : option Graph;
  account_patterns : gmap string (gset string);
  fraud_rings : list FraudRing;
  suspicion_scores : list (string * Q);
  velocity_accounts : gset string;
  velocity_24h_accounts : gset string;
  high_degree_hubs : gset string;
  immune_accounts : gset string;
  explanations : gmap string string;
  candidate_rings : list Candidate;
  median_degree : Q;
  degree_std : Q;
  adaptive_ext_degree_limit : Z
}.

Definition engine_init : Engine :=
  {| eng_df := None; eng_G := None; account_patterns := ∅; fraud_rings := [];
     suspicion_scores := []; velocity_accounts := ∅;
     velocity_24h_accounts := ∅; high_degree_hubs := ∅;
     immune_accounts := ∅; explanations := ∅; candidate_rings := [];
     median_degree := 2; degree_std := 1; adaptive_ext_degree_limit := 2 |}.

Definition set_account_patterns (ap : gmap string (gset string)) (st : Engine)
  : Engine :=
  {| eng_df := eng_df st; eng_G := eng_G st; account_patterns := ap;
     fraud_rings := fraud_rings st; suspicion_scores := suspicion_scores st;
     velocity_accounts := velocity_accounts st;
     velocity_24h_accounts := velocity_24h_accounts st;
     high_degree_hubs := high_degree_hubs st;
     immune_accounts := immune_accounts st;
     explanations := explanations st;
     candidate_rings := candidate_rings st;
     median_degree := median_degree st;
     degree_std := degree_std st;
     adaptive_ext_degree_limit := adaptive_ext_degree_limit st |}.

Definition set_suspicion_scores (sc : list (string * Q)) (st : Engine)
  : Engine :=
  {| eng_df := eng_df st; eng_G := eng_G st;
     account_patterns := account_patterns st;
     fraud_rings := fraud_rings st; suspicion_scores := sc;
     velocity_accounts := velocity_accounts st;
     velocity_24h_accounts := velocity_24h_accounts st;
     high_degree_hubs := high_degree_hubs st;
     immune_accounts := immune_accounts st;
     explanations := explanations st;
     candidate_rings := candidate_rings st;
     median_degree := median_degree st;
     degree_std := degree_std st;
     adaptive_ext_degree_limit := adaptive_ext_degree_limit st |}.

Definition set_candidate_rings (cs : list Candidate) (st : Engine) : Engine :=
  {| eng_df := eng_df st; eng_G := eng_G st;
     account_patterns := account_patterns st;
     fraud_rings := fraud_rings st; suspicion_scores := suspicion_scores st;
     velocity_accounts := velocity_accounts st;
     velocity_24h_accounts := velocity_24h_accounts st;
     high_degree_hubs := high_degree_hubs st;
     immune_accounts := immune_accounts st;
     explanations := explanations st;
     candidate_rings := cs;
     median_degree := median_degree st;
     degree_std := degree_std st;
     adaptive_ext_degree_limit := adaptive_ext_degree_limit st |}.

Definition set_fraud_rings (rs : list FraudRing) (st : Engine) : Engine :=
  {| eng_df := eng_df st; eng_G := eng_G st;
     account_patterns := account_patterns st;
     fraud_rings := rs; suspicion_scores := suspicion_scores st;
     velocity_accounts := velocity_accounts st;
     velocity_24h_accounts := velocity_24h_accounts st;
     high_degree_hubs := high_degree_hubs st;
     immune_accounts := immune_accounts st;
     explanations := explanations st;
     candidate_rings := candidate_rings st;
     median_degree := median_degree st;
     degree_std := degree_std st;
     adaptive_ext_degree_limit := adaptive_ext_degree_limit st |}.

Definition set_immune_accounts (im : gset string) (st : Engine) : Engine :=
  {| eng_df := eng_df st; eng_G := eng_G st;
     account_patterns := account_patterns st;
     fraud_rings := fraud_rings st; suspicion_scores := suspicion_scores st;
     velocity_accounts := velocity_accounts st;
     velocity_24h_accounts := velocity_24h_accounts st;
     high_degree_hubs := high_degree_hubs st;
     immune_accounts := im;
     explanations := explanations st;
     candidate_rings := candidate_rings st;
     median_degree := median_degree st;
     degree_std := degree_std st;
     adaptive_ext_degree_limit := adaptive_ext_degree_limit st |}.

(** The assignments of [load_data]: [self.df], [self.G], the statistics. *)
Definition set_df (df : list Txn) (st : Engine) : Engine :=
  {| eng_df := Some df; eng_G := eng_G st;
     account_patterns := account_patterns st;
     fraud_rings := fraud_rings st; suspicion_scores := suspicion_scores st;
     velocity_accounts := velocity_accounts st;
     velocity_24h_accounts := velocity_24h_accounts st;
     high_degree_hubs := high_degree_hubs st;
     immune_accounts := immune_accounts st;
     explanations := explanations st;
     candidate_rings := candidate_rings st;
     median_degree := median_degree st;
     degree_std := degree_std st;
     adaptive_ext_degree_limit := adaptive_ext_degree_limit st |}.

Definition set_G (G : Graph) (st : Engine) : Engine :=
  {| eng_df := eng_df st; eng_G := Some G;
     account_patterns := account_patterns st;
     fraud_rings := fraud_rings st; suspicion_scores := suspicion_scores st;
     velocity_accounts := velocity_accounts st;
     velocity_24h_accounts := velocity_24h_accounts st;
     high_degree_hubs := high_degree_hubs st;
     immune_accounts := immune_accounts st;
     explanations := explanations st;
     candidate_rings := candidate_rings st;
     median_degree := median_degree st;
     degree_std := degree_std st;
     adaptive_ext_degree_limit := adaptive_ext_degree_limit st |}.

Definition set_stats (md sd : Q) (lim : Z) (st : Engine) : Engine :=
  {| eng_df := eng_df st; eng_G := eng_G st;
     account_patterns := account_patterns st;
     fraud_rings := fraud_rings st; suspicion_scores := suspicion_scores st;
     velocity_accounts := velocity_accounts st;
     velocity_24h_accounts := velocity_24h_accounts st;
     high_degree_hubs := high_degree_hubs st;
     immune_accounts := immune_accounts st;
     explanations := explanations st;
     candidate_rings := candidate_rings st;
     median_degree := md;
     degree_std := sd;
     adaptive_ext_degree_limit := lim |}.

(** [account_patterns.get(acc, set())] *)
Definition patterns_of (ap : gmap string (gset string)) (acc : string)
  : gset string := default ∅ (ap !! acc).

(** [account_patterns[acc].add(p)] *)
Definition add_pattern (acc p : string) (ap : gmap string (gset string))
  : gmap string (gset string) := <[acc := patterns_of ap acc ∪ {[p]}]> ap.

Definition FLAG_THRESHOLD : Q := 25.

(** ** Composite scoring and suppression ([calculate_suspicion_scores]) *)

Module Scoring.

Definition pattern_weights : list (string * Q) :=
  [("cycle_length_3", 30%Q); ("cycle_length_4", 25%Q);
   ("cycle_length_5", 20%Q); ("shell_account", 20%Q);
   ("smurfing", 15%Q); ("fan_in", 15%Q); ("fan_out", 15%Q);
   ("structuring", 12%Q); ("high_velocity", 5%Q);
   ("high_velocity_24h", 10%Q); ("low_variance", 10%Q)].

(** [pattern_weights.get(p, 0)] *)
Definition weight (p : string) : Q := default 0%Q (dict_get p pattern_weights).

Definition STRUCTURAL_PATTERNS : gset string :=
  list_to_set ["cycle_length_3"; "cycle_length_4"; "cycle_length_5";
               "shell_account"; "smurfing"; "fan_in"; "fan_out";
               "structuring"; "low_variance"].

Definition STRONG_FRAUD_PATTERNS : gset string :=
  list_to_set ["cycle_length_3"; "cycle_length_4"; "cycle_length_5";
               "shell_account"; "smurfing"].

Definition NON_ACTIVE : gset string :=
  list_to_set ["isolation_cluster"; "payroll"; "merchant"].

Definition VELOCITY_ONLY : gset string :=
  list_to_set ["high_velocity"; "high_velocity_24h"; "low_variance"].

Definition intersects (a b : gset string) : bool :=
  bool_decide (a ∩ b ≠ ∅).

Section WithAnomaly.
(** [anomaly_bonus[idx]], the normalised IsolationForest score times 15
    by node index; [Anomaly.anomaly_bonus] is its computation from the
    raw scores. *)
Variable anomaly_bonus : nat -> Q.

(** Steps 1 to 3 for one node: weighted sum capped at 70, velocity
    bonus, anomaly bonus. *)
Definition base_score (st : Engine) (idx : nat) (node : string) : Q :=
  let patterns := patterns_of (account_patterns st) node in
  let score := Qsum (map weight (elements patterns)) in
  let score := Qmin score 70 in
  let has_structural := intersects patterns STRUCTURAL_PATTERNS in
  let score :=
    if bool_decide (node ∈ velocity_accounts st) && has_structural
    then (score + 10)%Q
    else if bool_decide (node ∈ velocity_24h_accounts st) && has_structural
    then (score + 5)%Q
    else score in
  (score + anomaly_bonus idx)%Q.

(** First loop: [preliminary_scores[node] = score] over
    [enumerate(nodes)]. *)
Definition first_pass (st : Engine) (ns : list string)
  : list (string * Q) :=
  fold_left (fun d '(idx, node) => dict_set node (base_score st idx node) d)
            (imap (fun i n => (i, n)) ns) [].

Definition neighbors (G : Graph) (node : string) : gset string :=
  list_to_set (predecessors G node) ∪ list_to_set (successors G node).

Definition flagged_neighbors (G : Graph) (prelim : list (string * Q))
    (node : string) : nat :=
  length (filter (fun n => Qltb 30 (default 0%Q (dict_get n prelim)) = true)
                 (elements (neighbors G node))).

(** One iteration of the second loop; the dictionary is updated in
    place and read by the following iterations. *)
Definition isolation_step (G : Graph)
    (acc : list (string * Q) * gmap string (gset string)) (node : string)
  : list (string * Q) * gmap string (gset string) :=
  let '(prelim, ap) := acc in
  let s := default 0%Q (dict_get node prelim) in
  if Qleb s 0 then acc
  else if bool_decide (2 <= flagged_neighbors G prelim node)%nat
  then (dict_set node (s + 8)%Q prelim, add_pattern node "isolation_cluster" ap)
  else acc.

Definition second_pass (G : Graph) (ns : list string)
    (prelim : list (string * Q)) (ap : gmap string (gset string))
  : list (string * Q) * gmap string (gset string) :=
  fold_left (isolation_step G) ns (prelim, ap).

(** The three suppression rules, in source order. *)
Definition suppress (st : Engine) (patterns : gset string) (node : string)
    (score : Q) : Q :=
  let active_patterns := patterns ∖ NON_ACTIVE in
  let score :=
    if bool_decide (active_patterns ⊆ VELOCITY_ONLY) then 0%Q else score in
  let has_strong_fraud := intersects patterns STRONG_FRAUD_PATTERNS in
  let score :=
    if bool_decide (node ∈ immune_accounts st) && negb has_strong_fraud
    then 0%Q else score in
  let score :=
    if bool_decide (node ∈ high_degree_hubs st) && negb has_strong_fraud
    then 0%Q else score in
  score.

(** [round(max(0.0, min(100.0, score)), 1)], then the flag threshold. *)
Definition final_gate (score : Q) : Q :=
  let score := round1 (Qmax 0 (Qmin 100 score)) in
  if Qltb score FLAG_THRESHOLD then 0%Q else score.

(** The value of [score] in the last loop, after the suppression rules
    and before the flag threshold. *)
Definition post_suppression (st : Engine) (G : Graph) (node : string) : Q :=
  let ns := nodes G in
  let '(prelim, ap) :=
    second_pass G ns (first_pass st ns) (account_patterns st) in
  suppress st (patterns_of ap node) node (default 0%Q (dict_get node prelim)).

Definition third_pass (st : Engine) (ns : list string)
    (prelim : list (string * Q)) (ap : gmap string (gset string))
    (scores : list (string * Q)) : list (string * Q) :=
  fold_left
    (fun sc node =>
       let score := default 0%Q (dict_get node prelim) in
       dict_set node (final_gate (suppress st (patterns_of ap node) node score)) sc)
    ns scores.

(** [calculate_suspicion_scores]: the three loops in their order. The
    explanation strings that the last loop stores next to the scores
    are left out; no score or label depends on them. *)
Definition calculate_suspicion_scores (st : Engine) : Engine :=
  match eng_G st with
  | None => st
  | Some G =>
      let ns := nodes G in
      if bool_decide (ns = []) then st
      else
        let prelim := first_pass st ns in
        let '(prelim', ap') := second_pass G ns prelim (account_patterns st) in
        let scores := third_pass st ns prelim' ap' (suspicion_scores st) in
        set_suspicion_scores scores (set_account_patterns ap' st)
  end.
End WithAnomaly.

End Scoring.

(** ** Result document ([generate_json]) *)

Record SuspiciousAccount := mkSuspicious {
  sa_account_id : string;
  sa_suspicion_score : Q;
  sa_detected_patterns : list string;
  sa_ring_id : string;
  sa_explanation : string
}.

Record Summary := mkSummary {
  total_accounts_analyzed : nat;
  suspicious_accounts_flagged : nat;
  fraud_rings_detected : nat
}.

Record Report := mkReport {
  rep_suspicious_accounts : list SuspiciousAccount;
  rep_fraud_rings : list FraudRing;
  rep_summary : Summary
}.

Module Json.

(** [account_rings[acc].append(rid)] on a [defaultdict(list)] *)
Definition append_ring (rid : string) (m : gmap string (list string))
    (acc : string) : gmap string (list string) :=
  <[acc := default [] (m !! acc) ++ [rid]]> m.

Definition account_rings (rings : list FraudRing) : gmap string (list string) :=
  fold_left
    (fun m ring => fold_left (append_ring (ring_id ring)) (member_accounts ring) m)
    rings ∅.

Definition entry (st : Engine) (ar : gmap string (list string))
    (acc : string) (score : Q) : SuspiciousAccount :=
  {| sa_account_id := acc;
     sa_suspicion_score := score;
     sa_detected_patterns :=
       PyStr.sorted_set (patterns_of (account_patterns st) acc);
     sa_ring_id :=
       match default [] (ar !! acc) with
       | rid :: _ => rid
       | [] => "NONE"
       end;
     sa_explanation := default "" (explanations st !! acc) |}.

(** The loop over [suspicion_scores.items()]. *)
Fixpoint collect (st : Engine) (ar : gmap string (list string))
    (items : list (string * Q)) : list SuspiciousAccount :=
  match items with
  | [] => []
  | (acc, score) :: t =>
      if Qleb score 0 then collect st ar t
      else entry st ar acc score :: collect st ar t
  end.

(** Order of the sort key [(-suspicion_score, account_id)]. *)
Definition key_leb (x y : SuspiciousAccount) : bool :=
  Qltb (sa_suspicion_score y) (sa_suspicion_score x)
  || (Qeq_bool (sa_suspicion_score x) (sa_suspicion_score y)
      && String.leb (sa_account_id x) (sa_account_id y)).

Definition generate_json (st : Engine) : Report :=
  let ar := account_rings (fraud_rings st) in
  let suspicious := stable_sort key_leb (collect st ar (suspicion_scores st)) in
  {| rep_suspicious_accounts := suspicious;
     rep_fraud_rings := fraud_rings st;
     rep_summary :=
       {| total_accounts_analyzed :=
            match eng_G st with Some G => length (nodes G) | None => 0%nat end;
          suspicious_accounts_flagged := length suspicious;
          fraud_rings_detected := length (fraud_rings st) |} |}.

End Json.

(** ** Ingest ([load_data]) *)

Module Ingest.

Definition REQUIRED_COLUMNS : list string :=
  ["transaction_id"; "sender_id"; "receiver_id"; "amount"; "timestamp"].

(** Methods of the engine either return or raise [ValueError]; the state
    they leave behind is explicit in both cases. *)
Inductive outcome (A : Type) :=
  | Returned (a : A)
  | Raised (msg : list string).
Arguments Returned {A} a.
Arguments Raised {A} msg.

Definition M (A : Type) : Type := Engine -> Engine * outcome A.

Definition ret {A} (a : A) : M A := fun st => (st, Returned a).
Definition raise {A} (msg : list string) : M A := fun st => (st, Raised msg).
Definition bind {A B} (m : M A) (k : A -> M B) : M B :=
  fun st =>
    match m st with
    | (st', Returned a) => k a st'
    | (st', Raised msg) => (st', Raised msg)
    end.
Definition modify (f : Engine -> Engine) : M unit :=
  fun st => (f st, Returned tt).

Definition seq {A B} (m : M A) (k : M B) : M B := bind m (fun _ => k).
Infix ">>" := seq (at level 62, left associativity).

Section WithPandas.
(** A cell of the uploaded frame, and the coercions of pandas:
    [pd.to_numeric(errors="coerce")], [pd.to_datetime(errors="coerce")]
    ([None] is NaN / NaT) and [astype(str)]. *)
Variable Cell : Type.
Variable to_numeric : Cell -> option Q.
Variable to_datetime : Cell -> option Z.
Variable astype_str : Cell -> string.
(** [np.median] and [np.std]; their results are floats, hence
    rationals. *)
Variable np_median : list Q -> Q.
Variable np_std : list Q -> Q.

Record DataFrame := mkFrame {
  df_columns : list string;
  df_rows : list (string -> Cell)
}.

(** Coercion of one row; [None] when [dropna] removes it. *)
Definition coerce_row (row : string -> Cell) : option Txn :=
  match to_numeric (row "amount"), to_datetime (row "timestamp") with
  | Some a, Some t =>
      Some {| transaction_id := astype_str (row "transaction_id");
              sender_id := astype_str (row "sender_id");
              receiver_id := astype_str (row "receiver_id");
              amount := a; timestamp := t |}
  | _, _ => None
  end.

Definition ts_leb (x y : Txn) : bool := (timestamp x <=? timestamp y)%Z.

(** [G.add_edge(sender, receiver, transaction_id=, amount=, timestamp=)] *)
Definition edge_of (t : Txn) : Edge :=
  {| e_src := sender_id t; e_dst := receiver_id t;
     e_txid := transaction_id t; e_amount := amount t;
     e_ts := timestamp t |}.

Definition missing_columns (df : DataFrame) : list string :=
  filter (fun c => c ∉ df_columns df) REQUIRED_COLUMNS.

(** [_compute_dataset_stats]: the degree statistics and the adaptive
    external-degree limit. The amount statistics and the time span it
    also stores are read by no stage modelled here. *)
Definition compute_dataset_stats (st : Engine) : Engine :=
  match eng_G st, eng_df st with
  | Some G, Some _ =>
      let degrees := map (fun n => Qnat (total_degree G n)) (nodes G) in
      let '(md, sd) :=
        match degrees with
        | [] => (2%Q, 1%Q)
        | _ => (np_median degrees, np_std degrees)
        end in
      set_stats md sd (Z.max 2 (py_int (md + (15 # 10) * sd))) st
  | _, _ => st
  end.

(** [load_data]. [sort_values("timestamp")] is taken as a stable sort:
    rows with equal timestamps keep their order in the frame, which the
    default quicksort of pandas does not promise on longer tables. *)
Definition load_data (df : DataFrame) : M unit :=
  let missing := missing_columns df in
  if bool_decide (missing <> []) then raise missing
  else
    let rows := omap coerce_row (df_rows df) in
    let rows := stable_sort ts_leb rows in
    let G := map edge_of rows in
    modify (set_df rows) >>
    modify (set_G G) >>
    modify compute_dataset_stats.
End WithPandas.

End Ingest.

(** ** Cycle validation ([_validate_cycle_edges], [_check_cycle_constraints]) *)

Module Cycles.

Definition NS_PER_HOUR : Z := 3600 * 1000000000.
(** [timedelta(hours=72)] *)
Definition HOURS_72 : Z := 72 * NS_PER_HOUR.

Definition Zlist_min (h : Z) (t : list Z) : Z := foldr Z.min h t.
Definition Zlist_max (h : Z) (t : list Z) : Z := foldr Z.max h t.
Definition Qlist_min (h : Q) (t : list Q) : Q := foldr Qmin h t.
Definition Qlist_max (h : Q) (t : list Q) : Q := foldr Qmax h t.

(** [_external_degree_in_window] *)
Definition external_degree_in_window (G : Graph) (node : string)
    (cycle_nodes_set : gset string) (ts_min ts_max : Z) : nat :=
  let in_window e := bool_decide (ts_min <= e_ts e <= ts_max)%Z in
  let count u v :=
    length (filter (fun e => in_window e = true) (get_edges_between G u v)) in
  (sum_list (map (fun pred =>
                    if bool_decide (pred ∈ cycle_nodes_set) then 0%nat
                    else count pred node) (predecessors G node))
   + sum_list (map (fun succ =>
                      if bool_decide (succ ∈ cycle_nodes_set) then 0%nat
                      else count node succ) (successors G node)))%nat.

Record CycleResult := mkCycle {
  cr_nodes : list string;
  cr_edges : list Edge;
  cr_total_amount : Q
}.

(** Constraint 1: the chosen edges lie within 72 hours. *)
Definition temporal_ok (ts_min ts_max : Z) : bool :=
  negb (HOURS_72 <? ts_max - ts_min)%Z.

(** Constraint 2: every amount within 15% of the mean. The quotient is
    exact here and a double in the code: the two agree on whole amounts
    with a whole mean (up to [2^53]) that deviate by at most 15%, while
    the code rejects 0.85 and 1.15 around their mean 1.0, whose quotient
    it computes as 0.15000000000000002. *)
Definition variance_ok (mean_amount : Q) (amounts : list Q) : bool :=
  forallb (fun a => Qleb (Qabs (a - mean_amount) / mean_amount) (15 # 100))
          amounts.

(** Constraint 3: [min/max >= 0.70]. *)
Definition flow_ratio (lo hi : Q) : Q :=
  if Qltb 0 hi then (lo / hi)%Q else 0%Q.
Definition flow_ok (lo hi : Q) : bool :=
  negb (Qltb (flow_ratio lo hi) (70 # 100)).

(** Constraint 4: external degree of every cycle node within the limit. *)
Definition external_ok (G : Graph) (ext_limit : Z) (cycle_path : list string)
    (ts_min ts_max : Z) : bool :=
  forallb (fun node =>
             negb (ext_limit <?
                   Z.of_nat (external_degree_in_window G node
                               (list_to_set cycle_path) ts_min ts_max))%Z)
          cycle_path.

(** [_check_cycle_constraints]. On an empty selection Python's [min]
    raises; [_validate_cycle_edges] only passes one edge per hop of a
    path of at least three nodes. *)
Definition check_cycle_constraints (G : Graph) (ext_limit : Z)
    (cycle_path : list string) (edges : list Edge) : option CycleResult :=
  match edges with
  | [] => None
  | e0 :: rest =>
      let timestamps := map e_ts rest in
      let amounts := map e_amount edges in
      let ts_min := Zlist_min (e_ts e0) timestamps in
      let ts_max := Zlist_max (e_ts e0) timestamps in
      if negb (temporal_ok ts_min ts_max) then None
      else
        let mean_amount := (Qsum amounts / inject_Z (Z.of_nat (length amounts)))%Q in
        if Qeq_bool mean_amount 0 then None
        else if negb (variance_ok mean_amount amounts) then None
        else if negb (flow_ok (Qlist_min (e_amount e0) (map e_amount rest))
                              (Qlist_max (e_amount e0) (map e_amount rest)))
        then None
        else if negb (external_ok G ext_limit cycle_path ts_min ts_max) then None
        else Some {| cr_nodes := cycle_path; cr_edges := edges;
                     cr_total_amount := Qsum amounts |}
  end.

Definition edge_ts_leb (x y : Edge) : bool := (e_ts x <=? e_ts y)%Z.

(** [_recurse]: the first selection, in timestamp order per hop, that
    satisfies the constraints. *)
Fixpoint recurse {R} (check : list Edge -> option R)
    (edge_lists : list (list Edge)) (chosen : list Edge) : option R :=
  match edge_lists with
  | [] => check chosen
  | edges :: rest =>
      foldr (fun edge later =>
               match recurse check rest (chosen ++ [edge]) with
               | Some r => Some r
               | None => later
               end) None edges
  end.

(** The hops [(path[i], path[(i+1) % n])]. *)
Definition hops (cycle_path : list string) : list (string * string) :=
  match cycle_path with
  | [] => []
  | h :: t => zip cycle_path (t ++ [h])
  end.

Definition validate_cycle_edges (G : Graph) (ext_limit : Z)
    (cycle_path : list string) : option CycleResult :=
  let edge_lists :=
    map (fun '(u, v) => stable_sort edge_ts_leb (get_edges_between G u v))
        (hops cycle_path) in
  if existsb (fun l => match l with [] => true | _ => false end) edge_lists
  then None
  else recurse (check_cycle_constraints G ext_limit cycle_path) edge_lists [].

End Cycles.

(** ** Shell networks: chain walking and hardening ([detect_shells]) *)

Module Shells.

Definition MAX_SHELL_RINGS : nat := 50.

Definition HOURS_48 : Z := 48 * Cycles.NS_PER_HOUR.

Definition adaptive_shell_degree (st : Engine) : Z :=
  Z.max 4 (py_int (median_degree st + (5 # 10) * degree_std st)).

(** Edge data into and out of a node, grouped by neighbour as the loops
    over [predecessors] and [successors] collect them. *)
Definition edges_in (G : Graph) (node : string) : list Edge :=
  flat_map (fun pred => get_edges_between G pred node) (predecessors G node).
Definition edges_out (G : Graph) (node : string) : list Edge :=
  flat_map (fun succ => get_edges_between G node succ) (successors G node).

(** Amount forwarded within 48 hours: every inbound edge is paired with
    the first outbound edge that follows it in time. *)
Definition passed_amount (ins outs : list Edge) : Q :=
  Qsum (map (fun ie =>
               match List.find
                       (fun oe => (e_ts ie <=? e_ts oe)%Z
                                  && (e_ts oe - e_ts ie <=? HOURS_48)%Z) outs with
               | Some oe => Qmin (e_amount ie) (e_amount oe)
               | None => 0%Q
               end) ins).

Definition is_shell_candidate (st : Engine) (G : Graph) (node : string)
  : bool :=
  let deg := Z.of_nat (total_degree G node) in
  if (deg <? 2)%Z || (adaptive_shell_degree st <? deg)%Z then false
  else
    let ins := edges_in G node in
    let outs := edges_out G node in
    match ins, outs with
    | [], _ | _, [] => false
    | _, _ =>
        let total_in := Qsum (map e_amount ins) in
        let passed := passed_amount ins outs in
        let passes_temporal :=
          Qltb 0 total_in && Qleb (70 # 100) (passed / total_in) in
        let total_out := Qsum (map e_amount outs) in
        let passes_simple :=
          Qltb 0 total_in && Qleb (50 # 100) (total_out / total_in) in
        if negb passes_temporal
           && negb (Qltb 8 (median_degree st) && passes_simple)
        then false
        else
          existsb
            (fun pred =>
               existsb
                 (fun succ =>
                    negb (String.eqb pred succ)
                    && negb (String.eqb pred node)
                    && negb (String.eqb succ node))
                 (successors G node))
            (predecessors G node)
    end.

Definition shell_candidates (st : Engine) (G : Graph) : gset string :=
  list_to_set (filter (fun n => is_shell_candidate st G n = true) (nodes G)).

(** [new_path[1:-1]] *)
Definition interior (l : list string) : list string := removelast (tail l).

Definition walk_state : Type :=
  list (string * list string) * list (list string) * nat.

(** Body of [for neighbor in self.G.successors(current)]. The stack is a
    list whose head is the entry [stack.pop()] takes next. *)
Definition expand (shell_candidates : gset string) (min_intermediaries : nat)
    (path : list string) (acc : walk_state) (neighbor : string) : walk_state :=
  let '(stack, results, paths_found) := acc in
  if bool_decide (neighbor ∈ path) then acc
  else
    let new_path := path ++ [neighbor] in
    if bool_decide (neighbor ∈ shell_candidates)
    then ((neighbor, new_path) :: stack, results, paths_found)
    else
      let intermediaries :=
        filter (fun n => n ∈ shell_candidates) (interior new_path) in
      if bool_decide (min_intermediaries <= length intermediaries)%nat
      then (stack, results ++ [new_path], S paths_found)
      else acc.

(** The [while stack] loop of [_find_shell_chains]; [fuel] bounds the
    number of pops. *)
Fixpoint shell_loop (fuel : nat) (G : Graph) (shell_candidates : gset string)
    (min_intermediaries : nat) (stack : list (string * list string))
    (results : list (list string)) (paths_found : nat)
  : list (list string) :=
  match fuel with
  | O => results
  | S fuel' =>
      match stack with
      | [] => results
      | (current, path) :: stack' =>
          if bool_decide (50 <= paths_found)%nat then results
          else if bool_decide (4 <= length path)%nat
          then shell_loop fuel' G shell_candidates min_intermediaries
                          stack' results paths_found
          else
            let '(stack'', results', paths_found') :=
              fold_left (expand shell_candidates min_intermediaries path)
                        (successors G current) (stack', results, paths_found) in
            shell_loop fuel' G shell_candidates min_intermediaries
                       stack'' results' paths_found'
      end
  end.

Definition find_shell_chains (fuel : nat) (G : Graph)
    (shell_candidates : gset string) (min_intermediaries : nat)
    (start : string) (results : list (list string)) : list (list string) :=
  shell_loop fuel G shell_candidates min_intermediaries
             [(start, [start])] results 0.

(** [visited_chains] after the loop over the non-candidate nodes. *)
Definition chain_walk (fuel : nat) (G : Graph) (shell_candidates : gset string)
    (min_intermediaries : nat) : list (list string) :=
  fold_left
    (fun results node =>
       if bool_decide (node ∈ shell_candidates) then results
       else find_shell_chains fuel G shell_candidates min_intermediaries
                              node results)
    (nodes G) [].

(** Directed-successor counting over the member set. *)
Definition internal_edges (G : Graph) (member_set : gset string) : nat :=
  sum_list (map (fun m => length (filter (fun s => s ∈ member_set)
                                         (successors G m)))
                (elements member_set)).
Definition external_edges (G : Graph) (member_set : gset string) : nat :=
  sum_list (map (fun m => length (filter (fun s => s ∉ member_set)
                                         (successors G m)))
                (elements member_set)).


(** Rule 4 as written: [internal_edges > 0 and
    external_edges > internal_edges * 0.5]. *)
Definition rule4_rejects (internal external : nat) : bool :=
  bool_decide (0 < internal)%nat
  && Qltb (Qnat internal * (5 # 10)) (Qnat external).

Definition total_in_amt (G : Graph) (member_set : gset string) : Q :=
  Qsum (flat_map (fun m =>
          flat_map (fun pred => map e_amount (get_edges_between G pred m))
                   (predecessors G m)) (elements member_set)).
Definition total_out_amt (G : Graph) (member_set : gset string) : Q :=
  Qsum (flat_map (fun m =>
          flat_map (fun succ => map e_amount (get_edges_between G m succ))
                   (successors G m)) (elements member_set)).

(** Outcome of one iteration of the hardening loop: the chain is passed
    over before the rules ([Skipped]), stopped by a rule ([Rejected n]),
    or becomes a candidate ring. *)
Inductive verdict :=
  | Skipped
  | Rejected (rule : nat)
  | Accepted (c : Candidate).

Definition shell_confidence (internal external size : nat) : Q :=
  let confidence := (5 # 10)%Q in
  let confidence :=
    if bool_decide (0 < internal)%nat
       && Qleb (Qnat external) (Qnat internal * (2 # 10))
    then (confidence + (1 # 10))%Q else confidence in
  let max_possible := (size * (size - 1))%nat in
  let confidence :=
    if bool_decide (0 < max_possible)%nat
       && Qleb (3 # 10) (Qnat internal / Qnat max_possible)
    then (confidence + (1 # 10))%Q else confidence in
  (confidence - Qnat size * (2 # 100))%Q.

Definition judge_chain (G : Graph) (immune : gset string)
    (seen : list (gset string)) (chain : list string) : verdict :=
  let non_immune_chain := filter (fun a => a ∉ immune) chain in
  if bool_decide (length non_immune_chain < 3)%nat then Skipped
  else
    let key : gset string := list_to_set non_immune_chain in
    if bool_decide (key ∈ seen) then Skipped
    else
      let member_set := key in
      let members := elements member_set in
      if bool_decide (12 < size member_set)%nat then Rejected 1
      else
        let total_deg := sum_list (map (total_degree G) members) in
        if Qltb 4 (Qnat total_deg / Qnat (size member_set)) then Rejected 2
        else
          let max_deg := foldr Nat.max 0%nat (map (total_degree G) members) in
          if bool_decide (8 < max_deg)%nat then Rejected 3
          else
            let internal := internal_edges G member_set in
            let external := external_edges G member_set in
            if rule4_rejects internal external then Rejected 4
            else
              let tin := total_in_amt G member_set in
              let tout := total_out_amt G member_set in
              let total_amt := (tin + tout)%Q in
              if Qltb 0 total_amt
                 && Qltb (3 # 10) (Qabs (tin - tout) / total_amt)
              then Rejected 5
              else
                Accepted
                  {| c_members := PyStr.sorted_list non_immune_chain;
                     c_pattern_type := "shell_network";
                     c_risk_score :=
                       round1 (Qmin 100 (55 + Qnat (length chain) * 5));
                     c_confidence_score :=
                       Qmax (1 # 10)
                            (Qmin 1 (shell_confidence internal external
                                       (size member_set)));
                     c_core_account := None |}.

Record harden_state := mkHarden {
  hs_seen : list (gset string);
  hs_ring_count : nat;
  hs_rings : list Candidate;
  hs_patterns : gmap string (gset string)
}.

(** One iteration over [visited_chains]; once [MAX_SHELL_RINGS] rings
    were emitted the loop has left and nothing changes. *)
Definition harden_step (G : Graph) (immune : gset string)
    (hs : harden_state) (chain : list string) : harden_state :=
  if bool_decide (MAX_SHELL_RINGS <= hs_ring_count hs)%nat then hs
  else
    match judge_chain G immune (hs_seen hs) chain with
    | Accepted c =>
        {| hs_seen :=
             hs_seen hs ++ [list_to_set (filter (fun a => a ∉ immune) chain)];
           hs_ring_count := S (hs_ring_count hs);
           hs_rings := hs_rings hs ++ [c];
           hs_patterns :=
             fold_left (fun ap acc => add_pattern acc "shell_account" ap)
                       chain (hs_patterns hs) |}
    | _ => hs
    end.

(** The second half of [detect_shells], from the shell candidates on. *)
Definition harden_chains (fuel : nat) (st : Engine)
    (shell_candidates : gset string) : Engine :=
  match eng_G st with
  | None => st
  | Some G =>
      if bool_decide (shell_candidates = ∅) then st
      else
        let min_intermediaries :=
          if Qltb 8 (median_degree st) then 2%nat else 1%nat in
        let visited_chains :=
          chain_walk fuel G shell_candidates min_intermediaries in
        let hs :=
          fold_left (harden_step G (immune_accounts st)) visited_chains
            {| hs_seen := []; hs_ring_count := 0;
               hs_rings := candidate_rings st;
               hs_patterns := account_patterns st |} in
        set_candidate_rings (hs_rings hs)
          (set_account_patterns (hs_patterns hs) st)
  end.

(** [detect_shells]; [fuel] bounds the pops of each chain walk. *)
Definition detect_shells (fuel : nat) (st : Engine) : Engine :=
  match eng_G st, eng_df st with
  | Some G, Some _ => harden_chains fuel st (shell_candidates st G)
  | _, _ => st
  end.

End Shells.

(** ** Smurfing: soft scoring of the candidates ([_score_smurf_candidates]) *)

Module Smurf.

Definition MAX_SMURF_RING_SIZE : nat := 15.

Record STxn := mkSTxn { s_ts : Z; s_amt : Q; s_peer : string }.

Record SmurfCand := mkSmurf {
  sc_hub : string;
  sc_in_txns : list STxn;
  sc_out_txns : list STxn
}.

Definition NS_PER_SEC : Z := 1000000000.
Definition HOURS_72 : Z := Cycles.HOURS_72.
Definition HOURS_24 : Z := 24 * Cycles.NS_PER_HOUR.
Definition UNIQUE_IN_THRESHOLD : nat := 5.

Definition stxn_leb (x y : STxn) : bool := (s_ts x <=? s_ts y)%Z.

Definition inbound (G : Graph) (node : string) : list STxn :=
  stable_sort stxn_leb
    (flat_map (fun pred =>
                 map (fun e => mkSTxn (e_ts e) (e_amount e) pred)
                     (get_edges_between G pred node))
              (predecessors G node)).
Definition outbound (G : Graph) (node : string) : list STxn :=
  stable_sort stxn_leb
    (flat_map (fun succ =>
                 map (fun e => mkSTxn (e_ts e) (e_amount e) succ)
                     (get_edges_between G node succ))
              (successors G node)).

(** [while right < n and in_txns[right]["ts"] <= w_end: right += 1] *)
Fixpoint advance (in_txns : list STxn) (w_end : Z) (hi : nat)
    (steps : nat) : nat :=
  match steps with
  | O => hi
  | S steps' =>
      match in_txns !! hi with
      | Some e =>
          if (s_ts e <=? w_end)%Z then advance in_txns w_end (S hi) steps'
          else hi
      | None => hi
      end
  end.

(** The loop [for left in range(n)] with its pointer [right]: the first
    window with enough distinct senders. *)
Fixpoint first_window (hub : string) (in_txns out_txns : list STxn)
    (los : list nat) (hi : nat) : option SmurfCand :=
  match los with
  | [] => None
  | lo :: rest =>
      match in_txns !! lo with
      | None => None
      | Some first =>
          let w_start := s_ts first in
          let w_end := (w_start + HOURS_72)%Z in
          let hi := advance in_txns w_end hi (length in_txns) in
          let window_in_txns := take (hi - lo) (drop lo in_txns) in
          let unique_in :=
            size (list_to_set (map s_peer window_in_txns) : gset string) in
          if bool_decide (UNIQUE_IN_THRESHOLD <= unique_in)%nat
          then
            Some {| sc_hub := hub;
                    sc_in_txns := window_in_txns;
                    sc_out_txns :=
                      filter (fun e => (w_start <= s_ts e)%Z
                                       /\ (s_ts e <= w_end + HOURS_24)%Z)
                             out_txns |}
          else first_window hub in_txns out_txns rest hi
      end
  end.

(** [_extract_smurf_candidates] *)
Definition extract_smurf_candidates (G : Graph) : list SmurfCand :=
  omap (fun node =>
          let in_txns := inbound G node in
          if bool_decide (length in_txns < UNIQUE_IN_THRESHOLD)%nat then None
          else first_window node in_txns (outbound G node)
                            (seq 0 (length in_txns)) 0)
       (nodes G).

Definition peers (l : list STxn) : gset string := list_to_set (map s_peer l).

Definition incoming_sum (c : SmurfCand) : Q := Qsum (map s_amt (sc_in_txns c)).
Definition outgoing_sum (c : SmurfCand) : Q := Qsum (map s_amt (sc_out_txns c)).

(** Factor 1 *)
Definition flow_score (c : SmurfCand) : Q :=
  let retention :=
    if Qltb 0 (incoming_sum c) then (outgoing_sum c / incoming_sum c)%Q
    else 0%Q in
  if Qleb (6 # 10) retention then 1%Q
  else if Qleb (4 # 10) retention then (5 # 10)%Q
  else 0%Q.

(** Factor 2 *)
Definition conc_score (c : SmurfCand) : Q :=
  let unique_out := size (peers (sc_out_txns c)) in
  if bool_decide (unique_out <= 3)%nat then 1%Q
  else if bool_decide (unique_out <= 5)%nat then (5 # 10)%Q
  else 0%Q.

(** Hold time of one inbound event, in nanoseconds. *)
Definition hold_of (out_txns : list STxn) (ie : STxn) : option Z :=
  match List.find (fun oe => (s_ts ie <=? s_ts oe)%Z) out_txns with
  | Some oe => Some (s_ts oe - s_ts ie)%Z
  | None => None
  end.

(** [statistics.median] of a non-empty list. *)
Definition median (data : list Z) : Q :=
  let sorted := merge_sort Z.le data in
  let n := length sorted in
  if Nat.even n
  then ((inject_Z (nth (n / 2 - 1) sorted 0%Z)
         + inject_Z (nth (n / 2) sorted 0%Z)) / 2)%Q
  else inject_Z (nth (n / 2) sorted 0%Z).

(** Factor 3 *)
Definition hold_score (c : SmurfCand) : Q :=
  let hold_times := omap (hold_of (sc_out_txns c)) (sc_in_txns c) in
  match hold_times with
  | [] => (3 # 10)%Q
  | _ =>
      let median_hold := median hold_times in
      if Qltb median_hold (inject_Z (24 * 3600 * NS_PER_SEC)) then 1%Q
      else if Qltb median_hold (inject_Z (48 * 3600 * NS_PER_SEC))
      then (5 # 10)%Q
      else 0%Q
  end.

(** [_coefficient_of_variation(values) <= c] for a bound [c >= 0]. The
    coefficient is [sqrt(variance) / mean]; with a positive mean the
    comparison is the one of the squares, with a negative mean the
    coefficient is not positive. *)
Definition cv_le (values : list Q) (c : Q) : bool :=
  if bool_decide (length values < 2)%nat then Qleb 0 c
  else
    let n := Qnat (length values) in
    let mean_val := (Qsum values / n)%Q in
    if Qeq_bool mean_val 0 then Qleb 0 c
    else
      let variance :=
        (Qsum (map (fun v => (v - mean_val) * (v - mean_val)) values) / n)%Q in
      if Qltb 0 mean_val
      then Qleb variance ((c * mean_val) * (c * mean_val))
      else true.

(** Factor 4 *)
Definition cv_score (c : SmurfCand) : Q :=
  let in_amounts := map s_amt (sc_in_txns c) in
  if cv_le in_amounts (35 # 100) then 1%Q
  else if cv_le in_amounts (5 # 10) then (5 # 10)%Q
  else 0%Q.

Definition inbound_accounts (immune : gset string) (c : SmurfCand)
  : gset string := peers (sc_in_txns c) ∖ immune.
Definition outbound_accounts (immune : gset string) (c : SmurfCand)
  : gset string := peers (sc_out_txns c) ∖ immune.
Definition hub_set (immune : gset string) (c : SmurfCand) : gset string :=
  if bool_decide (sc_hub c ∈ immune) then ∅ else {[sc_hub c]}.

(** The member set before the cap. *)
Definition full_members (immune : gset string) (c : SmurfCand) : gset string :=
  hub_set immune c ∪ inbound_accounts immune c ∪ outbound_accounts immune c.

(** The cap: hub, then sorted inbound, then sorted outbound. *)
Definition capped_members (immune : gset string) (c : SmurfCand)
  : gset string :=
  let keep := hub_set immune c in
  let remaining_budget := (MAX_SMURF_RING_SIZE - size keep)%nat in
  let keep : gset string :=
    keep ∪ list_to_set (take remaining_budget
                          (PyStr.sorted_set (inbound_accounts immune c))) in
  let remaining_budget := (MAX_SMURF_RING_SIZE - size keep)%nat in
  keep ∪ list_to_set (take remaining_budget
                        (PyStr.sorted_set (outbound_accounts immune c))).

Definition all_members_set (immune : gset string) (c : SmurfCand)
  : gset string :=
  if bool_decide (MAX_SMURF_RING_SIZE < size (full_members immune c))%nat
  then capped_members immune c
  else full_members immune c.

Definition all_members (immune : gset string) (c : SmurfCand) : list string :=
  PyStr.sorted_set (all_members_set immune c).

(** Factor 5 *)
Definition size_score (ring_size : nat) : Q :=
  if bool_decide (5 <= ring_size)%nat then 1%Q
  else if bool_decide (4 <= ring_size)%nat then (8 # 10)%Q
  else if bool_decide (3 <= ring_size)%nat then (4 # 10)%Q
  else 0%Q.

Definition combined_score (immune : gset string) (c : SmurfCand) : Q :=
  (flow_score c + conc_score c + hold_score c + cv_score c
   + size_score (length (all_members immune c)))%Q.

Definition smurf_confidence (G : Graph) (combined : Q) (members : list string)
  : Q :=
  let ring_size := length members in
  let confidence := (7 # 10)%Q in
  let confidence := (confidence + (combined - 4) / 5 * (2 # 10))%Q in
  let member_set : gset string := list_to_set members in
  let int_count := Shells.internal_edges G member_set in
  let ext_count := Shells.external_edges G member_set in
  let confidence :=
    if bool_decide (0 < int_count)%nat && bool_decide (ext_count <= int_count)%nat
    then (confidence + (5 # 100))%Q else confidence in
  let confidence :=
    if bool_decide (15 < ring_size)%nat then (confidence - (1 # 10))%Q
    else confidence in
  (confidence - Qnat ring_size * (5 # 1000))%Q.

(** The candidate ring of one smurf candidate, or [None] where the loop
    body reaches a [continue]. *)
Definition score_candidate (G : Graph) (immune : gset string)
    (seen_ring_keys : list (list string)) (c : SmurfCand) : option Candidate :=
  match sc_in_txns c with
  | [] => None
  | _ :: _ =>
      if Qleb (incoming_sum c) 0 then None
      else
        let members := all_members immune c in
        let ring_size := length members in
        let combined := combined_score immune c in
        if Qltb combined 4 then None
        else if bool_decide (ring_size < 4)%nat then None
        else if bool_decide (members ∈ seen_ring_keys) then None
        else
          let ring_risk :=
            Qmin 100 (40 + combined / 5 * 40 + Qnat ring_size * 2) in
          Some {| c_members := members;
                  c_pattern_type := "smurfing";
                  c_risk_score := round1 ring_risk;
                  c_confidence_score :=
                    Qmax (1 # 10) (Qmin 1 (smurf_confidence G combined members));
                  c_core_account := Some (sc_hub c) |}
  end.

(** Labels of the members of an emitted ring. *)
Definition label_member (immune : gset string) (c : SmurfCand)
    (ap : gmap string (gset string)) (acc : string)
  : gmap string (gset string) :=
  if bool_decide (acc = sc_hub c)
  then add_pattern acc "fan_in" (add_pattern acc "smurfing" ap)
  else if bool_decide (acc ∈ inbound_accounts immune c)
  then add_pattern acc "fan_in" ap
  else add_pattern acc "fan_out" ap.

Record score_state := mkScoreState {
  ss_seen : list (list string);
  ss_rings : list Candidate;
  ss_patterns : gmap string (gset string)
}.

Definition score_step (G : Graph) (immune : gset string)
    (ss : score_state) (c : SmurfCand) : score_state :=
  match score_candidate G immune (ss_seen ss) c with
  | None => ss
  | Some ring =>
      {| ss_seen := ss_seen ss ++ [c_members ring];
         ss_rings := ss_rings ss ++ [ring];
         ss_patterns :=
           fold_left (label_member immune c) (c_members ring) (ss_patterns ss) |}
  end.

Definition score_smurf_candidates (G : Graph) (st : Engine)
    (smurf_candidates : list SmurfCand) : Engine :=
  let ss :=
    fold_left (score_step G (immune_accounts st)) smurf_candidates
      {| ss_seen := []; ss_rings := candidate_rings st;
         ss_patterns := account_patterns st |} in
  set_candidate_rings (ss_rings ss) (set_account_patterns (ss_patterns ss) st).

End Smurf.

(** ** Ring consolidation ([_smurf_consolidation], [_arbitrate_rings]) *)

Module Rings.


(** [_jaccard_similarity(a, b) > 0.6] *)
Definition jaccard_similarity (a b : gset string) : Q :=
  if bool_decide (a = ∅) && bool_decide (b = ∅) then 1%Q
  else
    let union := size (a ∪ b) in
    if bool_decide (0 < union)%nat then (Qnat (size (a ∩ b)) / Qnat union)%Q
    else 0%Q.

(** *** Union-find on indices, as the closures [find] and [union] *)

(** [while parent[x] != x: parent[x] = parent[parent[x]]; x = parent[x]] *)
Fixpoint find (fuel : nat) (parent : list nat) (x : nat) : list nat * nat :=
  match fuel with
  | O => (parent, x)
  | S fuel' =>
      let px := nth x parent x in
      if Nat.eqb px x then (parent, x)
      else
        let parent' := <[x := nth px parent px]> parent in
        find fuel' parent' (nth x parent' x)
  end.

Definition uf_find (parent : list nat) (x : nat) : list nat * nat :=
  find (S (length parent)) parent x.

Definition union (parent : list nat) (a b : nat) : list nat :=
  let '(parent, ra) := uf_find parent a in
  let '(parent, rb) := uf_find parent b in
  if Nat.eqb ra rb then parent else <[rb := ra]> parent.

(** Insertion-ordered [defaultdict(list)] keyed by a number. *)
Fixpoint group_append (k i : nat) (d : list (nat * list nat))
  : list (nat * list nat) :=
  match d with
  | [] => [(k, [i])]
  | (k', l) :: t =>
      if Nat.eqb k k' then (k', l ++ [i]) :: t else (k', l) :: group_append k i t
  end.

Definition index_pairs (n : nat) : list (nat * nat) :=
  flat_map (fun i => map (fun j => (i, j)) (seq (S i) (n - S i))) (seq 0 n).

Definition merge_group (core : string) (group : list Candidate)
  : list Candidate :=
  match group with
  | [c] => [c]
  | _ =>
      let n := length group in
      let sets : list (gset string) :=
        map (fun g => list_to_set (c_members g)) group in
      let parent :=
        fold_left
          (fun parent '(i, j) =>
             if Qltb (6 # 10)
                     (jaccard_similarity (nth i sets ∅) (nth j sets ∅))
             then union parent i j else parent)
          (index_pairs n) (seq 0 n) in
      let '(_, uf_groups) :=
        fold_left
          (fun '(parent, groups) i =>
             let '(parent, r) := uf_find parent i in
             (parent, group_append r i groups))
          (seq 0 n) (parent, []) in
      map (fun '(_, indices) =>
             let picked := omap (fun idx => group !! idx) indices in
             let merged_members : gset string :=
               ⋃ (map (fun g => list_to_set (c_members g)) picked) in
             let best_confidence :=
               fold_left (fun b g => Qmax b (c_confidence_score g)) picked 0%Q in
             let best_risk :=
               fold_left (fun b g => Qmax b (c_risk_score g)) picked 0%Q in
             {| c_members := PyStr.sorted_set merged_members;
                c_pattern_type := "smurfing";
                c_risk_score := round1 best_risk;
                c_confidence_score := best_confidence;
                c_core_account := Some core |})
          uf_groups
  end.

(** Insertion-ordered [defaultdict(list)] keyed by the core account. *)
Fixpoint core_append (k : string) (c : Candidate)
    (d : list (string * list Candidate)) : list (string * list Candidate) :=
  match d with
  | [] => [(k, [c])]
  | (k', l) :: t =>
      if String.eqb k k' then (k', l ++ [c]) :: t
      else (k', l) :: core_append k c t
  end.

Definition is_smurf (c : Candidate) : bool :=
  String.eqb (c_pattern_type c) "smurfing".

Definition smurf_consolidation (candidates : list Candidate)
  : list Candidate :=
  let non_smurf := filter (fun c => is_smurf c = false) candidates in
  let smurf := filter (fun c => is_smurf c = true) candidates in
  match smurf with
  | [] => candidates
  | _ =>
      let core_groups :=
        fold_left
          (fun d s => core_append (default "unknown" (c_core_account s)) s d)
          smurf [] in
      non_smurf ++ flat_map (fun '(core, group) => merge_group core group)
                            core_groups
  end.

(** *** Global arbitration *)

Definition TYPE_PRIORITY : list (string * nat) :=
  [("cycle", 0%nat); ("smurfing", 1%nat); ("shell_network", 2%nat)].

Definition priority (c : Candidate) : nat :=
  default 99%nat (dict_get (c_pattern_type c) TYPE_PRIORITY).

(** Order of the key [(-confidence_score, priority)]. *)
Definition cand_leb (x y : Candidate) : bool :=
  Qltb (c_confidence_score y) (c_confidence_score x)
  || (Qeq_bool (c_confidence_score x) (c_confidence_score y)
      && (priority x <=? priority y)%nat).

Record arb_state := mkArb {
  final_rings : list FraudRing;
  used_nodes : gset string;
  node_to_ring_idx : gmap string nat
}.

(** [ring_overlap_counts[k] += 1] on an insertion-ordered dictionary. *)
Fixpoint count_incr (k : nat) (d : list (nat * nat)) : list (nat * nat) :=
  match d with
  | [] => [(k, 1%nat)]
  | (k', v) :: t =>
      if Nat.eqb k k' then (k', S v) :: t else (k', v) :: count_incr k t
  end.

(** [max(d, key=d.get)]: the first key with the largest count. *)
Definition best_key (d : list (nat * nat)) : option nat :=
  match d with
  | [] => None
  | (k0, v0) :: t =>
      Some (fst (fold_left
                   (fun '(bk, bv) '(k, v) =>
                      if (bv <? v)%nat then (k, v) else (bk, bv))
                   t (k0, v0)))
  end.

Definition is_cycle (ty : string) : bool := String.eqb ty "cycle".

Definition claim (idx : nat) (s : arb_state) (node : string) : arb_state :=
  {| final_rings := final_rings s;
     used_nodes := used_nodes s ∪ {[node]};
     node_to_ring_idx := <[node := idx]> (node_to_ring_idx s) |}.

(** The branch [overlap_ratio > 0.6]. A set is iterated in the order of
    [elements]. *)
Definition merge_into (s : arb_state) (cand : Candidate)
    (members overlap : gset string) : arb_state :=
  let ring_overlap_counts :=
    fold_left
      (fun d node =>
         match node_to_ring_idx s !! node with
         | Some i => count_incr i d
         | None => d
         end)
      (elements overlap) [] in
  match best_key ring_overlap_counts with
  | None => s
  | Some best_ring_idx =>
      match final_rings s !! best_ring_idx with
      | None => s
      | Some target_ring =>
          let current_members : gset string :=
            list_to_set (member_accounts target_ring) in
          let new_nodes := members ∖ current_members in
          let new_nodes : gset string :=
            if is_cycle (pattern_type target_ring) then new_nodes
            else
              let budget := (15 - size current_members)%nat in
              list_to_set (take budget (PyStr.sorted_set new_nodes)) in
          let target_ring' :=
            {| ring_id := ring_id target_ring;
               member_accounts :=
                 PyStr.sorted_set (current_members ∪ new_nodes);
               pattern_type := pattern_type target_ring;
               risk_score :=
                 Qmax (risk_score target_ring) (c_risk_score cand) |} in
          fold_left (claim best_ring_idx) (elements new_nodes)
            {| final_rings := <[best_ring_idx := target_ring']> (final_rings s);
               used_nodes := used_nodes s;
               node_to_ring_idx := node_to_ring_idx s |}
      end
  end.

(** The branch that accepts the candidate as a new ring. *)
Definition accept (s : arb_state) (cand : Candidate) (members : gset string)
  : arb_state :=
  let ring_members := PyStr.sorted_set members in
  let ring_members :=
    if negb (is_cycle (c_pattern_type cand))
       && bool_decide (15 < length ring_members)%nat
    then take 15 ring_members else ring_members in
  if bool_decide (length ring_members < 3)%nat then s
  else
    let ring_idx := length (final_rings s) in
    fold_left (claim ring_idx) ring_members
      {| final_rings :=
           final_rings s ++
             [{| ring_id := ""; member_accounts := ring_members;
                 pattern_type := c_pattern_type cand;
                 risk_score := round1 (c_risk_score cand) |}];
         used_nodes := used_nodes s;
         node_to_ring_idx := node_to_ring_idx s |}.

Definition arbitrate_step (s : arb_state) (cand : Candidate) : arb_state :=
  let members : gset string := list_to_set (c_members cand) in
  let overlap := members ∩ used_nodes s in
  let overlap_ratio :=
    if bool_decide (members = ∅) then 0%Q
    else (Qnat (size overlap) / Qnat (size members))%Q in
  if Qltb (6 # 10) overlap_ratio then merge_into s cand members overlap
  else accept s cand members.

(** Order of the key [(-risk_score, pattern_type)]. *)
Definition ring_leb (x y : FraudRing) : bool :=
  Qltb (risk_score y) (risk_score x)
  || (Qeq_bool (risk_score x) (risk_score y)
      && String.leb (pattern_type x) (pattern_type y)).

(** [f"{n:03d}"] *)
Definition pad3 (n : nat) : string :=
  let digits := NilEmpty.string_of_uint (Nat.to_uint n) in
  match String.length digits with
  | 0%nat => "000"
  | 1%nat => "00" ++ digits
  | 2%nat => "0" ++ digits
  | _ => digits
  end.

Definition assign_ids (rings : list FraudRing) : list FraudRing :=
  imap (fun idx ring =>
          {| ring_id := "RING_" ++ pad3 (idx + 1);
             member_accounts := member_accounts ring;
             pattern_type := pattern_type ring;
             risk_score := risk_score ring |}) rings.

Definition arbitrate_rings (candidates : list Candidate) : list FraudRing :=
  match candidates with
  | [] => []
  | _ =>
      let sorted_cands := stable_sort cand_leb candidates in
      let s :=
        fold_left arbitrate_step sorted_cands
          {| final_rings := []; used_nodes := ∅; node_to_ring_idx := ∅ |} in
      assign_ids (stable_sort ring_leb (final_rings s))
  end.

(** [_consolidate_rings] *)
Definition consolidate_rings (st : Engine) : Engine :=
  match candidate_rings st with
  | [] => st
  | _ =>
      let cands := smurf_consolidation (candidate_rings st) in
      set_fraud_rings (arbitrate_rings cands) (set_candidate_rings cands st)
  end.

End Rings.

(** ** Cycle detection ([detect_cycles], [UnionFind]) *)

Module CycleDetection.

Definition MAX_RING_SIZE : nat := 30.
Definition MAX_CYCLES : nat := 2000.
Definition MAX_DEPTH : nat := 5.
Definition MAX_OPS_PER_NODE : nat := 5000.

Fixpoint index_of (x : string) (l : list string) : nat :=
  match l with
  | [] => 0
  | y :: t => if String.eqb x y then 0 else S (index_of x t)
  end.

(** [_canonicalize_cycle]: rotation that starts at the least node. *)
Definition canonicalize_cycle (path : list string) : list string :=
  match path with
  | [] => []
  | h :: t =>
      let least := foldl (fun m a => if String.ltb a m then a else m) h t in
      let min_idx := index_of least path in
      drop min_idx path ++ take min_idx path
  end.

Definition max_cycle_degree (st : Engine) : Z :=
  Z.max 20 (py_int (median_degree st + 2 * degree_std st)).

Definition eligible (st : Engine) (G : Graph) : gset string :=
  list_to_set
    (filter (fun n => (2 <= total_degree G n)%nat
                      /\ (Z.of_nat (total_degree G n) <= max_cycle_degree st)%Z)
            (nodes G)).

(** [adjacency.get(u, [])]: sorted eligible successors other than [u];
    [u] is a key of the dictionary when the list is not empty. *)
Definition adjacency (G : Graph) (elig : gset string) (u : string)
  : list string :=
  if bool_decide (u ∈ elig)
  then PyStr.sorted_set
         (list_to_set
            (filter (fun v => v ∈ elig /\ u <> v) (map e_dst (out_edges G u))))
  else [].

Definition dfs_entry : Type := string * list string * gset string.
Definition dfs_state : Type :=
  list dfs_entry * list Cycles.CycleResult * list (list string).

(** Body of [for neighbor in adjacency.get(current, [])]. *)
Definition visit_neighbor (G : Graph) (ext_limit : Z) (start : string)
    (path : list string) (visited : gset string) (acc : dfs_state)
    (neighbor : string) : dfs_state :=
  let '(stack, found_cycles, seen_canonical) := acc in
  if String.eqb neighbor start && bool_decide (3 <= length path)%nat
  then
    let canonical := canonicalize_cycle path in
    if bool_decide (canonical ∈ seen_canonical) then acc
    else
      match Cycles.validate_cycle_edges G ext_limit path with
      | Some result =>
          (stack, found_cycles ++ [result], seen_canonical ++ [canonical])
      | None => acc
      end
  else if bool_decide (neighbor ∈ visited) then acc
  else if bool_decide (MAX_DEPTH <= length path)%nat then acc
  else ((neighbor, path ++ [neighbor], visited ∪ {[neighbor]}) :: stack,
        found_cycles, seen_canonical).

(** The [while stack] loop; [ops] counts up to [MAX_OPS_PER_NODE], so
    the budget is the recursion measure. *)
Fixpoint dfs_loop (budget : nat) (G : Graph) (ext_limit : Z)
    (elig : gset string) (start : string) (stack : list dfs_entry)
    (found_cycles : list Cycles.CycleResult)
    (seen_canonical : list (list string))
  : list Cycles.CycleResult * list (list string) :=
  match budget with
  | O => (found_cycles, seen_canonical)
  | S budget' =>
      match stack with
      | [] => (found_cycles, seen_canonical)
      | (current, path, visited) :: stack' =>
          if bool_decide (MAX_DEPTH < length path)%nat
          then dfs_loop budget' G ext_limit elig start stack'
                        found_cycles seen_canonical
          else
            let '(stack'', found', seen') :=
              fold_left (visit_neighbor G ext_limit start path visited)
                        (adjacency G elig current)
                        (stack', found_cycles, seen_canonical) in
            dfs_loop budget' G ext_limit elig start stack'' found' seen'
      end
  end.

Definition find_cycles (st : Engine) (G : Graph) : list Cycles.CycleResult :=
  let elig := eligible st G in
  fst (fold_left
         (fun '(found_cycles, seen_canonical) start =>
            match adjacency G elig start with
            | [] => (found_cycles, seen_canonical)
            | _ =>
                if bool_decide (MAX_CYCLES <= length found_cycles)%nat
                then (found_cycles, seen_canonical)
                else dfs_loop MAX_OPS_PER_NODE G
                              (adaptive_ext_degree_limit st) elig start
                              [(start, [start], {[start]})]
                              found_cycles seen_canonical
            end)
         (PyStr.sorted_set elig) ([], [])).

(** *** [UnionFind] *)

Record UF := mkUF {
  uf_parent : list (string * string);
  uf_rank : list (string * nat)
}.

Definition uf_touch (uf : UF) (x : string) : UF :=
  match dict_get x (uf_parent uf) with
  | Some _ => uf
  | None => {| uf_parent := dict_set x x (uf_parent uf);
               uf_rank := dict_set x 0%nat (uf_rank uf) |}
  end.

(** [find], with path compression; [fuel] bounds the recursion depth. *)
Fixpoint find (fuel : nat) (uf : UF) (x : string) : UF * string :=
  let uf := uf_touch uf x in
  let px := default x (dict_get x (uf_parent uf)) in
  if String.eqb px x then (uf, px)
  else
    match fuel with
    | O => (uf, px)
    | S fuel' =>
        let '(uf', r) := find fuel' uf px in
        ({| uf_parent := dict_set x r (uf_parent uf');
            uf_rank := uf_rank uf' |}, r)
    end.

Definition uf_find (uf : UF) (x : string) : UF * string :=
  find (S (length (uf_parent uf))) uf x.

Definition rank_of (uf : UF) (x : string) : nat :=
  default 0%nat (dict_get x (uf_rank uf)).

Definition union (uf : UF) (a b : string) : UF :=
  let '(uf, ra) := uf_find uf a in
  let '(uf, rb) := uf_find uf b in
  if String.eqb ra rb then uf
  else
    let '(ra, rb) :=
      if (rank_of uf ra <? rank_of uf rb)%nat then (rb, ra) else (ra, rb) in
    let uf := {| uf_parent := dict_set rb ra (uf_parent uf);
                 uf_rank := uf_rank uf |} in
    if (rank_of uf ra =? rank_of uf rb)%nat
    then {| uf_parent := uf_parent uf;
            uf_rank := dict_set ra (S (rank_of uf ra)) (uf_rank uf) |}
    else uf.

Fixpoint cluster_append (k x : string) (d : list (string * list string))
  : list (string * list string) :=
  match d with
  | [] => [(k, [x])]
  | (k', l) :: t =>
      if String.eqb k k' then (k', l ++ [x]) :: t
      else (k', l) :: cluster_append k x t
  end.

(** [groups] *)
Definition groups (uf : UF) : list (string * list string) :=
  snd (fold_left
         (fun '(uf, clusters) node =>
            let '(uf, r) := uf_find uf node in
            (uf, cluster_append r node clusters))
         (map fst (uf_parent uf)) (uf, [])).

(** The size-bounded merge of one cycle. *)
Definition merge_cycle (acc : UF * list (string * nat))
    (cyc : Cycles.CycleResult) : UF * list (string * nat) :=
  let '(uf, group_sizes) := acc in
  let cyc_nodes := Cycles.cr_nodes cyc in
  let '(uf, roots) :=
    fold_left (fun '(uf, roots) node =>
                 let '(uf, root) := uf_find uf node in
                 (uf, roots ∪ {[root]}))
              cyc_nodes (uf, (∅ : gset string)) in
  let merged_size :=
    sum_list (map (fun r => default 1%nat (dict_get r group_sizes))
                  (elements roots)) in
  if bool_decide (MAX_RING_SIZE < merged_size)%nat then (uf, group_sizes)
  else
    match cyc_nodes with
    | [] => (uf, group_sizes)
    | anchor :: rest =>
        let uf := fold_left (fun uf node => union uf anchor node) rest uf in
        let '(uf, new_root) := uf_find uf anchor in
        (uf, dict_set new_root merged_size group_sizes)
    end.

(** [account_cycle_lengths[node]] *)
Definition cycle_lengths (found_cycles : list Cycles.CycleResult)
    (node : string) : gset nat :=
  list_to_set
    (map (fun cyc => length (Cycles.cr_nodes cyc))
         (filter (fun cyc => node ∈ Cycles.cr_nodes cyc) found_cycles)).

(** [f"cycle_length_{length}"] *)
Definition cycle_label (n : nat) : string :=
  "cycle_length_" ++ NilEmpty.string_of_uint (Nat.to_uint n).

Definition tag_member (found_cycles : list Cycles.CycleResult)
    (ap : gmap string (gset string)) (m : string)
  : gmap string (gset string) :=
  fold_left (fun ap len => add_pattern m (cycle_label len) ap)
            (elements (cycle_lengths found_cycles m)) ap.

Definition cycle_candidate (G : Graph)
    (found_cycles : list Cycles.CycleResult)
    (non_immune_members : list string) : Candidate :=
  let all_lengths : gset nat :=
    ⋃ (map (cycle_lengths found_cycles) non_immune_members) in
  let shortest :=
    match elements all_lengths with
    | [] => None
    | l :: rest => Some (foldr Nat.min l rest)
    end in
  let confidence := (9 # 10)%Q in
  let confidence :=
    if bool_decide (shortest = Some 3%nat) then (confidence + (5 # 100))%Q
    else confidence in
  let cycle_set : gset string := list_to_set non_immune_members in
  let total_ext :=
    sum_list
      (map (fun m =>
              (length (filter (fun s => s ∉ cycle_set) (successors G m))
               + length (filter (fun s => s ∉ cycle_set) (predecessors G m)))%nat)
           non_immune_members) in
  let avg_ext :=
    (Qnat total_ext / Qnat (Nat.max (length non_immune_members) 1))%Q in
  let confidence :=
    if Qleb avg_ext 2 then (confidence + (5 # 100))%Q else confidence in
  let base_risk := 50%Q in
  let base_risk :=
    match shortest with
    | Some l => (base_risk + inject_Z ((5 - Z.of_nat l) * 10))%Q
    | None => base_risk
    end in
  let base_risk :=
    (base_risk + Qmin 30 (Qnat (length non_immune_members * 2)))%Q in
  let risk := Qmin 100 base_risk in
  {| c_members := PyStr.sorted_list non_immune_members;
     c_pattern_type := "cycle";
     c_risk_score := round1 risk;
     c_confidence_score := Qmin 1 confidence;
     c_core_account := None |}.

Definition root_leb (x y : string * list string) : bool :=
  String.leb (fst x) (fst y).

Definition detect_cycles (st : Engine) : Engine :=
  match eng_G st with
  | None => st
  | Some G =>
      let found_cycles := find_cycles st G in
      match found_cycles with
      | [] => st
      | _ =>
          let '(uf, _) :=
            fold_left merge_cycle found_cycles
                      ({| uf_parent := []; uf_rank := [] |}, []) in
          let merged_groups := stable_sort root_leb (groups uf) in
          let '(ap, rings) :=
            fold_left
              (fun '(ap, rings) '(_, members) =>
                 let non_immune_members :=
                   filter (fun m => m ∉ immune_accounts st) members in
                 let ap := fold_left (tag_member found_cycles) members ap in
                 if bool_decide (length non_immune_members < 3)%nat
                 then (ap, rings)
                 else (ap, rings ++ [cycle_candidate G found_cycles
                                       non_immune_members]))
              merged_groups (account_patterns st, candidate_rings st) in
          set_candidate_rings rings (set_account_patterns ap st)
      end
  end.

End CycleDetection.

(** ** Business immunity ([_detect_business_immunity]) *)

Module Immunity.

(** Amount and peer of the transfers into and out of a node. *)
Definition in_txns (G : Graph) (node : string) : list (Q * string) :=
  flat_map (fun pred => map (fun e => (e_amount e, pred))
                            (get_edges_between G pred node))
           (predecessors G node).
Definition out_txns (G : Graph) (node : string) : list (Q * string) :=
  flat_map (fun succ => map (fun e => (e_amount e, succ))
                            (get_edges_between G node succ))
           (successors G node).

(** [sender_volumes[peer] += amt] *)
Definition sender_volumes (txns : list (Q * string)) : list (string * Q) :=
  fold_left (fun d '(amt, peer) =>
               dict_set peer (default 0%Q (dict_get peer d) + amt)%Q d)
            txns [].

Definition merchant_signature (txns_in : list (Q * string))
    (in_sum out_sum : Q) (out_count : nat) : bool :=
  let unique_senders : gset string := list_to_set (map snd txns_in) in
  bool_decide (10 <= size unique_senders)%nat
  && (bool_decide (out_count <= 2)%nat
      || (Qltb 0 in_sum && Qltb (out_sum / in_sum) (5 # 100))).

(** The immunity type of a node, if any: payroll is tried first. *)
Definition classify (G : Graph) (node : string) : option string :=
  let txns_in := in_txns G node in
  let txns_out := out_txns G node in
  let in_sum := Qsum (map fst txns_in) in
  let out_sum := Qsum (map fst txns_out) in
  let in_count := length txns_in in
  let out_count := length txns_out in
  let merchant :=
    if merchant_signature txns_in in_sum out_sum out_count
    then Some "merchant" else None in
  if bool_decide (4 <= in_count)%nat && Qltb 0 in_sum
  then
    let max_sender_vol :=
      match map snd (sender_volumes txns_in) with
      | [] => 0%Q
      | v :: rest => foldr Qmax v rest
      end in
    let dominant_ratio := (max_sender_vol / in_sum)%Q in
    let no_redistribution :=
      bool_decide (out_count <= 3)%nat
      || (Qltb 0 in_sum && Qltb (out_sum / in_sum) (1 # 10)) in
    if Qltb (7 # 10) dominant_ratio && no_redistribution
    then Some "payroll" else merchant
  else merchant.

Definition detect_business_immunity (st : Engine) : Engine :=
  match eng_G st, eng_df st with
  | Some G, Some _ =>
      fold_left
        (fun st node =>
           match classify G node with
           | Some kind =>
               set_account_patterns
                 (add_pattern node kind (account_patterns st))
                 (set_immune_accounts (immune_accounts st ∪ {[node]}) st)
           | None => st
           end)
        (nodes G) st
  | _, _ => st
  end.

End Immunity.

(** ** The orchestrator ([run_all]), from the immune cleanup on *)

Module Pipeline.

Definition HIERARCHY : list (gset string) :=
  [list_to_set ["cycle_length_3"; "cycle_length_4"; "cycle_length_5"];
   {["shell_account"]};
   list_to_set ["smurfing"; "fan_in"; "fan_out"];
   {["structuring"]};
   list_to_set ["high_velocity"; "high_velocity_24h"];
   {["low_variance"]}].

Definition KEEP_ALWAYS : gset string :=
  list_to_set ["isolation_cluster"; "payroll"; "merchant"].

(** The first hierarchy class the account has a label in. *)
Fixpoint first_group (patterns : gset string) (groups : list (gset string))
  : gset string :=
  match groups with
  | [] => ∅
  | group :: rest =>
      if bool_decide (patterns ∩ group ≠ ∅) then patterns ∩ group
      else first_group patterns rest
  end.

Definition keep_patterns (patterns : gset string) : gset string :=
  (patterns ∩ KEEP_ALWAYS) ∪ first_group patterns HIERARCHY.

(** [_apply_pattern_hierarchy] *)
Definition apply_pattern_hierarchy (st : Engine) : Engine :=
  set_account_patterns (keep_patterns <$> account_patterns st) st.

Definition immune_keep : gset string := list_to_set ["payroll"; "merchant"].

(** Stage 1.5, first loop: strip the labels of the immune accounts. *)
Definition strip_immune (immune : gset string)
    (ap : gmap string (gset string)) : gmap string (gset string) :=
  fold_left (fun ap acc => <[acc := patterns_of ap acc ∩ immune_keep]> ap)
            (elements immune) ap.

(** Stage 1.5, second loop: drop the immune members of the candidates. *)
Definition clean_candidates (immune : gset string) (cands : list Candidate)
  : list Candidate :=
  omap (fun cand =>
          let clean_members := filter (fun m => m ∉ immune) (c_members cand) in
          if bool_decide (3 <= length clean_members)%nat
          then Some {| c_members := PyStr.sorted_list clean_members;
                       c_pattern_type := c_pattern_type cand;
                       c_risk_score := c_risk_score cand;
                       c_confidence_score := c_confidence_score cand;
                       c_core_account := c_core_account cand |}
          else None)
       cands.

Definition immune_cleanup (st : Engine) : Engine :=
  set_candidate_rings
    (clean_candidates (immune_accounts st) (candidate_rings st))
    (set_account_patterns
       (strip_immune (immune_accounts st) (account_patterns st)) st).

(** The detectors of [run_all] that emit candidate rings, in their
    order. [detect_velocity] and [detect_structuring], which run in
    between, add labels and fill the velocity and hub sets; they leave
    the candidate rings and the immune accounts as they are. *)
Definition ring_detectors (fuel : nat) (st : Engine) : Engine :=
  let st := Immunity.detect_business_immunity st in
  let st := CycleDetection.detect_cycles st in
  let st := Shells.detect_shells fuel st in
  match eng_G st with
  | Some G =>
      Smurf.score_smurf_candidates G st (Smurf.extract_smurf_candidates G)
  | None => st
  end.

(** Stages 1.5 to 3: cleanup, consolidation, pattern hierarchy. *)
Definition before_scoring (st : Engine) : Engine :=
  apply_pattern_hierarchy (Rings.consolidate_rings (immune_cleanup st)).

Section WithAnomaly.
Variable anomaly_bonus : nat -> Q.

(** [run_all] after the detection stages: the argument is the engine
    as [_detect_business_immunity] and the detectors left it. *)
Definition finish_run (st : Engine) : Engine :=
  Scoring.calculate_suspicion_scores anomaly_bonus (before_scoring st).

Definition run_all_after_detection (st : Engine) : Report :=
  Json.generate_json (finish_run st).
End WithAnomaly.

End Pipeline.

(** ** Further setters of the engine state *)

Definition set_velocity_accounts (s : gset string) (st : Engine) : Engine :=
  {| eng_df := eng_df st; eng_G := eng_G st;
     account_patterns := account_patterns st;
     fraud_rings := fraud_rings st; suspicion_scores := suspicion_scores st;
     velocity_accounts := s;
     velocity_24h_accounts := velocity_24h_accounts st;
     high_degree_hubs := high_degree_hubs st;
     immune_accounts := immune_accounts st;
     explanations := explanations st;
     candidate_rings := candidate_rings st;
     median_degree := median_degree st;
     degree_std := degree_std st;
     adaptive_ext_degree_limit := adaptive_ext_degree_limit st |}.

Definition set_velocity_24h_accounts (s : gset string) (st : Engine)
  : Engine :=
  {| eng_df := eng_df st; eng_G := eng_G st;
     account_patterns := account_patterns st;
     fraud_rings := fraud_rings st; suspicion_scores := suspicion_scores st;
     velocity_accounts := velocity_accounts st;
     velocity_24h_accounts := s;
     high_degree_hubs := high_degree_hubs st;
     immune_accounts := immune_accounts st;
     explanations := explanations st;
     candidate_rings := candidate_rings st;
     median_degree := median_degree st;
     degree_std := degree_std st;
     adaptive_ext_degree_limit := adaptive_ext_degree_limit st |}.

Definition set_high_degree_hubs (s : gset string) (st : Engine) : Engine :=
  {| eng_df := eng_df st; eng_G := eng_G st;
     account_patterns := account_patterns st;
     fraud_rings := fraud_rings st; suspicion_scores := suspicion_scores st;
     velocity_accounts := velocity_accounts st;
     velocity_24h_accounts := velocity_24h_accounts st;
     high_degree_hubs := s;
     immune_accounts := immune_accounts st;
     explanations := explanations st;
     candidate_rings := candidate_rings st;
     median_degree := median_degree st;
     degree_std := degree_std st;
     adaptive_ext_degree_limit := adaptive_ext_degree_limit st |}.

(** The accounts of a table in the order of their first appearance,
    the sender of a row before its receiver. *)
Definition accounts (df : list Txn) : list string :=
  uniq (flat_map (fun t => [sender_id t; receiver_id t]) df).

(** [account_amounts[acc]] and [account_timestamps[acc]]: one entry per
    row and side the account takes part in. *)
Definition sides {A} (f : Txn -> A) (df : list Txn) (acc : string) : list A :=
  flat_map (fun t =>
              (if bool_decide (sender_id t = acc) then [f t] else [])
              ++ (if bool_decide (receiver_id t = acc) then [f t] else []))
           df.
Definition account_amounts (df : list Txn) (acc : string) : list Q :=
  sides amount df acc.
Definition account_timestamps (df : list Txn) (acc : string) : list Z :=
  sides timestamp df acc.

(** [_coefficient_of_variation(values) < c] for a bound [c > 0]. The
    coefficient is [sqrt(variance) / mean]: 0 for fewer than two values
    or a mean of 0, compared through the squares for a positive mean,
    and not positive for a negative mean. The arithmetic is exact; the
    doubles of the code agree with it where the sum, the mean and the
    deviations are exact (whole amounts whose sum is at most [2^53]),
    round elsewhere, and give no label once the sum leaves the range of
    a double. *)
Definition cv_lt (values : list Q) (c : Q) : bool :=
  if bool_decide (length values < 2)%nat then Qltb 0 c
  else
    let n := Qnat (length values) in
    let mean_val := (Qsum values / n)%Q in
    if Qeq_bool mean_val 0 then Qltb 0 c
    else
      let variance :=
        (Qsum (map (fun v => (v - mean_val) * (v - mean_val)) values) / n)%Q in
      if Qltb 0 mean_val
      then Qltb variance ((c * mean_val) * (c * mean_val))
      else true.

(** ** Velocity, low variance and commercial hubs ([detect_velocity]) *)

Module Velocity.

Inductive direction := Out | In.

#[global] Instance direction_eq_dec : EqDecision direction.
Proof. solve_decision. Defined.

Record Event := mkEvent { ev_ts : Z; ev_dir : direction }.

Definition ONE_HOUR : Z := Cycles.NS_PER_HOUR.
Definition HOURS_24 : Z := 24 * Cycles.NS_PER_HOUR.

Definition ev_leb (x y : Event) : bool := (ev_ts x <=? ev_ts y)%Z.

(** The group of one account in [events]: the sender rows, then the
    receiver rows, sorted by timestamp. The sort on the two columns is
    stable, so of two events at the same instant an outbound one comes
    first. *)
Definition events (df : list Txn) (acc : string) : list Event :=
  stable_sort ev_leb
    (map (fun t => mkEvent (timestamp t) Out)
         (filter (fun t => sender_id t = acc) df)
     ++ map (fun t => mkEvent (timestamp t) In)
            (filter (fun t => receiver_id t = acc) df)).

(** [np.where(dirs == d)[0]] *)
Definition indices_of (d : direction) (evs : list Event) : list nat :=
  map fst (filter (fun ie => ev_dir ie.2 = d) (imap pair evs)).

(** [while out_ptr < len(out_indices) and out_indices[out_ptr] <= in_idx] *)
Fixpoint skip_out (out_indices : list nat) (in_idx out_ptr steps : nat)
  : nat :=
  match steps with
  | O => out_ptr
  | S steps' =>
      match out_indices !! out_ptr with
      | Some o =>
          if (o <=? in_idx)%nat
          then skip_out out_indices in_idx (S out_ptr) steps'
          else out_ptr
      | None => out_ptr
      end
  end.

(** Tier 1, the loop over [in_indices]: an inbound event followed within
    one hour by the next outbound event. *)
Fixpoint tier1_loop (ts : list Z) (out_indices in_indices : list nat)
    (out_ptr : nat) : bool :=
  match in_indices with
  | [] => false
  | in_idx :: rest =>
      let in_ts := default 0%Z (ts !! in_idx) in
      let out_ptr :=
        skip_out out_indices in_idx out_ptr (length out_indices) in
      match out_indices !! out_ptr with
      | None => false
      | Some o =>
          let out_ts := default 0%Z (ts !! o) in
          if (out_ts - in_ts <=? ONE_HOUR)%Z then true
          else tier1_loop ts out_indices rest out_ptr
      end
  end.

Definition tier1 (evs : list Event) : bool :=
  let in_indices := indices_of In evs in
  let out_indices := indices_of Out evs in
  match in_indices, out_indices with
  | _ :: _, _ :: _ => tier1_loop (map ev_ts evs) out_indices in_indices 0
  | _, _ => false
  end.

(** [np.searchsorted(ts, v, side="right")] on the sorted array [ts]:
    the number of entries that are at most [v]. *)
Definition searchsorted_right (ts : list Z) (v : Z) : nat :=
  length (filter (fun t => (t <= v)%Z) ts).

(** Tier 2: five events within 24 hours of one of them. *)
Definition tier2 (ts : list Z) : bool :=
  bool_decide (5 <= length ts)%nat
  && existsb (fun '(i, t) =>
                bool_decide
                  (5 <= searchsorted_right ts (t + HOURS_24) - i)%nat)
             (imap pair ts).

(** One iteration of [for acc, grp in events.groupby("account")]. *)
Definition velocity_step (df : list Txn) (st : Engine) (acc : string)
  : Engine :=
  let evs := events df acc in
  let st :=
    if tier1 evs
    then set_account_patterns
           (add_pattern acc "high_velocity" (account_patterns st))
           (set_velocity_accounts (velocity_accounts st ∪ {[acc]}) st)
    else st in
  if tier2 (map ev_ts evs)
  then set_account_patterns
         (add_pattern acc "high_velocity_24h" (account_patterns st))
         (set_velocity_24h_accounts (velocity_24h_accounts st ∪ {[acc]}) st)
  else st.

(** One iteration of the low-variance loop. The set
    [_low_variance_accounts] it also fills is read nowhere. *)
Definition low_variance_step (df : list Txn) (st : Engine) (acc : string)
  : Engine :=
  let amounts := account_amounts df acc in
  if bool_decide (length amounts < 2)%nat then st
  else if cv_lt amounts (2 # 10)
  then set_account_patterns
         (add_pattern acc "low_variance" (account_patterns st)) st
  else st.

(** [Timedelta.total_seconds()], exact to the nanosecond. *)
Definition total_seconds (ns : Z) : Q := (inject_Z ns / 1000000000)%Q.

(** [_dataset_time_span] as [_compute_dataset_stats] stored it for the
    table: the seconds between the first and the last timestamp. *)
Definition dataset_span (df : list Txn) : Q :=
  match map timestamp df with
  | [] => 0%Q
  | t :: ts =>
      total_seconds (Cycles.Zlist_max t ts - Cycles.Zlist_min t ts)
  end.

(** [gaps]: the seconds between consecutive sorted timestamps. *)
Definition gaps (ts_sorted : list Z) : list Q :=
  zip_with (fun a b => total_seconds (b - a)) ts_sorted (tail ts_sorted).

(** The conditions of the hub loop for one node. *)
Definition is_hub (df : list Txn) (G : Graph) (node : string) : bool :=
  let span := dataset_span df in
  if bool_decide (total_degree G node <= 50)%nat then false
  else
    match account_timestamps df node with
    | [] => false
    | t :: ts =>
        let activity_span :=
          total_seconds (Cycles.Zlist_max t ts - Cycles.Zlist_min t ts) in
        if Qltb activity_span ((70 # 100) * span) then false
        else
          let node_amounts := account_amounts df node in
          if bool_decide (length node_amounts < 2)%nat then false
          else if cv_lt node_amounts (5 # 10) then false
          else
            match gaps (merge_sort Z.le (t :: ts)) with
            | [] => true
            | g :: gs =>
                negb (Qltb ((25 # 100) * span) (Cycles.Qlist_max g gs))
            end
    end.

Definition hub_step (df : list Txn) (G : Graph) (st : Engine)
    (node : string) : Engine :=
  if is_hub df G node
  then set_high_degree_hubs (high_degree_hubs st ∪ {[node]}) st
  else st.

(** [detect_velocity]. The groups are visited in ascending account
    order, the accounts of the amount loop in the order of their first
    appearance in the table. [load_data] sets the table and the graph
    together, so the hub loop finds a graph whenever it is reached. *)
Definition detect_velocity (st : Engine) : Engine :=
  match eng_df st with
  | None | Some [] => st
  | Some df =>
      let st :=
        fold_left (velocity_step df) (PyStr.sorted_list (accounts df)) st in
      let st := fold_left (low_variance_step df) (accounts df) st in
      if Qltb 0 (dataset_span df)
      then
        match eng_G st with
        | Some G => fold_left (hub_step df G) (nodes G) st
        | None => st
        end
      else st
  end.

End Velocity.

(** ** Structuring ([detect_structuring]) *)

Module Structuring.

Definition BANDS : list (Q * Q) := [(8000%Q, 9999%Q); (4000%Q, 4999%Q)].
Definition MIN_HITS_PER_WINDOW : nat := 5.
Definition MIN_WINDOWS : nat := 2.
Definition WINDOW_48H : Z := 48 * Cycles.NS_PER_HOUR.

Definition in_band (amt : Q) : bool :=
  existsb (fun '(lo, hi) => Qleb lo amt && Qleb amt hi) BANDS.

(** [band_txns]: the timestamps of the account's transactions with an
    amount in one of the bands, in ascending order. Only timestamps
    are kept, so the order [sort_values] gives to rows of the same
    instant does not show. *)
Definition band_txns (df : list Txn) (acc : string) : list Z :=
  map timestamp
      (filter (fun t => in_band (amount t) = true)
              (stable_sort Ingest.ts_leb
                 (filter (fun t => sender_id t = acc \/ receiver_id t = acc)
                         df))).

(** [while right < n and band_txns[right] <= w_end: right += 1] *)
Fixpoint advance (band : list Z) (w_end : Z) (hi steps : nat) : nat :=
  match steps with
  | O => hi
  | S steps' =>
      match band !! hi with
      | Some t =>
          if (t <=? w_end)%Z then advance band w_end (S hi) steps' else hi
      | None => hi
      end
  end.

(** The loop [for left in range(n)] with its pointer [right] and the
    list of qualifying window starts. The distance to the previous
    start is compared in seconds, against a whole number of seconds. *)
Fixpoint windows (band : list Z) (los : list nat) (hi : nat)
    (qualifying_windows : list Z) : list Z :=
  match los with
  | [] => qualifying_windows
  | lo :: rest =>
      match band !! lo with
      | None => qualifying_windows
      | Some w_start =>
          let w_end := (w_start + WINDOW_48H)%Z in
          let hi := advance band w_end hi (length band) in
          let window_count := (hi - lo)%nat in
          let qualifying_windows :=
            if bool_decide (MIN_HITS_PER_WINDOW <= window_count)%nat
            then
              match last qualifying_windows with
              | None => qualifying_windows ++ [w_start]
              | Some prev =>
                  if Qleb (inject_Z (48 * 3600))
                          (Velocity.total_seconds (w_start - prev))
                  then qualifying_windows ++ [w_start]
                  else qualifying_windows
              end
            else qualifying_windows in
          windows band rest hi qualifying_windows
      end
  end.

Definition qualifying (band : list Z) : list Z :=
  windows band (seq 0 (length band)) 0 [].

Definition is_structuring (df : list Txn) (acc : string) : bool :=
  let band := band_txns df acc in
  if bool_decide (length band < MIN_HITS_PER_WINDOW)%nat then false
  else bool_decide (MIN_WINDOWS <= length (qualifying band))%nat.

Definition structuring_step (df : list Txn) (st : Engine) (acc : string)
  : Engine :=
  if is_structuring df acc
  then set_account_patterns
         (add_pattern acc "structuring" (account_patterns st)) st
  else st.

(** [detect_structuring]. The loop runs over a set of accounts; each
    iteration only adds a label to its own account, so the outcome does
    not depend on the order, taken here as the order of first
    appearance. *)
Definition detect_structuring (st : Engine) : Engine :=
  match eng_df st with
  | None | Some [] => st
  | Some df => fold_left (structuring_step df) (accounts df) st
  end.

End Structuring.

(** ** Graph for the front end ([get_graph_data]) *)

(** An entry of [nodes_list]: the label and the title repeat the id, the
    highlight colours are constants. *)

Record VisNode := mkVisNode {
  vn_id : string;
  vn_background : string;
  vn_border : string;
  vn_size : nat;
  vn_suspicion_score : Q;
  vn_detected_patterns : list string;
  vn_explanation : string;
  vn_ring_ids : list string
}.

Record VisEdge := mkVisEdge {
  ve_from : string;
  ve_to : string;
  ve_value : Q
}.

Module GraphData.

(** The three colour classes of a node. *)
Definition style (score : Q) : string * string * nat :=
  if Qltb 70 score then ("#E74C3C", "#C0392B", 30%nat)
  else if Qltb 30 score then ("#F39C12", "#E67E22", 22%nat)
  else ("#3498DB", "#2980B9", 16%nat).

Definition vis_node (st : Engine) (node : string) : VisNode :=
  let score := default 0%Q (dict_get node (suspicion_scores st)) in
  let '(color, border, size) := style score in
  {| vn_id := node;
     vn_background := color;
     vn_border := border;
     vn_size := size;
     vn_suspicion_score := score;
     vn_detected_patterns :=
       PyStr.sorted_set (patterns_of (account_patterns st) node);
     vn_explanation := default "" (explanations st !! node);
     vn_ring_ids :=
       map ring_id
           (filter (fun r => node ∈ member_accounts r) (fraud_rings st)) |}.

(** [G.edges(data=True)]: the edges by source node, then by successor,
    parallel edges in insertion order. *)
Definition edges_iter (G : Graph) : list Edge :=
  flat_map (fun u => flat_map (fun v => get_edges_between G u v)
                              (successors G u))
           (nodes G).

(** Insertion-ordered dictionary keyed by a pair of accounts. *)
Fixpoint pair_get (k : string * string) (d : list (string * string * Q))
  : option Q :=
  match d with
  | [] => None
  | (k', v) :: t =>
      if bool_decide (k = k') then Some v else pair_get k t
  end.

Fixpoint pair_set (k : string * string) (v : Q)
    (d : list (string * string * Q)) : list (string * string * Q) :=
  match d with
  | [] => [(k, v)]
  | (k', v') :: t =>
      if bool_decide (k = k') then (k', v) :: t else (k', v') :: pair_set k v t
  end.

(** [edge_map[key] = edge_map.get(key, 0) + float(amount)] *)
Definition edge_map (G : Graph) : list (string * string * Q) :=
  fold_left (fun d e =>
               let key := (e_src e, e_dst e) in
               pair_set key (default 0%Q (pair_get key d) + e_amount e)%Q d)
            (edges_iter G) [].

(** An entry of [edges_list]. The title, a formatting of the total, and
    the constant colour and arrow entries are left out. *)
Definition vis_edge (kv : string * string * Q) : VisEdge :=
  let '(u, v, total_amount) := kv in
  {| ve_from := u; ve_to := v;
     ve_value := Qmax 1 (Qmin 6 (total_amount / 1000)) |}.

Definition get_graph_data (st : Engine) : list VisNode * list VisEdge :=
  match eng_G st with
  | None => ([], [])
  | Some G => (map (vis_node st) (nodes G), map vis_edge (edge_map G))
  end.

End GraphData.

(** ** The whole of [run_all] *)

Module Run.

(** [_extract_smurf_candidates] followed by [_score_smurf_candidates]. *)
Definition smurf_stage (st : Engine) : Engine :=
  match eng_G st with
  | Some G =>
      Smurf.score_smurf_candidates G st (Smurf.extract_smurf_candidates G)
  | None => st
  end.

(** Stage 0 and stage 1: immunity and the six detectors, in the order
    of [run_all]. *)
Definition detectors (fuel : nat) (st : Engine) : Engine :=
  let st := Immunity.detect_business_immunity st in
  let st := CycleDetection.detect_cycles st in
  let st := Shells.detect_shells fuel st in
  let st := Velocity.detect_velocity st in
  let st := smurf_stage st in
  Structuring.detect_structuring st.

Section WithAnomaly.
Variable anomaly_bonus : nat -> Q.

(** [run_all] on a fresh engine: the detectors, then stages 1.5 to 4 and
    the report. *)
Definition run_all (fuel : nat) (st : Engine) : Report :=
  Pipeline.run_all_after_detection anomaly_bonus (detectors fuel st).
End WithAnomaly.

End Run.

(** ** Anomaly bonus ([calculate_suspicion_scores], feature extraction
       and normalisation) *)

Module Anomaly.

(** One row of [feature_df]: in-degree, out-degree, volume in and
    volume out of a node. *)
Record Features := mkFeatures {
  f_in_degree : nat;
  f_out_degree : nat;
  f_total_volume_in : Q;
  f_total_volume_out : Q
}.

Definition features (G : Graph) (n : string) : Features :=
  {| f_in_degree := in_degree G n;
     f_out_degree := out_degree G n;
     f_total_volume_in := Qsum (map e_amount (in_edges G n));
     f_total_volume_out := Qsum (map e_amount (out_edges G n)) |}.

(** [feature_df.values], one row per node in the order of [G.nodes()]. *)
Definition feature_rows (G : Graph) : list Features :=
  map (features G) (nodes G).

Section WithForest.
(** [IsolationForest(random_state=42).fit(X).decision_function]: the
    forest fitted to the rows [X] scores a row by the depths at which
    its trees isolate the values of the row, so it is a function of the
    rows it was fitted to and of the row it scores. *)
Variable decision_function : list Features -> Features -> Q.

Definition raw_scores (G : Graph) : list Q :=
  let X := feature_rows G in
  map (decision_function X) X.

(** [anomaly_bonus[idx]]: the raw scores scaled to [0, 1], the least
    raw score becoming 1, times 15; all zero when the raw scores are
    equal. *)
Definition anomaly_bonus (G : Graph) (idx : nat) : Q :=
  match raw_scores G with
  | [] => 0%Q
  | r :: rs =>
      let min_s := Cycles.Qlist_min r rs in
      let max_s := Cycles.Qlist_max r rs in
      let normalized :=
        if Qltb 0 (max_s - min_s)
        then ((max_s - default 0%Q ((r :: rs) !! idx)) / (max_s - min_s))%Q
        else 0%Q in
      (normalized * 15)%Q
  end.
End WithForest.

End Anomaly.

(** ** Concrete inputs *)

Module Examples.

Definition tx (a b : string) (amt : Q) (ts : Z) : Edge :=
  {| e_src := a; e_dst := b; e_txid := "t"; e_amount := amt; e_ts := ts |}.

Definition HOUR : Z := Cycles.NS_PER_HOUR.

(** A 4-cycle n1 -> p -> q -> r -> n1, a 5-cycle through [x] and, four
    days later, two transfers from [x] to [n1] and to [p]. Times are in
    hours, all amounts are 1000. *)
Definition iso_cycles : list Txn :=
  [mkTxn "T01" "n1" "p" 1000 (100 * HOUR);
   mkTxn "T02" "p" "q" 1000 (102 * HOUR);
   mkTxn "T03" "q" "r" 1000 (104 * HOUR);
   mkTxn "T04" "r" "n1" 1000 (106 * HOUR);
   mkTxn "T05" "x" "u1" 1000 (200 * HOUR);
   mkTxn "T06" "u1" "u2" 1000 (202 * HOUR);
   mkTxn "T07" "u2" "u3" 1000 (204 * HOUR);
   mkTxn "T08" "u3" "u4" 1000 (206 * HOUR);
   mkTxn "T09" "u4" "x" 1000 (208 * HOUR)].
Definition iso_table : list Txn :=
  iso_cycles
  ++ [mkTxn "T10" "x" "n1" 1000 (300 * HOUR);
      mkTxn "T11" "x" "p" 1000 (302 * HOUR)].
Definition iso_graph : Graph := map Ingest.edge_of iso_table.

(** The engine after [load_data]: degrees 3, 3, 2, 2, 4, 2, 2, 2, 2 with
    median 2 and deviation about 0.685, hence an external-degree limit
    of 3. *)
Definition loaded (table : list Txn) : Engine :=
  set_stats 2 (685 # 1000) 3
    (set_G (map Ingest.edge_of table) (set_df table engine_init)).

(** The engine as the detectors leave it: the outcome of the detectors
    that emit rings, and the label [low_variance] that [detect_velocity]
    gives to every account of these tables (all amounts are equal). No
    account sends within an hour of receiving and none has five events,
    so the velocity sets stay empty; no amount lies in a structuring
    band, so [detect_structuring] adds nothing. *)
Definition detected (fuel : nat) (table : list Txn) : Engine :=
  let st := Pipeline.ring_detectors fuel (loaded table) in
  set_account_patterns
    (fold_left (fun ap n => add_pattern n "low_variance" ap)
               (nodes (map Ingest.edge_of table)) (account_patterns st))
    st.

Definition iso_engine (fuel : nat) : Engine := detected fuel iso_table.

(** Anomaly bonus: 6 for [p] and [r], 2 for [x], 0 elsewhere. Node
    order of [iso_graph]: n1, p, q, r, x, u1, u2, u3, u4. *)
Definition iso_anomaly (idx : nat) : Q :=
  match idx with 1%nat => 6 | 3%nat => 6 | 4%nat => 2 | _ => 0 end.

(** As [iso_anomaly], with a bonus of 4.96 for [u2]. *)
Definition gate_anomaly (idx : nat) : Q :=
  match idx with 6%nat => 496 # 100 | _ => iso_anomaly idx end.

(** The engine at the start of the scoring stage, and at the end of the
    run. *)
Definition iso_before_scoring : Engine :=
  Pipeline.before_scoring (iso_engine 20).
Definition iso_final : Engine :=
  Pipeline.finish_run iso_anomaly (iso_engine 20).

(** Account [a] receives from [x1] and [x2], takes part in the cycle
    a -> b -> c -> a and, two hours after the cycle closes, starts the
    chain a -> d -> e. Times are in hours, all amounts are 1000. *)
Definition shared_table : list Txn :=
  [mkTxn "T1" "x1" "a" 1000 (0 * HOUR);
   mkTxn "T2" "x2" "a" 1000 (1 * HOUR);
   mkTxn "T3" "a" "b" 1000 (100 * HOUR);
   mkTxn "T4" "b" "c" 1000 (102 * HOUR);
   mkTxn "T5" "c" "a" 1000 (104 * HOUR);
   mkTxn "T6" "a" "d" 1000 (106 * HOUR);
   mkTxn "T7" "d" "e" 1000 (108 * HOUR)].
Definition shared_graph : Graph := map Ingest.edge_of shared_table.
(** The engine after [load_data]: the degrees are 1, 5, 1, 2, 2, 2, 1,
    with median 2 and deviation about 1.309, hence an external-degree
    limit of 3. *)
Definition shared_loaded : Engine :=
  set_stats 2 (1309 # 1000) 3
    (set_G shared_graph (set_df shared_table engine_init)).

(** A cycle over four accounts whose chosen edges span exactly 72 hours
    and whose amounts all deviate from the mean 100 by exactly 15%. *)
Definition boundary_cycle : list string := ["a"; "b"; "c"; "d"].
Definition boundary_graph : Graph :=
  [tx "a" "b" 85 0; tx "b" "c" 115 1; tx "c" "d" 85 2;
   tx "d" "a" 115 Cycles.HOURS_72].

(** A frame without the [amount] column, and a complete frame whose
    second row has an amount that does not parse. *)
Definition frame_missing : Ingest.DataFrame string :=
  Ingest.mkFrame string
    ["transaction_id"; "sender_id"; "receiver_id"; "timestamp"] [].
Definition frame_row (id s r a t : string) (col : string) : string :=
  if String.eqb col "transaction_id" then id
  else if String.eqb col "sender_id" then s
  else if String.eqb col "receiver_id" then r
  else if String.eqb col "amount" then a
  else t.
Definition frame_ok : Ingest.DataFrame string :=
  Ingest.mkFrame string Ingest.REQUIRED_COLUMNS
    [frame_row "T1" "A" "B" "10" "2"; frame_row "T2" "B" "C" "abc" "1"].
(** A stand-in for the parsers of pandas on these two frames. *)
Definition parse_amount (s : string) : option Q :=
  if String.eqb s "10" then Some 10%Q else None.
Definition parse_time (s : string) : option Z :=
  if String.eqb s "1" then Some 1%Z
  else if String.eqb s "2" then Some 2%Z else None.
Definition no_stat (_ : list Q) : Q := 1%Q.

(** A chain [s -> c1 -> e] through the shell candidate [c1]. The member
    set has two internal successor edges; [e] has one external successor
    in the first graph and two in the second. *)
Definition shell_graph_equal : Graph :=
  [tx "s" "c1" 100 0; tx "c1" "e" 100 1; tx "e" "y1" 100 2].
Definition shell_graph_over : Graph :=
  [tx "s" "c1" 100 0; tx "c1" "e" 100 1; tx "e" "y1" 50 2; tx "e" "y2" 50 3].
Definition shell_chain : list string := ["s"; "c1"; "e"].

(** A hub with five senders whose transfers all have amount 0 and one
    outbound transfer a nanosecond later; and the same hub with amounts
    of 100 and an outbound transfer of 400. *)
Definition smurf_zero : Smurf.SmurfCand :=
  {| Smurf.sc_hub := "H";
     Smurf.sc_in_txns :=
       map (fun p => Smurf.mkSTxn 0 0 p) ["s1"; "s2"; "s3"; "s4"; "s5"];
     Smurf.sc_out_txns := [Smurf.mkSTxn 1 0 "r1"] |}.
Definition smurf_paid : Smurf.SmurfCand :=
  {| Smurf.sc_hub := "H";
     Smurf.sc_in_txns :=
       map (fun p => Smurf.mkSTxn 0 100 p) ["s1"; "s2"; "s3"; "s4"; "s5"];
     Smurf.sc_out_txns := [Smurf.mkSTxn 1 400 "r1"] |}.
Definition smurf_graph : Graph :=
  [tx "s1" "H" 100 0; tx "s2" "H" 100 0; tx "s3" "H" 100 0;
   tx "s4" "H" 100 0; tx "s5" "H" 100 0; tx "H" "r1" 400 1].

(** Merchant [M] receives 1000 from each of fifteen senders, one per
    hour, and forwards once, into the 3-cycle M -> A -> B -> M; a second
    3-cycle A -> B -> C -> A shares the edge A -> B. The cycle transfers
    are two hours apart, four days later. *)
Definition merchant_senders : list string :=
  ["S01"; "S02"; "S03"; "S04"; "S05"; "S06"; "S07"; "S08"; "S09"; "S10";
   "S11"; "S12"; "S13"; "S14"; "S15"].
Definition merchant_table : list Txn :=
  imap (fun i s => mkTxn "t" s "M" 1000 (Z.of_nat i * HOUR)) merchant_senders
  ++ [mkTxn "t" "M" "A" 1000 (100 * HOUR); mkTxn "t" "A" "B" 1000 (102 * HOUR);
      mkTxn "t" "B" "M" 1000 (104 * HOUR); mkTxn "t" "B" "C" 1000 (106 * HOUR);
      mkTxn "t" "C" "A" 1000 (108 * HOUR)].
Definition merchant_graph : Graph := map Ingest.edge_of merchant_table.

(** The engine after [load_data]: median degree 1, degree deviation
    about 3.57, hence an external-degree limit of 6. *)
Definition merchant_loaded : Engine :=
  set_stats 1 (3567 # 1000) 6
    (set_G merchant_graph (set_df merchant_table engine_init)).

(** The engine as the detectors leave it. [M] is immune and tagged
    [merchant]; both cycles are validated and merged into one group, so
    all four accounts carry [cycle_length_3] and the candidate ring is
    over the non-immune members A, B, C (risk 50 + 20 + 6, confidence
    1.0). To the outcome of the immunity and cycle detectors the state
    adds what [detect_velocity] finds on this table: all amounts are
    equal, so the four accounts carry [low_variance]; [M] has fifteen
    events within a day and carries [high_velocity_24h]. The shell,
    smurfing and structuring detectors emit nothing here. *)
Definition merchant_engine : Engine :=
  {| eng_df := Some merchant_table; eng_G := Some merchant_graph;
     account_patterns :=
       list_to_map
         [("M", list_to_set ["merchant"; "cycle_length_3";
                             "high_velocity_24h"; "low_variance"]);
          ("A", list_to_set ["cycle_length_3"; "low_variance"]);
          ("B", list_to_set ["cycle_length_3"; "low_variance"]);
          ("C", list_to_set ["cycle_length_3"; "low_variance"])];
     fraud_rings := []; suspicion_scores := []; velocity_accounts := ∅;
     velocity_24h_accounts := {["M"]}; high_degree_hubs := ∅;
     immune_accounts := {["M"]}; explanations := ∅;
     candidate_rings :=
       [{| c_members := ["A"; "B"; "C"]; c_pattern_type := "cycle";
           c_risk_score := 760 # 10; c_confidence_score := 1;
           c_core_account := None |}];
     median_degree := 1; degree_std := 3567 # 1000;
     adaptive_ext_degree_limit := 6 |}.

(** Hub [H] with twelve senders and three receivers: sixteen members
    before the cap. *)
Definition smurf_wide : Smurf.SmurfCand :=
  {| Smurf.sc_hub := "H";
     Smurf.sc_in_txns :=
       map (fun p => Smurf.mkSTxn 0 500 p)
           ["s01"; "s02"; "s03"; "s04"; "s05"; "s06"; "s07"; "s08"; "s09";
            "s10"; "s11"; "s12"];
     Smurf.sc_out_txns :=
       map (fun p => Smurf.mkSTxn 1 1500 p) ["r1"; "r2"; "r3"] |}.

End Examples.

(** ** Concrete inputs for the velocity, structuring and graph stages *)

Module Cases.

Definition HOUR : Z := Cycles.NS_PER_HOUR.
Definition MINUTE : Z := 60 * 1000000000.

(** The engine with a table and its graph. *)
Definition with_table (table : list Txn) : Engine :=
  set_G (map Ingest.edge_of table) (set_df table engine_init).

(** Account [v] receives three times and sends twice within four
    hours; the first transfer it sends follows one it received by half
    an hour. *)
Definition busy_table : list Txn :=
  [mkTxn "B1" "a" "v" 100 0;
   mkTxn "B2" "v" "b" 100 (30 * MINUTE);
   mkTxn "B3" "c" "v" 250 (2 * HOUR);
   mkTxn "B4" "v" "d" 100 (3 * HOUR);
   mkTxn "B5" "e" "v" 100 (4 * HOUR)].
Definition busy_engine : Engine := with_table busy_table.

(** Account [s] receives five amounts just below 10000 within two days
    and, a week later, five more within two days. *)
Definition structured_table : list Txn :=
  [mkTxn "S01" "k1" "s" 9000 0;
   mkTxn "S02" "k2" "s" 9100 (5 * HOUR);
   mkTxn "S03" "k3" "s" 9200 (10 * HOUR);
   mkTxn "S04" "k4" "s" 9300 (15 * HOUR);
   mkTxn "S05" "k5" "s" 9400 (20 * HOUR);
   mkTxn "S06" "k1" "s" 9000 (168 * HOUR);
   mkTxn "S07" "k2" "s" 9100 (173 * HOUR);
   mkTxn "S08" "k3" "s" 9200 (178 * HOUR);
   mkTxn "S09" "k4" "s" 9300 (183 * HOUR);
   mkTxn "S10" "k5" "s" 9400 (188 * HOUR)].
Definition structured_engine : Engine := with_table structured_table.

(** Two parallel transfers from [a] to [b] and one back. *)
Definition parallel_table : list Txn :=
  [mkTxn "P1" "a" "b" 1500 0;
   mkTxn "P2" "b" "a" 200 HOUR;
   mkTxn "P3" "a" "b" 2500 (2 * HOUR)].
Definition parallel_engine : Engine := with_table parallel_table.

(** Four accounts pass 1000 round the cycle A -> B -> C -> D -> A, half
    an hour per hop: every account has one inbound and one outbound
    transfer of 1000, and [B], [C] and [D] send within the hour of
    receiving. *)
Definition relay_table : list Txn :=
  [mkTxn "R1" "A" "B" 1000 0;
   mkTxn "R2" "B" "C" 1000 (30 * MINUTE);
   mkTxn "R3" "C" "D" 1000 (60 * MINUTE);
   mkTxn "R4" "D" "A" 1000 (90 * MINUTE)].
Definition relay_graph : Graph := map Ingest.edge_of relay_table.
(** The engine after [load_data]: [np.median] and [np.std] of the
    degrees 2, 2, 2, 2 are 2 and 0. *)
Definition relay_loaded : Engine :=
  Ingest.compute_dataset_stats (fun _ => 2%Q) (fun _ => 0%Q)
    (with_table relay_table).

(** A 3-cycle whose amounts 70, 100 and 100 have a min/max ratio of
    exactly 0.70. *)
Definition ratio_cycle : list string := ["a"; "b"; "c"].
Definition ratio_graph : Graph :=
  [Examples.tx "a" "b" 70 0; Examples.tx "b" "c" 100 1;
   Examples.tx "c" "a" 100 2].

End Cases.

(** ** Predicates used in the statements *)

Module Specs.

(** Consecutive nodes of the list are joined by a successor edge. *)
Fixpoint is_path (G : Graph) (c : list string) : Prop :=
  match c with
  | a :: ((b :: _) as t) => b ∈ successors G a /\ is_path G t
  | _ => True
  end.

(** What chain walking emits: a successor path of at most four nodes. *)
Definition walked_chain (G : Graph) (c : list string) : Prop :=
  is_path G c /\ (length c <= 4)%nat.

(** A stack entry of the walk: a path that ends in its current node. *)
Definition walk_entry (G : Graph) (e : string * list string) : Prop :=
  is_path G (snd e) /\ last (snd e) = Some (fst e).

(** A stored score is either 0 or at least the flag threshold. *)
Definition zero_or_flagged (v : Q) : Prop := v = 0%Q \/ (25 <= v)%Q.

(** Ring ids appended for [acc] while building [account_rings]. *)
Definition ids_of (acc : string) (rings : list FraudRing) : list string :=
  flat_map (fun r => map (fun _ : string => ring_id r)
                         (filter (fun a => a = acc) (member_accounts r)))
           rings.

(** Invariant of the chain walk: stack and results hold paths only. *)
Definition walk_inv (G : Graph) (acc : Shells.walk_state) : Prop :=
  Forall (walk_entry G) acc.1.1 /\ Forall (walked_chain G) acc.1.2.

(** Account [M] is a member of no candidate, and of no ring. *)
Definition cands_avoid (M : string) (cs : list Candidate) : Prop :=
  Forall (fun c => M ∉ c_members c) cs.
Definition rings_avoid (M : string) (rs : list FraudRing) : Prop :=
  Forall (fun r => M ∉ member_accounts r) rs.
Definition arb_avoid (M : string) (s : Rings.arb_state) : Prop :=
  rings_avoid M (Rings.final_rings s).

End Specs.

(** ** Predicates used in the further properties *)

Module Props.

(** One edge of the graph for every hop of the path, in hop order. *)
Definition selection (G : Graph) (path : list string) (edges : list Edge)
  : Prop :=
  Forall2 (fun hop e => e ∈ get_edges_between G hop.1 hop.2)
          (Cycles.hops path) edges.

(** Shape of a ring of the final output: at least three members,
    sorted and without duplicates, and at most 15 of them unless the
    ring is a cycle ring. *)
Definition ring_ok (r : FraudRing) : Prop :=
  (3 <= length (member_accounts r))%nat
  /\ StronglySorted PyStr.le (member_accounts r)
  /\ NoDup (member_accounts r)
  /\ (pattern_type r <> "cycle" -> (length (member_accounts r) <= 15)%nat).

(** Order of the rings in the output: risk descending, then pattern
    type ascending. *)
Definition ring_before (x y : FraudRing) : Prop :=
  (risk_score y < risk_score x)%Q
  \/ ((risk_score x == risk_score y)%Q
      /\ PyStr.le (pattern_type x) (pattern_type y)).

(** A stack entry of the chain walk: a duplicate-free successor path
    from a start node through shell candidates to its current node. *)
Definition chain_entry (G : Graph) (cands : gset string)
    (e : string * list string) : Prop :=
  Specs.is_path G e.2 /\ NoDup e.2 /\ last e.2 = Some e.1
  /\ exists start mids, e.2 = start :: mids /\ Forall (fun n => n ∈ cands) mids.

(** A chain of the walk: a duplicate-free successor path of at most
    four nodes whose interior consists of at least [k] shell candidates
    and whose last node is no shell candidate. *)
Definition shell_path (G : Graph) (cands : gset string) (k : nat)
    (c : list string) : Prop :=
  Specs.is_path G c /\ NoDup c /\ (length c <= 4)%nat
  /\ exists start mids stop,
       c = start :: mids ++ [stop]
       /\ Forall (fun n => n ∈ cands) mids
       /\ (stop ∉ cands) /\ (k <= length mids)%nat.

(** A cycle as the search reports it: three to five distinct eligible
    accounts, and one transaction of the graph for every hop. *)
Definition cycle_ok (G : Graph) (elig : gset string)
    (r : Cycles.CycleResult) : Prop :=
  (3 <= length (Cycles.cr_nodes r) <= CycleDetection.MAX_DEPTH)%nat
  /\ NoDup (Cycles.cr_nodes r)
  /\ Forall (fun n => n ∈ elig) (Cycles.cr_nodes r)
  /\ selection G (Cycles.cr_nodes r) (Cycles.cr_edges r).

(** A stack entry of the cycle search. *)
Definition dfs_entry_ok (elig : gset string)
    (e : CycleDetection.dfs_entry) : Prop :=
  NoDup e.1.2
  /\ (length e.1.2 <= CycleDetection.MAX_DEPTH)%nat
  /\ (forall x, x ∈ e.1.2 -> x ∈ e.2)
  /\ Forall (fun n => n ∈ elig) e.1.2.

(** The cycles reported so far and their canonical forms. *)
Definition found_ok (G : Graph) (elig : gset string)
    (found : list Cycles.CycleResult) (seen : list (list string)) : Prop :=
  Forall (cycle_ok G elig) found
  /\ seen = map (fun r => CycleDetection.canonicalize_cycle (Cycles.cr_nodes r))
                found
  /\ NoDup seen.

(** One iteration of the loop of [_detect_business_immunity]. *)
Definition immunity_step (G : Graph) (st : Engine) (node : string) : Engine :=
  match Immunity.classify G node with
  | Some kind =>
      set_account_patterns
        (add_pattern node kind (account_patterns st))
        (set_immune_accounts (immune_accounts st ∪ {[node]}) st)
  | None => st
  end.

(** The second engine differs from the first at most in the labels of
    the accounts, the two velocity sets and the hub set. *)
Definition same_rings (st st' : Engine) : Prop :=
  eng_df st' = eng_df st /\ eng_G st' = eng_G st
  /\ candidate_rings st' = candidate_rings st
  /\ fraud_rings st' = fraud_rings st
  /\ suspicion_scores st' = suspicion_scores st
  /\ immune_accounts st' = immune_accounts st
  /\ explanations st' = explanations st
  /\ median_degree st' = median_degree st
  /\ degree_std st' = degree_std st
  /\ adaptive_ext_degree_limit st' = adaptive_ext_degree_limit st.

(** The labels that [detect_velocity] and [detect_structuring] give. *)
Definition LABEL_STAGE_LABELS : gset string :=
  list_to_set ["high_velocity"; "high_velocity_24h"; "low_variance";
               "structuring"].

(** The second label table has every label of the first and, beyond
    them, only labels of [extra]. *)
Definition more_labels (extra : gset string)
    (ap ap' : gmap string (gset string)) : Prop :=
  forall n, patterns_of ap n ⊆ patterns_of ap' n
            /\ patterns_of ap' n ⊆ patterns_of ap n ∪ extra.

(** The low-variance condition of [detect_velocity] for an account. *)
Definition low_variance (df : list Txn) (acc : string) : Prop :=
  (2 <= length (account_amounts df acc))%nat
  /\ cv_lt (account_amounts df acc) (2 # 10) = true.

(** The timestamps of [ts] from [t0] to [t0 + span]. *)
Definition in_window (t0 span : Z) (ts : list Z) : list Z :=
  filter (fun t => (t0 <= t <= t0 + span)%Z) ts.

(** A whole amount, and amounts that are whole with a whole mean and a
    sum of at most [2^53]: on these the sum, the mean and the deviations
    from the mean that the code forms in double precision are exact. *)
Definition whole (q : Q) : Prop := exists z : Z, (q == inject_Z z)%Q.
Definition exact_amounts (amounts : list Q) : Prop :=
  Forall whole amounts
  /\ whole (Qsum amounts / Qnat (length amounts))
  /\ (Qsum amounts <= inject_Z (2 ^ 53))%Q.

End Props.

(** * Properties *)

(** ** The order on strings is a total order *)

Module PyStrFacts.
Import PyStr.

Lemma ascii_lt_trans a b c :
  Ascii.compare a b = Lt -> Ascii.compare b c = Lt -> Ascii.compare a c = Lt.
Proof.
  unfold Ascii.compare. rewrite !N.compare_lt_iff. apply N.lt_trans.
Qed.

Lemma ascii_compare_refl a : Ascii.compare a a = Eq.
Proof. unfold Ascii.compare. apply N.compare_refl. Qed.

Lemma compare_refl s : String.compare s s = Eq.
Proof.
  induction s as [|a s IH]; simpl; [reflexivity|].
  now rewrite ascii_compare_refl.
Qed.

Lemma compare_lt_trans s1 : forall s2 s3,
  String.compare s1 s2 = Lt -> String.compare s2 s3 = Lt ->
  String.compare s1 s3 = Lt.
Proof.
  induction s1 as [|a s1 IH]; intros [|b s2] [|c s3]; simpl; try congruence.
  destruct (Ascii.compare a b) eqn:Hab; try congruence;
    destruct (Ascii.compare b c) eqn:Hbc; try congruence; intros H1 H2.
  - apply Ascii.compare_eq_iff in Hab, Hbc. subst.
    rewrite ascii_compare_refl. eauto.
  - apply Ascii.compare_eq_iff in Hab. subst. now rewrite Hbc.
  - apply Ascii.compare_eq_iff in Hbc. subst. now rewrite Hab.
  - now rewrite (ascii_lt_trans _ _ _ Hab Hbc).
Qed.

Lemma le_cases a b : le a b <-> a = b \/ String.compare a b = Lt.
Proof.
  unfold le, String.leb. split.
  - destruct (String.compare a b) eqn:E; try congruence; intros _.
    + left. now apply String.compare_eq_iff.
    + now right.
  - intros [-> | ->]; [now rewrite compare_refl | reflexivity].
Qed.

#[global] Instance le_refl : Reflexive le.
Proof. intros a. apply le_cases. now left. Qed.

#[global] Instance le_trans : Transitive le.
Proof.
  intros a b c. rewrite !le_cases. intros [-> | H1] [-> | H2]; auto.
  right. eapply compare_lt_trans; eauto.
Qed.

#[global] Instance le_total : Total le.
Proof. intros a b. apply String.leb_total. Qed.

#[global] Instance le_antisym : AntiSymm eq le.
Proof. intros a b. apply String.leb_antisym. Qed.

Lemma sorted_list_sorted l : StronglySorted le (sorted_list l).
Proof. apply StronglySorted_merge_sort; apply _. Qed.

Lemma sorted_list_perm l : sorted_list l ≡ₚ l.
Proof. apply merge_sort_Permutation. Qed.

Lemma elem_of_sorted_list x l : x ∈ sorted_list l <-> x ∈ l.
Proof. now rewrite sorted_list_perm. Qed.

Lemma length_sorted_list l : length (sorted_list l) = length l.
Proof. now rewrite sorted_list_perm. Qed.

Lemma sorted_set_sorted s : StronglySorted le (sorted_set s).
Proof. apply sorted_list_sorted. Qed.

Lemma sorted_set_NoDup s : NoDup (sorted_set s).
Proof.
  unfold sorted_set. rewrite merge_sort_Permutation. apply NoDup_elements.
Qed.

Lemma elem_of_sorted_set x s : x ∈ sorted_set s <-> x ∈ s.
Proof.
  unfold sorted_set. rewrite merge_sort_Permutation. apply elem_of_elements.
Qed.

Lemma length_sorted_set s : length (sorted_set s) = size s.
Proof. unfold sorted_set. now rewrite merge_sort_Permutation. Qed.

End PyStrFacts.

Lemma elem_of_take_elem {A} (x : A) n l : x ∈ take n l -> x ∈ l.
Proof.
  rewrite elem_of_take. intros (i & Hi & _).
  eapply list_elem_of_lookup_2; eauto.
Qed.

(** ** Rationals *)

Module QFacts.

Lemma Qleb_le x y : Qleb x y = true <-> (x <= y)%Q.
Proof. apply Qle_bool_iff. Qed.

Lemma Qltb_lt x y : Qltb x y = true <-> (x < y)%Q.
Proof.
  unfold Qltb. rewrite negb_true_iff. split.
  - intros H. apply Qnot_le_lt. intros Hle.
    apply Qle_bool_iff in Hle. congruence.
  - intros H. destruct (Qle_bool y x) eqn:E; [|reflexivity].
    apply Qle_bool_iff in E. exfalso. eapply Qlt_not_le; eauto.
Qed.

Lemma Qltb_ge x y : Qltb x y = false <-> (y <= x)%Q.
Proof.
  unfold Qltb. rewrite negb_false_iff. apply Qle_bool_iff.
Qed.

Lemma Qleb_gt x y : Qleb x y = false <-> (y < x)%Q.
Proof.
  rewrite <- Qltb_lt. unfold Qltb, Qleb.
  destruct (Qle_bool x y); simpl; split; congruence.
Qed.

End QFacts.

(** ** Stable sort *)

Section StableSortFacts.
Context {A : Type} (leb : A -> A -> bool).
Hypothesis leb_total : forall x y, leb x y = true \/ leb y x = true.
Hypothesis leb_trans :
  forall x y z, leb x y = true -> leb y z = true -> leb x z = true.

Lemma sort_insert_perm x l : sort_insert leb x l ≡ₚ x :: l.
Proof.
  induction l as [|y t IH]; simpl; [reflexivity|].
  destruct (leb x y); [reflexivity|].
  rewrite IH. apply Permutation_swap.
Qed.

Lemma stable_sort_perm l : stable_sort leb l ≡ₚ l.
Proof.
  induction l as [|x t IH]; simpl; [reflexivity|].
  now rewrite sort_insert_perm, IH.
Qed.

Lemma sort_insert_sorted x l :
  StronglySorted (fun x y => leb x y = true) l ->
  StronglySorted (fun x y => leb x y = true) (sort_insert leb x l).
Proof.
  induction 1 as [|y t Hs IH Hall]; simpl.
  - repeat constructor.
  - destruct (leb x y) eqn:E.
    + constructor; [constructor; assumption|].
      constructor; [exact E|].
      eapply Forall_impl; [exact Hall|]. intros z Hz.
      simpl in *. eauto.
    + constructor; [exact IH|].
      rewrite sort_insert_perm. constructor; [|exact Hall].
      destruct (leb_total x y) as [H|H]; [congruence|exact H].
Qed.

Lemma stable_sort_sorted l :
  StronglySorted (fun x y => leb x y = true) (stable_sort leb l).
Proof.
  induction l as [|x t IH]; simpl; [constructor|].
  now apply sort_insert_sorted.
Qed.
End StableSortFacts.

(** ** The result document *)

Section JsonFacts.
Import Json Specs.

Lemma lookup_append_ring rid m a acc :
  default [] (append_ring rid m a !! acc) =
  default [] (m !! acc) ++ (if bool_decide (a = acc) then [rid] else []).
Proof.
  unfold append_ring. case_bool_decide as E.
  - subst. now rewrite lookup_insert_eq.
  - rewrite lookup_insert_ne by done. now rewrite app_nil_r.
Qed.

Lemma lookup_fold_append rid members : forall m acc,
  default [] (fold_left (append_ring rid) members m !! acc) =
  default [] (m !! acc)
    ++ map (fun _ => rid) (filter (fun a => a = acc) members).
Proof.
  induction members as [|a t IH]; intros m acc; simpl.
  - now rewrite app_nil_r.
  - rewrite IH, lookup_append_ring, filter_cons.
    case_bool_decide; case_decide; try congruence; simpl.
    + now rewrite <- app_assoc.
    + now rewrite app_nil_r.
Qed.

Lemma lookup_fold_rings rings : forall m acc,
  default []
    (fold_left (fun m ring =>
                  fold_left (append_ring (ring_id ring))
                            (member_accounts ring) m) rings m !! acc) =
  default [] (m !! acc) ++ ids_of acc rings.
Proof.
  induction rings as [|r t IH]; intros m acc; simpl.
  - now rewrite app_nil_r.
  - rewrite IH, lookup_fold_append. now rewrite <- app_assoc.
Qed.

Lemma account_rings_lookup rings acc :
  default [] (account_rings rings !! acc) = ids_of acc rings.
Proof.
  unfold account_rings. rewrite lookup_fold_rings.
  now rewrite lookup_empty.
Qed.

Lemma head_ids_of acc rings :
  match ids_of acc rings with rid :: _ => rid | [] => "NONE" end =
  match List.find (fun r => bool_decide (acc ∈ member_accounts r)) rings with
  | Some r => ring_id r
  | None => "NONE"
  end.
Proof.
  induction rings as [|r t IH]; simpl; [reflexivity|].
  case_bool_decide as E.
  - destruct (filter (fun a => a = acc) (member_accounts r)) as [|x xs] eqn:F.
    + exfalso. now apply (filter_nil_not_elem_of _ _ acc F).
    + reflexivity.
  - replace (filter (fun a => a = acc) (member_accounts r)) with (@nil string).
    + exact IH.
    + symmetry. induction (member_accounts r) as [|a l IHl]; [reflexivity|].
      rewrite not_elem_of_cons in E. destruct E as [E1 E2].
      rewrite filter_cons_False by congruence. auto.
Qed.

Lemma entry_ring_id st acc score :
  sa_ring_id (entry st (account_rings (fraud_rings st)) acc score) =
  match List.find (fun r => bool_decide (acc ∈ member_accounts r))
                  (fraud_rings st) with
  | Some r => ring_id r
  | None => "NONE"
  end.
Proof.
  unfold entry. simpl. rewrite account_rings_lookup. apply head_ids_of.
Qed.

Lemma elem_of_collect st ar items e :
  e ∈ collect st ar items <->
  exists acc score, (acc, score) ∈ items /\ Qleb score 0 = false
                    /\ e = entry st ar acc score.
Proof.
  induction items as [|[a s] t IH]; simpl.
  - split; [intros H; inversion H|intros (?&?&H&_); inversion H].
  - destruct (Qleb s 0) eqn:E.
    + rewrite IH. split.
      * intros (acc & score & Hin & Hs & ->).
        exists acc, score. split; [now right|done].
      * intros (acc & score & Hin & Hs & ->).
        apply elem_of_cons in Hin as [Heq|Hin].
        -- injection Heq as -> ->. congruence.
        -- eauto.
    + rewrite elem_of_cons, IH. split.
      * intros [->|(acc & score & Hin & Hs & ->)].
        -- exists a, s. split; [now left|done].
        -- exists acc, score. split; [now right|done].
      * intros (acc & score & Hin & Hs & ->).
        apply elem_of_cons in Hin as [Heq|Hin].
        -- injection Heq as -> ->. now left.
        -- right. eauto.
Qed.

Lemma elem_of_suspicious st e :
  e ∈ rep_suspicious_accounts (generate_json st) <->
  exists acc score, (acc, score) ∈ suspicion_scores st
                    /\ Qleb score 0 = false
                    /\ e = entry st (account_rings (fraud_rings st)) acc score.
Proof.
  unfold generate_json. simpl.
  rewrite stable_sort_perm. apply elem_of_collect.
Qed.

(** *** Order of the suspicious accounts *)

Lemma key_leb_iff x y :
  key_leb x y = true <->
  (sa_suspicion_score y < sa_suspicion_score x)%Q
  \/ (sa_suspicion_score x == sa_suspicion_score y
      /\ PyStr.le (sa_account_id x) (sa_account_id y))%Q.
Proof.
  unfold key_leb. rewrite orb_true_iff, andb_true_iff.
  now rewrite QFacts.Qltb_lt, Qeq_bool_iff.
Qed.

Lemma key_leb_total x y : key_leb x y = true \/ key_leb y x = true.
Proof.
  rewrite !key_leb_iff.
  destruct (Q_dec (sa_suspicion_score x) (sa_suspicion_score y))
    as [[H|H]|H]; auto.
  destruct (PyStrFacts.le_total (sa_account_id x) (sa_account_id y)); auto.
  right. right. split; [now symmetry|assumption].
Qed.

Lemma key_leb_trans x y z :
  key_leb x y = true -> key_leb y z = true -> key_leb x z = true.
Proof.
  rewrite !key_leb_iff.
  intros [H1|[H1 L1]] [H2|[H2 L2]].
  - left. eapply Qlt_trans; eauto.
  - left. now rewrite <- H2.
  - left. now rewrite H1.
  - right. split; [now rewrite H1|].
    eapply PyStrFacts.le_trans; eauto.
Qed.

Lemma suspicious_sorted st :
  StronglySorted (fun x y => key_leb x y = true)
                 (rep_suspicious_accounts (generate_json st)).
Proof.
  unfold generate_json. simpl.
  apply stable_sort_sorted; [apply key_leb_total|apply key_leb_trans].
Qed.
End JsonFacts.

(** C10. Every account with a positive final score has an entry in
    [suspicious_accounts], and the [ring_id] of every entry is the id of
    the first ring of [fraud_rings], in list order, whose
    [member_accounts] contain the account; it is ["NONE"] when no ring
    contains it. *)
Theorem generate_json_ring_id (st : Engine) :
  (forall acc score,
      (acc, score) ∈ suspicion_scores st -> (0 < score)%Q ->
      exists e, e ∈ rep_suspicious_accounts (Json.generate_json st)
                /\ sa_account_id e = acc /\ sa_suspicion_score e = score)
  /\ Forall
       (fun e =>
          sa_ring_id e =
          match List.find
                  (fun r => bool_decide (sa_account_id e ∈ member_accounts r))
                  (fraud_rings st) with
          | Some r => ring_id r
          | None => "NONE"
          end)
       (rep_suspicious_accounts (Json.generate_json st)).
Proof.
  split.
  - intros acc score Hin Hpos.
    exists (Json.entry st (Json.account_rings (fraud_rings st)) acc score).
    split; [|split; reflexivity].
    apply elem_of_suspicious. exists acc, score.
    split; [exact Hin|]. split; [|reflexivity].
    now apply QFacts.Qleb_gt.
  - apply Forall_forall. intros e He.
    apply elem_of_suspicious in He as (acc & score & _ & _ & ->).
    apply entry_ring_id.
Qed.

(** ** Scoring *)

Section DictFacts.
Context {V : Type}.

Lemma dict_get_set_eq k (v : V) d : dict_get k (dict_set k v d) = Some v.
Proof.
  induction d as [|[k' v'] t IH]; simpl.
  - now rewrite String.eqb_refl.
  - destruct (String.eqb k k') eqn:E; simpl; rewrite E; [reflexivity|exact IH].
Qed.

Lemma dict_get_set_ne k k' (v : V) d :
  k <> k' -> dict_get k' (dict_set k v d) = dict_get k' d.
Proof.
  intros Hne. induction d as [|[k0 v0] t IH]; simpl.
  - destruct (String.eqb k' k) eqn:E; [|reflexivity].
    apply String.eqb_eq in E. congruence.
  - destruct (String.eqb k k0) eqn:E; simpl.
    + apply String.eqb_eq in E. subst k0.
      destruct (String.eqb k' k) eqn:E'; [|reflexivity].
      apply String.eqb_eq in E'. congruence.
    + now rewrite IH.
Qed.

Lemma dict_set_Forall (P : V -> Prop) k v d :
  Forall (fun kv => P (snd kv)) d -> P v ->
  Forall (fun kv => P (snd kv)) (dict_set k v d).
Proof.
  intros Hd Hv. induction Hd as [|[k' v'] t Hk Ht IH]; simpl.
  - repeat constructor. exact Hv.
  - destruct (String.eqb k k'); constructor; auto.
Qed.

(** A loop that stores [g n] under every [n] of [l]. *)
Lemma dict_get_fold_set (g : string -> V) l : forall d k,
  dict_get k (fold_left (fun d n => dict_set n (g n) d) l d) =
  if bool_decide (k ∈ l) then Some (g k) else dict_get k d.
Proof.
  induction l as [|a t IH]; intros d k; simpl; [reflexivity|].
  rewrite IH. case_bool_decide as Ht.
  - rewrite bool_decide_eq_true_2 by now right. reflexivity.
  - destruct (decide (k = a)) as [->|Hne].
    + rewrite bool_decide_eq_true_2 by now left. apply dict_get_set_eq.
    + rewrite bool_decide_eq_false_2.
      * apply dict_get_set_ne. congruence.
      * rewrite elem_of_cons. tauto.
Qed.
End DictFacts.

Section ScoringFacts.
Import Scoring Specs.
Variable anomaly_bonus : nat -> Q.

Lemma final_gate_cases s : zero_or_flagged (final_gate s).
Proof.
  unfold final_gate, zero_or_flagged.
  destruct (Qltb _ FLAG_THRESHOLD) eqn:E; [now left|right].
  now apply QFacts.Qltb_ge in E.
Qed.

Lemma third_pass_Forall st ns prelim ap : forall scores,
  Forall (fun kv => zero_or_flagged (snd kv)) scores ->
  Forall (fun kv => zero_or_flagged (snd kv))
         (third_pass st ns prelim ap scores).
Proof.
  unfold third_pass. induction ns as [|n t IH]; intros scores H; simpl.
  - exact H.
  - apply IH, dict_set_Forall; [exact H|apply final_gate_cases].
Qed.

Lemma calculate_scores_Forall st :
  Forall (fun kv => zero_or_flagged (snd kv)) (suspicion_scores st) ->
  Forall (fun kv => zero_or_flagged (snd kv))
         (suspicion_scores (calculate_suspicion_scores anomaly_bonus st)).
Proof.
  intros H. unfold calculate_suspicion_scores.
  destruct (eng_G st) as [G|]; [|exact H].
  case_bool_decide; [exact H|].
  destruct (second_pass _ _ _ _) as [prelim ap]. simpl.
  now apply third_pass_Forall.
Qed.

Lemma calculate_scores_lookup st G node :
  eng_G st = Some G -> node ∈ nodes G ->
  dict_get node
    (suspicion_scores (calculate_suspicion_scores anomaly_bonus st)) =
  Some (final_gate (post_suppression anomaly_bonus st G node)).
Proof.
  intros HG Hin. unfold calculate_suspicion_scores, post_suppression.
  rewrite HG. case_bool_decide as Hnil.
  - rewrite Hnil in Hin. inversion Hin.
  - destruct (second_pass _ _ _ _) as [prelim ap]. simpl.
    unfold third_pass.
    rewrite (dict_get_fold_set
               (fun n => final_gate
                           (suppress st (patterns_of ap n) n
                                     (default 0%Q (dict_get n prelim))))).
    now rewrite bool_decide_eq_true_2.
Qed.
End ScoringFacts.

(** C3, as the code has it. The post-suppression score is first clamped
    to [0, 100] and rounded to one decimal; the stored score is 0 when
    the rounded value is below 25 and the rounded value otherwise. A
    score of 24.96 is stored as 25.0. *)
Theorem stored_score_rounds_then_gates (anomaly_bonus : nat -> Q)
    (st : Engine) (G : Graph) (node : string) :
  eng_G st = Some G -> node ∈ nodes G ->
  (let s := Scoring.post_suppression anomaly_bonus st G node in
   let r := round1 (Qmax 0 (Qmin 100 s)) in
   dict_get node
     (suspicion_scores (Scoring.calculate_suspicion_scores anomaly_bonus st)) =
   Some (if Qltb r 25 then 0%Q else r))
  /\ (Scoring.final_gate (2496 # 100) == 25)%Q.
Proof.
  intros HG Hin. split; [|reflexivity].
  now rewrite (calculate_scores_lookup anomaly_bonus st G node HG Hin).
Qed.

Lemma stored_score_rounds_then_gates_witness :
  dict_get "u2"
    (suspicion_scores
       (Scoring.calculate_suspicion_scores Examples.gate_anomaly
          Examples.iso_before_scoring)) =
  Some (250 # 10)%Q.
Proof.
  refine (eq_trans
            (proj1 (stored_score_rounds_then_gates Examples.gate_anomaly
                      Examples.iso_before_scoring Examples.iso_graph
                      "u2" _ _)) _).
  - vm_compute. reflexivity.
  - vm_compute. do 6 apply list_elem_of_further. apply list_elem_of_here.
  - vm_compute. reflexivity.
Defined.

(** C3, counterexample. Account [u2] lies on a cycle of length 5 (20
    points) and has an anomaly bonus of 4.96: its post-suppression
    score is 24.96, below 25, and its stored score is 25.0, not 0. *)
Lemma stored_score_below_threshold_kept :
  (Scoring.post_suppression Examples.gate_anomaly
     Examples.iso_before_scoring Examples.iso_graph "u2" == 2496 # 100)%Q
  /\ (Scoring.post_suppression Examples.gate_anomaly
        Examples.iso_before_scoring Examples.iso_graph "u2" < 25)%Q
  /\ exists v,
       dict_get "u2"
         (suspicion_scores
            (Scoring.calculate_suspicion_scores Examples.gate_anomaly
               Examples.iso_before_scoring)) = Some v
       /\ (v == 25)%Q /\ ~ (v == 0)%Q.
Proof.
  split; [vm_compute; reflexivity|].
  split; [vm_compute; reflexivity|].
  exists (250 # 10)%Q. split; [vm_compute; reflexivity|].
  split; [reflexivity|]. intros H. vm_compute in H. discriminate H.
Qed.

Lemma StronglySorted_impl {A} (R1 R2 : A -> A -> Prop) l :
  (forall x y, R1 x y -> R2 x y) -> StronglySorted R1 l -> StronglySorted R2 l.
Proof.
  intros HR. induction 1 as [|x t Hs IH Hall]; constructor; [exact IH|].
  eapply Forall_impl; [exact Hall|]. auto.
Qed.

Lemma finish_run_scores_before (anomaly_bonus : nat -> Q) (st : Engine) :
  suspicion_scores
    (Pipeline.apply_pattern_hierarchy
       (Rings.consolidate_rings (Pipeline.immune_cleanup st))) =
  suspicion_scores st.
Proof.
  unfold Pipeline.apply_pattern_hierarchy, Rings.consolidate_rings.
  simpl. destruct (Pipeline.clean_candidates _ _); reflexivity.
Qed.

(** C9. In the report of a run that starts with no stored scores, every
    entry of [suspicious_accounts] has a score of at least 25, its
    [detected_patterns] are sorted ascending and free of duplicates, and
    the array is sorted by descending score, then ascending account id. *)
Theorem suspicious_accounts_wellformed (anomaly_bonus : nat -> Q)
    (st : Engine) :
  suspicion_scores st = [] ->
  let out :=
    rep_suspicious_accounts
      (Pipeline.run_all_after_detection anomaly_bonus st) in
  Forall (fun e =>
            (25 <= sa_suspicion_score e)%Q
            /\ StronglySorted PyStr.le (sa_detected_patterns e)
            /\ NoDup (sa_detected_patterns e)) out
  /\ StronglySorted
       (fun x y =>
          (sa_suspicion_score y < sa_suspicion_score x)%Q
          \/ (sa_suspicion_score x == sa_suspicion_score y
              /\ PyStr.le (sa_account_id x) (sa_account_id y))%Q) out.
Proof.
  intros Hempty out. subst out.
  unfold Pipeline.run_all_after_detection, Pipeline.finish_run. split.
  - apply Forall_forall. intros e He.
    apply elem_of_suspicious in He as (acc & score & Hin & Hpos & ->).
    simpl. split; [|split].
    + pose proof (calculate_scores_Forall anomaly_bonus
                    (Pipeline.apply_pattern_hierarchy
                       (Rings.consolidate_rings (Pipeline.immune_cleanup st))))
        as Hall.
      rewrite finish_run_scores_before, Hempty in Hall by exact anomaly_bonus.
      specialize (Hall (List.Forall_nil _)).
      rewrite Forall_forall in Hall.
      destruct (Hall _ Hin) as [Hz|Hge]; simpl in *.
      * subst score. vm_compute in Hpos. discriminate Hpos.
      * exact Hge.
    + apply PyStrFacts.sorted_set_sorted.
    + apply PyStrFacts.sorted_set_NoDup.
  - eapply StronglySorted_impl; [|apply suspicious_sorted].
    intros x y. apply key_leb_iff.
Qed.

Lemma suspicious_accounts_wellformed_witness :
  suspicion_scores (Examples.iso_engine 20) = []
  /\ Forall (fun e =>
               (25 <= sa_suspicion_score e)%Q
               /\ StronglySorted PyStr.le (sa_detected_patterns e)
               /\ NoDup (sa_detected_patterns e))
            (rep_suspicious_accounts
               (Pipeline.run_all_after_detection Examples.iso_anomaly
                  (Examples.iso_engine 20))).
Proof.
  split; [vm_compute; reflexivity|].
  apply (suspicious_accounts_wellformed Examples.iso_anomaly
           (Examples.iso_engine 20)).
  vm_compute. reflexivity.
Defined.

(** ** The anomaly bonus *)

Section AnomalyFacts.

Lemma Qlist_min_replicate (d : Q) n :
  Cycles.Qlist_min d (replicate n d) = d.
Proof.
  unfold Cycles.Qlist_min. induction n as [|n IH]; [reflexivity|].
  cbn [replicate foldr]. rewrite IH. unfold Qmin. now destruct (Qleb d d).
Qed.

Lemma Qlist_max_replicate (d : Q) n :
  Cycles.Qlist_max d (replicate n d) = d.
Proof.
  unfold Cycles.Qlist_max. induction n as [|n IH]; [reflexivity|].
  cbn [replicate foldr]. rewrite IH. unfold Qmax. now destruct (Qleb d d).
Qed.

(** Nodes with the same feature row have the same raw score, and the
    bonus of every node is 0, whatever the forest. *)
Lemma anomaly_bonus_flat
    (decision_function : list Anomaly.Features -> Anomaly.Features -> Q)
    (G : Graph) (f : Anomaly.Features) :
  Forall (fun n => Anomaly.features G n = f) (nodes G) ->
  forall idx, Anomaly.anomaly_bonus decision_function G idx = 0%Q.
Proof.
  intros Hall idx. unfold Anomaly.anomaly_bonus, Anomaly.raw_scores.
  cbv zeta.
  assert (Anomaly.feature_rows G = replicate (length (nodes G)) f) as Hrows.
  { unfold Anomaly.feature_rows. induction Hall as [|n ns Hn _ IH];
      [reflexivity|]. cbn [map length replicate]. now rewrite Hn, IH. }
  rewrite Hrows at 2. rewrite fmap_replicate.
  destruct (length (nodes G)) as [|m]; [reflexivity|].
  cbn [replicate]. rewrite Qlist_min_replicate, Qlist_max_replicate.
  set (d := decision_function (Anomaly.feature_rows G) f).
  assert (Qltb 0 (d - d) = false) as -> by (apply QFacts.Qltb_ge; lra).
  reflexivity.
Qed.

Lemma fold_left_pointwise {A B} (f g : A -> B -> A) (l : list B) :
  (forall a b, f a b = g a b) ->
  forall a, fold_left f l a = fold_left g l a.
Proof.
  intros H. induction l as [|b l IH]; intros a; [reflexivity|].
  cbn [fold_left]. now rewrite H, IH.
Qed.

(** The scores depend on the values of the bonus only. *)
Lemma first_pass_bonus (ab ab' : nat -> Q) st ns :
  (forall idx, ab idx = ab' idx) ->
  Scoring.first_pass ab st ns = Scoring.first_pass ab' st ns.
Proof.
  intros H. unfold Scoring.first_pass. apply fold_left_pointwise.
  intros d [idx node]. unfold Scoring.base_score. now rewrite H.
Qed.

Lemma calculate_bonus (ab ab' : nat -> Q) st :
  (forall idx, ab idx = ab' idx) ->
  Scoring.calculate_suspicion_scores ab st
  = Scoring.calculate_suspicion_scores ab' st.
Proof.
  intros H. unfold Scoring.calculate_suspicion_scores.
  destruct (eng_G st) as [G|]; [|reflexivity].
  now rewrite (first_pass_bonus ab ab' st (nodes G) H).
Qed.

Lemma run_all_bonus (ab ab' : nat -> Q) fuel st :
  (forall idx, ab idx = ab' idx) ->
  Run.run_all ab fuel st = Run.run_all ab' fuel st.
Proof.
  intros H. unfold Run.run_all, Pipeline.run_all_after_detection,
    Pipeline.finish_run.
  now rewrite (calculate_bonus ab ab' _ H).
Qed.

End AnomalyFacts.

(** C4, the code at a failing input. Four accounts pass 1000 round the
    cycle A, B, C, D, half an hour per hop. Every node has the feature
    row (1, 1, 1000, 1000), so the anomaly bonus is 0 for every node,
    whatever the forest. After steps 1 to 3 the scores are A = 25 and
    B = C = D = 35, the three having sent within the hour of receiving.
    The neighbours of [B] are [A] and [C]: one of them is above 30
    after steps 1 to 3. The second loop visits [A] first and raises it
    to 33, so [B] then counts two neighbours above 30 and receives the
    bonus and the label: it is reported with 43.0. Visited before [A],
    [B] keeps 35. The outcome is the same for every fuel of at least
    10. *)
Theorem isolation_pass_reads_updated_scores
    (decision_function : list Anomaly.Features -> Anomaly.Features -> Q)
    (k : nat) :
  let G := Cases.relay_graph in
  let bonus := Anomaly.anomaly_bonus decision_function G in
  let st := Pipeline.before_scoring (Run.detectors (10 + k) Cases.relay_loaded) in
  let prelim := Scoring.first_pass bonus st (nodes G) in
  let final := Scoring.calculate_suspicion_scores bonus st in
  (forall idx, bonus idx = 0%Q)
  /\ eng_G st = Some G
  /\ nodes G = ["A"; "B"; "C"; "D"]
  /\ prelim = [("A", 25%Q); ("B", 35%Q); ("C", 35%Q); ("D", 35%Q)]
  /\ PyStr.sorted_set (Scoring.neighbors G "B") = ["A"; "C"]
  /\ Scoring.flagged_neighbors G prelim "B" = 1%nat
  /\ PyStr.sorted_set (patterns_of (account_patterns final) "B")
     = ["cycle_length_4"; "isolation_cluster"]
  /\ dict_get "B" (suspicion_scores final) = Some (430 # 10)%Q
  /\ dict_get "B"
       (Scoring.second_pass G ["B"; "A"; "C"; "D"] prelim
          (account_patterns st)).1
     = Some 35%Q
  /\ map (fun a => (sa_account_id a, sa_suspicion_score a,
                    sa_detected_patterns a))
         (rep_suspicious_accounts
            (Run.run_all bonus (10 + k) Cases.relay_loaded))
     = [("B", (430 # 10)%Q, ["cycle_length_4"; "isolation_cluster"]);
        ("C", (430 # 10)%Q, ["cycle_length_4"; "isolation_cluster"]);
        ("D", (430 # 10)%Q, ["cycle_length_4"; "isolation_cluster"]);
        ("A", (330 # 10)%Q, ["cycle_length_4"; "isolation_cluster"])].
Proof.
  intros G bonus st prelim final.
  assert (forall idx, bonus idx = 0%Q) as Hb.
  { apply (anomaly_bonus_flat decision_function G
             (Anomaly.mkFeatures 1 1 1000 1000)).
    repeat constructor. }
  split; [exact Hb|].
  unfold prelim, final.
  rewrite (first_pass_bonus bonus (fun _ => 0%Q) st (nodes G) Hb).
  rewrite (calculate_bonus bonus (fun _ => 0%Q) st Hb).
  rewrite (run_all_bonus bonus (fun _ => 0%Q) (10 + k) Cases.relay_loaded Hb).
  unfold st, G. repeat split; vm_compute; reflexivity.
Qed.

(** ** Arbitration *)

(** C1, the code at a failing input. On the table [shared_table] the
    cycle detector emits the candidate ring a, b, c and the shell
    detector the candidate ring a, d, e; no account is immune and no
    hub has five senders. Arbitration accepts the cycle candidate
    first; the shell candidate overlaps it in one of its three members
    (ratio 1/3, not above 0.6) and is accepted with all of its members:
    account [a] is a member of both rings of the output. *)
Theorem arbitration_shares_account (k : nat) :
  let detected := Pipeline.ring_detectors (10 + k) Examples.shared_loaded in
  map (fun c => (c_members c, c_pattern_type c)) (candidate_rings detected)
  = [(["a"; "b"; "c"], "cycle"); (["a"; "d"; "e"], "shell_network")]
  /\ map (fun r => (ring_id r, member_accounts r, pattern_type r))
       (Rings.arbitrate_rings (candidate_rings detected))
     = [("RING_001", ["a"; "b"; "c"], "cycle");
        ("RING_002", ["a"; "d"; "e"], "shell_network")]
  /\ map (fun r => (ring_id r, member_accounts r))
       (fraud_rings
          (Rings.consolidate_rings (Pipeline.immune_cleanup detected)))
     = [("RING_001", ["a"; "b"; "c"]); ("RING_002", ["a"; "d"; "e"])].
Proof. repeat split; vm_compute; reflexivity. Qed.

(** ** Ingest *)

Section IngestFacts.
Import Ingest.
Variable Cell : Type.
Variable to_numeric : Cell -> option Q.
Variable to_datetime : Cell -> option Z.
Variable astype_str : Cell -> string.
Variable np_median : list Q -> Q.
Variable np_std : list Q -> Q.

Lemma missing_columns_nil (df : DataFrame Cell) :
  missing_columns Cell df = [] <->
  forall c, c ∈ REQUIRED_COLUMNS -> c ∈ df_columns Cell df.
Proof.
  unfold missing_columns. split.
  - intros H c Hc. destruct (decide (c ∈ df_columns Cell df)) as [|Hn]; [done|].
    exact (False_ind _ (filter_nil_not_elem_of _ _ c H Hn Hc)).
  - intros H. induction REQUIRED_COLUMNS as [|c t IH]; [reflexivity|].
    rewrite filter_cons_False.
    + apply IH. intros c' Hc'. apply H. now right.
    + intros Hn. apply Hn, H. now left.
Qed.

Lemma length_omap_coerce (rows : list (string -> Cell)) :
  length (omap (coerce_row Cell to_numeric to_datetime astype_str) rows) =
  length (filter (fun row => is_Some (to_numeric (row "amount"))
                             /\ is_Some (to_datetime (row "timestamp")))
                 rows).
Proof.
  induction rows as [|row t IH]; [reflexivity|].
  rewrite filter_cons. cbn [omap list_omap]. unfold coerce_row at 1.
  destruct (to_numeric (row "amount")) as [a|],
           (to_datetime (row "timestamp")) as [ts|];
    case_decide as Hd; simpl; rewrite ?IH; try reflexivity; exfalso;
    first [ apply Hd; split; eauto
          | destruct Hd as [[? ?] [? ?]]; discriminate ].
Qed.

Lemma compute_dataset_stats_df st :
  eng_df (compute_dataset_stats np_median np_std st) = eng_df st.
Proof.
  unfold compute_dataset_stats.
  destruct (eng_G st) eqn:EG, (eng_df st) eqn:Ed; try congruence.
  destruct (match map _ _ with [] => _ | _ => _ end). simpl. congruence.
Qed.

Lemma compute_dataset_stats_G st :
  eng_G (compute_dataset_stats np_median np_std st) = eng_G st.
Proof.
  unfold compute_dataset_stats.
  destruct (eng_G st) eqn:EG, (eng_df st) eqn:Ed; try congruence.
  destruct (match map _ _ with [] => _ | _ => _ end). simpl. congruence.
Qed.
End IngestFacts.

(** C8. [load_data] raises exactly when a required column is absent, and
    then the engine is as it was before the call. Otherwise it returns:
    the table holds the rows whose amount and timestamp both coerce, the
    other rows are dropped without an error, and the graph has one edge
    per remaining row. *)
Theorem load_data_schema_and_coercion (Cell : Type)
    (to_numeric : Cell -> option Q) (to_datetime : Cell -> option Z)
    (astype_str : Cell -> string) (np_median np_std : list Q -> Q)
    (df : Ingest.DataFrame Cell) (st : Engine) :
  match Ingest.load_data Cell to_numeric to_datetime astype_str
                         np_median np_std df st with
  | (st', Ingest.Raised msg) =>
      (exists c, c ∈ Ingest.REQUIRED_COLUMNS /\ c ∉ Ingest.df_columns Cell df)
      /\ st' = st
  | (st', Ingest.Returned _) =>
      (forall c, c ∈ Ingest.REQUIRED_COLUMNS -> c ∈ Ingest.df_columns Cell df)
      /\ exists table,
          eng_df st' = Some table
          /\ table ≡ₚ omap (Ingest.coerce_row Cell to_numeric to_datetime
                              astype_str) (Ingest.df_rows Cell df)
          /\ length table =
             length (filter
                       (fun row => is_Some (to_numeric (row "amount"))
                                   /\ is_Some (to_datetime (row "timestamp")))
                       (Ingest.df_rows Cell df))
          /\ eng_G st' = Some (map Ingest.edge_of table)
  end.
Proof.
  unfold Ingest.load_data. case_bool_decide as Hm.
  - unfold Ingest.raise. split; [|reflexivity].
    destruct (Ingest.missing_columns Cell df) as [|c t] eqn:E; [done|].
    exists c. unfold Ingest.missing_columns in E.
    assert (c ∈ filter (fun c => c ∉ Ingest.df_columns Cell df)
                       Ingest.REQUIRED_COLUMNS) as Hc
      by (rewrite E; now left).
    apply list_elem_of_filter in Hc. tauto.
  - assert (Ingest.missing_columns Cell df = []) as Hnil.
    { destruct (Ingest.missing_columns Cell df); [done|discriminate Hm]. }
    unfold Ingest.seq, Ingest.bind, Ingest.modify.
    split; [now apply missing_columns_nil|].
    rewrite compute_dataset_stats_df, compute_dataset_stats_G. simpl.
    eexists. split; [reflexivity|]. split; [apply stable_sort_perm|].
    split; [|reflexivity].
    rewrite stable_sort_perm. apply length_omap_coerce.
Qed.

Example load_data_missing_column :
  Ingest.load_data string Examples.parse_amount Examples.parse_time id
    Examples.no_stat Examples.no_stat Examples.frame_missing engine_init
  = (engine_init, Ingest.Raised ["amount"]).
Proof. reflexivity. Qed.

Example load_data_drops_bad_row :
  eng_df (fst (Ingest.load_data string Examples.parse_amount
                 Examples.parse_time id Examples.no_stat Examples.no_stat
                 Examples.frame_ok
                 engine_init))
  = Some [{| transaction_id := "T1"; sender_id := "A"; receiver_id := "B";
             amount := 10; timestamp := 2 |}].
Proof. reflexivity. Qed.

(** ** Cycle constraints *)

Section CycleFacts.
Import Cycles.

Lemma temporal_ok_iff ts_min ts_max :
  temporal_ok ts_min ts_max = true <-> (ts_max - ts_min <= HOURS_72)%Z.
Proof.
  unfold temporal_ok. rewrite negb_true_iff, Z.ltb_ge. reflexivity.
Qed.

Lemma check_rejects_long_span G ext_limit cycle_path e0 rest :
  (HOURS_72 <
     Zlist_max (e_ts e0) (map e_ts rest) - Zlist_min (e_ts e0) (map e_ts rest))%Z ->
  check_cycle_constraints G ext_limit cycle_path (e0 :: rest) = None.
Proof.
  intros H. unfold check_cycle_constraints, temporal_ok.
  apply Z.ltb_lt in H. now rewrite H.
Qed.

(** The least and the greatest amount are amounts of the selection. *)
Lemma Qlist_min_ind (P : Q -> Prop) h t :
  P h -> Forall P t -> P (Qlist_min h t).
Proof.
  intros Hh Ht. induction Ht as [|a t Ha Ht IH]; [exact Hh|].
  unfold Qlist_min in *. cbn [foldr].
  set (m := foldr Qmin h t) in *. unfold Qmin. now destruct (Qleb a m).
Qed.

Lemma Qlist_max_ind (P : Q -> Prop) h t :
  P h -> Forall P t -> P (Qlist_max h t).
Proof.
  intros Hh Ht. induction Ht as [|a t Ha Ht IH]; [exact Hh|].
  unfold Qlist_max in *. cbn [foldr].
  set (m := foldr Qmax h t) in *. unfold Qmax. now destruct (Qleb a m).
Qed.

Lemma Qlist_min_le h t : Forall (fun a => (Qlist_min h t <= a)%Q) (h :: t).
Proof.
  induction t as [|a t IH].
  - constructor; [apply Qle_refl|constructor].
  - unfold Qlist_min in *. cbn [foldr].
    set (m := foldr Qmin h t) in *. unfold Qmin.
    apply Forall_cons in IH as [IHh IHt].
    destruct (Qleb a m) eqn:E.
    + apply QFacts.Qleb_le in E. constructor; [|constructor].
      * now apply Qle_trans with m.
      * apply Qle_refl.
      * eapply Forall_impl; [exact IHt|]. intros x Hx. simpl in Hx.
        now apply Qle_trans with m.
    + apply QFacts.Qleb_gt in E. constructor; [exact IHh|].
      constructor; [now apply Qlt_le_weak|exact IHt].
Qed.

Lemma Qsum_lower (lo : Q) (l : list Q) :
  Forall (fun a => (lo <= a)%Q) l -> (Qnat (length l) * lo <= Qsum l)%Q.
Proof.
  induction 1 as [|a l Ha _ IH].
  - unfold Qsum, Qnat. cbn [length foldr].
    change (inject_Z (Z.of_nat 0)) with 0%Q. lra.
  - cbn [length]. unfold Qnat in *. rewrite Nat2Z.inj_succ. unfold Z.succ.
    rewrite inject_Z_plus. unfold Qsum in *. cbn [foldr].
    change (inject_Z 1) with 1%Q. lra.
Qed.

(** An amount within 15% of a positive mean. *)
Lemma deviation_bounds (mean_amount a : Q) :
  (0 < mean_amount)%Q ->
  Qleb (Qabs (a - mean_amount) / mean_amount) (15 # 100) = true ->
  ((85 # 100) * mean_amount <= a <= (115 # 100) * mean_amount)%Q.
Proof.
  intros Hm H. apply QFacts.Qleb_le in H.
  assert (Qabs (a - mean_amount) <= (15 # 100) * mean_amount)%Q as Habs.
  { assert (Qabs (a - mean_amount)
            == Qabs (a - mean_amount) / mean_amount * mean_amount)%Q as ->
      by (field; lra).
    apply Qmult_le_compat_r; [exact H|lra]. }
  apply Qabs_Qle_condition in Habs. lra.
Qed.

(** Constraint 2 decides constraint 3: amounts within 15% of a positive
    mean have a min/max ratio of at least 0.85/1.15. *)
Lemma variance_bounds_ratio (mean_amount a0 : Q) (t : list Q) :
  (0 < mean_amount)%Q ->
  variance_ok mean_amount (a0 :: t) = true ->
  (0 < Qlist_max a0 t)%Q
  /\ ((85 # 115) * Qlist_max a0 t <= Qlist_min a0 t)%Q.
Proof.
  intros Hm H. unfold variance_ok in H. rewrite forallb_forall in H.
  assert (Forall (fun a => (85 # 100) * mean_amount <= a
                           <= (115 # 100) * mean_amount)%Q (a0 :: t)) as Hall.
  { apply Forall_forall. intros a Ha. apply deviation_bounds; [exact Hm|].
    apply H. now apply list_elem_of_In. }
  apply Forall_cons in Hall as [H0 Ht].
  pose proof (Qlist_min_ind _ a0 t H0 Ht) as Hlo.
  pose proof (Qlist_max_ind _ a0 t H0 Ht) as Hhi.
  simpl in Hlo, Hhi. split; lra.
Qed.

Lemma variance_implies_flow (mean_amount a0 : Q) (t : list Q) :
  (0 < mean_amount)%Q ->
  variance_ok mean_amount (a0 :: t) = true ->
  flow_ok (Qlist_min a0 t) (Qlist_max a0 t) = true.
Proof.
  intros Hm H.
  destruct (variance_bounds_ratio mean_amount a0 t Hm H) as [Hpos Hr].
  unfold flow_ok, flow_ratio.
  rewrite (proj2 (QFacts.Qltb_lt 0 (Qlist_max a0 t)) Hpos).
  rewrite negb_true_iff. apply QFacts.Qltb_ge.
  apply Qle_shift_div_l; [exact Hpos|]. lra.
Qed.

(** A selection whose min/max ratio is exactly 0.70 has a positive mean
    and an amount further than 15% from it. *)
Lemma ratio_seventy_fails_variance (a0 : Q) (t : list Q) :
  (0 < Qlist_max a0 t)%Q ->
  (Qlist_min a0 t / Qlist_max a0 t == 70 # 100)%Q ->
  let mean_amount := (Qsum (a0 :: t) / Qnat (length (a0 :: t)))%Q in
  (0 < mean_amount)%Q /\ variance_ok mean_amount (a0 :: t) = false.
Proof.
  intros Hpos Hr mean_amount.
  assert (Qlist_min a0 t == (70 # 100) * Qlist_max a0 t)%Q as Hlo.
  { rewrite <- Hr. field. lra. }
  assert (0 < Qnat (length (a0 :: t)))%Q as Hn.
  { unfold Qnat. change 0%Q with (inject_Z 0). rewrite <- Zlt_Qlt.
    cbn [length]. lia. }
  assert (0 < mean_amount)%Q as Hm.
  { pose proof (Qsum_lower _ _ (Qlist_min_le a0 t)) as Hs.
    unfold mean_amount. apply Qlt_shift_div_l; [exact Hn|].
    assert (0 < Qnat (length (a0 :: t)) * Qlist_min a0 t)%Q
      by (apply Qmult_lt_0_compat; [exact Hn|lra]).
    lra. }
  split; [exact Hm|].
  destruct (variance_ok mean_amount (a0 :: t)) eqn:E; [exfalso|reflexivity].
  destruct (variance_bounds_ratio mean_amount a0 t Hm E) as [_ Hb]. lra.
Qed.
End CycleFacts.

(** C6. [_check_cycle_constraints] at its boundaries. A selection that
    spans at most 72 hours, so also one that spans exactly 72 hours,
    whose amounts deviate from their positive mean by at most 15%, so
    also by exactly 15%, and whose nodes keep the external degree limit
    is accepted, with its path, its edges and the sum of its amounts;
    the amounts are whole with a whole mean and a sum of at most [2^53],
    the range in which the doubles of the code are exact. A longer span
    is rejected. A selection whose min/max amount ratio is exactly 0.70
    would pass the test of constraint 3 but is rejected: one of its
    amounts is further than 15% from the mean, so constraint 2 fails. *)
Theorem cycle_constraints_accept_boundaries (G : Graph) (ext_limit : Z)
    (cycle_path : list string) (e0 : Edge) (rest : list Edge) :
  let edges := e0 :: rest in
  let amounts := map e_amount edges in
  let ts_min := Cycles.Zlist_min (e_ts e0) (map e_ts rest) in
  let ts_max := Cycles.Zlist_max (e_ts e0) (map e_ts rest) in
  let mean_amount := (Qsum amounts / Qnat (length amounts))%Q in
  let lo := Cycles.Qlist_min (e_amount e0) (map e_amount rest) in
  let hi := Cycles.Qlist_max (e_amount e0) (map e_amount rest) in
  ((ts_max - ts_min <= Cycles.HOURS_72)%Z ->
   Props.exact_amounts amounts ->
   (0 < mean_amount)%Q ->
   Forall (fun a => (Qabs (a - mean_amount) / mean_amount <= 15 # 100)%Q)
          amounts ->
   Cycles.external_ok G ext_limit cycle_path ts_min ts_max = true ->
   Cycles.check_cycle_constraints G ext_limit cycle_path edges
   = Some {| Cycles.cr_nodes := cycle_path; Cycles.cr_edges := edges;
             Cycles.cr_total_amount := Qsum amounts |})
  /\ ((Cycles.HOURS_72 < ts_max - ts_min)%Z ->
      Cycles.check_cycle_constraints G ext_limit cycle_path edges = None)
  /\ ((0 < hi)%Q -> (lo / hi == 70 # 100)%Q ->
      Cycles.flow_ok lo hi = true
      /\ Cycles.variance_ok mean_amount amounts = false
      /\ Cycles.check_cycle_constraints G ext_limit cycle_path edges = None).
Proof.
  intros edges amounts ts_min ts_max mean_amount lo hi. split; [|split].
  - intros Hspan _ Hmean Hdev Hext.
    assert (Cycles.variance_ok mean_amount amounts = true) as Hvar.
    { unfold Cycles.variance_ok. apply forallb_forall. intros a Ha.
      apply QFacts.Qleb_le. rewrite Forall_forall in Hdev.
      now apply Hdev, list_elem_of_In. }
    pose proof (variance_implies_flow mean_amount (e_amount e0)
                  (map e_amount rest) Hmean Hvar) as Hflow.
    assert (Qeq_bool mean_amount 0 = false) as E0.
    { destruct (Qeq_bool mean_amount 0) eqn:E0; [|reflexivity].
      apply Qeq_bool_iff in E0. rewrite E0 in Hmean.
      now apply Qlt_irrefl in Hmean. }
    apply temporal_ok_iff in Hspan.
    unfold mean_amount, amounts, edges, ts_min, ts_max, Qnat in *.
    unfold Cycles.check_cycle_constraints. cbv zeta.
    rewrite Hspan. cbn [negb]. rewrite E0, Hvar. cbn [negb].
    cbn [map] in Hflow |- *. rewrite Hflow, Hext. reflexivity.
  - apply check_rejects_long_span.
  - intros Hpos Hr.
    destruct (ratio_seventy_fails_variance (e_amount e0) (map e_amount rest)
                Hpos Hr) as [Hm Hvar].
    cbv zeta in Hm, Hvar. split; [|split].
    + unfold Cycles.flow_ok, Cycles.flow_ratio.
      rewrite (proj2 (QFacts.Qltb_lt 0 hi) Hpos).
      rewrite negb_true_iff. apply QFacts.Qltb_ge. rewrite Hr. apply Qle_refl.
    + unfold mean_amount, amounts, edges. cbn [map length] in *.
      rewrite length_map. rewrite length_map in Hvar. exact Hvar.
    + unfold edges, Cycles.check_cycle_constraints. cbv zeta.
      destruct (negb (Cycles.temporal_ok _ _)); [reflexivity|].
      destruct (Qeq_bool _ 0); [reflexivity|].
      unfold Qnat in Hvar. cbn [map length] in *. rewrite length_map in *.
      rewrite Hvar. reflexivity.
Qed.

Lemma cycle_constraints_accept_boundaries_witness :
  Cycles.check_cycle_constraints Examples.boundary_graph 2
    Examples.boundary_cycle Examples.boundary_graph
  = Some {| Cycles.cr_nodes := Examples.boundary_cycle;
            Cycles.cr_edges := Examples.boundary_graph;
            Cycles.cr_total_amount := Qsum [85%Q; 115%Q; 85%Q; 115%Q] |}
  /\ Cycles.check_cycle_constraints Examples.boundary_graph 2
       Examples.boundary_cycle
       [Examples.tx "a" "b" 85 0; Examples.tx "b" "c" 115 1;
        Examples.tx "c" "d" 85 2;
        Examples.tx "d" "a" 115 (Cycles.HOURS_72 + 1)] = None
  /\ Cycles.check_cycle_constraints Cases.ratio_graph 2 Cases.ratio_cycle
       Cases.ratio_graph = None.
Proof.
  split; [|split].
  - refine (proj1 (cycle_constraints_accept_boundaries Examples.boundary_graph
                     2%Z Examples.boundary_cycle (Examples.tx "a" "b" 85 0)
                     [Examples.tx "b" "c" 115 1; Examples.tx "c" "d" 85 2;
                      Examples.tx "d" "a" 115 Cycles.HOURS_72]) _ _ _ _ _).
    + vm_compute. intros H. discriminate H.
    + split; [|split].
      * repeat constructor; [exists 85%Z|exists 115%Z|exists 85%Z|exists 115%Z];
          reflexivity.
      * exists 100%Z. reflexivity.
      * vm_compute. intros H. discriminate H.
    + reflexivity.
    + repeat constructor; vm_compute; intros H; discriminate H.
    + reflexivity.
  - refine (proj1 (proj2 (cycle_constraints_accept_boundaries
                     Examples.boundary_graph 2%Z Examples.boundary_cycle
                     (Examples.tx "a" "b" 85 0)
                     [Examples.tx "b" "c" 115 1; Examples.tx "c" "d" 85 2;
                      Examples.tx "d" "a" 115 (Cycles.HOURS_72 + 1)])) _).
    reflexivity.
  - refine (proj2 (proj2 (proj2 (proj2 (cycle_constraints_accept_boundaries
                     Cases.ratio_graph 2%Z Cases.ratio_cycle
                     (Examples.tx "a" "b" 70 0)
                     [Examples.tx "b" "c" 100 1; Examples.tx "c" "a" 100 2]))
                     _ _))).
    + reflexivity.
    + reflexivity.
Defined.

(** C6, the selection that refutes the acceptance of a min/max ratio of
    exactly 0.70: the amounts 70, 100 and 100 over a 3-cycle within two
    nanoseconds and without outside neighbours. The test of constraint 3
    holds for them, the amount 70 is 22% below the mean 90, and both the
    check of the selection and the validation of the cycle fail. *)
Lemma ratio_seventy_is_rejected :
  Cycles.flow_ok 70 100 = true
  /\ Cycles.variance_ok 90 [70%Q; 100%Q; 100%Q] = false
  /\ Cycles.check_cycle_constraints Cases.ratio_graph 2 Cases.ratio_cycle
       Cases.ratio_graph = None
  /\ Cycles.validate_cycle_edges Cases.ratio_graph 2 Cases.ratio_cycle = None.
Proof. repeat split; vm_compute; reflexivity. Qed.

(** The boundary selection is accepted by the whole validation. *)
Example boundary_cycle_validated :
  option_map Cycles.cr_nodes
    (Cycles.validate_cycle_edges Examples.boundary_graph 2
       Examples.boundary_cycle)
  = Some ["a"; "b"; "c"; "d"].
Proof. vm_compute. reflexivity. Qed.

(** ** Shell chains *)

Section ShellFacts.
Import Shells Specs.
Variable G : Graph.
Variable shell_candidates : gset string.
Variable min_intermediaries : nat.

Lemma is_path_snoc path : forall cur n,
  is_path G path -> last path = Some cur -> n ∈ successors G cur ->
  is_path G (path ++ [n]).
Proof.
  induction path as [|a t IH]; intros cur n Hp Hl Hn; [exact I|].
  destruct t as [|b t']; simpl in *.
  - injection Hl as ->. split; [exact Hn|exact I].
  - destruct Hp as [Hab Hp]. split; [exact Hab|].
    apply (IH cur n Hp Hl Hn).
Qed.

Local Abbreviation walk_inv := (Specs.walk_inv G).

Lemma expand_inv current path acc n :
  walk_entry G (current, path) -> (length path < 4)%nat ->
  n ∈ successors G current -> walk_inv acc ->
  walk_inv (expand shell_candidates min_intermediaries path acc n).
Proof.
  intros [Hp Hl] Hlen Hn. destruct acc as [[stack results] pf].
  intros [Hs Hr]. unfold expand. simpl in Hp, Hl.
  assert (is_path G (path ++ [n])) as Hp'
    by (eapply is_path_snoc; eauto).
  repeat case_bool_decide; unfold walk_inv; simpl; split; auto.
  - constructor; [|exact Hs]. split; simpl; [exact Hp'|apply last_snoc].
  - apply Forall_app. split; [exact Hr|].
    constructor; [|constructor]. split; [exact Hp'|].
    rewrite length_app. simpl. lia.
Qed.

Lemma fold_expand_inv current path l : forall acc,
  walk_entry G (current, path) -> (length path < 4)%nat ->
  (forall n, n ∈ l -> n ∈ successors G current) -> walk_inv acc ->
  walk_inv (fold_left (expand shell_candidates min_intermediaries path) l acc).
Proof.
  induction l as [|n t IH]; intros acc He Hlen Hl Hinv; simpl; [exact Hinv|].
  apply IH; auto.
  - intros m Hm. apply Hl. now right.
  - apply expand_inv with (current := current); auto. apply Hl. now left.
Qed.

Lemma shell_loop_inv fuel : forall stack results pf,
  Forall (walk_entry G) stack -> Forall (walked_chain G) results ->
  Forall (walked_chain G)
         (shell_loop fuel G shell_candidates min_intermediaries
                     stack results pf).
Proof.
  induction fuel as [|fuel IH]; intros stack results pf Hs Hr; simpl;
    [exact Hr|].
  destruct stack as [|[current path] stack']; [exact Hr|].
  apply Forall_cons in Hs as [He Hs].
  case_bool_decide; [exact Hr|].
  case_bool_decide as Hlen; [now apply IH|].
  destruct (fold_left _ _ _) as [[stack'' results'] pf'] eqn:E.
  assert (walk_inv (stack'', results', pf')) as [Hs' Hr'].
  { rewrite <- E. apply fold_expand_inv with (current := current); auto.
    - lia.
    - split; assumption. }
  now apply IH.
Qed.

Lemma chain_walk_walked fuel :
  Forall (walked_chain G)
         (chain_walk fuel G shell_candidates min_intermediaries).
Proof.
  unfold chain_walk.
  assert (forall l results,
             Forall (walked_chain G) results ->
             Forall (walked_chain G)
               (fold_left
                  (fun results node =>
                     if bool_decide (node ∈ shell_candidates) then results
                     else find_shell_chains fuel G shell_candidates
                            min_intermediaries node results) l results))
    as H.
  { induction l as [|n t IH]; intros results Hr; simpl; [exact Hr|].
    apply IH. case_bool_decide; [exact Hr|].
    unfold find_shell_chains. apply shell_loop_inv; [|exact Hr].
    constructor; [|constructor]. split; simpl; [exact I|reflexivity]. }
  apply H. constructor.
Qed.

(** Of at most four consecutive nodes, three that remain include two
    neighbours. *)
Lemma walked_chain_adjacent (immune : gset string) chain :
  walked_chain G chain ->
  (3 <= length (filter (fun a => a ∉ immune) chain))%nat ->
  exists a b, a ∈ filter (fun a => a ∉ immune) chain
              /\ b ∈ filter (fun a => a ∉ immune) chain
              /\ b ∈ successors G a.
Proof.
  intros [Hp Hlen] H3.
  destruct chain as [|x1 [|x2 [|x3 [|x4 [|x5 t]]]]]; simpl in Hlen; try lia;
    rewrite ?filter_cons, ?filter_nil in *;
    simpl in Hp;
    repeat case_decide; simpl in H3; try lia;
    repeat match goal with H : _ /\ _ |- _ => destruct H end.
  all: first
    [ exists x1, x2; repeat split; [set_solver|set_solver|assumption]
    | exists x2, x3; repeat split; [set_solver|set_solver|assumption]
    | exists x3, x4; repeat split; [set_solver|set_solver|assumption] ].
Qed.

Lemma sum_list_elem_le (l : list nat) x : x ∈ l -> (x <= sum_list l)%nat.
Proof.
  induction 1 as [x l|x y l Hin IH]; simpl; lia.
Qed.

Lemma internal_edges_pos (ms : gset string) a b :
  a ∈ ms -> b ∈ ms -> b ∈ successors G a ->
  (1 <= internal_edges G ms)%nat.
Proof.
  intros Ha Hb Hab. unfold internal_edges.
  set (f := fun m => length (filter (fun s => s ∈ ms) (successors G m))).
  assert (1 <= f a)%nat as H1.
  { unfold f.
    assert (b ∈ filter (fun s => s ∈ ms) (successors G a)) as Hin
      by (apply list_elem_of_filter; split; assumption).
    destruct (filter _ _); [inversion Hin|simpl; lia]. }
  assert (f a ∈ map f (elements ms)) as H2.
  { apply (list_elem_of_fmap_2 f). now apply elem_of_elements. }
  apply sum_list_elem_le in H2. lia.
Qed.

Lemma walked_chain_internal (immune : gset string) chain :
  walked_chain G chain ->
  (3 <= length (filter (fun a => a ∉ immune) chain))%nat ->
  (1 <= internal_edges G (list_to_set (filter (fun a => a ∉ immune) chain)))%nat.
Proof.
  intros Hw H3.
  destruct (walked_chain_adjacent immune chain Hw H3) as (a & b & Ha & Hb & Hab).
  apply (internal_edges_pos _ a b); auto; now apply elem_of_list_to_set.
Qed.
End ShellFacts.

(** C5. For every chain that chain walking hands to the hardening loop:
    when the external successor edges of its non-immune member set
    exceed 0.5 times the internal ones, the chain does not become a
    ring and the hardening loop leaves the candidate rings as they
    were; when they do not exceed it (equality included), rule 4 does
    not reject the chain. A chain that reaches the rules has at least
    one internal edge, so no chain with zero internal edges is let
    through by rule 4. *)
Theorem shell_hardening_external_ratio (fuel : nat) (G : Graph)
    (shell_candidates immune : gset string) (min_intermediaries : nat)
    (seen : list (gset string)) (chain : list string) :
  chain ∈ Shells.chain_walk fuel G shell_candidates min_intermediaries ->
  let member_set : gset string :=
    list_to_set (filter (fun a => a ∉ immune) chain) in
  let internal := Shells.internal_edges G member_set in
  let external := Shells.external_edges G member_set in
  ((Qnat internal * (5 # 10) < Qnat external)%Q ->
   (forall c, Shells.judge_chain G immune seen chain <> Shells.Accepted c)
   /\ forall hs, Shells.hs_rings (Shells.harden_step G immune hs chain)
                 = Shells.hs_rings hs)
  /\ ((Qnat external <= Qnat internal * (5 # 10))%Q ->
      Shells.judge_chain G immune seen chain <> Shells.Rejected 4)
  /\ (internal = 0%nat ->
      Shells.judge_chain G immune seen chain = Shells.Skipped).
Proof.
  intros Hin member_set internal external.
  pose proof (chain_walk_walked G shell_candidates min_intermediaries fuel)
    as Hall.
  rewrite Forall_forall in Hall. specialize (Hall chain Hin).
  assert ((3 <= length (filter (fun a => a ∉ immune) chain))%nat ->
          (1 <= internal)%nat) as Hpos
    by (apply walked_chain_internal; exact Hall).
  assert (forall seen',
             (Qnat internal * (5 # 10) < Qnat external)%Q ->
             forall c, Shells.judge_chain G immune seen' chain
                       <> Shells.Accepted c) as Hrej.
  { intros seen' Hgt c. unfold Shells.judge_chain. cbv zeta.
    change (list_to_set (filter (fun a => a ∉ immune) chain)) with member_set.
    change (Shells.internal_edges G member_set) with internal.
    change (Shells.external_edges G member_set) with external.
    destruct (bool_decide (_ < 3)%nat) eqn:E1; [discriminate|].
    apply bool_decide_eq_false in E1.
    assert (1 <= internal)%nat as Hint by (apply Hpos; lia).
    destruct (bool_decide (_ ∈ seen')); [discriminate|].
    destruct (bool_decide (12 < _)%nat); [discriminate|].
    destruct (Qltb 4 _); [discriminate|].
    destruct (bool_decide (8 < _)%nat); [discriminate|].
    assert (Shells.rule4_rejects internal external = true) as ->.
    { unfold Shells.rule4_rejects. apply andb_true_iff. split.
      - apply bool_decide_eq_true. lia.
      - now apply QFacts.Qltb_lt. }
    discriminate. }
  split; [|split].
  - intros Hgt. split; [now apply Hrej|].
    intros hs. unfold Shells.harden_step.
    destruct (bool_decide (Shells.MAX_SHELL_RINGS <= _)%nat); [reflexivity|].
    destruct (Shells.judge_chain G immune (Shells.hs_seen hs) chain) eqn:E;
      try reflexivity.
    exfalso. eapply Hrej; eauto.
  - intros Hle. unfold Shells.judge_chain. cbv zeta.
    change (list_to_set (filter (fun a => a ∉ immune) chain)) with member_set.
    change (Shells.internal_edges G member_set) with internal.
    change (Shells.external_edges G member_set) with external.
    destruct (bool_decide (_ < 3)%nat); [discriminate|].
    destruct (bool_decide (_ ∈ seen)); [discriminate|].
    destruct (bool_decide (12 < _)%nat); [discriminate|].
    destruct (Qltb 4 _); [discriminate|].
    destruct (bool_decide (8 < _)%nat); [discriminate|].
    assert (Shells.rule4_rejects internal external = false) as ->.
    { unfold Shells.rule4_rejects. apply andb_false_iff. right.
      now apply QFacts.Qltb_ge. }
    destruct (_ && _); discriminate.
  - intros Hz. unfold Shells.judge_chain. cbv zeta.
    destruct (bool_decide (_ < 3)%nat) eqn:E1; [reflexivity|].
    apply bool_decide_eq_false in E1.
    assert (1 <= internal)%nat as Hint by (apply Hpos; lia). lia.
Qed.

Lemma shell_chain_walked_over :
  Examples.shell_chain
  ∈ Shells.chain_walk 100 Examples.shell_graph_over {["c1"]} 1.
Proof. vm_compute. apply list_elem_of_here. Defined.

Lemma shell_chain_walked_equal :
  Examples.shell_chain
  ∈ Shells.chain_walk 100 Examples.shell_graph_equal {["c1"]} 1.
Proof. vm_compute. apply list_elem_of_here. Defined.

Lemma shell_hardening_external_ratio_witness :
  (forall c,
      Shells.judge_chain Examples.shell_graph_over ∅ [] Examples.shell_chain
      <> Shells.Accepted c)
  /\ Shells.judge_chain Examples.shell_graph_equal ∅ [] Examples.shell_chain
     <> Shells.Rejected 4.
Proof.
  pose proof (shell_hardening_external_ratio 100 Examples.shell_graph_over
                {["c1"]} ∅ 1 [] Examples.shell_chain
                shell_chain_walked_over) as Tover.
  pose proof (shell_hardening_external_ratio 100 Examples.shell_graph_equal
                {["c1"]} ∅ 1 [] Examples.shell_chain
                shell_chain_walked_equal) as Tequal.
  cbv zeta in Tover, Tequal.
  destruct Tover as (T1 & _ & _). destruct Tequal as (_ & T2 & _).
  split.
  - refine (proj1 (T1 _)). vm_compute. reflexivity.
  - apply T2. apply Qle_bool_iff. vm_compute. reflexivity.
Defined.

Example shell_chain_over_rejected :
  Shells.judge_chain Examples.shell_graph_over ∅ [] Examples.shell_chain
  = Shells.Rejected 4.
Proof. vm_compute. reflexivity. Qed.

Example shell_chain_equal_accepted :
  match Shells.judge_chain Examples.shell_graph_equal ∅ []
          Examples.shell_chain with
  | Shells.Accepted c => c_members c = ["c1"; "e"; "s"]
  | _ => False
  end.
Proof. vm_compute. reflexivity. Qed.

(** ** Smurf rings *)

Section SmurfFacts.
Import Smurf.
Variable immune : gset string.
Variable c : SmurfCand.

Lemma hub_set_size : (size (hub_set immune c) <= 1)%nat.
Proof.
  unfold hub_set. case_bool_decide.
  - rewrite size_empty. lia.
  - rewrite size_singleton. lia.
Qed.

Lemma size_list_to_set_le (l : list string) :
  (size (list_to_set l : gset string) <= length l)%nat.
Proof.
  induction l as [|x l IH].
  - rewrite list_to_set_nil, size_empty. simpl. lia.
  - rewrite list_to_set_cons, size_union_alt, size_singleton. simpl.
    pose proof (subseteq_size
                  ((list_to_set l : gset string) ∖ {[x]}) (list_to_set l))
      as Hsz.
    assert ((list_to_set l : gset string) ∖ {[x]} ⊆ list_to_set l) as Hs
      by (intros y Hy; apply elem_of_difference in Hy; tauto).
    specialize (Hsz Hs). lia.
Qed.

Lemma size_union_take (keep : gset string) (l : list string) (b : nat) :
  (size (keep ∪ list_to_set (take b l)) <= size keep + b)%nat.
Proof.
  rewrite size_union_alt.
  pose proof (subseteq_size
                ((list_to_set (take b l) : gset string) ∖ keep)
                (list_to_set (take b l))) as Hsz.
  assert ((list_to_set (take b l) : gset string) ∖ keep
          ⊆ list_to_set (take b l)) as Hs
    by (intros y Hy; apply elem_of_difference in Hy; tauto).
  specialize (Hsz Hs).
  pose proof (size_list_to_set_le (take b l)) as H2.
  rewrite length_take in H2. lia.
Qed.

Lemma capped_members_size :
  (size (capped_members immune c) <= MAX_SMURF_RING_SIZE)%nat.
Proof.
  unfold capped_members. cbv zeta.
  set (keep1 := hub_set immune c ∪ list_to_set (take _ _)).
  assert (size keep1 <= MAX_SMURF_RING_SIZE)%nat as H1.
  { unfold keep1. etransitivity; [apply size_union_take|].
    pose proof hub_set_size. unfold MAX_SMURF_RING_SIZE. lia. }
  etransitivity; [apply size_union_take|]. lia.
Qed.

Lemma elem_of_take_sorted_set (s : gset string) b x :
  x ∈ take b (PyStr.sorted_set s) -> x ∈ s.
Proof.
  intros H. apply PyStrFacts.elem_of_sorted_set.
  eapply elem_of_take_elem; eauto.
Qed.

Lemma capped_members_subseteq :
  capped_members immune c ⊆ full_members immune c.
Proof.
  unfold capped_members, full_members. cbv zeta. intros x.
  rewrite !elem_of_union, !elem_of_list_to_set.
  intros [[H|H]|H]; auto.
  - left. right. eapply elem_of_take_sorted_set; eauto.
  - right. eapply elem_of_take_sorted_set; eauto.
Qed.

Lemma all_members_set_size :
  (size (all_members_set immune c) <= MAX_SMURF_RING_SIZE)%nat.
Proof.
  unfold all_members_set. case_bool_decide; [apply capped_members_size|lia].
Qed.

Lemma all_members_set_subseteq :
  all_members_set immune c ⊆ full_members immune c.
Proof.
  unfold all_members_set. case_bool_decide;
    [apply capped_members_subseteq|reflexivity].
Qed.

Lemma hub_in_all_members :
  sc_hub c ∉ immune -> sc_hub c ∈ all_members_set immune c.
Proof.
  intros Hn. unfold all_members_set, capped_members, full_members, hub_set.
  rewrite (bool_decide_eq_false_2 _ Hn). case_bool_decide; set_solver.
Qed.

Lemma score_candidate_Some (G : Graph) (seen : list (list string)) :
  is_Some (score_candidate G immune seen c) <->
  sc_in_txns c <> []
  /\ (0 < incoming_sum c)%Q
  /\ (4 <= combined_score immune c)%Q
  /\ (4 <= length (all_members immune c))%nat
  /\ all_members immune c ∉ seen.
Proof.
  unfold score_candidate.
  destruct (sc_in_txns c) as [|t0 ts] eqn:Ein.
  { split; [intros [? ?]; discriminate|intros [? _]; congruence]. }
  destruct (Qleb (incoming_sum c) 0) eqn:E1.
  { split; [intros [? ?]; discriminate|].
    intros (_ & H & _). apply QFacts.Qleb_le in E1.
    exfalso. eapply Qlt_not_le; eauto. }
  apply QFacts.Qleb_gt in E1.
  destruct (Qltb (combined_score immune c) 4) eqn:E2.
  { split; [intros [? ?]; discriminate|].
    intros (_ & _ & H & _). apply QFacts.Qltb_lt in E2.
    exfalso. eapply Qlt_not_le; eauto. }
  apply QFacts.Qltb_ge in E2.
  case_bool_decide as E3.
  { split; [intros [? ?]; discriminate|]. intros (_ & _ & _ & H & _). lia. }
  case_bool_decide as E4.
  { split; [intros [? ?]; discriminate|]. intros (_ & _ & _ & _ & H). done. }
  split; [|eauto].
  intros _. split; [discriminate|]. split; [exact E1|].
  split; [exact E2|]. split; [lia|exact E4].
Qed.

Lemma score_candidate_members (G : Graph) (seen : list (list string)) ring :
  score_candidate G immune seen c = Some ring ->
  c_members ring = all_members immune c
  /\ c_pattern_type ring = "smurfing"
  /\ c_core_account ring = Some (sc_hub c).
Proof.
  unfold score_candidate.
  destruct (sc_in_txns c); [discriminate|].
  destruct (Qleb _ 0); [discriminate|].
  destruct (Qltb _ 4); [discriminate|].
  repeat (case_bool_decide; [discriminate|]).
  intros [= <-]. auto.
Qed.
End SmurfFacts.

(** C7, as the code has it. A smurfing candidate becomes a candidate
    ring exactly when it has inbound transfers with a positive sum, its
    combined sub-score is at least 4.0, its final member count is at
    least 4 and its sorted member tuple was not emitted before. The
    members of the ring are the sorted member set: a subset of the hub
    (if not immune), the non-immune inbound peers and the non-immune
    outbound peers, all of them when they are at most 15, never more
    than 15, and always with the non-immune hub; above 15 the kept
    members are the hub, then a prefix of the sorted inbound peers,
    then a prefix of the sorted outbound peers. Once a ring is
    emitted, a candidate with the same member tuple is not emitted
    again. *)
Theorem smurf_ring_emission (G : Graph) (immune : gset string)
    (ss : Smurf.score_state) (c : Smurf.SmurfCand) :
  (is_Some (Smurf.score_candidate G immune (Smurf.ss_seen ss) c) <->
   Smurf.sc_in_txns c <> []
   /\ (0 < Smurf.incoming_sum c)%Q
   /\ (4 <= Smurf.combined_score immune c)%Q
   /\ (4 <= length (Smurf.all_members immune c))%nat
   /\ Smurf.all_members immune c ∉ Smurf.ss_seen ss)
  /\ (forall ring,
         Smurf.score_candidate G immune (Smurf.ss_seen ss) c = Some ring ->
         c_members ring = Smurf.all_members immune c
         /\ forall c',
             Smurf.all_members immune c' = Smurf.all_members immune c ->
             Smurf.score_candidate G immune
               (Smurf.ss_seen (Smurf.score_step G immune ss c)) c' = None)
  /\ (length (Smurf.all_members immune c) <= 15)%nat
  /\ (forall x, x ∈ Smurf.all_members immune c ->
                x ∈ Smurf.full_members immune c)
  /\ ((size (Smurf.full_members immune c) <= 15)%nat ->
      forall x, x ∈ Smurf.full_members immune c ->
                x ∈ Smurf.all_members immune c)
  /\ (Smurf.sc_hub c ∉ immune -> Smurf.sc_hub c ∈ Smurf.all_members immune c)
  /\ ((15 < size (Smurf.full_members immune c))%nat ->
      let kept_in :=
        take (15 - size (Smurf.hub_set immune c))
             (PyStr.sorted_set (Smurf.inbound_accounts immune c)) in
      let kept_out :=
        take (15 - size (Smurf.hub_set immune c ∪ list_to_set kept_in))
             (PyStr.sorted_set (Smurf.outbound_accounts immune c)) in
      forall x, x ∈ Smurf.all_members immune c <->
                x ∈ Smurf.hub_set immune c \/ x ∈ kept_in \/ x ∈ kept_out)
  /\ StronglySorted PyStr.le (Smurf.all_members immune c)
  /\ NoDup (Smurf.all_members immune c).
Proof.
  split; [apply score_candidate_Some|].
  split.
  { intros ring Hr.
    destruct (score_candidate_members immune c G _ ring Hr) as (Hm & _ & _).
    split; [exact Hm|]. intros c' Heq.
    unfold Smurf.score_step. rewrite Hr. simpl.
    destruct (Smurf.score_candidate G immune _ c') as [r'|] eqn:E;
      [|reflexivity].
    exfalso.
    assert (is_Some (Smurf.score_candidate G immune
                       (Smurf.ss_seen ss ++ [c_members ring]) c')) as Hs
      by (rewrite E; eauto).
    apply score_candidate_Some in Hs as (_ & _ & _ & _ & Hn).
    apply Hn. rewrite Heq, <- Hm. apply elem_of_app. right. now left. }
  unfold Smurf.all_members.
  split; [rewrite PyStrFacts.length_sorted_set; apply all_members_set_size|].
  split.
  { intros x Hx. apply PyStrFacts.elem_of_sorted_set in Hx.
    now apply all_members_set_subseteq. }
  split.
  { intros Hsz x Hx. apply PyStrFacts.elem_of_sorted_set.
    unfold Smurf.all_members_set.
    rewrite bool_decide_eq_false_2; [exact Hx|].
    unfold Smurf.MAX_SMURF_RING_SIZE. lia. }
  split.
  { intros Hn. apply PyStrFacts.elem_of_sorted_set.
    now apply hub_in_all_members. }
  split.
  { intros Hbig x.
    rewrite PyStrFacts.elem_of_sorted_set. unfold Smurf.all_members_set.
    rewrite bool_decide_eq_true_2 by exact Hbig.
    unfold Smurf.capped_members, Smurf.MAX_SMURF_RING_SIZE. cbv zeta.
    rewrite !elem_of_union, !elem_of_list_to_set. tauto. }
  split; [apply PyStrFacts.sorted_set_sorted|apply PyStrFacts.sorted_set_NoDup].
Qed.

Lemma smurf_ring_emission_witness :
  is_Some (Smurf.score_candidate Examples.smurf_graph ∅ [] Examples.smurf_paid).
Proof.
  apply (proj1 (smurf_ring_emission Examples.smurf_graph ∅
                  {| Smurf.ss_seen := []; Smurf.ss_rings := [];
                     Smurf.ss_patterns := ∅ |} Examples.smurf_paid)).
  split; [discriminate|].
  split; [vm_compute; reflexivity|].
  split; [vm_compute; discriminate|].
  split; [vm_compute; repeat constructor|].
  apply not_elem_of_nil.
Defined.

(** C7, counterexample: the candidate has a combined sub-score of 4.0
    and seven members, and it does not become a ring, because the sum of
    its inbound amounts is 0. *)
Lemma smurf_zero_sum_not_emitted :
  (Smurf.combined_score ∅ Examples.smurf_zero == 4)%Q
  /\ length (Smurf.all_members ∅ Examples.smurf_zero) = 7%nat
  /\ Smurf.score_candidate Examples.smurf_graph ∅ [] Examples.smurf_zero
     = None.
Proof. repeat split; vm_compute; reflexivity. Qed.

(** The cap at work: of sixteen members the last outbound peer in sorted
    order is dropped. *)
Example smurf_wide_capped :
  length (elements (Smurf.full_members ∅ Examples.smurf_wide)) = 16%nat
  /\ Smurf.all_members ∅ Examples.smurf_wide
     = ["H"; "r1"; "r2"; "s01"; "s02"; "s03"; "s04"; "s05"; "s06"; "s07";
        "s08"; "s09"; "s10"; "s11"; "s12"].
Proof. split; vm_compute; reflexivity. Qed.

(** ** Immune accounts through the rest of the run *)

Section AvoidFacts.
Import Rings.
Variable M : string.

Local Abbreviation cands_avoid := (Specs.cands_avoid M).
Local Abbreviation rings_avoid := (Specs.rings_avoid M).
Local Abbreviation arb_avoid := (Specs.arb_avoid M).

Lemma core_append_avoid k c d :
  M ∉ c_members c -> Forall (fun kg => cands_avoid (snd kg)) d ->
  Forall (fun kg => cands_avoid (snd kg)) (core_append k c d).
Proof.
  intros Hc Hd. induction Hd as [|[k' l] t Hl Ht IH]; simpl.
  - repeat constructor. exact Hc.
  - destruct (String.eqb k k'); constructor; auto. simpl in *.
    apply Forall_app. split; [exact Hl|]. repeat constructor. exact Hc.
Qed.

Lemma merged_avoid core (group : list Candidate)
    (uf_groups : list (nat * list nat)) :
  cands_avoid group ->
  cands_avoid
    (map (fun '(_, indices) =>
            let picked := omap (fun idx => group !! idx) indices in
            let merged_members : gset string :=
              ⋃ (map (fun g => list_to_set (c_members g)) picked) in
            let best_confidence :=
              fold_left (fun b g => Qmax b (c_confidence_score g)) picked 0%Q in
            let best_risk :=
              fold_left (fun b g => Qmax b (c_risk_score g)) picked 0%Q in
            {| c_members := PyStr.sorted_set merged_members;
               c_pattern_type := "smurfing";
               c_risk_score := round1 best_risk;
               c_confidence_score := best_confidence;
               c_core_account := Some core |})
         uf_groups).
Proof.
  intros Hg. unfold cands_avoid. apply Forall_fmap, Forall_forall.
  intros [k indices] _. simpl.
  rewrite PyStrFacts.elem_of_sorted_set, elem_of_union_list.
  intros (X & HX & HM).
  apply list_elem_of_fmap in HX as (g & -> & Hg').
  apply list_elem_of_omap in Hg' as (idx & _ & Hl).
  apply list_elem_of_lookup_2 in Hl.
  unfold cands_avoid in Hg. rewrite Forall_forall in Hg.
  apply (Hg g Hl). now apply elem_of_list_to_set in HM.
Qed.

Lemma merge_group_avoid core group :
  cands_avoid group -> cands_avoid (merge_group core group).
Proof.
  intros Hg. unfold merge_group.
  destruct group as [|c [|c' t]]; [|exact Hg|];
    destruct (fold_left _ (seq 0 _) (_, [])) as [p uf_groups];
    now apply merged_avoid.
Qed.

Lemma smurf_consolidation_avoid cs :
  cands_avoid cs -> cands_avoid (smurf_consolidation cs).
Proof.
  intros Hc. unfold smurf_consolidation.
  destruct (filter (fun c => is_smurf c = true) cs) as [|s0 ss] eqn:E;
    [exact Hc|].
  rewrite <- E. apply Forall_app. split.
  - apply Forall_forall. intros c Hin.
    apply list_elem_of_filter in Hin as [_ Hin].
    unfold cands_avoid in Hc. rewrite Forall_forall in Hc. auto.
  - assert (cands_avoid (filter (fun c => is_smurf c = true) cs)) as Hs.
    { apply Forall_forall. intros c Hin.
      apply list_elem_of_filter in Hin as [_ Hin].
      unfold cands_avoid in Hc. rewrite Forall_forall in Hc. auto. }
    assert (forall l d,
               cands_avoid l ->
               Forall (fun kg => cands_avoid (snd kg)) d ->
               Forall (fun kg => cands_avoid (snd kg))
                 (fold_left
                    (fun d s =>
                       core_append (default "unknown" (c_core_account s)) s d)
                    l d)) as Hfold.
    { induction l as [|s l IH]; intros d Hl Hd; simpl; [exact Hd|].
      apply Forall_cons in Hl as [Hs0 Hl].
      apply IH; [exact Hl|]. now apply core_append_avoid. }
    specialize (Hfold _ [] Hs (List.Forall_nil _)).
    induction Hfold as [|[core group] t Hg Ht IH]; simpl; [constructor|].
    apply Forall_app. split; [now apply merge_group_avoid|exact IH].
Qed.

Lemma claim_fold_rings idx l : forall s,
  final_rings (fold_left (claim idx) l s) = final_rings s.
Proof. induction l as [|n t IH]; intros s; simpl; [|rewrite IH]; reflexivity. Qed.

Lemma merge_into_avoid s cand members overlap :
  arb_avoid s -> M ∉ members -> arb_avoid (merge_into s cand members overlap).
Proof.
  intros Hs Hm. unfold merge_into.
  destruct (best_key _) as [best|]; [|exact Hs].
  destruct (final_rings s !! best) as [target|] eqn:El; [|exact Hs].
  unfold arb_avoid. rewrite claim_fold_rings. simpl.
  unfold arb_avoid, rings_avoid in *.
  apply Forall_insert; [exact Hs|]. simpl.
  rewrite Forall_forall in Hs.
  assert (M ∉ member_accounts target) as Ht
    by (apply Hs; eapply list_elem_of_lookup_2; eauto).
  rewrite PyStrFacts.elem_of_sorted_set, elem_of_union, elem_of_list_to_set.
  intros [Hin|Hin]; [contradiction|].
  destruct (is_cycle _).
  - apply elem_of_difference in Hin as [Hin _]. contradiction.
  - apply elem_of_list_to_set, elem_of_take_elem in Hin.
    apply PyStrFacts.elem_of_sorted_set in Hin.
    apply elem_of_difference in Hin as [Hin _]. contradiction.
Qed.

Lemma accept_avoid s cand members :
  arb_avoid s -> M ∉ members -> arb_avoid (accept s cand members).
Proof.
  intros Hs Hm. unfold accept. cbv zeta.
  case_bool_decide; [exact Hs|].
  unfold arb_avoid. rewrite claim_fold_rings. simpl.
  apply Forall_app. split; [exact Hs|].
  constructor; [|constructor]. simpl.
  destruct (_ && _).
  - intros Hin. apply elem_of_take_elem in Hin.
    now apply PyStrFacts.elem_of_sorted_set in Hin.
  - now rewrite PyStrFacts.elem_of_sorted_set.
Qed.

Lemma arbitrate_step_avoid s cand :
  arb_avoid s -> M ∉ c_members cand -> arb_avoid (arbitrate_step s cand).
Proof.
  intros Hs Hc. unfold arbitrate_step. cbv zeta.
  assert (M ∉ (list_to_set (c_members cand) : gset string)) as Hm
    by now rewrite elem_of_list_to_set.
  destruct (Qltb _ _); [now apply merge_into_avoid|now apply accept_avoid].
Qed.

Lemma arbitrate_rings_avoid cs :
  cands_avoid cs -> rings_avoid (arbitrate_rings cs).
Proof.
  intros Hc. unfold arbitrate_rings.
  destruct cs as [|c0 cs']; [constructor|].
  remember (c0 :: cs') as cs eqn:Ecs. clear Ecs.
  assert (forall l s, cands_avoid l -> arb_avoid s ->
                      arb_avoid (fold_left arbitrate_step l s)) as Hfold.
  { induction l as [|c l IH]; intros s Hl Hs; simpl; [exact Hs|].
    apply Forall_cons in Hl as [Hc0 Hl].
    apply IH; [exact Hl|]. now apply arbitrate_step_avoid. }
  assert (cands_avoid (stable_sort cand_leb cs)) as Hsorted.
  { unfold cands_avoid. now rewrite stable_sort_perm. }
  specialize (Hfold _ {| final_rings := []; used_nodes := ∅;
                         node_to_ring_idx := ∅ |} Hsorted (List.Forall_nil _)).
  unfold arb_avoid in Hfold.
  unfold assign_ids, rings_avoid.
  apply Forall_forall. intros r Hr.
  apply list_elem_of_lookup in Hr as (i & Hi).
  rewrite list_lookup_imap in Hi.
  destruct (stable_sort ring_leb _ !! i) as [r0|] eqn:E; [|discriminate].
  simpl in Hi. injection Hi as <-. simpl.
  apply list_elem_of_lookup_2 in E. rewrite stable_sort_perm in E.
  unfold rings_avoid in Hfold. rewrite Forall_forall in Hfold. auto.
Qed.
End AvoidFacts.

Section CleanupFacts.
Import Pipeline Scoring Specs.
Variable M : string.

Lemma patterns_of_insert a v (ap : gmap string (gset string)) :
  patterns_of (<[a := v]> ap) M =
  if bool_decide (a = M) then v else patterns_of ap M.
Proof.
  unfold patterns_of. case_bool_decide as E.
  - subst. now rewrite lookup_insert_eq.
  - now rewrite lookup_insert_ne.
Qed.

Lemma strip_fold_subseteq l : forall ap,
  M ∈ l \/ patterns_of ap M ⊆ immune_keep ->
  patterns_of
    (fold_left (fun ap acc => <[acc := patterns_of ap acc ∩ immune_keep]> ap)
               l ap) M ⊆ immune_keep.
Proof.
  induction l as [|a l IH]; intros ap Hor; simpl.
  - destruct Hor as [Hin|Hsub]; [inversion Hin|exact Hsub].
  - apply IH. rewrite patterns_of_insert.
    destruct (decide (a = M)) as [->|Hne].
    + right. rewrite bool_decide_eq_true_2 by reflexivity.
      intros x Hx. apply elem_of_intersection in Hx. tauto.
    + rewrite bool_decide_eq_false_2 by exact Hne.
      destruct Hor as [Hin|Hsub]; [|now right].
      left. apply elem_of_cons in Hin as [Heq|Hin]; [congruence|exact Hin].
Qed.

Lemma strip_immune_subseteq (immune : gset string) ap :
  M ∈ immune -> patterns_of (strip_immune immune ap) M ⊆ immune_keep.
Proof.
  intros Hin. unfold strip_immune. apply strip_fold_subseteq.
  left. now apply elem_of_elements.
Qed.

Lemma clean_candidates_avoid (immune : gset string) cs :
  M ∈ immune -> cands_avoid M (clean_candidates immune cs).
Proof.
  intros Hin. unfold cands_avoid, clean_candidates.
  apply Forall_forall. intros c' Hc'.
  apply list_elem_of_omap in Hc' as (c0 & _ & Hc0).
  case_bool_decide; [|discriminate]. injection Hc0 as <-. simpl.
  rewrite PyStrFacts.elem_of_sorted_list, list_elem_of_filter.
  intros [Hn _]. contradiction.
Qed.

Lemma first_group_subseteq patterns groups :
  first_group patterns groups ⊆ patterns.
Proof.
  induction groups as [|g t IH]; simpl.
  - intros x Hx. now apply not_elem_of_empty in Hx.
  - case_bool_decide; [|exact IH].
    intros x Hx. apply elem_of_intersection in Hx. tauto.
Qed.

Lemma keep_patterns_subseteq patterns : keep_patterns patterns ⊆ patterns.
Proof.
  unfold keep_patterns. intros x Hx.
  apply elem_of_union in Hx as [Hx|Hx].
  - apply elem_of_intersection in Hx. tauto.
  - now apply first_group_subseteq in Hx.
Qed.

Lemma hierarchy_patterns_subseteq (ap : gmap string (gset string)) :
  patterns_of (keep_patterns <$> ap) M ⊆ patterns_of ap M.
Proof.
  unfold patterns_of. rewrite lookup_fmap.
  destruct (ap !! M) as [p|]; simpl;
    [apply keep_patterns_subseteq|reflexivity].
Qed.

Lemma add_pattern_subseteq n p (ap : gmap string (gset string)) :
  patterns_of (add_pattern n p ap) M ⊆ patterns_of ap M ∪ {[p]}.
Proof.
  unfold add_pattern. rewrite patterns_of_insert.
  case_bool_decide as E.
  - subst. reflexivity.
  - intros x Hx. apply elem_of_union. now left.
Qed.

Lemma isolation_step_patterns G acc n :
  patterns_of (isolation_step G acc n).2 M
  ⊆ patterns_of acc.2 M ∪ {["isolation_cluster"]}.
Proof.
  destruct acc as [prelim ap]. unfold isolation_step.
  destruct (Qleb _ 0); simpl.
  - intros x Hx. apply elem_of_union. now left.
  - case_bool_decide; simpl.
    + apply add_pattern_subseteq.
    + intros x Hx. apply elem_of_union. now left.
Qed.

Lemma isolation_fold_patterns G ns : forall acc,
  patterns_of (fold_left (isolation_step G) ns acc).2 M
  ⊆ patterns_of acc.2 M ∪ {["isolation_cluster"]}.
Proof.
  induction ns as [|n t IH]; intros acc; simpl.
  - intros x Hx. apply elem_of_union. now left.
  - etransitivity; [apply IH|].
    intros x Hx. apply elem_of_union in Hx as [Hx|Hx].
    + now apply isolation_step_patterns in Hx.
    + apply elem_of_union. now right.
Qed.

Lemma second_pass_patterns G ns prelim ap :
  patterns_of (second_pass G ns prelim ap).2 M
  ⊆ patterns_of ap M ∪ {["isolation_cluster"]}.
Proof. apply (isolation_fold_patterns G ns (prelim, ap)). Qed.

Lemma immune_tags_not_active :
  immune_keep ∪ {["isolation_cluster"]} ⊆ NON_ACTIVE.
Proof.
  intros x. unfold immune_keep, NON_ACTIVE.
  rewrite elem_of_union, !elem_of_list_to_set, elem_of_singleton.
  rewrite !elem_of_cons. tauto.
Qed.

Lemma suppress_tags_only st patterns score :
  patterns ⊆ immune_keep ∪ {["isolation_cluster"]} ->
  suppress st patterns M score = 0%Q.
Proof.
  intros Hsub. unfold suppress. cbv zeta.
  rewrite (bool_decide_eq_true_2 (patterns ∖ NON_ACTIVE ⊆ VELOCITY_ONLY)).
  - destruct (bool_decide (M ∈ immune_accounts st) && _);
      destruct (bool_decide (M ∈ high_degree_hubs st) && _); reflexivity.
  - intros x Hx. apply elem_of_difference in Hx as [Hx Hn].
    exfalso. apply Hn, immune_tags_not_active, Hsub, Hx.
Qed.
End CleanupFacts.

Section ScoreItems.
Context {V : Type}.

Lemma elem_of_dict_set k v k' (v' : V) d :
  (k, v) ∈ dict_set k' v' d -> (k, v) ∈ d \/ (k = k' /\ v = v').
Proof.
  induction d as [|[k0 v0] t IH]; simpl.
  - intros Hin. apply list_elem_of_singleton in Hin. injection Hin as -> ->.
    now right.
  - destruct (String.eqb k' k0) eqn:E.
    + apply String.eqb_eq in E. subst k0.
      intros Hin. apply elem_of_cons in Hin as [Heq|Hin].
      * injection Heq as -> ->. now right.
      * left. now right.
    + intros Hin. apply elem_of_cons in Hin as [Heq|Hin].
      * left. rewrite Heq. now left.
      * destruct (IH Hin) as [H1|H1]; [left; now right|now right].
Qed.

Lemma elem_of_fold_dict_set (g : string -> V) l : forall d k v,
  (k, v) ∈ fold_left (fun d n => dict_set n (g n) d) l d ->
  (k, v) ∈ d \/ (k ∈ l /\ v = g k).
Proof.
  induction l as [|a t IH]; intros d k v Hin; simpl in Hin; [now left|].
  destruct (IH _ _ _ Hin) as [H1|[H1 H2]].
  - apply elem_of_dict_set in H1 as [H1|[-> ->]]; [now left|].
    right. split; [now left|reflexivity].
  - right. split; [now right|exact H2].
Qed.
End ScoreItems.

Lemma calculate_scores_items (anomaly_bonus : nat -> Q) (st : Engine)
    (k : string) (v : Q) :
  suspicion_scores st = [] ->
  (k, v) ∈ suspicion_scores
             (Scoring.calculate_suspicion_scores anomaly_bonus st) ->
  exists G, eng_G st = Some G /\ k ∈ nodes G
            /\ v = Scoring.final_gate
                     (Scoring.post_suppression anomaly_bonus st G k).
Proof.
  intros Hempty. unfold Scoring.calculate_suspicion_scores,
    Scoring.post_suppression.
  destruct (eng_G st) as [G|]; [|rewrite Hempty; intros H; inversion H].
  case_bool_decide; [rewrite Hempty; intros H0; inversion H0|].
  destruct (Scoring.second_pass _ _ _ _) as [prelim ap] eqn:E2. simpl.
  unfold Scoring.third_pass. rewrite Hempty. intros Hin.
  apply (elem_of_fold_dict_set
           (fun n => Scoring.final_gate
                       (Scoring.suppress st (patterns_of ap n) n
                          (default 0%Q (dict_get n prelim))))) in Hin
    as [Hin|[Hin ->]]; [inversion Hin|].
  exists G. split; [reflexivity|]. split; [exact Hin|].
  now rewrite E2.
Qed.

Lemma calculate_patterns (anomaly_bonus : nat -> Q) (st : Engine) (G : Graph) :
  eng_G st = Some G -> nodes G <> [] ->
  account_patterns (Scoring.calculate_suspicion_scores anomaly_bonus st) =
  (Scoring.second_pass G (nodes G)
     (Scoring.first_pass anomaly_bonus st (nodes G)) (account_patterns st)).2.
Proof.
  intros HG Hne. unfold Scoring.calculate_suspicion_scores. rewrite HG.
  rewrite bool_decide_eq_false_2 by exact Hne.
  destruct (Scoring.second_pass _ _ _ _) as [prelim ap]. reflexivity.
Qed.

Section FinishRunFacts.
Import Pipeline Specs.
Variable anomaly_bonus : nat -> Q.

Lemma before_scoring_G st : eng_G (Pipeline.before_scoring st) = eng_G st.
Proof.
  unfold before_scoring, apply_pattern_hierarchy, Rings.consolidate_rings.
  simpl. destruct (clean_candidates _ _); reflexivity.
Qed.

Lemma before_scoring_immune st :
  immune_accounts (Pipeline.before_scoring st) = immune_accounts st.
Proof.
  unfold before_scoring, apply_pattern_hierarchy, Rings.consolidate_rings.
  simpl. destruct (clean_candidates _ _); reflexivity.
Qed.

Lemma before_scoring_patterns st :
  account_patterns (Pipeline.before_scoring st) =
  keep_patterns <$> strip_immune (immune_accounts st) (account_patterns st).
Proof.
  unfold before_scoring, apply_pattern_hierarchy, Rings.consolidate_rings.
  simpl. destruct (clean_candidates _ _); reflexivity.
Qed.

Lemma before_scoring_rings st M :
  M ∈ immune_accounts st -> fraud_rings st = [] ->
  rings_avoid M (fraud_rings (Pipeline.before_scoring st)).
Proof.
  intros Hin Hempty.
  unfold before_scoring, apply_pattern_hierarchy, Rings.consolidate_rings.
  simpl.
  pose proof (clean_candidates_avoid M (immune_accounts st)
                (candidate_rings st) Hin) as Hc.
  destruct (clean_candidates _ _) as [|c0 cs] eqn:E; simpl.
  - rewrite Hempty. constructor.
  - apply arbitrate_rings_avoid, smurf_consolidation_avoid, Hc.
Qed.

Lemma calculate_rings st :
  fraud_rings (Scoring.calculate_suspicion_scores anomaly_bonus st) =
  fraud_rings st.
Proof.
  unfold Scoring.calculate_suspicion_scores.
  destruct (eng_G st); [|reflexivity].
  case_bool_decide; [reflexivity|].
  destruct (Scoring.second_pass _ _ _ _). reflexivity.
Qed.

Lemma immune_final_patterns st G M :
  eng_G st = Some G -> M ∈ nodes G -> M ∈ immune_accounts st ->
  patterns_of (account_patterns (finish_run anomaly_bonus st)) M
  ⊆ immune_keep ∪ {["isolation_cluster"]}.
Proof.
  intros HG Hn Hin. unfold finish_run. fold (Pipeline.before_scoring st).
  rewrite (calculate_patterns anomaly_bonus (Pipeline.before_scoring st) G).
  - etransitivity; [apply second_pass_patterns|].
    rewrite before_scoring_patterns.
    intros x Hx. apply elem_of_union in Hx as [Hx|Hx].
    + apply elem_of_union. left.
      apply hierarchy_patterns_subseteq in Hx.
      exact (strip_immune_subseteq M (immune_accounts st)
               (account_patterns st) Hin x Hx).
    + apply elem_of_union. now right.
  - now rewrite before_scoring_G.
  - intros Hnil. rewrite Hnil in Hn. inversion Hn.
Qed.

Lemma immune_post_suppression st G M :
  eng_G st = Some G -> M ∈ immune_accounts st ->
  Scoring.post_suppression anomaly_bonus (Pipeline.before_scoring st) G M = 0%Q.
Proof.
  intros HG Hin. unfold Scoring.post_suppression.
  pose proof (second_pass_patterns M G (nodes G)
                (Scoring.first_pass anomaly_bonus (Pipeline.before_scoring st) (nodes G))
                (account_patterns (Pipeline.before_scoring st))) as Hsub.
  destruct (Scoring.second_pass _ _ _ _) as [prelim ap].
  apply suppress_tags_only.
  intros x Hx. apply Hsub in Hx.
  apply elem_of_union in Hx as [Hx|Hx].
  - apply elem_of_union. left.
    rewrite before_scoring_patterns in Hx.
    apply hierarchy_patterns_subseteq in Hx.
    exact (strip_immune_subseteq M (immune_accounts st)
             (account_patterns st) Hin x Hx).
  - apply elem_of_union. now right.
Qed.
End FinishRunFacts.

(** Stages 1.5 to 4 on an immune account. An immune account [M] of the
    graph, whatever labels and ring memberships the detectors gave it,
    is a member of no fraud ring after the immune cleanup and the
    consolidation; its final labels are among [payroll], [merchant] and
    [isolation_cluster], so they do not include [cycle_length_3]; its
    stored score is 0 and it has no entry in [suspicious_accounts]. *)
Theorem immune_account_removed_and_zeroed (anomaly_bonus : nat -> Q)
    (st : Engine) (G : Graph) (M : string) :
  eng_G st = Some G -> M ∈ nodes G -> M ∈ immune_accounts st ->
  fraud_rings st = [] -> suspicion_scores st = [] ->
  let st' := Pipeline.finish_run anomaly_bonus st in
  (Forall (fun r => M ∉ member_accounts r) (fraud_rings st'))
  /\ (patterns_of (account_patterns st') M
      ⊆ list_to_set ["payroll"; "merchant"; "isolation_cluster"])
  /\ ("cycle_length_3" ∉ patterns_of (account_patterns st') M)
  /\ dict_get M (suspicion_scores st') = Some 0%Q
  /\ Forall (fun e => sa_account_id e <> M)
            (rep_suspicious_accounts (Json.generate_json st')).
Proof.
  intros HG Hn Hin Hrings Hscores st'. subst st'.
  pose proof (immune_final_patterns anomaly_bonus st G M HG Hn Hin) as Hpat.
  assert (Scoring.final_gate 0 = 0%Q) as Hgate by reflexivity.
  split; [|split; [|split; [|split]]].
  - unfold Pipeline.finish_run. rewrite calculate_rings.
    now apply before_scoring_rings.
  - etransitivity; [exact Hpat|].
    intros x. unfold Pipeline.immune_keep.
    rewrite elem_of_union, !elem_of_list_to_set, elem_of_singleton.
    rewrite !elem_of_cons. tauto.
  - intros Hc. apply Hpat in Hc. revert Hc. unfold Pipeline.immune_keep.
    rewrite elem_of_union, !elem_of_list_to_set, elem_of_singleton.
    rewrite !elem_of_cons. intros [[Hc|[Hc|Hc]]|Hc];
      try discriminate Hc; inversion Hc.
  - unfold Pipeline.finish_run. fold (Pipeline.before_scoring st).
    rewrite (calculate_scores_lookup anomaly_bonus (Pipeline.before_scoring st) G M).
    + rewrite immune_post_suppression; [now rewrite Hgate| |];
        [exact HG|exact Hin].
    + now rewrite before_scoring_G.
    + exact Hn.
  - apply Forall_forall. intros e He Heq.
    apply elem_of_suspicious in He as (acc & score & Hitem & Hpos & ->).
    simpl in Heq. subst acc.
    unfold Pipeline.finish_run in Hitem. fold (Pipeline.before_scoring st) in Hitem.
    apply calculate_scores_items in Hitem as (G' & HG' & _ & ->).
    + rewrite before_scoring_G, HG in HG'. injection HG' as <-.
      rewrite immune_post_suppression in Hpos; [| exact HG | exact Hin].
      rewrite Hgate in Hpos. vm_compute in Hpos. discriminate Hpos.
    + unfold Pipeline.before_scoring. rewrite finish_run_scores_before; auto.
Qed.

Lemma merchant_in_graph : "M" ∈ nodes Examples.merchant_graph.
Proof.
  apply (bool_decide_unpack ("M" ∈ nodes Examples.merchant_graph)).
  vm_compute. exact I.
Defined.

Lemma merchant_is_immune : "M" ∈ immune_accounts Examples.merchant_engine.
Proof.
  apply (bool_decide_unpack ("M" ∈ immune_accounts Examples.merchant_engine)).
  vm_compute. exact I.
Defined.

(** The detectors of [run_all] on the merchant table, for every fuel of
    at least 10. *)
Lemma merchant_detected (k : nat) :
  Run.detectors (10 + k) Examples.merchant_loaded = Examples.merchant_engine.
Proof. vm_compute. reflexivity. Qed.

(** C2, the code at a failing input. [M] receives 1000 from fifteen
    senders and forwards once, into the 3-cycle M -> A -> B -> M. [M]
    is detected as a merchant and is immune; the cycle search validates
    the cycle A, B, M, and [detect_cycles] tags [M], immune as it is,
    with [cycle_length_3]. The cleanup of stage 1.5 then leaves [M] the
    label [merchant] only: whatever the anomaly bonus, [M] is in no
    ring (the one ring is over A, B and C), at the suppression rule [M]
    has no strong fraud label for the rule to except, its final labels
    lack [cycle_length_3], its score is 0 and it is absent from
    [suspicious_accounts]. The outcome is the same for every fuel of at
    least 10. *)
Theorem merchant_in_cycle_is_dropped (anomaly_bonus : nat -> Q) (k : nat) :
  let loaded := Examples.merchant_loaded in
  let det := Run.detectors (10 + k) loaded in
  let final := Pipeline.finish_run anomaly_bonus det in
  Immunity.classify Examples.merchant_graph "M" = Some "merchant"
  /\ map Cycles.cr_nodes
       (CycleDetection.find_cycles (Immunity.detect_business_immunity loaded)
          Examples.merchant_graph)
     = [["A"; "B"; "M"]; ["A"; "B"; "C"]]
  /\ PyStr.sorted_set
       (patterns_of
          (account_patterns
             (CycleDetection.detect_cycles
                (Immunity.detect_business_immunity loaded))) "M")
     = ["cycle_length_3"; "merchant"]
  /\ ("M" ∈ immune_accounts det)
  /\ ("cycle_length_3" ∈ patterns_of (account_patterns det) "M")
  /\ map c_members (candidate_rings det) = [["A"; "B"; "C"]]
  /\ PyStr.sorted_set
       (patterns_of (account_patterns (Pipeline.before_scoring det)) "M")
     = ["merchant"]
  /\ map member_accounts (fraud_rings final) = [["A"; "B"; "C"]]
  /\ Scoring.intersects (patterns_of (account_patterns final) "M")
       Scoring.STRONG_FRAUD_PATTERNS = false
  /\ ("cycle_length_3" ∉ patterns_of (account_patterns final) "M")
  /\ dict_get "M" (suspicion_scores final) = Some 0%Q
  /\ Forall (fun e => sa_account_id e <> "M")
            (rep_suspicious_accounts
               (Run.run_all anomaly_bonus (10 + k) loaded)).
Proof.
  intros loaded det final.
  pose proof (immune_account_removed_and_zeroed anomaly_bonus
                Examples.merchant_engine Examples.merchant_graph "M"
                eq_refl merchant_in_graph merchant_is_immune eq_refl eq_refl)
    as T.
  cbv zeta in T. destruct T as (_ & T2 & T3 & T4 & T5).
  unfold final, Run.run_all, Pipeline.run_all_after_detection, det, loaded.
  rewrite merchant_detected.
  split; [vm_compute; reflexivity|].
  split; [vm_compute; reflexivity|].
  split; [vm_compute; reflexivity|].
  split; [exact merchant_is_immune|].
  split.
  { apply (bool_decide_unpack
             ("cycle_length_3"
              ∈ patterns_of (account_patterns Examples.merchant_engine) "M")).
    vm_compute. exact I. }
  split; [vm_compute; reflexivity|].
  split; [vm_compute; reflexivity|].
  split.
  { unfold Pipeline.finish_run. rewrite calculate_rings.
    vm_compute. reflexivity. }
  split.
  { unfold Scoring.intersects. apply bool_decide_eq_false. intros H. apply H.
    apply elem_of_equiv_empty_L. intros x Hx.
    apply elem_of_intersection in Hx as [Hx Hs]. apply T2 in Hx.
    unfold Scoring.STRONG_FRAUD_PATTERNS in Hs.
    rewrite elem_of_list_to_set in Hx. rewrite elem_of_list_to_set in Hs.
    repeat (apply elem_of_cons in Hx as [->|Hx];
            [repeat (apply elem_of_cons in Hs as [Hs|Hs]; [discriminate Hs|]);
             inversion Hs|]).
    inversion Hx. }
  split; [exact T3|]. split; [exact T4|exact T5].
Qed.

Lemma generate_json_ring_id_witness :
  exists e,
    e ∈ rep_suspicious_accounts (Json.generate_json Examples.iso_final)
    /\ sa_account_id e = "x" /\ sa_suspicion_score e = (300 # 10)%Q.
Proof.
  destruct (generate_json_ring_id Examples.iso_final) as [T _].
  apply (T "x" (300 # 10)%Q).
  - vm_compute. do 4 apply list_elem_of_further. apply list_elem_of_here.
  - reflexivity.
Defined.

Example report_ring_id :
  map (fun e => (sa_account_id e, sa_ring_id e))
      (rep_suspicious_accounts (Json.generate_json Examples.iso_final))
  = [("r", "RING_001"); ("n1", "RING_001"); ("q", "RING_001");
     ("p", "RING_001"); ("x", "RING_002")].
Proof. vm_compute. reflexivity. Qed.

(** * Further properties of the engine *)

#[local] Set Warnings "-clear-no-such-hyp".

(** ** Helpers of the ring stages *)

Lemma Qnat_div_bounds (n m : nat) :
  (0 < m)%nat -> (n <= m)%nat -> (0 <= Qnat n / Qnat m <= 1)%Q.
Proof.
  intros Hm Hnm. unfold Qnat.
  assert (0 < inject_Z (Z.of_nat m))%Q as Hpos.
  { rewrite <- (Zlt_Qlt 0). lia. }
  split.
  - apply Qle_shift_div_l; [exact Hpos|]. rewrite Qmult_0_l.
    rewrite <- (Zle_Qle 0). lia.
  - apply Qle_shift_div_r; [exact Hpos|]. rewrite Qmult_1_l.
    rewrite <- Zle_Qle. lia.
Qed.

Lemma Qnat_div_one (n m : nat) :
  (0 < m)%nat -> (Qnat n / Qnat m == 1)%Q <-> n = m.
Proof.
  intros Hm. unfold Qnat.
  assert (~ inject_Z (Z.of_nat m) == 0)%Q as Hne.
  { intros H. change 0%Q with (inject_Z 0) in H. rewrite inject_Z_injective in H. lia. }
  split.
  - intros H.
    assert (inject_Z (Z.of_nat n) == inject_Z (Z.of_nat m))%Q as E.
    { rewrite <- (Qmult_1_l (inject_Z (Z.of_nat m))), <- H.
      field. exact Hne. }
    rewrite inject_Z_injective in E. lia.
  - intros ->. field. exact Hne.
Qed.

(** X1, [_jaccard_similarity]. The similarity is symmetric, lies between
    0 and 1, and is 1 exactly for two equal sets (two empty sets
    included). *)
Theorem jaccard_similarity_metric (a b : gset string) :
  Rings.jaccard_similarity a b = Rings.jaccard_similarity b a
  /\ (0 <= Rings.jaccard_similarity a b <= 1)%Q
  /\ ((Rings.jaccard_similarity a b == 1)%Q <-> a = b).
Proof.
  unfold Rings.jaccard_similarity. split; [|split].
  - rewrite (comm_L (∪) b a), (comm_L (∩) b a), (andb_comm (bool_decide (b = ∅))).
    reflexivity.
  - destruct (bool_decide (a = ∅) && bool_decide (b = ∅)); [split; discriminate|].
    case_bool_decide as Hu; [|split; discriminate].
    apply Qnat_div_bounds; [exact Hu|].
    apply subseteq_size. intros x. rewrite elem_of_intersection, elem_of_union. tauto.
  - destruct (bool_decide (a = ∅) && bool_decide (b = ∅)) eqn:E.
    + apply andb_true_iff in E as [Ea Eb].
      apply bool_decide_eq_true in Ea, Eb. subst. split; reflexivity.
    + assert (a ∪ b ≢ ∅) as Hne.
      { intros H. apply andb_false_iff in E as [E|E];
          apply bool_decide_eq_false in E; apply E; apply set_eq; set_solver. }
      rewrite bool_decide_eq_true_2
        by (apply Nat.neq_0_lt_0; intros H; now apply size_empty_inv in H).
      rewrite Qnat_div_one
        by (apply Nat.neq_0_lt_0; intros H; now apply size_empty_inv in H).
      split.
      * intros H.
        assert (a ∩ b = a ∪ b) as Heq.
        { apply set_subseteq_size_eq; [set_solver|lia]. }
        apply set_eq. intros x. set_solver.
      * intros ->. f_equal. apply set_eq. set_solver.
Qed.

Section CanonicalFacts.
Import CycleDetection.

Local Abbreviation pick := (fun m a : string => if String.ltb a m then a else m).

Lemma ltb_le a b : String.ltb a b = true -> PyStr.le a b.
Proof.
  unfold String.ltb. destruct (String.compare a b) eqn:E; try discriminate.
  intros _. apply PyStrFacts.le_cases. now right.
Qed.

Lemma ltb_false_le a b : String.ltb a b = false -> PyStr.le b a.
Proof.
  unfold String.ltb. intros H.
  destruct (PyStrFacts.le_total b a) as [Hba|Hab]; [exact Hba|].
  apply PyStrFacts.le_cases in Hab as [->|Hlt]; [reflexivity|].
  rewrite Hlt in H. discriminate H.
Qed.

Lemma least_spec t : forall h,
  foldl pick h t ∈ h :: t /\ (forall x, x ∈ h :: t -> PyStr.le (foldl pick h t) x).
Proof.
  induction t as [|a t IH]; intros h; simpl.
  - split; [apply list_elem_of_here|].
    intros x Hx. apply list_elem_of_singleton in Hx as ->. reflexivity.
  - destruct (IH (pick h a)) as [Hin Hle]. split.
    + apply elem_of_cons in Hin as [Heq|Hin].
      * rewrite Heq. destruct (String.ltb a h).
        -- apply list_elem_of_further, list_elem_of_here.
        -- apply list_elem_of_here.
      * now do 2 apply list_elem_of_further.
    + intros x Hx.
      assert (PyStr.le (foldl pick (pick h a) t) (pick h a)) as Hp
        by apply Hle, list_elem_of_here.
      apply elem_of_cons in Hx as [->|Hx]; [|apply elem_of_cons in Hx as [->|Hx]].
      * etrans; [exact Hp|]. destruct (String.ltb a h) eqn:E.
        -- now apply ltb_le.
        -- reflexivity.
      * etrans; [exact Hp|]. destruct (String.ltb a h) eqn:E.
        -- reflexivity.
        -- now apply ltb_false_le.
      * apply Hle. now apply list_elem_of_further.
Qed.

Lemma index_of_app a : forall m b, m ∉ a -> index_of m (a ++ m :: b) = length a.
Proof.
  induction a as [|x a IH]; intros m b Hn; simpl.
  - now rewrite String.eqb_refl.
  - destruct (String.eqb m x) eqn:E.
    + apply String.eqb_eq in E. subst. exfalso. apply Hn, list_elem_of_here.
    + f_equal. apply IH. intros H. apply Hn. now apply list_elem_of_further.
Qed.

Lemma canonicalize_split a m b :
  m ∉ a -> (forall x, x ∈ a ++ m :: b -> PyStr.le m x) ->
  canonicalize_cycle (a ++ m :: b) = m :: b ++ a.
Proof.
  intros Hn Hle. unfold canonicalize_cycle.
  destruct (a ++ m :: b) as [|h t] eqn:E.
  - destruct a; discriminate E.
  - destruct (least_spec t h) as [Hin Hmin].
    assert (foldl pick h t = m) as ->.
    { apply (anti_symm PyStr.le).
      - apply Hmin. rewrite <- E. apply elem_of_app. right. apply list_elem_of_here.
      - apply Hle. exact Hin. }
    rewrite <- E, index_of_app by exact Hn.
    rewrite drop_app_length, take_app_length. reflexivity.
Qed.

Lemma rotation_split (a : list string) m b k :
  exists a' b', drop k (a ++ m :: b) ++ take k (a ++ m :: b) = a' ++ m :: b'
                /\ b' ++ a' = b ++ a /\ (forall x, x ∈ a' -> x ∈ a ++ b).
Proof.
  destruct (decide (k <= length a)%nat) as [Hk|Hk].
  - exists (drop k a), (b ++ take k a).
    rewrite drop_app_le, take_app_le by exact Hk.
    rewrite <- ?List.app_assoc. simpl. split; [reflexivity|]. split.
    + now rewrite take_drop.
    + intros x Hx. apply elem_of_app. left.
      rewrite <- (take_drop k a). apply elem_of_app. now right.
  - exists (drop (k - S (length a)) b ++ a), (take (k - S (length a)) b).
    replace k with (length a + S (k - S (length a)))%nat at 1 2 by lia.
    rewrite drop_app_add', take_app_add' by reflexivity. simpl.
    rewrite <- ?List.app_assoc. split; [reflexivity|]. split.
    + now rewrite List.app_assoc, take_drop.
    + intros x Hx. apply elem_of_app in Hx as [Hx|Hx]; apply elem_of_app.
      * right. rewrite <- (take_drop (k - S (length a)) b).
        apply elem_of_app. now right.
      * now left.
Qed.
End CanonicalFacts.

(** X2, [_canonicalize_cycle]. The canonical form of a path is the
    rotation [path[i:] + path[:i]] of the path at the index [i] of the
    first occurrence of its least node, so it is a permutation of the
    path; and for a path without repeated nodes every rotation of the
    path has the same canonical form. *)
Theorem canonicalize_cycle_rotation (path : list string) :
  (exists i : nat,
      CycleDetection.canonicalize_cycle path = drop i path ++ take i path
      /\ (path <> [] ->
          exists m, path !! i = Some m
                    /\ (forall x, x ∈ path -> PyStr.le m x)
                    /\ (forall j, (j < i)%nat -> path !! j <> Some m)))
  /\ CycleDetection.canonicalize_cycle path ≡ₚ path
  /\ (NoDup path -> forall k : nat,
        CycleDetection.canonicalize_cycle (drop k path ++ take k path)
        = CycleDetection.canonicalize_cycle path).
Proof.
  destruct path as [|h t].
  - split; [|split].
    + exists 0%nat. split; [reflexivity|]. intros H. now contradiction H.
    + reflexivity.
    + intros _ k. now rewrite drop_nil, take_nil.
  - destruct (least_spec t h) as [Hin Hmin].
    set (m := foldl (fun m a : string => if String.ltb a m then a else m) h t)
      in Hin, Hmin.
    apply list_elem_of_split_l in Hin as (a & b & E & Hma).
    rewrite E in Hmin |- *.
    assert (CycleDetection.canonicalize_cycle (a ++ m :: b) = m :: b ++ a) as Hc
      by (apply canonicalize_split; assumption).
    rewrite Hc. split; [|split].
    + exists (length a). split.
      * now rewrite drop_app_length, take_app_length.
      * intros _. exists m. split; [apply list_lookup_middle; reflexivity|].
        split; [exact Hmin|].
        intros j Hj Hl. apply Hma.
        rewrite lookup_app_l in Hl by exact Hj.
        now apply list_elem_of_lookup_2 in Hl.
    + apply (Permutation_app_comm (m :: b) a).
    + intros Hnd k.
      apply NoDup_app in Hnd as (_ & Hna & Hnd).
      apply NoDup_cons in Hnd as [Hnb _].
      destruct (rotation_split a m b k) as (a' & b' & -> & Hba & Ha').
      rewrite canonicalize_split.
      * now rewrite Hba.
      * intros H. apply Ha', elem_of_app in H as [H|H]; [exact (Hma H)|exact (Hnb H)].
      * intros x Hx. apply Hmin.
        apply elem_of_app in Hx as [Hx|Hx].
        -- apply Ha', elem_of_app in Hx as [Hx|Hx]; apply elem_of_app;
             [now left|right; now apply list_elem_of_further].
        -- apply elem_of_cons in Hx as [->|Hx].
           ++ apply elem_of_app. right. apply list_elem_of_here.
           ++ assert (x ∈ b' ++ a') as Hx' by (apply elem_of_app; now left).
              rewrite Hba in Hx'.
              apply elem_of_app in Hx' as [Hx'|Hx']; apply elem_of_app;
                [right; now apply list_elem_of_further|now left].
Qed.

Lemma canonicalize_cycle_rotation_witness :
  CycleDetection.canonicalize_cycle ["c"; "a"; "b"]
  = CycleDetection.canonicalize_cycle ["b"; "c"; "a"].
Proof.
  refine (proj2 (proj2 (canonicalize_cycle_rotation ["b"; "c"; "a"])) _ 1%nat).
  repeat constructor; intros H; repeat (apply elem_of_cons in H as [H|H]; [discriminate H|]); inversion H.
Defined.

(** ** Validation of a cycle *)

Section ValidateFacts.
Import Cycles.

Lemma recurse_spec {R} (check : list Edge -> option R) lists : forall chosen,
  match recurse check lists chosen with
  | Some r =>
      exists sel, Forall2 (fun l e => e ∈ l) lists sel
                  /\ check (chosen ++ sel) = Some r
  | None =>
      forall sel, Forall2 (fun l e => e ∈ l) lists sel ->
                  check (chosen ++ sel) = None
  end.
Proof.
  induction lists as [|edges rest IH]; intros chosen; simpl.
  - destruct (check chosen) as [r|] eqn:E.
    + exists []. rewrite app_nil_r. split; [constructor|exact E].
    + intros sel Hsel. inversion Hsel; subst. now rewrite app_nil_r.
  - induction edges as [|edge edges IHe]; simpl.
    + intros sel Hsel. inversion Hsel as [|? ? ? ? Hin]; subst. inversion Hin.
    + specialize (IH (chosen ++ [edge])).
      destruct (recurse check rest (chosen ++ [edge])) as [r|].
      * destruct IH as (sel & Hsel & Hr). exists (edge :: sel). split.
        -- constructor; [apply list_elem_of_here|exact Hsel].
        -- now rewrite <- List.app_assoc in Hr.
      * destruct (foldr _ None edges) as [r|] eqn:E.
        -- destruct IHe as (sel & Hsel & Hr). exists sel. split; [|exact Hr].
           inversion Hsel as [|? e ? sel' Hin Hrest]; subst.
           constructor; [now apply list_elem_of_further|exact Hrest].
        -- intros sel Hsel.
           inversion Hsel as [|? e ? sel' Hin Hrest]; subst.
           apply elem_of_cons in Hin as [->|Hin].
           ++ specialize (IH sel' Hrest). now rewrite <- List.app_assoc in IH.
           ++ apply IHe. constructor; assumption.
Qed.

Lemma elem_of_stable_sort {A} (leb : A -> A -> bool) l x :
  x ∈ stable_sort leb l <-> x ∈ l.
Proof. now rewrite (stable_sort_perm leb l). Qed.

Lemma selection_lists G path edges :
  Props.selection G path edges <->
  Forall2 (fun l e => e ∈ l)
    (map (fun '(u, v) => stable_sort edge_ts_leb (get_edges_between G u v))
         (hops path)) edges.
Proof.
  unfold Props.selection. rewrite Forall2_fmap_l.
  split; intros H; (eapply Forall2_impl; [exact H|]); intros [u v] e; simpl;
    now rewrite elem_of_stable_sort.
Qed.

Lemma Zlist_min_le h t x : x ∈ h :: t -> (Zlist_min h t <= x)%Z.
Proof.
  unfold Zlist_min. induction t as [|y t IH]; simpl; intros Hx.
  - apply list_elem_of_singleton in Hx as ->. lia.
  - apply elem_of_cons in Hx as [->|Hx].
    + assert (foldr Z.min h t <= h)%Z by (apply IH, list_elem_of_here). lia.
    + apply elem_of_cons in Hx as [->|Hx]; [lia|].
      assert (foldr Z.min h t <= x)%Z by (apply IH; now apply list_elem_of_further).
      lia.
Qed.

Lemma Zlist_max_ge h t x : x ∈ h :: t -> (x <= Zlist_max h t)%Z.
Proof.
  unfold Zlist_max. induction t as [|y t IH]; simpl; intros Hx.
  - apply list_elem_of_singleton in Hx as ->. lia.
  - apply elem_of_cons in Hx as [->|Hx].
    + assert (h <= foldr Z.max h t)%Z by (apply IH, list_elem_of_here). lia.
    + apply elem_of_cons in Hx as [->|Hx]; [lia|].
      assert (x <= foldr Z.max h t)%Z by (apply IH; now apply list_elem_of_further).
      lia.
Qed.

Lemma check_cycle_constraints_Some G lim path edges r :
  check_cycle_constraints G lim path edges = Some r ->
  cr_nodes r = path /\ cr_edges r = edges
  /\ cr_total_amount r = Qsum (map e_amount edges)
  /\ (forall e1 e2, e1 ∈ edges -> e2 ∈ edges ->
                    (e_ts e2 - e_ts e1 <= HOURS_72)%Z).
Proof.
  unfold check_cycle_constraints. destruct edges as [|e0 rest]; [discriminate|].
  cbv zeta.
  destruct (temporal_ok _ _) eqn:Ht; cbn [negb]; [|discriminate].
  destruct (Qeq_bool _ 0); [discriminate|].
  destruct (variance_ok _ _); cbn [negb]; [|discriminate].
  destruct (flow_ok _ _); cbn [negb]; [|discriminate].
  destruct (external_ok _ _ _ _ _); cbn [negb]; [|discriminate].
  intros [= <-]. cbn [cr_nodes cr_edges cr_total_amount]. repeat split.
  intros e1 e2 H1 H2. apply temporal_ok_iff in Ht.
  assert (e_ts e1 ∈ e_ts e0 :: map e_ts rest) as H1'
    by (change (e_ts e1 ∈ map e_ts (e0 :: rest)); now apply list_elem_of_fmap_2).
  assert (e_ts e2 ∈ e_ts e0 :: map e_ts rest) as H2'
    by (change (e_ts e2 ∈ map e_ts (e0 :: rest)); now apply list_elem_of_fmap_2).
  apply Zlist_min_le in H1'. apply Zlist_max_ge in H2'. lia.
Qed.
Lemma validate_cycle_edges_exhaustive_aux (G : Graph) (ext_limit : Z)
    (cycle_path : list string) :
  match Cycles.validate_cycle_edges G ext_limit cycle_path with
  | Some r =>
      exists edges,
        Props.selection G cycle_path edges
        /\ Cycles.check_cycle_constraints G ext_limit cycle_path edges = Some r
  | None =>
      forall edges,
        Props.selection G cycle_path edges ->
        Cycles.check_cycle_constraints G ext_limit cycle_path edges = None
  end.
Proof.
  unfold Cycles.validate_cycle_edges.
  destruct (existsb _ _) eqn:Hex.
  - intros edges Hsel. apply selection_lists in Hsel.
    apply existsb_exists in Hex as (l & Hl & Hnil).
    destruct l; [|discriminate].
    apply list_elem_of_In in Hl.
    apply list_elem_of_lookup_1 in Hl as (i & Hi).
    destruct (Forall2_lookup_l _ _ _ _ _ Hsel Hi) as (e & _ & He).
    inversion He.
  - pose proof (recurse_spec
                  (Cycles.check_cycle_constraints G ext_limit cycle_path)
                  (map (fun '(u, v) =>
                          stable_sort Cycles.edge_ts_leb
                                      (get_edges_between G u v))
                       (Cycles.hops cycle_path)) []) as H.
    destruct (Cycles.recurse _ _ _) as [r|].
    + destruct H as (sel & Hsel & Hr). exists sel.
      split; [now apply selection_lists|exact Hr].
    + intros edges Hsel. apply H. now apply selection_lists.
Qed.

End ValidateFacts.

(** X3, [_validate_cycle_edges]. The search over the parallel edges is
    exhaustive: for a path that is not empty it returns the result of
    the constraint check on some selection of one edge per hop, and it
    returns nothing only when the check fails on every selection. *)
Theorem validate_cycle_edges_exhaustive (G : Graph) (ext_limit : Z)
    (cycle_path : list string) :
  cycle_path <> [] ->
  match Cycles.validate_cycle_edges G ext_limit cycle_path with
  | Some r =>
      exists edges,
        Props.selection G cycle_path edges
        /\ Cycles.check_cycle_constraints G ext_limit cycle_path edges = Some r
  | None =>
      forall edges,
        Props.selection G cycle_path edges ->
        Cycles.check_cycle_constraints G ext_limit cycle_path edges = None
  end.
Proof. intros _. apply validate_cycle_edges_exhaustive_aux. Qed.

Lemma validate_cycle_edges_exhaustive_witness :
  exists r edges,
    Cycles.validate_cycle_edges Examples.boundary_graph 2
      Examples.boundary_cycle = Some r
    /\ Props.selection Examples.boundary_graph Examples.boundary_cycle edges
    /\ Cycles.check_cycle_constraints Examples.boundary_graph 2
         Examples.boundary_cycle edges = Some r.
Proof.
  pose proof (validate_cycle_edges_exhaustive Examples.boundary_graph 2
                Examples.boundary_cycle) as H.
  destruct (Cycles.validate_cycle_edges Examples.boundary_graph 2
              Examples.boundary_cycle) as [r|] eqn:E.
  - destruct H as (edges & Hsel & Hr); [discriminate|].
    exists r, edges. repeat split; assumption.
  - vm_compute in E. discriminate E.
Defined.

(** X4, [_validate_cycle_edges] and [_check_cycle_constraints]. A
    validated cycle records the path it was asked about, one
    transaction of the graph for every hop of the path, and the sum of
    their amounts; any two of the chosen transactions are at most 72
    hours apart. *)
Theorem validated_cycle_is_sound (G : Graph) (ext_limit : Z)
    (cycle_path : list string) (r : Cycles.CycleResult) :
  Cycles.validate_cycle_edges G ext_limit cycle_path = Some r ->
  Cycles.cr_nodes r = cycle_path
  /\ Props.selection G cycle_path (Cycles.cr_edges r)
  /\ length (Cycles.cr_edges r) = length cycle_path
  /\ Cycles.cr_total_amount r = Qsum (map e_amount (Cycles.cr_edges r))
  /\ (forall e1 e2,
         e1 ∈ Cycles.cr_edges r -> e2 ∈ Cycles.cr_edges r ->
         (e_ts e2 - e_ts e1 <= Cycles.HOURS_72)%Z).
Proof.
  intros Hv.
  assert (cycle_path <> []) as Hne.
  { intros ->. vm_compute in Hv. discriminate Hv. }
  pose proof (validate_cycle_edges_exhaustive_aux G ext_limit cycle_path) as H.
  rewrite Hv in H. destruct H as (edges & Hsel & Hr).
  apply check_cycle_constraints_Some in Hr as (Hn & He & Ht & Hspan).
  rewrite He. repeat split; try assumption.
  - apply Forall2_length in Hsel. rewrite <- Hsel.
    destruct cycle_path as [|h t]; [done|]. cbn [Cycles.hops].
    rewrite length_zip_with, length_app. cbn [length]. lia.
Qed.

Lemma validated_cycle_is_sound_witness :
  exists r,
    Cycles.validate_cycle_edges Examples.boundary_graph 2
      Examples.boundary_cycle = Some r
    /\ Cycles.cr_nodes r = Examples.boundary_cycle
    /\ length (Cycles.cr_edges r) = 4%nat.
Proof.
  destruct (Cycles.validate_cycle_edges Examples.boundary_graph 2
              Examples.boundary_cycle) as [r|] eqn:E.
  - exists r. split; [reflexivity|].
    destruct (validated_cycle_is_sound _ _ _ _ E) as (Hn & _ & Hl & _).
    split; [exact Hn|exact Hl].
  - vm_compute in E. discriminate E.
Defined.

(** ** Pattern hierarchy *)

Section HierarchyFacts.
Import Pipeline.

Lemma hierarchy_disjoint i j gi gj :
  i <> j -> HIERARCHY !! i = Some gi -> HIERARCHY !! j = Some gj ->
  gi ∩ gj = ∅.
Proof.
  intros Hne Hi Hj. unfold HIERARCHY in Hi, Hj.
  destruct i as [|[|[|[|[|[|i]]]]]]; cbn [lookup list_lookup] in Hi;
    try discriminate Hi; injection Hi as <-;
    (destruct j as [|[|[|[|[|[|j]]]]]]; cbn [lookup list_lookup] in Hj;
     try discriminate Hj; injection Hj as <-);
    try (exfalso; apply Hne; reflexivity);
    apply (bool_decide_unpack _); vm_compute; exact I.
Qed.

Lemma hierarchy_keep_disjoint g :
  g ∈ HIERARCHY -> KEEP_ALWAYS ∩ g = ∅.
Proof.
  intros Hg. unfold HIERARCHY in Hg.
  repeat (apply elem_of_cons in Hg as [->|Hg];
          [apply (bool_decide_unpack _); vm_compute; exact I|]).
  inversion Hg.
Qed.

Lemma first_group_cases p groups :
  (first_group p groups = ∅ /\ Forall (fun g => p ∩ g = ∅) groups)
  \/ (exists i g, groups !! i = Some g /\ p ∩ g <> ∅
                  /\ (forall k gk, (k < i)%nat -> groups !! k = Some gk ->
                                   p ∩ gk = ∅)
                  /\ first_group p groups = p ∩ g).
Proof.
  induction groups as [|g t IH]; simpl.
  - left. split; [reflexivity|constructor].
  - case_bool_decide as E.
    + right. exists 0%nat, g. repeat split; [exact E|].
      intros k gk Hk. lia.
    + assert (p ∩ g = ∅) as E' by (destruct (decide (p ∩ g = ∅)); [done|contradiction]).
      destruct IH as [[H1 H2]|(i & g' & Hi & Hne & Hlt & Hfg)].
      * left. split; [exact H1|now constructor].
      * right. exists (S i), g'. repeat split; try assumption.
        intros [|k] gk Hk Hgk; simpl in Hgk.
        -- now injection Hgk as <-.
        -- apply (Hlt k); [lia|exact Hgk].
Qed.

Lemma first_group_at p groups i g :
  groups !! i = Some g -> p ∩ g <> ∅ ->
  (forall k gk, (k < i)%nat -> groups !! k = Some gk -> p ∩ gk = ∅) ->
  first_group p groups = p ∩ g.
Proof.
  revert i. induction groups as [|g0 t IH]; intros i Hi Hne Hlt;
    [discriminate Hi|]. simpl.
  destruct i as [|i]; simpl in Hi.
  - injection Hi as ->. now rewrite bool_decide_eq_true_2.
  - rewrite bool_decide_eq_false_2.
    + apply (IH i); [exact Hi|exact Hne|].
      intros k gk Hk Hgk. apply (Hlt (S k)); [lia|exact Hgk].
    + intros H. apply H. apply (Hlt 0%nat); [lia|reflexivity].
Qed.

Lemma first_group_none p groups :
  Forall (fun g => p ∩ g = ∅) groups -> first_group p groups = ∅.
Proof.
  induction 1 as [|g t Hg _ IH]; simpl; [reflexivity|].
  now rewrite bool_decide_eq_false_2 by (intros H; now apply H).
Qed.

Lemma keep_patterns_idemp p : keep_patterns (keep_patterns p) = keep_patterns p.
Proof.
  unfold keep_patterns at 2 3.
  destruct (first_group_cases p HIERARCHY)
    as [[-> Hall]|(i & g & Hi & Hne & Hlt & ->)].
  - unfold keep_patterns. rewrite first_group_none.
    + apply set_eq. intros x. set_solver.
    + apply Forall_forall. intros g Hg.
      pose proof (hierarchy_keep_disjoint g Hg) as Hd.
      apply set_eq. intros x. set_solver.
  - assert (KEEP_ALWAYS ∩ g = ∅) as Hkg
      by (apply hierarchy_keep_disjoint; eapply list_elem_of_lookup_2; exact Hi).
    unfold keep_patterns. rewrite (first_group_at _ _ i g).
    + apply set_eq. intros x. set_solver.
    + exact Hi.
    + intros H. apply Hne. apply set_eq. intros x. set_solver.
    + intros k gk Hk Hgk.
      assert (KEEP_ALWAYS ∩ gk = ∅) as Hkk
        by (apply hierarchy_keep_disjoint; eapply list_elem_of_lookup_2; exact Hgk).
      assert (g ∩ gk = ∅) as Hggk
        by (apply (hierarchy_disjoint i k); [lia|exact Hi|exact Hgk]).
      apply set_eq. intros x. set_solver.
Qed.

Lemma keep_patterns_empty : keep_patterns ∅ = ∅.
Proof.
  unfold keep_patterns. rewrite first_group_none.
  - apply set_eq. intros x. set_solver.
  - apply Forall_forall. intros g _. apply set_eq. intros x. set_solver.
Qed.

Lemma patterns_of_hierarchy (ap : gmap string (gset string)) acc :
  patterns_of (keep_patterns <$> ap) acc = keep_patterns (patterns_of ap acc).
Proof.
  unfold patterns_of. rewrite lookup_fmap.
  destruct (ap !! acc); simpl; [reflexivity|].
  now rewrite keep_patterns_empty.
Qed.
End HierarchyFacts.

(** X5, [_apply_pattern_hierarchy]. For every account the labels kept
    are a subset of the labels it had; the labels isolation_cluster,
    payroll and merchant are kept; the labels of the first hierarchy
    class the account has a label in are kept and the labels of every
    later class are removed; applying the hierarchy a second time
    changes nothing. *)
Theorem pattern_hierarchy_keeps_first_class (st : Engine) (acc : string) :
  let before := patterns_of (account_patterns st) acc in
  let after :=
    patterns_of (account_patterns (Pipeline.apply_pattern_hierarchy st)) acc in
  (after ⊆ before)
  /\ (before ∩ Pipeline.KEEP_ALWAYS ⊆ after)
  /\ (forall i gi,
         Pipeline.HIERARCHY !! i = Some gi ->
         (forall k gk, (k < i)%nat -> Pipeline.HIERARCHY !! k = Some gk ->
                       before ∩ gk = ∅) ->
         before ∩ gi ⊆ after)
  /\ (forall i j gi gj,
         (i < j)%nat ->
         Pipeline.HIERARCHY !! i = Some gi ->
         Pipeline.HIERARCHY !! j = Some gj ->
         before ∩ gi <> ∅ -> after ∩ gj = ∅)
  /\ Pipeline.apply_pattern_hierarchy (Pipeline.apply_pattern_hierarchy st)
     = Pipeline.apply_pattern_hierarchy st.
Proof.
  intros before after. subst before after.
  unfold Pipeline.apply_pattern_hierarchy at 1 2 3 4. simpl.
  rewrite patterns_of_hierarchy.
  set (p := patterns_of (account_patterns st) acc).
  split; [apply keep_patterns_subseteq|].
  split; [unfold Pipeline.keep_patterns; intros x Hx; apply elem_of_union; now left|].
  split; [|split].
  - intros i gi Hi Hlt.
    destruct (decide (p ∩ gi = ∅)) as [E|E].
    + rewrite E. intros x Hx. now apply not_elem_of_empty in Hx.
    + unfold Pipeline.keep_patterns.
      rewrite (first_group_at p _ i gi Hi E Hlt).
      intros x Hx. apply elem_of_union. now right.
  - intros i j gi gj Hij Hi Hj Hne.
    assert (Pipeline.KEEP_ALWAYS ∩ gj = ∅) as Hkj
      by (apply hierarchy_keep_disjoint; eapply list_elem_of_lookup_2; exact Hj).
    destruct (first_group_cases p Pipeline.HIERARCHY)
      as [[_ Hall]|(i0 & g0 & Hi0 & Hne0 & Hlt0 & Hfg)].
    + exfalso. apply Hne. rewrite Forall_forall in Hall. apply Hall.
      eapply list_elem_of_lookup_2. exact Hi.
    + assert (i0 <= i)%nat as Hle.
      { destruct (decide (i0 <= i)%nat) as [|Hgt]; [done|].
        exfalso. apply Hne. apply (Hlt0 i); [lia|exact Hi]. }
      assert (g0 ∩ gj = ∅) as Hd
        by (apply (hierarchy_disjoint i0 j); [lia|exact Hi0|exact Hj]).
      unfold Pipeline.keep_patterns. rewrite Hfg.
      apply set_eq. intros x. set_solver.
  - unfold Pipeline.apply_pattern_hierarchy. simpl.
    rewrite <- map_fmap_compose.
    assert (keep_idem :
              (Pipeline.keep_patterns ∘ Pipeline.keep_patterns <$> account_patterns st)
              = (Pipeline.keep_patterns <$> account_patterns st)).
    { apply map_fmap_ext. intros k v _. simpl. apply keep_patterns_idemp. }
    now rewrite keep_idem.
Qed.

(** ** Scoring *)

Section ScoreRangeFacts.

Lemma add_node_NoDup n l : NoDup l -> NoDup (add_node n l).
Proof.
  intros H. unfold add_node. case_bool_decide as E; [exact H|].
  apply NoDup_app. split; [exact H|]. split.
  - intros x Hx Hx'. apply list_elem_of_singleton in Hx'. now subst.
  - apply NoDup_singleton.
Qed.

Lemma nodes_NoDup G : NoDup (nodes G).
Proof.
  unfold nodes.
  assert (forall l, NoDup l ->
            NoDup (fold_left (fun acc e => add_node (e_dst e) (add_node (e_src e) acc))
                             G l)) as H.
  { induction G as [|e G IH]; intros l Hl; simpl; [exact Hl|].
    apply IH. now do 2 apply add_node_NoDup. }
  apply H. constructor.
Qed.

Lemma dict_set_keys {V} k (v : V) d :
  map fst (dict_set k v d) =
  if bool_decide (k ∈ map fst d) then map fst d else map fst d ++ [k].
Proof.
  induction d as [|[k0 v0] t IH]; simpl; [reflexivity|].
  destruct (String.eqb k k0) eqn:E.
  - apply String.eqb_eq in E. subst.
    now rewrite bool_decide_eq_true_2 by apply list_elem_of_here.
  - apply String.eqb_neq in E. simpl. rewrite IH.
    case_bool_decide as Hin.
    + now rewrite bool_decide_eq_true_2 by now apply list_elem_of_further.
    + rewrite bool_decide_eq_false_2; [reflexivity|].
      intros H. apply elem_of_cons in H as [H|H]; [contradiction|contradiction].
Qed.

Lemma fold_dict_set_keys {V} (g : string -> V) l : forall d,
  NoDup l -> (forall x, x ∈ l -> x ∉ map fst d) ->
  map fst (fold_left (fun d n => dict_set n (g n) d) l d) = map fst d ++ l.
Proof.
  induction l as [|a t IH]; intros d Hnd Hdis; simpl.
  - now rewrite app_nil_r.
  - apply NoDup_cons in Hnd as [Hna Hnd].
    rewrite IH.
    + rewrite dict_set_keys.
      rewrite bool_decide_eq_false_2 by (apply Hdis, list_elem_of_here).
      now rewrite <- List.app_assoc.
    + exact Hnd.
    + intros x Hx. rewrite dict_set_keys.
      rewrite bool_decide_eq_false_2 by (apply Hdis, list_elem_of_here).
      intros H. apply elem_of_app in H as [H|H].
      * apply (Hdis x); [now apply list_elem_of_further|exact H].
      * apply list_elem_of_singleton in H. now subst.
Qed.

Lemma round_half_even_bounds (q : Q) (a b : Z) :
  (inject_Z a <= q)%Q -> (q <= inject_Z b)%Q ->
  (a <= round_half_even q <= b)%Z.
Proof.
  intros Ha Hb. unfold round_half_even.
  assert (a <= Qfloor q)%Z as Hfa.
  { rewrite <- (Qfloor_Z a). now apply Qfloor_resp_le. }
  assert (Qfloor q <= b)%Z as Hfb.
  { rewrite <- (Qfloor_Z b). now apply Qfloor_resp_le. }
  assert ((0 < q - inject_Z (Qfloor q))%Q -> (Qfloor q + 1 <= b)%Z) as Hup.
  { intros Hr.
    assert (inject_Z (Qfloor q) < inject_Z b)%Q as Hlt.
    { eapply Qlt_le_trans; [|exact Hb].
      apply Qlt_minus_iff. exact Hr. }
    rewrite <- Zlt_Qlt in Hlt. lia. }
  destruct (Qltb (q - inject_Z (Qfloor q)) (1 # 2)) eqn:E1; [lia|].
  apply QFacts.Qltb_ge in E1.
  assert (0 < q - inject_Z (Qfloor q))%Q as Hr
    by (eapply Qlt_le_trans; [|exact E1]; reflexivity).
  specialize (Hup Hr).
  destruct (Qltb (1 # 2) _); [lia|]. destruct (Z.even _); lia.
Qed.

Lemma round1_bounds (q : Q) : (0 <= q)%Q -> (q <= 100)%Q ->
  (0 <= round1 q)%Q /\ (round1 q <= 100)%Q.
Proof.
  intros H0 H1. unfold round1.
  destruct (round_half_even_bounds (q * 10) 0 1000) as [Hl Hu].
  - change (inject_Z 0) with (0 * 10)%Q. apply Qmult_le_compat_r; [exact H0|discriminate].
  - change (inject_Z 1000) with (100 * 10)%Q.
    apply Qmult_le_compat_r; [exact H1|discriminate].
  - split.
    + apply Qle_shift_div_l; [reflexivity|]. rewrite Qmult_0_l.
      now rewrite <- (Zle_Qle 0).
    + apply Qle_shift_div_r; [reflexivity|].
      change (100 * 10)%Q with (inject_Z 1000). now rewrite <- Zle_Qle.
Qed.

Lemma Qmax_Qmin_bounds s : (0 <= Qmax 0 (Qmin 100 s))%Q /\ (Qmax 0 (Qmin 100 s) <= 100)%Q.
Proof.
  unfold Qmax, Qmin.
  destruct (Qleb 100 s) eqn:E1.
  - destruct (Qleb 0 100) eqn:E2; split; try discriminate; apply Qle_refl.
  - apply QFacts.Qleb_gt in E1.
    destruct (Qleb 0 s) eqn:E2.
    + apply QFacts.Qleb_le in E2. split; [exact E2|now apply Qlt_le_weak].
    + split; [apply Qle_refl|discriminate].
Qed.

Lemma final_gate_range s :
  Scoring.final_gate s = 0%Q
  \/ ((25 <= Scoring.final_gate s)%Q /\ (Scoring.final_gate s <= 100)%Q).
Proof.
  unfold Scoring.final_gate. cbv zeta.
  destruct (Qmax_Qmin_bounds s) as [H0 H1].
  destruct (round1_bounds _ H0 H1) as [_ Hu].
  destruct (Qltb _ FLAG_THRESHOLD) eqn:E; [now left|].
  right. apply QFacts.Qltb_ge in E. split; [exact E|exact Hu].
Qed.

Lemma calculate_scores_keys (anomaly_bonus : nat -> Q) (st : Engine) (G : Graph) :
  eng_G st = Some G -> suspicion_scores st = [] ->
  map fst (suspicion_scores
             (Scoring.calculate_suspicion_scores anomaly_bonus st)) = nodes G.
Proof.
  intros HG Hempty.
  unfold Scoring.calculate_suspicion_scores. rewrite HG.
  case_bool_decide as Hnil.
  - now rewrite Hempty, Hnil.
  - destruct (Scoring.second_pass _ _ _ _) as [prelim ap]. simpl.
    unfold Scoring.third_pass. rewrite Hempty.
    rewrite (fold_dict_set_keys
               (fun n => Scoring.final_gate
                           (Scoring.suppress st (patterns_of ap n) n
                              (default 0%Q (dict_get n prelim))))).
    + reflexivity.
    + apply nodes_NoDup.
    + intros x _ H. inversion H.
Qed.
End ScoreRangeFacts.

(** X6, [calculate_suspicion_scores]. Starting from an empty score
    dictionary, scoring stores exactly one score for every node of the
    graph, in node order, and every stored score is either 0 or lies
    between 25 and 100. *)
Theorem scores_cover_nodes_in_range (anomaly_bonus : nat -> Q)
    (st : Engine) (G : Graph) :
  eng_G st = Some G -> suspicion_scores st = [] ->
  let scores :=
    suspicion_scores (Scoring.calculate_suspicion_scores anomaly_bonus st) in
  map fst scores = nodes G
  /\ Forall (fun kv => kv.2 = 0%Q \/ ((25 <= kv.2)%Q /\ (kv.2 <= 100)%Q)) scores.
Proof.
  intros HG Hempty scores. subst scores.
  split; [now apply calculate_scores_keys|].
  unfold Scoring.calculate_suspicion_scores. rewrite HG.
  case_bool_decide as Hnil; [rewrite Hempty; constructor|].
  destruct (Scoring.second_pass _ _ _ _) as [prelim ap]. simpl.
  unfold Scoring.third_pass. rewrite Hempty.
  apply Forall_forall. intros [k v] Hin.
  apply (elem_of_fold_dict_set
           (fun n => Scoring.final_gate
                       (Scoring.suppress st (patterns_of ap n) n
                          (default 0%Q (dict_get n prelim))))) in Hin
    as [Hin|[_ ->]]; [inversion Hin|].
  apply final_gate_range.
Qed.

Lemma scores_cover_nodes_in_range_witness :
  map fst
    (suspicion_scores
       (Scoring.calculate_suspicion_scores Examples.iso_anomaly
          Examples.iso_before_scoring))
  = nodes Examples.iso_graph.
Proof.
  refine (proj1 (scores_cover_nodes_in_range Examples.iso_anomaly
                   Examples.iso_before_scoring Examples.iso_graph _ _));
    vm_compute; reflexivity.
Defined.

(** X7, [calculate_suspicion_scores]. An account is only flagged for a
    classification label: a positive stored score implies that the
    account has a label other than isolation_cluster, payroll,
    merchant, high_velocity, high_velocity_24h and low_variance, and,
    when the account is immune or a high-degree hub, that it has one of
    the strong fraud labels. The anomaly bonus alone flags nobody. *)
Theorem flagged_account_has_classification (anomaly_bonus : nat -> Q)
    (st : Engine) (acc : string) (v : Q) :
  suspicion_scores st = [] ->
  (acc, v) ∈ suspicion_scores
               (Scoring.calculate_suspicion_scores anomaly_bonus st) ->
  (0 < v)%Q ->
  let patterns :=
    patterns_of
      (account_patterns (Scoring.calculate_suspicion_scores anomaly_bonus st))
      acc in
  (exists p, p ∈ patterns /\ (p ∉ Scoring.NON_ACTIVE)
             /\ (p ∉ Scoring.VELOCITY_ONLY))
  /\ (acc ∈ immune_accounts st \/ acc ∈ high_degree_hubs st ->
      exists p, p ∈ patterns /\ p ∈ Scoring.STRONG_FRAUD_PATTERNS).
Proof.
  intros Hempty Hin Hpos patterns.
  destruct (calculate_scores_items anomaly_bonus st acc v Hempty Hin)
    as (G & HG & Hn & Hv).
  assert (nodes G <> []) as Hne by (intros E; rewrite E in Hn; inversion Hn).
  subst patterns. rewrite (calculate_patterns anomaly_bonus st G HG Hne).
  unfold Scoring.post_suppression in Hv.
  destruct (Scoring.second_pass _ _ _ _) as [prelim ap]. simpl.
  set (ps := patterns_of ap acc) in *.
  assert (Scoring.suppress st ps acc (default 0%Q (dict_get acc prelim)) <> 0%Q)
    as Hs.
  { intros E. rewrite E in Hv. subst v. vm_compute in Hpos. discriminate Hpos. }
  unfold Scoring.suppress in Hs. cbv zeta in Hs.
  destruct (bool_decide (acc ∈ high_degree_hubs st)
            && negb (Scoring.intersects ps Scoring.STRONG_FRAUD_PATTERNS)) eqn:E3;
    [now contradiction Hs|].
  destruct (bool_decide (acc ∈ immune_accounts st)
            && negb (Scoring.intersects ps Scoring.STRONG_FRAUD_PATTERNS)) eqn:E2;
    [now contradiction Hs|].
  destruct (bool_decide (ps ∖ Scoring.NON_ACTIVE ⊆ Scoring.VELOCITY_ONLY)) eqn:E1;
    [now contradiction Hs|].
  apply bool_decide_eq_false in E1. split.
  - destruct (decide (Exists (fun p => (p ∉ Scoring.NON_ACTIVE)
                                         /\ (p ∉ Scoring.VELOCITY_ONLY))
                             (elements ps)))
      as [Hex|Hno].
    + apply Exists_exists in Hex as (p & Hp & Hq).
      exists p. split; [now apply elem_of_elements|exact Hq].
    + exfalso. apply E1. intros x Hx.
      apply elem_of_difference in Hx as [Hx Hna].
      destruct (decide (x ∈ Scoring.VELOCITY_ONLY)) as [|Hnv]; [done|].
      exfalso. apply Hno. apply Exists_exists.
      exists x. split; [now apply elem_of_elements|].
      split; assumption.
  - intros Hor.
    assert (Scoring.intersects ps Scoring.STRONG_FRAUD_PATTERNS = true) as Hi.
    { destruct (Scoring.intersects ps Scoring.STRONG_FRAUD_PATTERNS);
        [reflexivity|].
      destruct Hor as [H|H].
      - rewrite (bool_decide_eq_true_2 _ H) in E2. discriminate E2.
      - rewrite (bool_decide_eq_true_2 _ H) in E3. discriminate E3. }
    unfold Scoring.intersects in Hi. apply bool_decide_eq_true in Hi.
    apply set_choose_L in Hi as (p & Hp).
    apply elem_of_intersection in Hp as [Hp1 Hp2]. now exists p.
Qed.

Lemma flagged_account_has_classification_witness :
  exists p,
    p ∈ patterns_of
          (account_patterns
             (Scoring.calculate_suspicion_scores Examples.iso_anomaly
                Examples.iso_before_scoring)) "x"
    /\ (p ∉ Scoring.NON_ACTIVE) /\ (p ∉ Scoring.VELOCITY_ONLY).
Proof.
  refine (proj1 (flagged_account_has_classification Examples.iso_anomaly
                   Examples.iso_before_scoring "x" (300 # 10)%Q _ _ _)).
  - vm_compute. reflexivity.
  - vm_compute. do 4 apply list_elem_of_further. apply list_elem_of_here.
  - reflexivity.
Defined.

(** ** The report *)

Section ReportFacts.

Lemma collect_ids st ar items :
  map sa_account_id (Json.collect st ar items)
  = map fst (filter (fun kv => Qleb kv.2 0 = false) items).
Proof.
  induction items as [|[acc score] t IH]; simpl; [reflexivity|].
  destruct (Qleb score 0) eqn:E.
  - rewrite filter_cons_False by (simpl; congruence). exact IH.
  - rewrite filter_cons_True by exact E. simpl. now rewrite IH.
Qed.

Lemma NoDup_map_fst_filter {A B} (P : A * B -> Prop) `{!forall x, Decision (P x)}
    (l : list (A * B)) :
  NoDup (map fst l) -> NoDup (map fst (filter P l)).
Proof.
  intros Hnd. eapply sublist_NoDup; [exact Hnd|].
  apply fmap_sublist, sublist_filter.
Qed.

Lemma calculate_G (anomaly_bonus : nat -> Q) st :
  eng_G (Scoring.calculate_suspicion_scores anomaly_bonus st) = eng_G st.
Proof.
  unfold Scoring.calculate_suspicion_scores.
  destruct (eng_G st) eqn:E; [|exact E].
  case_bool_decide; [exact E|].
  destruct (Scoring.second_pass _ _ _ _). exact E.
Qed.
End ReportFacts.

(** X8, [generate_json] after [run_all]. In the report of a run that
    starts with no stored scores, no account is listed twice in
    [suspicious_accounts], every listed account is a node of the
    graph, the summary counts are the lengths of the two arrays, and
    the number of flagged accounts is at most the number of accounts
    analysed. *)
Theorem report_accounts_distinct (anomaly_bonus : nat -> Q) (st : Engine) :
  suspicion_scores st = [] ->
  let r := Pipeline.run_all_after_detection anomaly_bonus st in
  NoDup (map sa_account_id (rep_suspicious_accounts r))
  /\ (forall e, e ∈ rep_suspicious_accounts r ->
                exists G, eng_G st = Some G /\ sa_account_id e ∈ nodes G)
  /\ suspicious_accounts_flagged (rep_summary r)
     = length (rep_suspicious_accounts r)
  /\ fraud_rings_detected (rep_summary r) = length (rep_fraud_rings r)
  /\ (suspicious_accounts_flagged (rep_summary r)
      <= total_accounts_analyzed (rep_summary r))%nat.
Proof.
  intros Hempty r. subst r.
  unfold Pipeline.run_all_after_detection, Pipeline.finish_run.
  set (st0 := Pipeline.before_scoring st).
  assert (suspicion_scores st0 = []) as Hempty0.
  { unfold st0, Pipeline.before_scoring.
    now rewrite (finish_run_scores_before anomaly_bonus). }
  set (st1 := Scoring.calculate_suspicion_scores anomaly_bonus st0).
  assert (eng_G st1 = eng_G st) as HG1.
  { unfold st1, st0. now rewrite calculate_G, before_scoring_G. }
  assert (map fst (suspicion_scores st1)
          = match eng_G st with Some G => nodes G | None => [] end) as Hkeys.
  { destruct (eng_G st) as [G|] eqn:HG.
    - unfold st1. apply calculate_scores_keys; [|exact Hempty0].
      unfold st0. now rewrite before_scoring_G.
    - unfold st1, Scoring.calculate_suspicion_scores.
      unfold st0 at 1. rewrite before_scoring_G, HG.
      now rewrite Hempty0. }
  assert (map sa_account_id (rep_suspicious_accounts (Json.generate_json st1))
          ≡ₚ map fst (filter (fun kv => Qleb kv.2 0 = false)
                             (suspicion_scores st1))) as Hperm.
  { unfold Json.generate_json. simpl.
    rewrite (stable_sort_perm Json.key_leb). now rewrite collect_ids. }
  split; [|split; [|split; [|split]]].
  - rewrite Hperm. apply NoDup_map_fst_filter. rewrite Hkeys.
    destruct (eng_G st); [apply nodes_NoDup|constructor].
  - intros e He.
    assert (sa_account_id e
            ∈ map sa_account_id
                (rep_suspicious_accounts (Json.generate_json st1))) as Hin
      by now apply list_elem_of_fmap_2.
    rewrite Hperm in Hin.
    apply list_elem_of_fmap in Hin as (kv & Hk & Hin).
    apply list_elem_of_filter in Hin as [_ Hin].
    assert (kv.1 ∈ map fst (suspicion_scores st1)) as Hk1
      by now apply list_elem_of_fmap_2.
    rewrite Hkeys in Hk1. destruct (eng_G st) as [G|]; [|inversion Hk1].
    exists G. split; [reflexivity|]. now rewrite Hk.
  - reflexivity.
  - reflexivity.
  - unfold Json.generate_json at 2. cbn [rep_summary total_accounts_analyzed].
    change (suspicious_accounts_flagged (rep_summary (Json.generate_json st1)))
      with (length (rep_suspicious_accounts (Json.generate_json st1))).
    rewrite <- (length_fmap sa_account_id), Hperm, length_fmap.
    etransitivity; [apply length_filter|].
    replace (length (suspicion_scores st1))
      with (length (map fst (suspicion_scores st1))) by apply length_fmap.
    rewrite Hkeys, HG1. destruct (eng_G st); simpl; lia.
Qed.

Lemma report_accounts_distinct_witness :
  NoDup (map sa_account_id
           (rep_suspicious_accounts
              (Pipeline.run_all_after_detection Examples.iso_anomaly
                 (Examples.iso_engine 20)))).
Proof.
  refine (proj1 (report_accounts_distinct Examples.iso_anomaly
                   (Examples.iso_engine 20) _)).
  vm_compute. reflexivity.
Defined.

(** ** Arbitration *)

Section ArbitrationFacts.
Import Rings.

Lemma ring_leb_iff x y : ring_leb x y = true <-> Props.ring_before x y.
Proof.
  unfold ring_leb, Props.ring_before.
  rewrite orb_true_iff, andb_true_iff.
  now rewrite QFacts.Qltb_lt, Qeq_bool_iff.
Qed.

Lemma ring_leb_total x y : ring_leb x y = true \/ ring_leb y x = true.
Proof.
  rewrite !ring_leb_iff. unfold Props.ring_before.
  destruct (Q_dec (risk_score x) (risk_score y)) as [[H|H]|H]; auto.
  destruct (PyStrFacts.le_total (pattern_type x) (pattern_type y)); auto.
  right. right. split; [now symmetry|assumption].
Qed.

Lemma ring_leb_trans x y z :
  ring_leb x y = true -> ring_leb y z = true -> ring_leb x z = true.
Proof.
  rewrite !ring_leb_iff. unfold Props.ring_before.
  intros [H1|[H1 L1]] [H2|[H2 L2]].
  - left. eapply Qlt_trans; eauto.
  - left. now rewrite <- H2.
  - left. now rewrite H1.
  - right. split; [now rewrite H1|].
    eapply PyStrFacts.le_trans; eauto.
Qed.

Lemma StronglySorted_take {A} (R : A -> A -> Prop) n : forall l,
  StronglySorted R l -> StronglySorted R (take n l).
Proof.
  induction n as [|n IH]; intros l Hl; [constructor|].
  destruct Hl as [|x t Hs Hall]; simpl; [constructor|].
  constructor; [now apply IH|].
  apply Forall_forall. intros y Hy. rewrite Forall_forall in Hall.
  apply Hall. now apply elem_of_take_elem in Hy.
Qed.

Lemma is_cycle_false ty : ty <> "cycle" -> is_cycle ty = false.
Proof. intros H. unfold is_cycle. now apply String.eqb_neq. Qed.

Lemma accept_rings_ok s cand members :
  Forall Props.ring_ok (final_rings s) ->
  Forall Props.ring_ok (final_rings (accept s cand members))
  /\ (length (final_rings (accept s cand members))
      <= S (length (final_rings s)))%nat.
Proof.
  intros Hs. unfold accept. cbv zeta.
  set (rm := if negb (is_cycle (c_pattern_type cand))
                && bool_decide (15 < length (PyStr.sorted_set members))%nat
             then take 15 (PyStr.sorted_set members)
             else PyStr.sorted_set members).
  case_bool_decide as Hlen; [split; [exact Hs|lia]|].
  rewrite claim_fold_rings. cbn [final_rings]. split.
  - apply Forall_app. split; [exact Hs|]. constructor; [|constructor].
    unfold Props.ring_ok. cbn [member_accounts pattern_type].
    split; [lia|]. split; [|split].
    + unfold rm. destruct (_ && _).
      * apply StronglySorted_take, PyStrFacts.sorted_set_sorted.
      * apply PyStrFacts.sorted_set_sorted.
    + unfold rm. destruct (_ && _).
      * eapply sublist_NoDup; [apply PyStrFacts.sorted_set_NoDup|].
        apply sublist_take.
      * apply PyStrFacts.sorted_set_NoDup.
    + intros Hty. unfold rm. rewrite (is_cycle_false _ Hty). cbn [negb andb].
      case_bool_decide as H15.
      * rewrite length_take. lia.
      * lia.
  - rewrite length_app. simpl. lia.
Qed.

Lemma merge_into_rings_ok s cand members overlap :
  Forall Props.ring_ok (final_rings s) ->
  Forall Props.ring_ok (final_rings (merge_into s cand members overlap))
  /\ length (final_rings (merge_into s cand members overlap))
     = length (final_rings s).
Proof.
  intros Hs. unfold merge_into.
  destruct (best_key _) as [best|]; [|now split].
  destruct (final_rings s !! best) as [target|] eqn:El; [|now split].
  rewrite claim_fold_rings. cbn [final_rings].
  split; [|now rewrite length_insert].
  apply Forall_insert; [exact Hs|].
  rewrite Forall_forall in Hs.
  destruct (Hs target (list_elem_of_lookup_2 _ _ _ El))
    as (H3 & _ & Hnd & H15).
  set (current := (list_to_set (member_accounts target) : gset string)).
  assert (size current = length (member_accounts target)) as Hsz
    by (apply size_list_to_set; exact Hnd).
  unfold Props.ring_ok. cbn [member_accounts pattern_type].
  rewrite PyStrFacts.length_sorted_set.
  split; [|split; [|split]].
  - etransitivity; [exact H3|]. rewrite <- Hsz.
    apply subseteq_size. apply union_subseteq_l.
  - apply PyStrFacts.sorted_set_sorted.
  - apply PyStrFacts.sorted_set_NoDup.
  - intros Hty. rewrite (is_cycle_false _ Hty).
    specialize (H15 Hty).
    etransitivity; [apply size_union_take|]. lia.
Qed.

Lemma arbitrate_step_rings_ok s cand :
  Forall Props.ring_ok (final_rings s) ->
  Forall Props.ring_ok (final_rings (arbitrate_step s cand))
  /\ (length (final_rings (arbitrate_step s cand))
      <= S (length (final_rings s)))%nat.
Proof.
  intros Hs. unfold arbitrate_step. cbv zeta.
  destruct (Qltb _ _).
  - destruct (merge_into_rings_ok s cand (list_to_set (c_members cand))
                (list_to_set (c_members cand) ∩ used_nodes s) Hs) as [H1 H2].
    split; [exact H1|lia].
  - now apply accept_rings_ok.
Qed.

Lemma arbitrate_fold_rings_ok l : forall s,
  Forall Props.ring_ok (final_rings s) ->
  Forall Props.ring_ok (final_rings (fold_left arbitrate_step l s))
  /\ (length (final_rings (fold_left arbitrate_step l s))
      <= length l + length (final_rings s))%nat.
Proof.
  induction l as [|c l IH]; intros s Hs; simpl; [split; [exact Hs|lia]|].
  destruct (arbitrate_step_rings_ok s c Hs) as [H1 H2].
  destruct (IH _ H1) as [H3 H4]. split; [exact H3|lia].
Qed.

Lemma of_uint_D0 d : Nat.of_uint (Decimal.D0 d) = Nat.of_uint d.
Proof. reflexivity. Qed.

Lemma pad3_decode n :
  option_map Nat.of_uint (NilEmpty.uint_of_string (pad3 n)) = Some n.
Proof.
  unfold pad3.
  pose proof (NilEmpty.usu (Nat.to_uint n)) as Hu.
  pose proof (Unsigned.of_to n) as Hn.
  remember (NilEmpty.string_of_uint (Nat.to_uint n)) as digits eqn:Ed.
  clear Ed. destruct (String.length digits) as [|[|[|k]]] eqn:El.
  - destruct digits; [|discriminate El]. simpl in Hu.
    injection Hu as Hu. rewrite <- Hu in Hn. rewrite <- Hn. reflexivity.
  - change ("00" ++ digits)%string with (String "0" (String "0" digits)).
    cbn [NilEmpty.uint_of_string]. rewrite Hu. cbn -[Nat.of_uint].
    now rewrite !of_uint_D0, Hn.
  - change ("0" ++ digits)%string with (String "0" digits).
    cbn [NilEmpty.uint_of_string]. rewrite Hu. cbn -[Nat.of_uint].
    now rewrite !of_uint_D0, Hn.
  - rewrite Hu. cbn -[Nat.of_uint]. now rewrite Hn.
Qed.

Lemma pad3_inj n m : pad3 n = pad3 m -> n = m.
Proof.
  intros H. pose proof (pad3_decode n) as Hn. rewrite H, pad3_decode in Hn.
  now injection Hn.
Qed.

Lemma StronglySorted_imap {A} (R : A -> A -> Prop) (l : list A) :
  forall f : nat -> A -> A,
    (forall i x y, R x y -> R (f i x) y) ->
    (forall i x y, R x y -> R x (f i y)) ->
    StronglySorted R l -> StronglySorted R (imap f l).
Proof.
  induction l as [|x t IH]; intros f Hl Hr Hs; simpl; [constructor|].
  apply StronglySorted_inv in Hs as [Hs Hall].
  constructor.
  - apply IH; [intros; now apply Hl|intros; now apply Hr|exact Hs].
  - apply Forall_forall. intros y Hy.
    apply elem_of_lookup_imap_1 in Hy as (i & y0 & -> & Hi).
    apply Hl, Hr. rewrite Forall_forall in Hall.
    apply Hall. eapply list_elem_of_lookup_2. exact Hi.
Qed.
End ArbitrationFacts.

(** X9, [_arbitrate_rings]. Every ring of the output has at least three
    members, listed in ascending order without duplicates, and at most
    15 of them unless it is a cycle ring; the ring at position [i] has
    the id RING_ followed by [i + 1] in three digits, so the ids are
    pairwise distinct; the rings are ordered by descending risk score,
    then by pattern type; there are at most as many rings as
    candidates. *)
Theorem arbitrated_rings_wellformed (candidates : list Candidate) :
  let rings := Rings.arbitrate_rings candidates in
  Forall Props.ring_ok rings
  /\ (forall i r, rings !! i = Some r ->
                  ring_id r = ("RING_" ++ Rings.pad3 (i + 1))%string)
  /\ NoDup (map ring_id rings)
  /\ StronglySorted Props.ring_before rings
  /\ (length rings <= length candidates)%nat.
Proof.
  intros rings. subst rings. unfold Rings.arbitrate_rings.
  destruct candidates as [|c0 cs'].
  { repeat split; try constructor. intros i r H. inversion H. }
  remember (c0 :: cs') as cs eqn:Ecs. clear Ecs c0 cs'.
  destruct (arbitrate_fold_rings_ok (stable_sort Rings.cand_leb cs)
              {| Rings.final_rings := []; Rings.used_nodes := ∅;
                 Rings.node_to_ring_idx := ∅ |} (List.Forall_nil _))
    as [Hok Hlen].
  set (rs := Rings.final_rings (fold_left Rings.arbitrate_step _ _)) in *.
  assert (forall i r, Rings.assign_ids (stable_sort Rings.ring_leb rs) !! i
                      = Some r ->
                      ring_id r = ("RING_" ++ Rings.pad3 (i + 1))%string) as Hids.
  { intros i r Hi. unfold Rings.assign_ids in Hi.
    apply list_lookup_imap_Some in Hi as (r0 & _ & ->). reflexivity. }
  split; [|split; [exact Hids|split; [|split]]].
  - apply Forall_forall. intros r Hr.
    apply elem_of_lookup_imap_1 in Hr as (i & r0 & -> & Hi).
    apply list_elem_of_lookup_2 in Hi. rewrite stable_sort_perm in Hi.
    rewrite Forall_forall in Hok. exact (Hok r0 Hi).
  - apply NoDup_alt. intros i j x Hi Hj.
    rewrite list_lookup_fmap in Hi, Hj.
    destruct (Rings.assign_ids _ !! i) as [ri|] eqn:Ei; [|discriminate].
    destruct (Rings.assign_ids _ !! j) as [rj|] eqn:Ej; [|discriminate].
    simpl in Hi, Hj. injection Hi as Hi. injection Hj as Hj.
    rewrite (Hids _ _ Ei) in Hi. rewrite (Hids _ _ Ej) in Hj.
    rewrite <- Hj in Hi. injection Hi as Hi.
    apply pad3_inj in Hi. lia.
  - unfold Rings.assign_ids. apply StronglySorted_imap.
    + intros i x y H. exact H.
    + intros i x y H. exact H.
    + eapply StronglySorted_impl;
        [|apply (stable_sort_sorted Rings.ring_leb ring_leb_total ring_leb_trans)].
      intros x y. apply ring_leb_iff.
  - unfold Rings.assign_ids. rewrite length_imap.
    rewrite (Permutation_length (stable_sort_perm Rings.ring_leb rs)).
    rewrite (Permutation_length (stable_sort_perm Rings.cand_leb cs)) in Hlen.
    simpl in Hlen. lia.
Qed.

(** X10, [_consolidate_rings]. Consolidation invents no member: every
    account of a ring it produces is a member of one of the candidate
    rings it started from. *)
Theorem ring_members_are_candidate_members (st : Engine) (r : FraudRing)
    (m : string) :
  fraud_rings st = [] ->
  r ∈ fraud_rings (Rings.consolidate_rings st) ->
  m ∈ member_accounts r ->
  exists c, c ∈ candidate_rings st /\ m ∈ c_members c.
Proof.
  intros Hempty Hr Hm. unfold Rings.consolidate_rings in Hr.
  destruct (candidate_rings st) as [|c0 cs'] eqn:Ecs.
  { rewrite Hempty in Hr. inversion Hr. }
  rewrite <- Ecs in Hr |- *. cbn [fraud_rings set_fraud_rings] in Hr.
  destruct (decide (Exists (fun c => m ∈ c_members c) (candidate_rings st)))
    as [Hex|Hno].
  - apply Exists_exists in Hex. exact Hex.
  - exfalso. apply not_Exists_Forall in Hno; [|intros c; apply _].
    pose proof (arbitrate_rings_avoid m _
                  (smurf_consolidation_avoid m _ Hno)) as Hav.
    unfold Specs.rings_avoid in Hav. rewrite Forall_forall in Hav.
    exact (Hav r Hr Hm).
Qed.

Lemma ring_members_are_candidate_members_witness :
  exists c,
    c ∈ candidate_rings
          (Pipeline.immune_cleanup
             (Pipeline.ring_detectors 20 Examples.shared_loaded))
    /\ "d" ∈ c_members c.
Proof.
  apply (ring_members_are_candidate_members
           (Pipeline.immune_cleanup
              (Pipeline.ring_detectors 20 Examples.shared_loaded))
           {| ring_id := "RING_002"; member_accounts := ["a"; "d"; "e"];
              pattern_type := "shell_network"; risk_score := 700 # 10 |}
           "d").
  - vm_compute. reflexivity.
  - vm_compute. apply list_elem_of_further, list_elem_of_here.
  - simpl. apply list_elem_of_further, list_elem_of_here.
Defined.

(** ** Smurf consolidation *)

Section ConsolidationFacts.
Import Rings.

Lemma group_append_indices k i d :
  flat_map snd (group_append k i d) ≡ₚ flat_map snd d ++ [i].
Proof.
  induction d as [|[k' l] t IH]; simpl; [reflexivity|].
  destruct (Nat.eqb k k'); simpl.
  - rewrite <- !List.app_assoc. apply Permutation_app_head.
    apply Permutation_app_comm.
  - rewrite IH. now rewrite List.app_assoc.
Qed.

Lemma group_append_length k i d :
  (length (group_append k i d) <= S (length d))%nat.
Proof.
  induction d as [|[k' l] t IH]; simpl; [lia|].
  destruct (Nat.eqb k k'); simpl; lia.
Qed.

Lemma uf_groups_indices l : forall parent groups,
  let res :=
    fold_left
      (fun '(parent, groups) i =>
         let '(parent, r) := uf_find parent i in
         (parent, group_append r i groups))
      l (parent, groups) in
  flat_map snd res.2 ≡ₚ flat_map snd groups ++ l
  /\ (length res.2 <= length groups + length l)%nat.
Proof.
  induction l as [|i l IH]; intros parent groups; simpl.
  - rewrite app_nil_r. split; [reflexivity|lia].
  - destruct (uf_find parent i) as [parent' r].
    destruct (IH parent' (group_append r i groups)) as [H1 H2].
    split.
    + rewrite H1, group_append_indices. now rewrite <- List.app_assoc.
    + pose proof (group_append_length r i groups). lia.
Qed.

Lemma core_append_items k c d :
  flat_map snd (core_append k c d) ≡ₚ flat_map snd d ++ [c].
Proof.
  induction d as [|[k' l] t IH]; simpl; [reflexivity|].
  destruct (String.eqb k k'); simpl.
  - rewrite <- !List.app_assoc. apply Permutation_app_head.
    apply Permutation_app_comm.
  - rewrite IH. now rewrite List.app_assoc.
Qed.

Lemma core_append_nonempty k c d :
  Forall (fun kg => kg.2 <> []) d ->
  Forall (fun kg => kg.2 <> []) (core_append k c d).
Proof.
  induction 1 as [|[k' l] t Hl Ht IH]; simpl.
  - repeat constructor. discriminate.
  - destruct (String.eqb k k'); constructor; auto. simpl.
    intros H. now apply app_eq_nil in H as [_ H].
Qed.

Lemma core_groups_items l : forall d,
  let res :=
    fold_left
      (fun d s => core_append (default "unknown" (c_core_account s)) s d) l d in
  flat_map snd res ≡ₚ flat_map snd d ++ l
  /\ (Forall (fun kg => kg.2 <> []) d -> Forall (fun kg => kg.2 <> []) res).
Proof.
  induction l as [|s l IH]; intros d; simpl.
  - rewrite app_nil_r. split; [reflexivity|auto].
  - destruct (IH (core_append (default "unknown" (c_core_account s)) s d))
      as [H1 H2]. split.
    + rewrite H1, core_append_items. now rewrite <- List.app_assoc.
    + intros Hd. apply H2. now apply core_append_nonempty.
Qed.

(** What [merge_group] emits for a group that is not empty. *)
Lemma merge_group_spec core group :
  group <> [] ->
  Forall (fun c => is_smurf c = true) group ->
  Forall (fun c => is_smurf c = true) (merge_group core group)
  /\ (length (merge_group core group) <= length group)%nat
  /\ (forall m,
         Exists (fun c => m ∈ c_members c) (merge_group core group)
         <-> Exists (fun c => m ∈ c_members c) group).
Proof.
  intros Hne Hsm. unfold merge_group.
  destruct group as [|c [|c' t]]; [done|now repeat split|].
  remember (c :: c' :: t) as group eqn:Eg. clear Eg Hne c c' t.
  cbv zeta.
  set (parent := fold_left _ (index_pairs _) _).
  pose proof (uf_groups_indices (seq 0 (length group)) parent []) as Hidx.
  cbv zeta in Hidx.
  destruct (fold_left _ (seq 0 (length group)) (parent, []))
    as [p uf_groups]. cbn [snd] in Hidx. destruct Hidx as [Hperm Hlen].
  simpl in Hperm, Hlen. rewrite length_seq in Hlen.
  split; [|split].
  - apply Forall_fmap, Forall_forall. intros [k indices] _. reflexivity.
  - rewrite length_fmap. lia.
  - intros m. rewrite !Exists_exists. split.
    + intros (c & Hc & Hm).
      apply list_elem_of_fmap in Hc as ([k indices] & -> & Hki).
      cbn [c_members] in Hm.
      apply PyStrFacts.elem_of_sorted_set, elem_of_union_list in Hm
        as (X & HX & Hm).
      apply list_elem_of_fmap in HX as (g & -> & Hg).
      apply list_elem_of_omap in Hg as (idx & _ & Hl).
      exists g. split; [eapply list_elem_of_lookup_2; exact Hl|].
      now apply elem_of_list_to_set in Hm.
    + intros (g & Hg & Hm).
      apply list_elem_of_lookup_1 in Hg as (idx & Hidx).
      assert (idx ∈ flat_map snd uf_groups) as Hin.
      { rewrite Hperm. apply elem_of_seq.
        apply lookup_lt_Some in Hidx. lia. }
      apply list_elem_of_In, in_flat_map in Hin as ([k indices] & Hki & Hin).
      apply list_elem_of_In in Hki, Hin. cbn [snd] in Hin.
      eexists. split.
      * apply list_elem_of_fmap. exists (k, indices). split; [reflexivity|exact Hki].
      * cbn [c_members].
        apply PyStrFacts.elem_of_sorted_set, elem_of_union_list.
        exists (list_to_set (c_members g)). split.
        -- apply list_elem_of_fmap. exists g. split; [reflexivity|].
           apply list_elem_of_omap. exists idx. split; [exact Hin|exact Hidx].
        -- now apply elem_of_list_to_set.
Qed.

Lemma flat_merge_spec (core_groups : list (string * list Candidate)) :
  Forall (fun kg => kg.2 <> []) core_groups ->
  Forall (fun c => is_smurf c = true) (flat_map snd core_groups) ->
  let out := flat_map (fun '(core, group) => merge_group core group)
                      core_groups in
  Forall (fun c => is_smurf c = true) out
  /\ (length out <= length (flat_map snd core_groups))%nat
  /\ (forall m,
         Exists (fun c => m ∈ c_members c) out
         <-> Exists (fun c => m ∈ c_members c) (flat_map snd core_groups)).
Proof.
  induction core_groups as [|[core group] t IH]; intros Hne Hsm; simpl.
  - repeat split; try constructor; try lia; intros H; inversion H.
  - apply Forall_cons in Hne as [Hg Hne].
    simpl in Hsm. apply Forall_app in Hsm as [Hs1 Hs2].
    destruct (merge_group_spec core group Hg Hs1) as (M1 & M2 & M3).
    destruct (IH Hne Hs2) as (I1 & I2 & I3).
    split; [|split].
    + apply Forall_app. now split.
    + rewrite !length_app. lia.
    + intros m. rewrite !Exists_app, M3, I3. reflexivity.
Qed.
End ConsolidationFacts.

(** X11, [_smurf_consolidation]. The candidates that are not smurfing
    candidates pass through unchanged and in their order; the
    consolidated list is not longer than the input; and the accounts
    covered by smurfing candidates are the same before and after: an
    account is a member of a smurfing candidate of the output exactly
    when it is a member of a smurfing candidate of the input. *)
Theorem smurf_consolidation_preserves_accounts (candidates : list Candidate) :
  let out := Rings.smurf_consolidation candidates in
  filter (fun c => Rings.is_smurf c = false) out
  = filter (fun c => Rings.is_smurf c = false) candidates
  /\ (length out <= length candidates)%nat
  /\ (forall m,
         Exists (fun c => Rings.is_smurf c = true /\ m ∈ c_members c) out
         <-> Exists (fun c => Rings.is_smurf c = true /\ m ∈ c_members c)
                    candidates).
Proof.
  intros out. subst out. unfold Rings.smurf_consolidation.
  set (smurf := filter (fun c => Rings.is_smurf c = true) candidates).
  set (non_smurf := filter (fun c => Rings.is_smurf c = false) candidates).
  destruct smurf as [|s0 ss] eqn:E.
  { repeat split; try lia; auto. }
  rewrite <- E. clear E s0 ss.
  destruct (core_groups_items smurf []) as [Hperm Hne]. cbv zeta in Hperm, Hne.
  set (core_groups := fold_left _ smurf []) in *.
  simpl in Hperm. specialize (Hne (List.Forall_nil _)).
  assert (Forall (fun c => Rings.is_smurf c = true) smurf) as Hsm.
  { apply Forall_forall. intros c Hc.
    now apply list_elem_of_filter in Hc as [Hc _]. }
  assert (Forall (fun c => Rings.is_smurf c = true) (flat_map snd core_groups))
    as Hsm' by now rewrite Hperm.
  destruct (flat_merge_spec core_groups Hne Hsm') as (M1 & M2 & M3).
  cbv zeta in M1, M2, M3.
  set (merged := flat_map (fun '(core, group) => Rings.merge_group core group)
                          core_groups) in *.
  assert (forall l, Forall (fun c => Rings.is_smurf c = true) l ->
                    filter (fun c => Rings.is_smurf c = false) l = []) as Hf1.
  { induction 1 as [|c l Hc _ IH]; [reflexivity|].
    rewrite filter_cons_False by congruence. exact IH. }
  assert (forall l, Forall (fun c => Rings.is_smurf c = false) l ->
                    filter (fun c => Rings.is_smurf c = false) l = l) as Hf2.
  { induction 1 as [|c l Hc _ IH]; [reflexivity|].
    rewrite filter_cons_True by exact Hc. now rewrite IH. }
  assert (Forall (fun c => Rings.is_smurf c = false) non_smurf) as Hns.
  { apply Forall_forall. intros c Hc.
    now apply list_elem_of_filter in Hc as [Hc _]. }
  split; [|split].
  - rewrite filter_app, (Hf1 _ M1), app_nil_r. now apply Hf2.
  - rewrite length_app.
    rewrite (Permutation_length Hperm) in M2.
    assert (length non_smurf + length smurf = length candidates)%nat as Hl.
    { unfold non_smurf, smurf. clear.
      induction candidates as [|c l IH]; [reflexivity|].
      destruct (Rings.is_smurf c) eqn:Ec.
      - rewrite filter_cons_False, filter_cons_True by congruence.
        simpl. lia.
      - rewrite filter_cons_True, filter_cons_False by congruence.
        simpl. lia. }
    lia.
  - intros m. rewrite Exists_app. split.
    + intros [H|H].
      * apply Exists_exists in H as (c & Hc & Hs & _).
        rewrite Forall_forall in Hns. rewrite (Hns c Hc) in Hs. discriminate.
      * assert (Exists (fun c => m ∈ c_members c) merged) as H'.
        { apply Exists_exists in H as (c & Hc & _ & Hm).
          apply Exists_exists. exists c. split; [exact Hc|exact Hm]. }
        apply M3 in H'. rewrite Hperm in H'.
        apply Exists_exists in H' as (c & Hc & Hm).
        apply list_elem_of_filter in Hc as [Hs Hc].
        apply Exists_exists. exists c. split; [exact Hc|]. split; [exact Hs|exact Hm].
    + intros H. right.
      apply Exists_exists in H as (c & Hc & Hs & Hm).
      assert (Exists (fun c => m ∈ c_members c) (flat_map snd core_groups))
        as H'.
      { rewrite Hperm. apply Exists_exists. exists c. split; [|exact Hm].
        now apply list_elem_of_filter. }
      apply M3 in H'. apply Exists_exists in H' as (c' & Hc' & Hm').
      apply Exists_exists. exists c'. split; [exact Hc'|].
      rewrite Forall_forall in M1. split; [now apply M1|exact Hm'].
Qed.

(** ** Shell chains and shell rings *)

Section ShellPathFacts.
Import Shells.
Variable G : Graph.
Variable cands : gset string.
Variable k : nat.

Lemma expand_paths current path acc n :
  Props.chain_entry G cands (current, path) -> (length path < 4)%nat ->
  n ∈ successors G current ->
  Forall (Props.chain_entry G cands) acc.1.1 ->
  Forall (Props.shell_path G cands k) acc.1.2 ->
  Forall (Props.chain_entry G cands) (expand cands k path acc n).1.1
  /\ Forall (Props.shell_path G cands k) (expand cands k path acc n).1.2.
Proof.
  intros (Hp & Hnd & Hl & start & mids & Hpath & Hmids) Hlen Hn.
  destruct acc as [[stack results] pf]. cbn [fst snd] in *.
  intros Hs Hr. unfold expand.
  case_bool_decide as Hin; [now split|].
  assert (Specs.is_path G (path ++ [n])) as Hp'
    by (eapply is_path_snoc; eauto).
  assert (NoDup (path ++ [n])) as Hnd'.
  { apply NoDup_app. split; [exact Hnd|]. split; [|apply NoDup_singleton].
    intros x Hx Hx'. apply list_elem_of_singleton in Hx'. now subst. }
  case_bool_decide as Hc; cbn [fst snd].
  - split; [|exact Hr]. constructor; [|exact Hs].
    split; [exact Hp'|]. split; [exact Hnd'|]. split; [apply last_snoc|].
    exists start, (mids ++ [n]). cbn [snd]. split; [now rewrite Hpath|].
    apply Forall_app. split; [exact Hmids|]. now repeat constructor.
  - assert (interior (path ++ [n]) = mids) as Hint.
    { rewrite Hpath. unfold interior. cbn [app tail].
      apply removelast_last. }
    assert (filter (fun x => x ∈ cands) mids = mids) as Hf.
    { clear -Hmids. induction Hmids as [|x l Hx _ IH]; [reflexivity|].
      rewrite filter_cons_True by exact Hx. now rewrite IH. }
    rewrite Hint, Hf.
    case_bool_decide as Hk; cbn [fst snd]; [|now split].
    split; [exact Hs|]. apply Forall_app. split; [exact Hr|].
    constructor; [|constructor].
    split; [exact Hp'|]. split; [exact Hnd'|].
    split; [rewrite length_app; simpl; lia|].
    exists start, mids, n. split; [now rewrite Hpath|].
    split; [exact Hmids|]. split; [exact Hc|exact Hk].
Qed.

Lemma fold_expand_paths current path l : forall acc,
  Props.chain_entry G cands (current, path) -> (length path < 4)%nat ->
  (forall n, n ∈ l -> n ∈ successors G current) ->
  Forall (Props.chain_entry G cands) acc.1.1 ->
  Forall (Props.shell_path G cands k) acc.1.2 ->
  Forall (Props.chain_entry G cands)
         (fold_left (expand cands k path) l acc).1.1
  /\ Forall (Props.shell_path G cands k)
            (fold_left (expand cands k path) l acc).1.2.
Proof.
  induction l as [|n t IH]; intros acc He Hlen Hl Hs Hr; simpl;
    [now split|].
  destruct (expand_paths current path acc n He Hlen
              (Hl n (list_elem_of_here _ _)) Hs Hr) as [Hs' Hr'].
  apply IH; auto. intros m Hm. apply Hl. now right.
Qed.

Lemma shell_loop_paths fuel : forall stack results pf,
  Forall (Props.chain_entry G cands) stack ->
  Forall (Props.shell_path G cands k) results ->
  Forall (Props.shell_path G cands k)
         (shell_loop fuel G cands k stack results pf).
Proof.
  induction fuel as [|fuel IH]; intros stack results pf Hs Hr; simpl;
    [exact Hr|].
  destruct stack as [|[current path] stack']; [exact Hr|].
  apply Forall_cons in Hs as [He Hs].
  case_bool_decide; [exact Hr|].
  case_bool_decide as Hlen; [now apply IH|].
  pose proof (fold_expand_paths current path (successors G current)
                (stack', results, pf) He ltac:(lia) ltac:(auto) Hs Hr)
    as [Hs' Hr'].
  destruct (fold_left _ _ _) as [[stack'' results'] pf'].
  now apply IH.
Qed.

Lemma chain_walk_paths fuel :
  Forall (fun c => Props.shell_path G cands k c
                   /\ exists start, head c = Some start /\ start ∉ cands)
         (chain_walk fuel G cands k).
Proof.
  unfold chain_walk.
  set (P := fun c => Props.shell_path G cands k c
                     /\ exists start, head c = Some start /\ start ∉ cands).
  assert (forall l results,
             Forall P results ->
             Forall P
               (fold_left
                  (fun results node =>
                     if bool_decide (node ∈ cands) then results
                     else find_shell_chains fuel G cands k node results)
                  l results)) as H.
  { induction l as [|n t IH]; intros results Hr; simpl; [exact Hr|].
    apply IH. case_bool_decide as Hn; [exact Hr|].
    unfold find_shell_chains.
    assert (forall fuel stack results pf,
               Forall (fun e => exists rest, e.2 = n :: rest) stack ->
               Forall (fun c => exists rest, c = n :: rest \/ P c) results ->
               Forall (fun c => exists rest, c = n :: rest \/ P c)
                      (shell_loop fuel G cands k stack results pf)) as Hhead.
    { clear. induction fuel as [|fuel IH]; intros stack results pf Hs Hr;
        simpl; [exact Hr|].
      destruct stack as [|[current path] stack']; [exact Hr|].
      apply Forall_cons in Hs as [[rest He] Hs]. cbn [snd] in He.
      case_bool_decide; [exact Hr|].
      case_bool_decide; [now apply IH|].
      assert (forall l acc,
                 Forall (fun e => exists rest, e.2 = n :: rest) acc.1.1 ->
                 Forall (fun c => exists rest, c = n :: rest \/ P c) acc.1.2 ->
                 Forall (fun e => exists rest, e.2 = n :: rest)
                        (fold_left (expand cands k path) l acc).1.1
                 /\ Forall (fun c => exists rest, c = n :: rest \/ P c)
                           (fold_left (expand cands k path) l acc).1.2) as Hf.
      { induction l as [|m l IHl]; intros acc Ha1 Ha2; simpl; [now split|].
        apply IHl; destruct acc as [[st rs] p]; unfold expand; cbn [fst snd] in *;
          repeat case_bool_decide; cbn [fst snd]; auto.
        - constructor; [|exact Ha1]. exists (rest ++ [m]). cbn [snd].
          now rewrite He.
        - apply Forall_app. split; [exact Ha2|].
          constructor; [|constructor]. exists (rest ++ [m]). left.
          now rewrite He. }
      destruct (Hf (successors G current) (stack', results, pf) Hs Hr)
        as [H1 H2].
      destruct (fold_left _ _ _) as [[stack'' results'] pf'].
      now apply IH. }
    assert (Forall (Props.shell_path G cands k)
                   (shell_loop fuel G cands k [(n, [n])] results 0)) as Hsp.
    { apply shell_loop_paths.
      - constructor; [|constructor].
        split; [exact I|]. split; [apply NoDup_singleton|].
        split; [reflexivity|]. exists n, []. split; [reflexivity|constructor].
      - eapply Forall_impl; [exact Hr|]. intros c [Hc _]. exact Hc. }
    specialize (Hhead fuel [(n, [n])] results 0%nat).
    assert (Forall (fun c => exists rest, c = n :: rest \/ P c)
                   (shell_loop fuel G cands k [(n, [n])] results 0)) as Hh.
    { apply Hhead.
      - constructor; [|constructor]. now exists [].
      - eapply Forall_impl; [exact Hr|]. intros c Hc. exists []. now right. }
    apply Forall_forall. intros c Hc.
    rewrite Forall_forall in Hsp, Hh.
    destruct (Hh c Hc) as (rest & [->|HP]); [|exact HP].
    split; [now apply Hsp|]. exists n. split; [reflexivity|exact Hn]. }
  apply H. constructor.
Qed.
End ShellPathFacts.

(** X12, [_find_shell_chains] and the chain walk of [detect_shells].
    Every chain handed to the hardening loop is a path of the graph
    along successor edges without repeated nodes; it starts at a node
    that is no shell candidate, passes through at least
    [min_intermediaries] shell candidates and nothing else, and ends at
    a node that is no shell candidate; it has at most four nodes. *)
Theorem shell_chains_are_candidate_paths (fuel : nat) (G : Graph)
    (shell_candidates : gset string) (min_intermediaries : nat)
    (chain : list string) :
  chain ∈ Shells.chain_walk fuel G shell_candidates min_intermediaries ->
  Specs.is_path G chain /\ NoDup chain
  /\ (min_intermediaries + 2 <= length chain <= 4)%nat
  /\ exists start mids stop,
       chain = start :: mids ++ [stop]
       /\ (start ∉ shell_candidates)
       /\ Forall (fun n => n ∈ shell_candidates) mids
       /\ (stop ∉ shell_candidates).
Proof.
  intros Hin.
  pose proof (chain_walk_paths G shell_candidates min_intermediaries fuel)
    as Hall.
  rewrite Forall_forall in Hall.
  destruct (Hall chain Hin)
    as ((Hp & Hnd & Hlen & start & mids & stop & -> & Hm & Hs & Hk)
        & start' & Hh & Hstart).
  cbn [head] in Hh. injection Hh as <-.
  split; [exact Hp|]. split; [exact Hnd|]. split.
  - split; [|exact Hlen]. cbn [length]. rewrite length_app. simpl. lia.
  - exists start, mids, stop. repeat split; assumption.
Qed.

Lemma shell_chains_are_candidate_paths_witness :
  NoDup Examples.shell_chain
  /\ (3 <= length Examples.shell_chain <= 4)%nat.
Proof.
  destruct (shell_chains_are_candidate_paths 100 Examples.shell_graph_equal
              {["c1"]} 1 Examples.shell_chain) as (_ & Hnd & Hlen & _).
  - vm_compute. apply list_elem_of_here.
  - split; [exact Hnd|exact Hlen].
Defined.

Section ShellRingFacts.
Import Shells.

Lemma judge_chain_Accepted G immune seen chain c :
  judge_chain G immune seen chain = Accepted c ->
  let nic := filter (fun a => a ∉ immune) chain in
  (3 <= length nic)%nat
  /\ ((list_to_set nic : gset string) ∉ seen)
  /\ c_members c = PyStr.sorted_list nic
  /\ c_pattern_type c = "shell_network"
  /\ c_risk_score c = round1 (Qmin 100 (55 + Qnat (length chain) * 5))
  /\ (exists x, c_confidence_score c = Qmax (1 # 10) (Qmin 1 x)).
Proof.
  unfold judge_chain. cbv zeta.
  case_bool_decide as H3; [discriminate|].
  case_bool_decide as Hseen; [discriminate|].
  case_bool_decide; [discriminate|].
  destruct (Qltb 4 _); [discriminate|].
  case_bool_decide; [discriminate|].
  destruct (rule4_rejects _ _); [discriminate|].
  destruct (_ && _); [discriminate|].
  intros [= <-]. cbn [c_members c_pattern_type c_risk_score c_confidence_score].
  split; [lia|]. split; [exact Hseen|]. repeat split. eexists. reflexivity.
Qed.

Lemma Qclamp_bounds x :
  (1 # 10 <= Qmax (1 # 10) (Qmin 1 x))%Q /\ (Qmax (1 # 10) (Qmin 1 x) <= 1)%Q.
Proof.
  unfold Qmax, Qmin.
  destruct (Qleb 1 x) eqn:E1.
  - destruct (Qleb (1 # 10) 1) eqn:E2; split; try discriminate; apply Qle_refl.
  - apply QFacts.Qleb_gt in E1.
    destruct (Qleb (1 # 10) x) eqn:E2.
    + apply QFacts.Qleb_le in E2. split; [exact E2|now apply Qlt_le_weak].
    + split; [apply Qle_refl|discriminate].
Qed.

Lemma StronglySorted_NoDup_perm (l l' : list string) :
  NoDup l -> l' ≡ₚ l -> NoDup l'.
Proof. intros H Hp. now rewrite Hp. Qed.
End ShellRingFacts.

(** X13, the hardening loop of [detect_shells]. It appends to the
    candidate rings and changes none that were there; it appends at
    most 50 rings; every ring it appends is of type shell_network, has
    three or four members, sorted and without duplicates, none of them
    immune, a confidence between 0.1 and 1 and a risk score of 70 or
    75; no two of them have the same member set. *)
Theorem shell_rings_wellformed (fuel : nat) (st : Engine) :
  exists new,
    candidate_rings (Shells.detect_shells fuel st) = candidate_rings st ++ new
    /\ (length new <= Shells.MAX_SHELL_RINGS)%nat
    /\ Forall (fun c =>
                 c_pattern_type c = "shell_network"
                 /\ (3 <= length (c_members c) <= 4)%nat
                 /\ StronglySorted PyStr.le (c_members c)
                 /\ NoDup (c_members c)
                 /\ Forall (fun m => m ∉ immune_accounts st) (c_members c)
                 /\ (1 # 10 <= c_confidence_score c)%Q
                 /\ (c_confidence_score c <= 1)%Q
                 /\ (c_risk_score c = (700 # 10)%Q
                     \/ c_risk_score c = (750 # 10)%Q))
              new
    /\ NoDup (map (fun c => (list_to_set (c_members c) : gset string)) new).
Proof.
  unfold Shells.detect_shells.
  destruct (eng_G st) as [G|] eqn:HG;
    [|exists []; rewrite app_nil_r; repeat split; try constructor;
      unfold Shells.MAX_SHELL_RINGS; simpl; lia].
  destruct (eng_df st) as [df|];
    [|exists []; rewrite app_nil_r; repeat split; try constructor;
      unfold Shells.MAX_SHELL_RINGS; simpl; lia].
  unfold Shells.harden_chains. rewrite HG.
  case_bool_decide;
    [exists []; rewrite app_nil_r; repeat split; try constructor;
     unfold Shells.MAX_SHELL_RINGS; simpl; lia|].
  cbv zeta.
  set (cands := Shells.shell_candidates st G).
  set (k := if Qltb 8 (median_degree st) then 2%nat else 1%nat).
  pose proof (chain_walk_paths G cands k fuel) as Hchains.
  set (chains := Shells.chain_walk fuel G cands k) in *.
  set (ok := fun c : Candidate =>
               c_pattern_type c = "shell_network"
               /\ (3 <= length (c_members c) <= 4)%nat
               /\ StronglySorted PyStr.le (c_members c)
               /\ NoDup (c_members c)
               /\ Forall (fun m => m ∉ immune_accounts st) (c_members c)
               /\ (1 # 10 <= c_confidence_score c)%Q
               /\ (c_confidence_score c <= 1)%Q
               /\ (c_risk_score c = (700 # 10)%Q
                   \/ c_risk_score c = (750 # 10)%Q)).
  set (inv := fun hs : Shells.harden_state =>
                exists new,
                  Shells.hs_rings hs = candidate_rings st ++ new
                  /\ Shells.hs_ring_count hs = length new
                  /\ (length new <= Shells.MAX_SHELL_RINGS)%nat
                  /\ Forall ok new
                  /\ Shells.hs_seen hs
                     = map (fun c => (list_to_set (c_members c) : gset string))
                           new
                  /\ NoDup (Shells.hs_seen hs)).
  assert (forall l hs,
             Forall (fun c => Props.shell_path G cands k c
                              /\ exists start, head c = Some start
                                               /\ start ∉ cands) l ->
             inv hs ->
             inv (fold_left (Shells.harden_step G (immune_accounts st)) l hs))
    as Hfold.
  { induction l as [|chain l IH]; intros hs Hl Hinv; simpl; [exact Hinv|].
    apply Forall_cons in Hl as [[Hc _] Hl]. apply IH; [exact Hl|].
    unfold Shells.harden_step.
    case_bool_decide as Hcap; [exact Hinv|].
    destruct (Shells.judge_chain G (immune_accounts st) (Shells.hs_seen hs) chain)
      as [| |c] eqn:Ej; try exact Hinv.
    destruct Hinv as (new & Hr & Hcount & Hlen & Hok & Hseen & Hnd).
    apply judge_chain_Accepted in Ej. cbv zeta in Ej.
    destruct Ej as (H3 & Hns & Hm & Hty & Hrisk & x & Hconf).
    destruct Hc as (_ & Hcnd & Hc4 & _).
    set (nic := filter (fun a => a ∉ immune_accounts st) chain) in *.
    assert (length nic <= length chain)%nat as Hnl by apply length_filter.
    exists (new ++ [c]). cbn [Shells.hs_rings Shells.hs_ring_count Shells.hs_seen].
    split; [now rewrite Hr, List.app_assoc|].
    split; [rewrite length_app; simpl; lia|].
    split; [rewrite length_app; simpl; lia|].
    assert ((list_to_set (c_members c) : gset string) = list_to_set nic) as Hkey.
    { rewrite Hm. apply set_eq. intros y.
      now rewrite !elem_of_list_to_set, PyStrFacts.elem_of_sorted_list. }
    split; [|split].
    - apply Forall_app. split; [exact Hok|]. constructor; [|constructor].
      unfold ok. split; [exact Hty|].
      rewrite Hm, PyStrFacts.length_sorted_list.
      split; [lia|]. split; [apply PyStrFacts.sorted_list_sorted|].
      split.
      { apply (StronglySorted_NoDup_perm nic);
          [|apply PyStrFacts.sorted_list_perm].
        eapply sublist_NoDup; [exact Hcnd|apply sublist_filter]. }
      split.
      { apply Forall_forall. intros y Hy.
        apply PyStrFacts.elem_of_sorted_list, list_elem_of_filter in Hy.
        tauto. }
      rewrite Hconf. destruct (Qclamp_bounds x) as [Hlo Hhi].
      split; [exact Hlo|]. split; [exact Hhi|].
      rewrite Hrisk.
      assert (length chain = 3 \/ length chain = 4)%nat as [->| ->] by lia;
        [left|right]; vm_compute; reflexivity.
    - rewrite fmap_app. cbn [fmap list_fmap]. rewrite Hkey. now rewrite Hseen.
    - apply NoDup_app. split; [exact Hnd|]. split; [|apply NoDup_singleton].
      intros y Hy Hy'. apply list_elem_of_singleton in Hy'. subst y.
      contradiction. }
  destruct (Hfold chains
              {| Shells.hs_seen := []; Shells.hs_ring_count := 0;
                 Shells.hs_rings := candidate_rings st;
                 Shells.hs_patterns := account_patterns st |} Hchains)
    as (new & Hr & _ & Hlen & Hok & Hseen & Hnd).
  { exists []. cbn. rewrite app_nil_r. repeat split; try constructor.
    unfold Shells.MAX_SHELL_RINGS. lia. }
  exists new. cbn [candidate_rings set_candidate_rings].
  split; [exact Hr|]. split; [exact Hlen|]. split; [exact Hok|].
  now rewrite <- Hseen.
Qed.

(** ** Cycle search *)

Section CycleSearchFacts.
Import CycleDetection.
Variable G : Graph.
Variable ext_limit : Z.
Variable elig : gset string.
Variable start : string.

Lemma adjacency_elig u v : v ∈ adjacency G elig u -> v ∈ elig.
Proof.
  unfold adjacency. case_bool_decide as Hu; [|intros Hv; inversion Hv].
  rewrite PyStrFacts.elem_of_sorted_set, elem_of_list_to_set,
    list_elem_of_filter.
  tauto.
Qed.

Lemma visit_neighbor_ok path visited acc neighbor :
  Props.dfs_entry_ok elig (start, path, visited) ->
  neighbor ∈ elig ->
  Forall (Props.dfs_entry_ok elig) acc.1.1 ->
  Props.found_ok G elig acc.1.2 acc.2 ->
  let acc' := visit_neighbor G ext_limit start path visited acc neighbor in
  Forall (Props.dfs_entry_ok elig) acc'.1.1
  /\ Props.found_ok G elig acc'.1.2 acc'.2.
Proof.
  intros (Hnd & Hlen & Hvis & Hel) Hn.
  destruct acc as [[stack found] seen]. cbn [fst snd] in *.
  intros Hs Hf. unfold visit_neighbor.
  destruct (String.eqb neighbor start && bool_decide (3 <= length path)%nat)
    eqn:Eclose.
  - apply andb_true_iff in Eclose as [_ H3].
    apply bool_decide_eq_true in H3.
    case_bool_decide as Hseen; [now split|].
    destruct (Cycles.validate_cycle_edges G ext_limit path) as [r|] eqn:Ev;
      [|now split].
    cbn [fst snd]. split; [exact Hs|].
    pose proof (validate_cycle_edges_exhaustive_aux G ext_limit path) as Hx.
    rewrite Ev in Hx. destruct Hx as (edges & Hsel & Hchk).
    apply check_cycle_constraints_Some in Hchk as (Hnodes & Hedges & _ & _).
    destruct Hf as (Hok & Hseen_eq & Hsnd).
    split; [|split].
    + apply Forall_app. split; [exact Hok|]. constructor; [|constructor].
      unfold Props.cycle_ok. rewrite Hnodes, Hedges.
      split; [lia|]. split; [exact Hnd|]. split; [exact Hel|exact Hsel].
    + rewrite fmap_app. cbn [fmap list_fmap]. rewrite Hnodes, Hseen_eq.
      reflexivity.
    + apply NoDup_app. split; [exact Hsnd|]. split; [|apply NoDup_singleton].
      intros x Hx Hx'. apply list_elem_of_singleton in Hx'. now subst.
  - destruct (bool_decide (neighbor ∈ visited)) eqn:Hv; [now split|].
    apply bool_decide_eq_false in Hv.
    destruct (bool_decide (MAX_DEPTH <= length path)%nat) eqn:Hd;
      [now split|].
    apply bool_decide_eq_false in Hd.
    cbn [fst snd]. split; [|exact Hf].
    constructor; [|exact Hs]. unfold Props.dfs_entry_ok. cbn [fst snd].
    split; [|split; [|split]].
    + apply NoDup_app. split; [exact Hnd|]. split; [|apply NoDup_singleton].
      intros x Hx Hx'. apply list_elem_of_singleton in Hx'. subst.
      apply Hv. now apply Hvis.
    + rewrite length_app. simpl. lia.
    + intros x Hx. apply elem_of_union.
      apply elem_of_app in Hx as [Hx|Hx]; [left; now apply Hvis|].
      right. apply list_elem_of_singleton in Hx. now apply elem_of_singleton.
    + apply Forall_app. split; [exact Hel|]. now repeat constructor.
Qed.

Lemma fold_visit_ok path visited l : forall acc,
  Props.dfs_entry_ok elig (start, path, visited) ->
  Forall (fun n => n ∈ elig) l ->
  Forall (Props.dfs_entry_ok elig) acc.1.1 ->
  Props.found_ok G elig acc.1.2 acc.2 ->
  let acc' :=
    fold_left (visit_neighbor G ext_limit start path visited) l acc in
  Forall (Props.dfs_entry_ok elig) acc'.1.1
  /\ Props.found_ok G elig acc'.1.2 acc'.2.
Proof.
  induction l as [|n l IH]; intros acc He Hl Hs Hf; simpl; [now split|].
  apply Forall_cons in Hl as [Hn Hl].
  destruct (visit_neighbor_ok path visited acc n He Hn Hs Hf) as [Hs' Hf'].
  now apply IH.
Qed.

Lemma dfs_loop_ok budget : forall stack found seen,
  Forall (Props.dfs_entry_ok elig) stack ->
  Props.found_ok G elig found seen ->
  let res := dfs_loop budget G ext_limit elig start stack found seen in
  Props.found_ok G elig res.1 res.2.
Proof.
  induction budget as [|budget IH]; intros stack found seen Hs Hf; simpl;
    [exact Hf|].
  destruct stack as [|[[current path] visited] stack']; [exact Hf|].
  apply Forall_cons in Hs as [He Hs].
  case_bool_decide; [now apply IH|].
  assert (Props.dfs_entry_ok elig (start, path, visited)) as He' by exact He.
  pose proof (fold_visit_ok path visited (adjacency G elig current)
                (stack', found, seen) He') as Hfold.
  cbv zeta in Hfold. cbn [fst snd] in Hfold.
  destruct (fold_left _ _ _) as [[stack'' found'] seen'].
  cbn [fst snd] in Hfold.
  destruct Hfold as [Hs' Hf']; try assumption.
  - apply Forall_forall. intros n Hn. eapply adjacency_elig. exact Hn.
  - now apply IH.
Qed.
End CycleSearchFacts.

(** X14, the cycle search of [detect_cycles]. Every cycle it reports
    consists of three to five distinct accounts, all of them eligible
    by degree, and holds one transaction of the graph for every hop,
    the closing hop included; no two reported cycles have the same
    canonical form, so no cycle is reported twice. *)
Theorem found_cycles_wellformed (st : Engine) (G : Graph) :
  let found := CycleDetection.find_cycles st G in
  Forall (Props.cycle_ok G (CycleDetection.eligible st G)) found
  /\ NoDup (map (fun r => CycleDetection.canonicalize_cycle (Cycles.cr_nodes r))
                found).
Proof.
  intros found. subst found. unfold CycleDetection.find_cycles. cbv zeta.
  set (elig := CycleDetection.eligible st G).
  assert (forall l acc,
             Forall (fun n => n ∈ elig) l ->
             Props.found_ok G elig acc.1 acc.2 ->
             let res :=
               fold_left
                 (fun '(found_cycles, seen_canonical) start =>
                    match CycleDetection.adjacency G elig start with
                    | [] => (found_cycles, seen_canonical)
                    | _ =>
                        if bool_decide (CycleDetection.MAX_CYCLES
                                        <= length found_cycles)%nat
                        then (found_cycles, seen_canonical)
                        else CycleDetection.dfs_loop
                               CycleDetection.MAX_OPS_PER_NODE G
                               (adaptive_ext_degree_limit st) elig start
                               [(start, [start], {[start]})]
                               found_cycles seen_canonical
                    end) l acc in
             Props.found_ok G elig res.1 res.2) as Hfold.
  { induction l as [|s l IH]; intros [found seen] Hl Hacc; cbn [fold_left];
      [exact Hacc|].
    apply Forall_cons in Hl as [Hs Hl]. apply IH; [exact Hl|].
    destruct (CycleDetection.adjacency G elig s); [exact Hacc|].
    case_bool_decide; [exact Hacc|].
    apply (dfs_loop_ok G (adaptive_ext_degree_limit st) elig s
             CycleDetection.MAX_OPS_PER_NODE); [|exact Hacc].
    constructor; [|constructor]. unfold Props.dfs_entry_ok. cbn [fst snd].
    split; [apply NoDup_singleton|].
    split; [unfold CycleDetection.MAX_DEPTH; simpl; lia|].
    split.
    - intros x Hx. apply list_elem_of_singleton in Hx.
      now apply elem_of_singleton.
    - now repeat constructor. }
  specialize (Hfold (PyStr.sorted_set elig) ([], [])).
  cbv zeta in Hfold. cbn [fst snd] in Hfold.
  destruct Hfold as (Hok & Hseen & Hnd).
  - apply Forall_forall. intros n Hn.
    now apply PyStrFacts.elem_of_sorted_set in Hn.
  - split; [constructor|]. split; [reflexivity|constructor].
  - split; [exact Hok|]. now rewrite <- Hseen.
Qed.

(** ** Union-find and the cycle rings *)

Section UnionFindFacts.
Import CycleDetection.

Lemma dict_set_keys_NoDup {V} k (v : V) d :
  NoDup (map fst d) -> NoDup (map fst (dict_set k v d)).
Proof.
  intros H. rewrite dict_set_keys. case_bool_decide as E; [exact H|].
  apply NoDup_app. split; [exact H|]. split; [|apply NoDup_singleton].
  intros x Hx Hx'. apply list_elem_of_singleton in Hx'. now subst.
Qed.

Lemma uf_touch_keys uf x :
  NoDup (map fst (uf_parent uf)) -> NoDup (map fst (uf_parent (uf_touch uf x))).
Proof.
  intros H. unfold uf_touch. destruct (dict_get x (uf_parent uf)); [exact H|].
  cbn [uf_parent]. now apply dict_set_keys_NoDup.
Qed.

Lemma find_keys fuel : forall uf x,
  NoDup (map fst (uf_parent uf)) ->
  NoDup (map fst (uf_parent (find fuel uf x).1)).
Proof.
  induction fuel as [|fuel IH]; intros uf x H; cbn [find].
  - destruct (String.eqb _ x); cbn [fst]; now apply uf_touch_keys.
  - destruct (String.eqb _ x); cbn [fst]; [now apply uf_touch_keys|].
    specialize (IH (uf_touch uf x)
                  (default x (dict_get x (uf_parent (uf_touch uf x))))
                  (uf_touch_keys uf x H)).
    destruct (find fuel _ _) as [uf' r]. cbn [fst uf_parent] in *.
    now apply dict_set_keys_NoDup.
Qed.

Lemma uf_find_keys uf x :
  NoDup (map fst (uf_parent uf)) ->
  NoDup (map fst (uf_parent (uf_find uf x).1)).
Proof. apply find_keys. Qed.

Lemma union_keys uf a b :
  NoDup (map fst (uf_parent uf)) -> NoDup (map fst (uf_parent (union uf a b))).
Proof.
  intros H. unfold union.
  pose proof (uf_find_keys uf a H) as H1.
  destruct (uf_find uf a) as [uf1 ra]. cbn [fst] in H1.
  pose proof (uf_find_keys uf1 b H1) as H2.
  destruct (uf_find uf1 b) as [uf2 rb]. cbn [fst] in H2.
  destruct (String.eqb ra rb); [exact H2|].
  destruct (rank_of uf2 ra <? rank_of uf2 rb)%nat;
    match goal with
    | |- context [(?x =? ?y)%nat] => destruct (x =? y)%nat
    end; cbn [uf_parent]; now apply dict_set_keys_NoDup.
Qed.

Lemma cluster_append_items k x d :
  flat_map snd (cluster_append k x d) ≡ₚ flat_map snd d ++ [x].
Proof.
  induction d as [|[k' l] t IH]; simpl; [reflexivity|].
  destruct (String.eqb k k'); simpl.
  - rewrite <- !List.app_assoc. apply Permutation_app_head.
    apply Permutation_app_comm.
  - rewrite IH. now rewrite List.app_assoc.
Qed.

Lemma cluster_append_keys k x d :
  NoDup (map fst d) -> NoDup (map fst (cluster_append k x d))
  /\ (forall k', k' ∈ map fst (cluster_append k x d) ->
                 k' = k \/ k' ∈ map fst d).
Proof.
  induction d as [|[k0 l] t IH]; intros Hnd; simpl.
  - split; [apply NoDup_singleton|].
    intros k' Hk'. apply list_elem_of_singleton in Hk'. now left.
  - apply NoDup_cons in Hnd as [Hk0 Hnd].
    destruct (String.eqb k k0) eqn:E; simpl.
    + split; [now apply NoDup_cons|]. intros k' Hk'. now right.
    + destruct (IH Hnd) as [IH1 IH2]. apply String.eqb_neq in E. split.
      * apply NoDup_cons. split; [|exact IH1].
        intros Hin. apply IH2 in Hin as [->|Hin]; [now apply E|contradiction].
      * intros k' Hk'. apply elem_of_cons in Hk' as [->|Hk'].
        -- right. apply list_elem_of_here.
        -- apply IH2 in Hk' as [->|Hk']; [now left|].
           right. now apply list_elem_of_further.
Qed.

Lemma cluster_append_nonempty k x d :
  Forall (fun kg => kg.2 <> []) d ->
  Forall (fun kg => kg.2 <> []) (cluster_append k x d).
Proof.
  induction 1 as [|[k' l] t Hl Ht IH]; simpl.
  - repeat constructor. discriminate.
  - destruct (String.eqb k k'); constructor; auto. simpl.
    intros H. now apply app_eq_nil in H as [_ H].
Qed.

Lemma groups_fold l : forall uf clusters,
  NoDup (map fst clusters) -> Forall (fun kg => kg.2 <> []) clusters ->
  let res :=
    (fold_left
       (fun '(uf, clusters) node =>
          let '(uf, r) := uf_find uf node in
          (uf, cluster_append r node clusters))
       l (uf, clusters)).2 in
  flat_map snd res ≡ₚ flat_map snd clusters ++ l
  /\ NoDup (map fst res) /\ Forall (fun kg => kg.2 <> []) res.
Proof.
  induction l as [|n l IH]; intros uf clusters Hnd Hne; simpl.
  - rewrite app_nil_r. now repeat split.
  - destruct (uf_find uf n) as [uf' r].
    destruct (cluster_append_keys r n clusters Hnd) as [Hnd' _].
    destruct (IH uf' (cluster_append r n clusters) Hnd'
                (cluster_append_nonempty r n clusters Hne)) as (H1 & H2 & H3).
    split; [|now split].
    rewrite H1, cluster_append_items. now rewrite <- List.app_assoc.
Qed.

Lemma groups_partition_aux uf :
  flat_map snd (groups uf) ≡ₚ map fst (uf_parent uf)
  /\ NoDup (map fst (groups uf))
  /\ Forall (fun kg => kg.2 <> []) (groups uf).
Proof.
  unfold groups.
  destruct (groups_fold (map fst (uf_parent uf)) uf [])
    as (H1 & H2 & H3); [constructor|constructor|].
  cbv zeta in H1, H2, H3. now repeat split.
Qed.
End UnionFindFacts.

(** X15, [UnionFind.groups]. The clusters partition the elements the
    structure holds: listing the members of all clusters gives every
    key of [parent] exactly as often as it occurs there, hence exactly
    once; the clusters have pairwise distinct roots as keys and none of
    them is empty. *)
Theorem uf_groups_partition (uf : CycleDetection.UF) :
  NoDup (map fst (CycleDetection.uf_parent uf)) ->
  flat_map snd (CycleDetection.groups uf)
  ≡ₚ map fst (CycleDetection.uf_parent uf)
  /\ NoDup (flat_map snd (CycleDetection.groups uf))
  /\ NoDup (map fst (CycleDetection.groups uf))
  /\ Forall (fun kg => kg.2 <> []) (CycleDetection.groups uf).
Proof.
  intros Hnd. destruct (groups_partition_aux uf) as (H1 & H2 & H3).
  split; [exact H1|]. split; [now rewrite H1|]. now split.
Qed.

Lemma uf_groups_partition_witness :
  NoDup (flat_map snd
           (CycleDetection.groups
              (CycleDetection.union
                 (CycleDetection.union
                    {| CycleDetection.uf_parent := [];
                       CycleDetection.uf_rank := [] |} "a" "b") "c" "b"))).
Proof.
  refine (proj1 (proj2 (uf_groups_partition _ _))).
  vm_compute. repeat constructor; intros H;
    repeat (apply elem_of_cons in H as [H|H]; [discriminate H|]);
    inversion H.
Defined.

Section CycleRingFacts.
Import CycleDetection.

Lemma submseteq_NoDup_l {A} (l k : list A) : l ⊆+ k -> NoDup k -> NoDup l.
Proof.
  intros Hs Hk. apply submseteq_sublist_r in Hs as (k' & Hp & Hs).
  rewrite Hp. eapply sublist_NoDup; [exact Hk|exact Hs].
Qed.

Lemma fold_uf_find_keys l : forall uf (roots : gset string),
  NoDup (map fst (uf_parent uf)) ->
  NoDup (map fst (uf_parent
                    (fold_left
                       (fun '(uf, roots) node =>
                          let '(uf, root) := uf_find uf node in
                          (uf, roots ∪ {[root]}))
                       l (uf, roots)).1)).
Proof.
  induction l as [|n l IH]; intros uf roots H; simpl; [exact H|].
  pose proof (uf_find_keys uf n H) as H1.
  destruct (uf_find uf n) as [uf' r]. now apply IH.
Qed.

Lemma fold_union_keys anchor l : forall uf,
  NoDup (map fst (uf_parent uf)) ->
  NoDup (map fst (uf_parent
                    (fold_left (fun uf node => union uf anchor node) l uf))).
Proof.
  induction l as [|n l IH]; intros uf H; simpl; [exact H|].
  apply IH. now apply union_keys.
Qed.

Lemma merge_cycle_keys acc cyc :
  NoDup (map fst (uf_parent acc.1)) ->
  NoDup (map fst (uf_parent (merge_cycle acc cyc).1)).
Proof.
  destruct acc as [uf sizes]. cbn [fst]. intros H. unfold merge_cycle.
  pose proof (fold_uf_find_keys (Cycles.cr_nodes cyc) uf ∅ H) as H1.
  destruct (fold_left _ (Cycles.cr_nodes cyc) (uf, ∅)) as [uf1 roots].
  cbn [fst] in H1. cbv zeta.
  case_bool_decide; [exact H1|].
  destruct (Cycles.cr_nodes cyc) as [|anchor rest]; [exact H1|].
  pose proof (fold_union_keys anchor rest uf1 H1) as H2.
  pose proof (uf_find_keys _ anchor H2) as H3.
  destruct (uf_find _ anchor) as [uf3 r]. exact H3.
Qed.

Lemma fold_merge_cycle_keys l : forall acc,
  NoDup (map fst (uf_parent acc.1)) ->
  NoDup (map fst (uf_parent (fold_left merge_cycle l acc).1)).
Proof.
  induction l as [|c l IH]; intros acc H; simpl; [exact H|].
  apply IH. now apply merge_cycle_keys.
Qed.

Lemma round1_upper (q : Q) : (q <= 100)%Q -> (round1 q <= 100)%Q.
Proof.
  intros H1. unfold round1.
  assert (round_half_even (q * 10) <= 1000)%Z as Hu.
  { unfold round_half_even.
    assert (q * 10 <= inject_Z 1000)%Q as Hb.
    { change (inject_Z 1000) with (100 * 10)%Q.
      apply Qmult_le_compat_r; [exact H1|discriminate]. }
    assert (Qfloor (q * 10) <= 1000)%Z as Hfb.
    { rewrite <- (Qfloor_Z 1000). now apply Qfloor_resp_le. }
    assert ((0 < q * 10 - inject_Z (Qfloor (q * 10)))%Q ->
            (Qfloor (q * 10) + 1 <= 1000)%Z) as Hup.
    { intros Hr.
      assert (inject_Z (Qfloor (q * 10)) < inject_Z 1000)%Q as Hlt.
      { eapply Qlt_le_trans; [|exact Hb]. apply Qlt_minus_iff. exact Hr. }
      rewrite <- Zlt_Qlt in Hlt. lia. }
    destruct (Qltb (q * 10 - inject_Z (Qfloor (q * 10))) (1 # 2)) eqn:E1;
      [lia|].
    apply QFacts.Qltb_ge in E1.
    assert (0 < q * 10 - inject_Z (Qfloor (q * 10)))%Q as Hr
      by (eapply Qlt_le_trans; [|exact E1]; reflexivity).
    specialize (Hup Hr).
    destruct (Qltb (1 # 2) _); [lia|]. destruct (Z.even _); lia. }
  apply Qle_shift_div_r; [reflexivity|].
  change (100 * 10)%Q with (inject_Z 1000). now rewrite <- Zle_Qle.
Qed.

Lemma Qmin_le_l x y : (Qmin x y <= x)%Q.
Proof.
  unfold Qmin. destruct (Qleb x y) eqn:E; [apply Qle_refl|].
  apply QFacts.Qleb_gt in E. now apply Qlt_le_weak.
Qed.

Lemma Qmin_glb x y z : (z <= x)%Q -> (z <= y)%Q -> (z <= Qmin x y)%Q.
Proof. intros Hx Hy. unfold Qmin. now destruct (Qleb x y). Qed.

Lemma cycle_candidate_shape G found (immune : gset string) members :
  let nim := filter (fun m => m ∉ immune) members in
  let c := cycle_candidate G found nim in
  c_pattern_type c = "cycle"
  /\ c_members c = PyStr.sorted_list nim
  /\ (9 # 10 <= c_confidence_score c)%Q /\ (c_confidence_score c <= 1)%Q
  /\ (c_risk_score c <= 100)%Q.
Proof.
  intros nim c. subst c. unfold cycle_candidate. cbv zeta.
  cbn [c_pattern_type c_members c_confidence_score c_risk_score].
  split; [reflexivity|]. split; [reflexivity|].
  split; [|split].
  - apply Qmin_glb; [discriminate|].
    case_bool_decide; destruct (Qleb _ 2); discriminate.
  - apply Qmin_le_l.
  - apply round1_upper, Qmin_le_l.
Qed.
End CycleRingFacts.

(** X16, [detect_cycles]. Cycle detection appends to the candidate
    rings and changes none that were there; every ring it appends is of
    type cycle, has at least three members, listed in ascending order,
    none of them immune, a confidence between 0.9 and 1 and a risk
    score of at most 100; and no account is a member of two of these
    rings, nor twice of one. *)
Theorem cycle_rings_wellformed (st : Engine) :
  exists new,
    candidate_rings (CycleDetection.detect_cycles st)
    = candidate_rings st ++ new
    /\ Forall (fun c =>
                 c_pattern_type c = "cycle"
                 /\ (3 <= length (c_members c))%nat
                 /\ StronglySorted PyStr.le (c_members c)
                 /\ Forall (fun m => m ∉ immune_accounts st) (c_members c)
                 /\ (9 # 10 <= c_confidence_score c)%Q
                 /\ (c_confidence_score c <= 1)%Q
                 /\ (c_risk_score c <= 100)%Q)
              new
    /\ NoDup (flat_map c_members new).
Proof.
  unfold CycleDetection.detect_cycles.
  destruct (eng_G st) as [G|];
    [|exists []; rewrite app_nil_r; repeat split; constructor].
  destruct (CycleDetection.find_cycles st G) as [|f0 fs] eqn:Ef;
    [exists []; rewrite app_nil_r; repeat split; constructor|].
  rewrite <- Ef. set (found := CycleDetection.find_cycles st G). clearbody found.
  clear Ef f0 fs.
  pose proof (fold_merge_cycle_keys found
                ({| CycleDetection.uf_parent := [];
                    CycleDetection.uf_rank := [] |}, [])
                ltac:(constructor)) as Hkeys.
  destruct (fold_left CycleDetection.merge_cycle found _) as [uf sizes].
  cbn [fst] in Hkeys.
  destruct (groups_partition_aux uf) as (Hperm & _ & _).
  assert (NoDup (flat_map snd
                   (stable_sort CycleDetection.root_leb
                      (CycleDetection.groups uf)))) as Hnd.
  { assert (flat_map snd (stable_sort CycleDetection.root_leb
                            (CycleDetection.groups uf))
            ≡ₚ flat_map snd (CycleDetection.groups uf)) as Hp.
    { apply Permutation_flat_map. apply stable_sort_perm. }
    rewrite Hp, Hperm. exact Hkeys. }
  set (groups := stable_sort CycleDetection.root_leb
                   (CycleDetection.groups uf)) in *.
  clearbody groups.
  set (ok := fun c : Candidate =>
               c_pattern_type c = "cycle"
               /\ (3 <= length (c_members c))%nat
               /\ StronglySorted PyStr.le (c_members c)
               /\ Forall (fun m => m ∉ immune_accounts st) (c_members c)
               /\ (9 # 10 <= c_confidence_score c)%Q
               /\ (c_confidence_score c <= 1)%Q
               /\ (c_risk_score c <= 100)%Q).
  assert (forall (l : list (string * list string)) ap rings new0,
             rings = candidate_rings st ++ new0 ->
             Forall ok new0 ->
             exists new,
               (fold_left
                  (fun '(ap, rings) '(_, members) =>
                     let non_immune_members :=
                       filter (fun m => m ∉ immune_accounts st) members in
                     let ap :=
                       fold_left (CycleDetection.tag_member found) members ap in
                     if bool_decide (length non_immune_members < 3)%nat
                     then (ap, rings)
                     else (ap, rings ++ [CycleDetection.cycle_candidate G found
                                           non_immune_members]))
                  l (ap, rings)).2
               = candidate_rings st ++ new0 ++ new
               /\ Forall ok new
               /\ flat_map c_members new ⊆+ flat_map snd l) as Hfold.
  { induction l as [|[root members] l IH]; intros ap rings new0 Hr Hok;
      cbn [fold_left].
    - exists []. rewrite app_nil_r. cbn [snd]. repeat split; [exact Hr|
        constructor|constructor].
    - cbv zeta. case_bool_decide as H3.
      + destruct (IH (fold_left (CycleDetection.tag_member found) members ap)
                    rings new0 Hr Hok) as (new & H1 & H2 & H4).
        exists new. split; [exact H1|]. split; [exact H2|].
        cbn [flat_map snd]. rewrite <- (app_nil_l (flat_map c_members new)).
        apply submseteq_app; [apply submseteq_nil_l|exact H4].
      + set (nim := filter (fun m => m ∉ immune_accounts st) members) in *.
        destruct (cycle_candidate_shape G found (immune_accounts st) members)
          as (S1 & S2 & S3 & S4 & S5).
        fold nim in S1, S2, S3, S4, S5.
        set (c := CycleDetection.cycle_candidate G found nim) in *.
        assert (ok c) as Hc.
        { unfold ok. split; [exact S1|]. rewrite S2.
          rewrite PyStrFacts.length_sorted_list.
          split; [lia|]. split; [apply PyStrFacts.sorted_list_sorted|].
          split; [|now split].
          apply Forall_forall. intros y Hy.
          apply PyStrFacts.elem_of_sorted_list, list_elem_of_filter in Hy.
          tauto. }
        destruct (IH (fold_left (CycleDetection.tag_member found) members ap)
                    (rings ++ [c]) (new0 ++ [c])) as (new & H1 & H2 & H4).
        * now rewrite Hr, List.app_assoc.
        * apply Forall_app. split; [exact Hok|].
          constructor; [exact Hc|constructor].
        * exists (c :: new). split; [|split].
          -- etransitivity; [exact H1|]. now rewrite <- List.app_assoc.
          -- now constructor.
          -- cbn [flat_map snd]. apply submseteq_app; [|exact H4].
             rewrite S2, PyStrFacts.sorted_list_perm.
             apply sublist_submseteq, sublist_filter. }
  destruct (Hfold groups (account_patterns st) (candidate_rings st) [])
    as (new & H1 & H2 & H3); [now rewrite app_nil_r|constructor|].
  destruct (fold_left _ groups _) as [ap rings]. cbn [snd] in H1.
  exists new. cbn [candidate_rings set_candidate_rings].
  split; [exact H1|]. split; [exact H2|].
  eapply submseteq_NoDup_l; [exact H3|exact Hnd].
Qed.

(** ** Smurf candidates *)

Section SmurfExtractFacts.
Import Smurf.

Lemma stxn_leb_total x y : stxn_leb x y = true \/ stxn_leb y x = true.
Proof. unfold stxn_leb. rewrite !Z.leb_le. lia. Qed.

Lemma stxn_leb_trans x y z :
  stxn_leb x y = true -> stxn_leb y z = true -> stxn_leb x z = true.
Proof. unfold stxn_leb. rewrite !Z.leb_le. lia. Qed.

Lemma sorted_lookup_le (l : list STxn) i j x y :
  StronglySorted (fun x y => stxn_leb x y = true) l ->
  (i <= j)%nat -> l !! i = Some x -> l !! j = Some y -> (s_ts x <= s_ts y)%Z.
Proof.
  intros Hs. revert i j. induction Hs as [|a t Hs IH Hall]; intros i j Hij Hi Hj;
    [discriminate Hi|].
  destruct i as [|i]; destruct j as [|j]; simpl in Hi, Hj; try lia.
  - injection Hi as <-. injection Hj as <-. lia.
  - injection Hi as <-. rewrite Forall_forall in Hall.
    apply list_elem_of_lookup_2 in Hj. specialize (Hall y Hj).
    unfold stxn_leb in Hall. now apply Z.leb_le in Hall.
  - apply (IH i j); [lia|exact Hi|exact Hj].
Qed.

Lemma advance_spec (in_txns : list STxn) w_end steps : forall hi,
  (forall i e, (i < hi)%nat -> in_txns !! i = Some e -> (s_ts e <= w_end)%Z) ->
  forall i e, (i < advance in_txns w_end hi steps)%nat ->
              in_txns !! i = Some e -> (s_ts e <= w_end)%Z.
Proof.
  induction steps as [|steps IH]; intros hi Hinv i e; simpl; [apply Hinv|].
  destruct (in_txns !! hi) as [x|] eqn:Ex; [|apply Hinv].
  destruct (s_ts x <=? w_end)%Z eqn:El; [|apply Hinv].
  apply IH. intros i' e' Hi' He'.
  destruct (decide (i' = hi)) as [->|Hne].
  - rewrite Ex in He'. injection He' as <-. now apply Z.leb_le.
  - apply (Hinv i'); [lia|exact He'].
Qed.

Lemma first_window_spec hub (in_txns out_txns : list STxn) k :
  StronglySorted (fun x y => stxn_leb x y = true) in_txns ->
  forall lo hi c,
    (forall i e f, (i < hi)%nat -> in_txns !! i = Some e ->
                   in_txns !! lo = Some f -> (s_ts e <= s_ts f + HOURS_72)%Z) ->
    first_window hub in_txns out_txns (seq lo k) hi = Some c ->
    sc_hub c = hub
    /\ (UNIQUE_IN_THRESHOLD <= size (peers (sc_in_txns c)))%nat
    /\ sc_in_txns c `sublist_of` in_txns
    /\ sc_out_txns c `sublist_of` out_txns
    /\ exists first,
         first ∈ in_txns
         /\ Forall (fun e => (s_ts first <= s_ts e <= s_ts first + HOURS_72)%Z)
                   (sc_in_txns c)
         /\ Forall (fun e => (s_ts first <= s_ts e
                              <= s_ts first + HOURS_72 + HOURS_24)%Z)
                   (sc_out_txns c).
Proof.
  intros Hsorted. induction k as [|k IH]; intros lo hi c Hinv; simpl;
    [discriminate|].
  destruct (in_txns !! lo) as [first|] eqn:Ef; [|discriminate].
  set (w_end := (s_ts first + HOURS_72)%Z).
  set (hi' := advance in_txns w_end hi (length in_txns)).
  assert (forall i e, (i < hi')%nat -> in_txns !! i = Some e ->
                      (s_ts e <= w_end)%Z) as Hhi'.
  { apply advance_spec. intros i e Hi He. now apply (Hinv i e first). }
  case_bool_decide as Hu.
  - intros [= <-]. cbn [sc_hub sc_in_txns sc_out_txns].
    split; [reflexivity|]. split; [exact Hu|].
    split; [etransitivity; [apply sublist_take|apply sublist_drop]|].
    split; [apply sublist_filter|].
    exists first. split; [eapply list_elem_of_lookup_2; exact Ef|]. split.
    + apply Forall_forall. intros e He.
      apply list_elem_of_lookup_1 in He as (j & Hj).
      assert (j < hi' - lo)%nat as Hjlt.
      { apply lookup_lt_Some in Hj. rewrite length_take in Hj. lia. }
      rewrite lookup_take_lt in Hj by exact Hjlt.
      rewrite lookup_drop in Hj. split.
      * apply (sorted_lookup_le in_txns lo (lo + j) first e Hsorted);
          [lia|exact Ef|exact Hj].
      * apply (Hhi' (lo + j)%nat); [lia|exact Hj].
    + apply Forall_forall. intros e He.
      apply list_elem_of_filter in He as [He _]. unfold w_end in He. lia.
  - apply IH. intros i e f Hi He Hf.
    etransitivity; [apply (Hhi' i e Hi He)|]. unfold w_end.
    assert (s_ts first <= s_ts f)%Z
      by (apply (sorted_lookup_le in_txns lo (S lo) first f Hsorted);
          [lia|exact Ef|exact Hf]).
    lia.
Qed.

Lemma inbound_sorted G node :
  StronglySorted (fun x y => stxn_leb x y = true) (inbound G node).
Proof.
  unfold inbound. apply stable_sort_sorted;
    [apply stxn_leb_total|apply stxn_leb_trans].
Qed.

Lemma omap_hubs_sublist (f : string -> option SmurfCand) (l : list string) :
  (forall n c, f n = Some c -> sc_hub c = n) ->
  map sc_hub (omap f l) `sublist_of` l.
Proof.
  intros Hf. induction l as [|n l IH]; simpl; [constructor|].
  destruct (f n) as [c|] eqn:E; simpl.
  - rewrite (Hf n c E). now constructor.
  - now constructor.
Qed.
End SmurfExtractFacts.

(** X17, [_extract_smurf_candidates]. There is at most one candidate
    per node, in node order. The inbound transactions of a candidate
    are inbound transactions of its hub from at least five distinct
    senders, all within 72 hours after the first of the window; its
    outbound transactions are outbound transactions of the hub between
    the start of the window and 24 hours after its end. *)
Theorem smurf_candidates_wellformed (G : Graph) :
  let cands := Smurf.extract_smurf_candidates G in
  map Smurf.sc_hub cands `sublist_of` nodes G
  /\ NoDup (map Smurf.sc_hub cands)
  /\ Forall
       (fun c =>
          (5 <= size (Smurf.peers (Smurf.sc_in_txns c)))%nat
          /\ Smurf.sc_in_txns c `sublist_of` Smurf.inbound G (Smurf.sc_hub c)
          /\ Smurf.sc_out_txns c `sublist_of` Smurf.outbound G (Smurf.sc_hub c)
          /\ exists first,
               first ∈ Smurf.inbound G (Smurf.sc_hub c)
               /\ Forall (fun e =>
                            (Smurf.s_ts first <= Smurf.s_ts e
                             <= Smurf.s_ts first + Smurf.HOURS_72)%Z)
                         (Smurf.sc_in_txns c)
               /\ Forall (fun e =>
                            (Smurf.s_ts first <= Smurf.s_ts e
                             <= Smurf.s_ts first + Smurf.HOURS_72
                                + Smurf.HOURS_24)%Z)
                         (Smurf.sc_out_txns c))
       cands.
Proof.
  intros cands. subst cands. unfold Smurf.extract_smurf_candidates.
  set (f := fun node =>
              if bool_decide (length (Smurf.inbound G node)
                              < Smurf.UNIQUE_IN_THRESHOLD)%nat
              then None
              else Smurf.first_window node (Smurf.inbound G node)
                     (Smurf.outbound G node)
                     (seq 0 (length (Smurf.inbound G node))) 0).
  assert (forall n c, f n = Some c ->
            Smurf.sc_hub c = n
            /\ (Smurf.UNIQUE_IN_THRESHOLD
                <= size (Smurf.peers (Smurf.sc_in_txns c)))%nat
            /\ Smurf.sc_in_txns c `sublist_of` Smurf.inbound G n
            /\ Smurf.sc_out_txns c `sublist_of` Smurf.outbound G n
            /\ exists first,
                 first ∈ Smurf.inbound G n
                 /\ Forall (fun e =>
                              (Smurf.s_ts first <= Smurf.s_ts e
                               <= Smurf.s_ts first + Smurf.HOURS_72)%Z)
                           (Smurf.sc_in_txns c)
                 /\ Forall (fun e =>
                              (Smurf.s_ts first <= Smurf.s_ts e
                               <= Smurf.s_ts first + Smurf.HOURS_72
                                  + Smurf.HOURS_24)%Z)
                           (Smurf.sc_out_txns c)) as Hf.
  { intros n c. unfold f. case_bool_decide; [discriminate|].
    apply first_window_spec; [apply inbound_sorted|].
    intros i e g Hi. lia. }
  assert (map Smurf.sc_hub (omap f (nodes G)) `sublist_of` nodes G) as Hsub.
  { apply omap_hubs_sublist. intros n c Hc. now apply Hf in Hc. }
  split; [exact Hsub|].
  split; [eapply sublist_NoDup; [apply nodes_NoDup|exact Hsub]|].
  apply Forall_forall. intros c Hc.
  apply list_elem_of_omap in Hc as (n & _ & Hn).
  destruct (Hf n c Hn) as (<- & H5 & Hin & Hout & Hw).
  now repeat split.
Qed.

(** ** Business immunity *)

Section ImmunityFacts.
Import Immunity.

Lemma classify_Some G node kind :
  classify G node = Some kind ->
  (kind = "payroll" \/ kind = "merchant")
  /\ (4 <= length (in_txns G node))%nat.
Proof.
  unfold classify. cbv zeta.
  set (txns_in := in_txns G node).
  assert (forall m,
             (if merchant_signature txns_in (Qsum (map fst txns_in))
                   (Qsum (map fst (out_txns G node)))
                   (length (out_txns G node))
              then Some "merchant" else None) = Some m ->
             m = "merchant" /\ (4 <= length txns_in)%nat) as Hm.
  { intros m. unfold merchant_signature. cbv zeta.
    destruct (bool_decide (10 <= size _)%nat) eqn:E10; [|discriminate].
    apply bool_decide_eq_true in E10.
    destruct (_ || _); [|discriminate]. intros [= <-].
    split; [reflexivity|].
    pose proof (size_list_to_set_le (map snd txns_in)) as Hs.
    rewrite length_fmap in Hs. lia. }
  destruct (bool_decide (4 <= length txns_in)%nat) eqn:E4.
  - apply bool_decide_eq_true in E4.
    destruct (Qltb 0 _); cbn [andb].
    + destruct (_ && _).
      * intros [= <-]. split; [now left|exact E4].
      * intros H. destruct (Hm _ H) as [-> ?]. split; [now right|exact E4].
    + intros H. destruct (Hm _ H) as [-> ?]. split; [now right|exact E4].
  - cbn [andb]. intros H. destruct (Hm _ H) as [-> ?]. split; [now right|lia].
Qed.

Local Abbreviation immunity_step := Props.immunity_step.

Lemma patterns_of_add_pattern n p m (ap : gmap string (gset string)) :
  patterns_of (add_pattern n p ap) m
  = if bool_decide (n = m) then patterns_of ap m ∪ {[p]} else patterns_of ap m.
Proof.
  unfold add_pattern. rewrite patterns_of_insert.
  case_bool_decide as E; [now subst|reflexivity].
Qed.

Lemma immunity_fold G l : forall st,
  let st' := fold_left (immunity_step G) l st in
  (forall n, n ∈ immune_accounts st' <->
             n ∈ immune_accounts st
             \/ (n ∈ l /\ exists kind, classify G n = Some kind))
  /\ (forall n, patterns_of (account_patterns st) n
                ⊆ patterns_of (account_patterns st') n)
  /\ (forall n kind, n ∈ l -> classify G n = Some kind ->
                     kind ∈ patterns_of (account_patterns st') n)
  /\ candidate_rings st' = candidate_rings st
  /\ eng_G st' = eng_G st.
Proof.
  induction l as [|a l IH]; intros st; cbn [fold_left].
  - cbv zeta. split; [|split; [|split]].
    + intros n. split; [now left|]. intros [H|[H _]]; [exact H|inversion H].
    + intros n. reflexivity.
    + intros n kind H. inversion H.
    + now split.
  - destruct (IH (immunity_step G st a)) as (I1 & I2 & I3 & I4 & I5).
    cbv zeta in *.
    assert (forall n, patterns_of (account_patterns st) n
                      ⊆ patterns_of (account_patterns (immunity_step G st a)) n)
      as Hmono.
    { intros n. unfold Props.immunity_step. destruct (classify G a); [|reflexivity].
      cbn [account_patterns set_account_patterns].
      rewrite patterns_of_add_pattern. case_bool_decide; [|reflexivity].
      apply union_subseteq_l. }
    split; [|split; [|split; [|split]]].
    + intros n. rewrite I1. unfold Props.immunity_step.
      destruct (classify G a) as [kind|] eqn:Ea.
      * cbn [immune_accounts set_account_patterns set_immune_accounts].
        rewrite elem_of_union, elem_of_singleton, elem_of_cons. split.
        -- intros [[H| ->]|[H1 H2]]; [now left| |right; split; [now right|exact H2]].
           right. split; [now left|now exists kind].
        -- intros [H|[[ ->|H1] H2]]; [left; now left|left; now right|].
           right. now split.
      * rewrite elem_of_cons. split.
        -- intros [H|[H1 H2]]; [now left|right; split; [now right|exact H2]].
        -- intros [H|[[ ->|H1] (kind & H2)]]; [now left|congruence|].
           right. split; [exact H1|now exists kind].
    + intros n. etransitivity; [apply Hmono|apply I2].
    + intros n kind Hn Hk. apply elem_of_cons in Hn as [->|Hn].
      * apply I2. unfold Props.immunity_step. rewrite Hk.
        cbn [account_patterns set_account_patterns].
        rewrite patterns_of_add_pattern, bool_decide_eq_true_2 by reflexivity.
        apply elem_of_union. right. now apply elem_of_singleton.
      * now apply I3.
    + rewrite I4. unfold Props.immunity_step. now destruct (classify G a).
    + rewrite I5. unfold Props.immunity_step. now destruct (classify G a).
Qed.
End ImmunityFacts.

(** X18, [_detect_business_immunity]. After the immunity stage an
    account is immune exactly when it was immune before or is a node
    of the graph that has the payroll or the merchant signature; every
    account the stage makes immune has at least four inbound
    transactions and carries the label of its signature; no label is
    removed and the candidate rings are left as they were. *)
Theorem immunity_needs_inbound_activity (st : Engine) (G : Graph)
    (df : list Txn) :
  eng_G st = Some G -> eng_df st = Some df ->
  let st' := Immunity.detect_business_immunity st in
  (forall n, n ∈ immune_accounts st' <->
             n ∈ immune_accounts st
             \/ (n ∈ nodes G /\ exists kind, Immunity.classify G n = Some kind))
  /\ (forall n kind,
         n ∈ nodes G -> Immunity.classify G n = Some kind ->
         (kind = "payroll" \/ kind = "merchant")
         /\ (4 <= length (Immunity.in_txns G n))%nat
         /\ kind ∈ patterns_of (account_patterns st') n)
  /\ (forall n, patterns_of (account_patterns st) n
                ⊆ patterns_of (account_patterns st') n)
  /\ candidate_rings st' = candidate_rings st.
Proof.
  intros HG Hdf st'. subst st'. unfold Immunity.detect_business_immunity.
  rewrite HG, Hdf.
  destruct (immunity_fold G (nodes G) st) as (I1 & I2 & I3 & I4 & _).
  cbv zeta in *. unfold Props.immunity_step in *.
  split; [exact I1|]. split; [|split; [exact I2|exact I4]].
  intros n kind Hn Hk. destruct (classify_Some G n kind Hk) as [H1 H2].
  split; [exact H1|]. split; [exact H2|]. now apply I3.
Qed.

Lemma immunity_needs_inbound_activity_witness :
  "M" ∈ immune_accounts
          (Immunity.detect_business_immunity Examples.merchant_loaded).
Proof.
  pose proof (immunity_needs_inbound_activity Examples.merchant_loaded
                Examples.merchant_graph Examples.merchant_table) as T.
  cbv zeta in T. destruct T as (T1 & _); [reflexivity|reflexivity|].
  apply T1. right. split.
  - apply (bool_decide_unpack ("M" ∈ nodes Examples.merchant_graph)).
    vm_compute. exact I.
  - exists "merchant". vm_compute. reflexivity.
Defined.

(** ** Ingest *)

Section LoadFacts.

Lemma elem_of_add_node n m l : n ∈ add_node m l <-> n ∈ l \/ n = m.
Proof.
  unfold add_node. case_bool_decide as E.
  - split; [now left|]. intros [H| ->]; assumption.
  - rewrite elem_of_app, list_elem_of_singleton. reflexivity.
Qed.

Lemma elem_of_nodes G n :
  n ∈ nodes G <-> exists e, e ∈ G /\ (e_src e = n \/ e_dst e = n).
Proof.
  unfold nodes.
  assert (forall l,
             n ∈ fold_left (fun acc e => add_node (e_dst e) (add_node (e_src e) acc))
                           G l
             <-> n ∈ l \/ exists e, e ∈ G /\ (e_src e = n \/ e_dst e = n)) as H.
  { induction G as [|e G IH]; intros l; cbn [fold_left].
    - split; [now left|]. intros [H|(e & He & _)]; [exact H|inversion He].
    - rewrite IH, !elem_of_add_node. split.
      + intros [[[H| ->]| ->]|(e' & He' & Hn)].
        * now left.
        * right. exists e. split; [apply list_elem_of_here|now left].
        * right. exists e. split; [apply list_elem_of_here|now right].
        * right. exists e'. split; [now apply list_elem_of_further|exact Hn].
      + intros [H|(e' & He' & Hn)]; [left; left; now left|].
        apply elem_of_cons in He' as [->|He'].
        * destruct Hn as [<-|<-]; [left; left; now right|left; now right].
        * right. exists e'. now split. }
  rewrite H. split.
  - intros [Hn|Hn]; [inversion Hn|exact Hn].
  - intros Hn. now right.
Qed.

Lemma ts_leb_total x y : Ingest.ts_leb x y = true \/ Ingest.ts_leb y x = true.
Proof. unfold Ingest.ts_leb. rewrite !Z.leb_le. lia. Qed.

Lemma ts_leb_trans x y z :
  Ingest.ts_leb x y = true -> Ingest.ts_leb y z = true ->
  Ingest.ts_leb x z = true.
Proof. unfold Ingest.ts_leb. rewrite !Z.leb_le. lia. Qed.
End LoadFacts.

(** X19, [load_data] and [_compute_dataset_stats]. When all required
    columns are present, the stored table is ordered by ascending
    timestamp; the nodes of the graph are exactly the senders and
    receivers of its rows; the adaptive external-degree limit is at
    least 2; and the labels, candidate rings, fraud rings, scores and
    immune accounts of the engine are left as they were. *)
Theorem load_data_sorted_table (Cell : Type)
    (to_numeric : Cell -> option Q) (to_datetime : Cell -> option Z)
    (astype_str : Cell -> string) (np_median np_std : list Q -> Q)
    (df : Ingest.DataFrame Cell) (st : Engine) :
  Ingest.missing_columns Cell df = [] ->
  let st' :=
    (Ingest.load_data Cell to_numeric to_datetime astype_str
                      np_median np_std df st).1 in
  (exists table G,
      eng_df st' = Some table /\ eng_G st' = Some G
      /\ StronglySorted (fun x y => (timestamp x <= timestamp y)%Z) table
      /\ (forall n, n ∈ nodes G <->
                    exists t, t ∈ table /\ (sender_id t = n \/ receiver_id t = n)))
  /\ (2 <= adaptive_ext_degree_limit st')%Z
  /\ account_patterns st' = account_patterns st
  /\ candidate_rings st' = candidate_rings st
  /\ fraud_rings st' = fraud_rings st
  /\ suspicion_scores st' = suspicion_scores st
  /\ immune_accounts st' = immune_accounts st.
Proof.
  intros Hm st'. subst st'. unfold Ingest.load_data. rewrite Hm.
  rewrite bool_decide_eq_false_2 by (intros H; now apply H).
  unfold Ingest.seq, Ingest.bind, Ingest.modify. cbn [fst].
  set (rows := stable_sort Ingest.ts_leb
                 (omap (Ingest.coerce_row Cell to_numeric to_datetime astype_str)
                       (Ingest.df_rows Cell df))).
  unfold Ingest.compute_dataset_stats.
  cbn [eng_G eng_df set_G set_df].
  set (stats := match map _ (nodes (map Ingest.edge_of rows)) with
                | [] => _ | _ => _ end).
  destruct stats as [md sd].
  cbn [eng_df eng_G set_stats set_G set_df adaptive_ext_degree_limit
       account_patterns candidate_rings fraud_rings suspicion_scores
       immune_accounts].
  split; [|repeat split; lia].
  exists rows, (map Ingest.edge_of rows).
  split; [reflexivity|]. split; [reflexivity|]. split.
  - eapply StronglySorted_impl;
      [|apply (stable_sort_sorted Ingest.ts_leb ts_leb_total ts_leb_trans)].
    intros x y H. unfold Ingest.ts_leb in H. now apply Z.leb_le in H.
  - intros n. rewrite elem_of_nodes. split.
    + intros (e & He & Hn). apply list_elem_of_fmap in He as (t & -> & Ht).
      exists t. split; [exact Ht|exact Hn].
    + intros (t & Ht & Hn). exists (Ingest.edge_of t).
      split; [now apply list_elem_of_fmap_2|exact Hn].
Qed.

Lemma load_data_sorted_table_witness :
  (2 <= adaptive_ext_degree_limit
          (Ingest.load_data string Examples.parse_amount Examples.parse_time id
             Examples.no_stat Examples.no_stat Examples.frame_ok
             engine_init).1)%Z.
Proof.
  pose proof (load_data_sorted_table string Examples.parse_amount
                Examples.parse_time id Examples.no_stat Examples.no_stat
                Examples.frame_ok engine_init) as T.
  cbv zeta in T. destruct T as (_ & T & _); [reflexivity|exact T].
Defined.

(** ** Velocity, low variance and hubs *)

Section WindowFacts.

Lemma StronglySorted_lookup_le (l : list Z) i j x y :
  StronglySorted Z.le l ->
  (i <= j)%nat -> l !! i = Some x -> l !! j = Some y -> (x <= y)%Z.
Proof.
  intros Hs. revert i j.
  induction Hs as [|a t Hs IH Hall]; intros i j Hij Hi Hj; [discriminate Hi|].
  destruct i as [|i]; destruct j as [|j]; simpl in Hi, Hj; try lia.
  - injection Hi as <-. injection Hj as <-. lia.
  - injection Hi as <-. rewrite Forall_forall in Hall.
    apply list_elem_of_lookup_2 in Hj. now apply Hall.
  - apply (IH i j); [lia|exact Hi|exact Hj].
Qed.

(** Counting the entries of a window by two one-sided counts. *)
Lemma window_count (l : list Z) (t0 v : Z) :
  (t0 <= v)%Z ->
  length (filter (fun t => (t <= v)%Z) l)
  = (length (filter (fun t => (t < t0)%Z) l)
     + length (filter (fun t => (t0 <= t <= v)%Z) l))%nat.
Proof.
  intros Hv. induction l as [|a l IH]; [reflexivity|].
  rewrite !filter_cons.
  destruct (decide (a <= v)%Z), (decide (a < t0)%Z),
    (decide (t0 <= a <= v)%Z); cbn [length]; lia.
Qed.

Lemma filter_none {A} (P : A -> Prop) `{forall x, Decision (P x)} (l : list A) :
  Forall (fun x => ~ P x) l -> filter P l = [].
Proof.
  induction 1 as [|a l Ha _ IH]; [reflexivity|].
  rewrite filter_cons, decide_False by exact Ha. exact IH.
Qed.

(** In a sorted list the entries below an entry come before it. *)
Lemma below_count_le (l : list Z) i t :
  StronglySorted Z.le l -> l !! i = Some t ->
  (length (filter (fun x => (x < t)%Z) l) <= i)%nat.
Proof.
  intros Hs. revert i.
  induction Hs as [|a l Hs IH Hall]; intros i Hi; [discriminate Hi|].
  rewrite filter_cons. destruct i as [|i]; simpl in Hi.
  - injection Hi as ->. rewrite decide_False by lia.
    assert (filter (fun x => (x < t)%Z) l = []) as ->; [|simpl; lia].
    apply filter_none. eapply Forall_impl; [exact Hall|]. intros x Hx. simpl. lia.
  - specialize (IH i Hi). destruct (decide (a < t)%Z); cbn [length]; lia.
Qed.

(** The first occurrence of an entry of a sorted list. *)
Lemma below_count_lookup (l : list Z) t :
  StronglySorted Z.le l -> t ∈ l ->
  l !! length (filter (fun x => (x < t)%Z) l) = Some t.
Proof.
  intros Hs. induction Hs as [|a l Hs IH Hall]; intros Ht; [inversion Ht|].
  rewrite filter_cons. destruct (decide (a < t)%Z) as [Hlt|Hge].
  - cbn [length lookup list_lookup]. apply IH.
    apply elem_of_cons in Ht as [->|Ht]; [lia|exact Ht].
  - assert (a = t) as ->.
    { apply elem_of_cons in Ht as [->|Ht]; [reflexivity|].
      rewrite Forall_forall in Hall. specialize (Hall t Ht). lia. }
    assert (filter (fun x => (x < t)%Z) l = []) as ->; [|reflexivity].
    apply filter_none. eapply Forall_impl; [exact Hall|]. intros x Hx. simpl. lia.
Qed.

End WindowFacts.

Section VelocityFacts.
Import Velocity.

Lemma HOURS_24_pos : (0 <= HOURS_24)%Z.
Proof. vm_compute. discriminate. Qed.

Lemma ONE_HOUR_pos : (0 <= ONE_HOUR)%Z.
Proof. vm_compute. discriminate. Qed.

Lemma elem_of_imap_pair {A} (l : list A) i x :
  (i, x) ∈ imap pair l <-> l !! i = Some x.
Proof.
  rewrite list_elem_of_lookup. split.
  - intros (j & Hj). rewrite list_lookup_imap in Hj.
    destruct (l !! j) as [y|] eqn:E; [|discriminate].
    simpl in Hj. injection Hj as <- <-. exact E.
  - intros H. exists i. rewrite list_lookup_imap, H. reflexivity.
Qed.

(** Tier 2 on a sorted array: five entries in the 24 hours that start
    at one of them. *)
Lemma tier2_sorted (ts : list Z) :
  StronglySorted Z.le ts ->
  tier2 ts = true <->
  exists t0, t0 ∈ ts /\ (5 <= length (Props.in_window t0 HOURS_24 ts))%nat.
Proof.
  intros Hs. unfold tier2, Props.in_window.
  rewrite andb_true_iff, bool_decide_eq_true, existsb_exists.
  pose proof HOURS_24_pos as H24. split.
  - intros (_ & [i t] & Hin & Hc).
    apply list_elem_of_In, elem_of_imap_pair in Hin.
    apply bool_decide_eq_true in Hc. unfold searchsorted_right in Hc.
    exists t. split; [eapply list_elem_of_lookup_2; exact Hin|].
    rewrite (window_count ts t (t + HOURS_24)) in Hc by lia.
    pose proof (below_count_le ts i t Hs Hin). lia.
  - intros (t0 & Ht0 & Hc). split.
    + etransitivity; [exact Hc|]. apply length_filter.
    + exists (length (filter (fun x => (x < t0)%Z) ts), t0). split.
      * apply list_elem_of_In, elem_of_imap_pair.
        now apply below_count_lookup.
      * apply bool_decide_eq_true. unfold searchsorted_right.
        rewrite (window_count ts t0 (t0 + HOURS_24)) by lia. lia.
Qed.

Lemma ev_leb_total x y : ev_leb x y = true \/ ev_leb y x = true.
Proof. unfold ev_leb. rewrite !Z.leb_le. lia. Qed.

Lemma ev_leb_trans x y z :
  ev_leb x y = true -> ev_leb y z = true -> ev_leb x z = true.
Proof. unfold ev_leb. rewrite !Z.leb_le. lia. Qed.

Lemma events_sorted df acc :
  StronglySorted Z.le (map ev_ts (events df acc)).
Proof.
  unfold events.
  pose proof (stable_sort_sorted ev_leb ev_leb_total ev_leb_trans
                (map (fun t => mkEvent (timestamp t) Out)
                     (filter (fun t => sender_id t = acc) df)
                 ++ map (fun t => mkEvent (timestamp t) In)
                        (filter (fun t => receiver_id t = acc) df))) as Hs.
  induction Hs as [|a l Hs IH Hall]; [constructor|].
  cbn [map]. constructor; [exact IH|].
  apply Forall_fmap. eapply Forall_impl; [exact Hall|].
  intros x Hx. simpl. unfold ev_leb in Hx. now apply Z.leb_le in Hx.
Qed.

(** The events of an account carry the timestamps of its rows, one for
    each side it takes. *)
Lemma events_timestamps df acc :
  map ev_ts (events df acc) ≡ₚ account_timestamps df acc.
Proof.
  unfold events. rewrite stable_sort_perm.
  rewrite map_app, !map_map. cbn [ev_ts].
  unfold account_timestamps, sides.
  induction df as [|t df IH]; [reflexivity|].
  rewrite !filter_cons. cbn [flat_map].
  destruct (decide (sender_id t = acc)) as [Hs|Hs];
    destruct (decide (receiver_id t = acc)) as [Hr|Hr];
    rewrite ?(bool_decide_eq_true_2 _ Hs), ?(bool_decide_eq_false_2 _ Hs),
      ?(bool_decide_eq_true_2 _ Hr), ?(bool_decide_eq_false_2 _ Hr);
    cbn [map app].
  - constructor. rewrite <- IH. symmetry. apply Permutation_middle.
  - constructor. exact IH.
  - rewrite <- IH. symmetry. apply Permutation_middle.
  - exact IH.
Qed.

Lemma elem_of_uniq_aux (l : list string) : forall acc n,
  n ∈ fold_left (fun acc n => add_node n acc) l acc <-> n ∈ acc \/ n ∈ l.
Proof.
  induction l as [|a l IH]; intros acc n; cbn [fold_left].
  - split; [now left|]. intros [H|H]; [exact H|inversion H].
  - rewrite IH, elem_of_add_node, elem_of_cons. tauto.
Qed.

Lemma elem_of_uniq (l : list string) n : n ∈ uniq l <-> n ∈ l.
Proof.
  unfold uniq. rewrite elem_of_uniq_aux. split; [|now right].
  intros [H|H]; [inversion H|exact H].
Qed.

Lemma elem_of_accounts df n :
  n ∈ accounts df <-> exists t, t ∈ df /\ (sender_id t = n \/ receiver_id t = n).
Proof.
  unfold accounts. rewrite elem_of_uniq, list_elem_of_In, in_flat_map. split.
  - intros (t & Ht & Hn). exists t. split; [now apply list_elem_of_In|].
    simpl in Hn. destruct Hn as [H|[H|[]]]; [now left|now right].
  - intros (t & Ht & Hn). exists t. split; [now apply list_elem_of_In|].
    simpl. tauto.
Qed.

Lemma elem_of_sides {A} (f : Txn -> A) df acc x :
  x ∈ sides f df acc <->
  exists t, t ∈ df /\ (sender_id t = acc \/ receiver_id t = acc) /\ x = f t.
Proof.
  unfold sides. rewrite list_elem_of_In, in_flat_map. split.
  - intros (t & Ht & Hx). exists t. split; [now apply list_elem_of_In|].
    apply in_app_or in Hx as [Hx|Hx]; case_bool_decide as E;
      simpl in Hx; try tauto; destruct Hx as [<-|[]]; tauto.
  - intros (t & Ht & Hn & ->). exists t. split; [now apply list_elem_of_In|].
    apply in_or_app. destruct Hn as [Hn|Hn];
      [left|right]; rewrite bool_decide_eq_true_2 by exact Hn; now left.
Qed.

Lemma same_rings_refl st : Props.same_rings st st.
Proof. repeat split. Qed.

Lemma same_rings_trans a b c :
  Props.same_rings a b -> Props.same_rings b c -> Props.same_rings a c.
Proof.
  unfold Props.same_rings.
  intros (A1 & A2 & A3 & A4 & A5 & A6 & A7 & A8 & A9 & A10)
         (B1 & B2 & B3 & B4 & B5 & B6 & B7 & B8 & B9 & B10).
  repeat split; congruence.
Qed.

(** Folding a step that can only switch a property on. *)
Lemma fold_left_step_iff {S A} (step : S -> A -> S) (m : S -> Prop)
    (c : A -> Prop) (l : list A) :
  (forall st a, m (step st a) <-> m st \/ c a) ->
  forall st, m (fold_left step l st) <-> m st \/ exists a, a ∈ l /\ c a.
Proof.
  intros Hstep. induction l as [|a l IH]; intros st; cbn [fold_left].
  - split; [now left|]. intros [H|(a & Ha & _)]; [exact H|inversion Ha].
  - rewrite IH, Hstep. split.
    + intros [[H|H]|(b & Hb & Hc)]; [now left| |].
      * right. exists a. split; [now left|exact H].
      * right. exists b. split; [now right|exact Hc].
    + intros [H|(b & Hb & Hc)]; [left; now left|].
      apply elem_of_cons in Hb as [->|Hb]; [left; now right|].
      right. now exists b.
Qed.

(** Folding a step that stays within a preorder. *)
Lemma fold_left_step_rel {S A} (step : S -> A -> S) (R : S -> S -> Prop)
    (l : list A) :
  (forall st, R st st) ->
  (forall a b c, R a b -> R b c -> R a c) ->
  (forall st a, R st (step st a)) ->
  forall st, R st (fold_left step l st).
Proof.
  intros Hrefl Htrans Hstep. induction l as [|a l IH]; intros st;
    cbn [fold_left]; [apply Hrefl|].
  eapply Htrans; [apply Hstep|apply IH].
Qed.

Local Abbreviation low_variance := Props.low_variance.

(** What the three loops of [detect_velocity] keep: the rings and all
    that is not a label, a velocity set or the hub set. *)
Lemma velocity_step_same df st a : Props.same_rings st (velocity_step df st a).
Proof.
  unfold velocity_step. cbv zeta.
  destruct (tier1 _), (tier2 _); repeat split.
Qed.

Lemma low_variance_step_same df st a :
  Props.same_rings st (low_variance_step df st a).
Proof.
  unfold low_variance_step. cbv zeta.
  case_bool_decide; [repeat split|]. destruct (cv_lt _ _); repeat split.
Qed.

Lemma hub_step_same df G st a : Props.same_rings st (hub_step df G st a).
Proof. unfold hub_step. destruct (is_hub _ _ _); repeat split. Qed.

Lemma velocity_step_v1 df n st a :
  n ∈ velocity_accounts (velocity_step df st a) <->
  n ∈ velocity_accounts st \/ (n = a /\ tier1 (events df a) = true).
Proof.
  unfold velocity_step. cbv zeta.
  destruct (tier1 _), (tier2 _);
    cbn [velocity_accounts set_account_patterns set_velocity_accounts
         set_velocity_24h_accounts];
    rewrite ?elem_of_union, ?elem_of_singleton;
    split; try tauto; intros [H|[_ H]]; try tauto; discriminate.
Qed.

Lemma velocity_step_v24 df n st a :
  n ∈ velocity_24h_accounts (velocity_step df st a) <->
  n ∈ velocity_24h_accounts st
  \/ (n = a /\ tier2 (map ev_ts (events df a)) = true).
Proof.
  unfold velocity_step. cbv zeta.
  destruct (tier1 _), (tier2 _);
    cbn [velocity_24h_accounts set_account_patterns set_velocity_accounts
         set_velocity_24h_accounts];
    rewrite ?elem_of_union, ?elem_of_singleton;
    split; try tauto; intros [H|[_ H]]; try tauto; discriminate.
Qed.

Lemma velocity_step_patterns df n p st a :
  p ∈ patterns_of (account_patterns (velocity_step df st a)) n <->
  p ∈ patterns_of (account_patterns st) n
  \/ (n = a /\ ((p = "high_velocity" /\ tier1 (events df a) = true)
                \/ (p = "high_velocity_24h"
                    /\ tier2 (map ev_ts (events df a)) = true))).
Proof.
  unfold velocity_step. cbv zeta.
  destruct (tier1 _), (tier2 _);
    cbn [account_patterns set_account_patterns set_velocity_accounts
         set_velocity_24h_accounts];
    rewrite ?patterns_of_add_pattern;
    repeat case_bool_decide;
    rewrite ?elem_of_union, ?elem_of_singleton;
    split; intros; repeat match goal with
      | H : _ \/ _ |- _ => destruct H
      | H : _ /\ _ |- _ => destruct H
      end; subst; try tauto; try congruence.
Qed.

Lemma low_variance_step_patterns df n p st a :
  p ∈ patterns_of (account_patterns (low_variance_step df st a)) n <->
  p ∈ patterns_of (account_patterns st) n
  \/ (n = a /\ p = "low_variance" /\ low_variance df a).
Proof.
  unfold low_variance_step, Props.low_variance. cbv zeta.
  case_bool_decide as Hlen.
  - split; [now left|]. intros [H|(_ & _ & H & _)]; [exact H|lia].
  - destruct (cv_lt _ _) eqn:Ecv.
    + cbn [account_patterns set_account_patterns].
      rewrite patterns_of_add_pattern. case_bool_decide as Hn.
      * rewrite elem_of_union, elem_of_singleton. subst. split.
        -- intros [H|H]; [now left|]. right. repeat split; [exact H|lia].
        -- intros [H|(_ & H & _)]; [now left|now right].
      * split; [now left|]. intros [H|(H & _)]; [exact H|congruence].
    + split; [now left|]. intros [H|(_ & _ & _ & H)]; [exact H|discriminate].
Qed.

Lemma sorted_accounts df n :
  n ∈ PyStr.sorted_list (accounts df) <-> n ∈ accounts df.
Proof. unfold PyStr.sorted_list. now rewrite merge_sort_Permutation. Qed.

(** The labels and the velocity sets after [detect_velocity]. *)
Lemma detect_velocity_aux st df :
  eng_df st = Some df ->
  let st' := detect_velocity st in
  (forall n, n ∈ velocity_accounts st' <->
             n ∈ velocity_accounts st
             \/ (n ∈ accounts df /\ tier1 (events df n) = true))
  /\ (forall n, n ∈ velocity_24h_accounts st' <->
                n ∈ velocity_24h_accounts st
                \/ (n ∈ accounts df
                    /\ tier2 (map ev_ts (events df n)) = true))
  /\ (forall n p, p ∈ patterns_of (account_patterns st') n <->
                  p ∈ patterns_of (account_patterns st) n
                  \/ (n ∈ accounts df
                      /\ ((p = "high_velocity" /\ tier1 (events df n) = true)
                          \/ (p = "high_velocity_24h"
                              /\ tier2 (map ev_ts (events df n)) = true)
                          \/ (p = "low_variance" /\ low_variance df n))))
  /\ Props.same_rings st st'.
Proof.
  intros Hdf st'. subst st'. unfold detect_velocity. rewrite Hdf.
  destruct df as [|r df0].
  { split; [|split; [|split]]; [| | |apply same_rings_refl].
    - intros n. split; [now left|]. intros [H|[H _]]; [exact H|inversion H].
    - intros n. split; [now left|]. intros [H|[H _]]; [exact H|inversion H].
    - intros n p. split; [now left|]. intros [H|[H _]]; [exact H|inversion H]. }
  set (df := r :: df0).
  set (st1 := fold_left (velocity_step df) (PyStr.sorted_list (accounts df)) st).
  set (st2 := fold_left (low_variance_step df) (accounts df) st1).
  assert (exists st3,
             (if Qltb 0 (dataset_span df)
              then match eng_G st2 with
                   | Some G => fold_left (hub_step df G) (nodes G) st2
                   | None => st2
                   end
              else st2) = st3
             /\ velocity_accounts st3 = velocity_accounts st2
             /\ velocity_24h_accounts st3 = velocity_24h_accounts st2
             /\ account_patterns st3 = account_patterns st2
             /\ Props.same_rings st2 st3) as (st3 & -> & H31 & H32 & H33 & H34).
  { eexists. split; [reflexivity|].
    destruct (Qltb 0 (dataset_span df));
      [|repeat split]. destruct (eng_G st2) as [G|]; [|repeat split].
    split; [|split; [|split]].
    - apply (fold_left_step_rel (hub_step df G)
               (fun a b => velocity_accounts b = velocity_accounts a));
        [reflexivity|intros; congruence|].
      intros s a. unfold hub_step. now destruct (is_hub _ _ _).
    - apply (fold_left_step_rel (hub_step df G)
               (fun a b => velocity_24h_accounts b = velocity_24h_accounts a));
        [reflexivity|intros; congruence|].
      intros s a. unfold hub_step. now destruct (is_hub _ _ _).
    - apply (fold_left_step_rel (hub_step df G)
               (fun a b => account_patterns b = account_patterns a));
        [reflexivity|intros; congruence|].
      intros s a. unfold hub_step. now destruct (is_hub _ _ _).
    - apply (fold_left_step_rel (hub_step df G) Props.same_rings);
        [apply same_rings_refl|apply same_rings_trans|].
      intros s a. apply hub_step_same. }
  assert (velocity_accounts st2 = velocity_accounts st1) as H21.
  { apply (fold_left_step_rel (low_variance_step df)
             (fun a b => velocity_accounts b = velocity_accounts a));
      [reflexivity|intros; congruence|].
    intros s a. unfold low_variance_step. cbv zeta.
    case_bool_decide; [reflexivity|]. now destruct (cv_lt _ _). }
  assert (velocity_24h_accounts st2 = velocity_24h_accounts st1) as H22.
  { apply (fold_left_step_rel (low_variance_step df)
             (fun a b => velocity_24h_accounts b = velocity_24h_accounts a));
      [reflexivity|intros; congruence|].
    intros s a. unfold low_variance_step. cbv zeta.
    case_bool_decide; [reflexivity|]. now destruct (cv_lt _ _). }
  split; [|split; [|split]].
  - intros n. rewrite H31, H21. unfold st1.
    rewrite (fold_left_step_iff (velocity_step df)
               (fun s => n ∈ velocity_accounts s)
               (fun a => n = a /\ tier1 (events df a) = true))
      by (intros; apply velocity_step_v1).
    split; (intros [H|H]; [now left|right]).
    + destruct H as (a & Ha & -> & Ht). split; [now apply sorted_accounts|exact Ht].
    + destruct H as [Ha Ht]. exists n. split; [now apply sorted_accounts|now split].
  - intros n. rewrite H32, H22. unfold st1.
    rewrite (fold_left_step_iff (velocity_step df)
               (fun s => n ∈ velocity_24h_accounts s)
               (fun a => n = a /\ tier2 (map ev_ts (events df a)) = true))
      by (intros; apply velocity_step_v24).
    split; (intros [H|H]; [now left|right]).
    + destruct H as (a & Ha & -> & Ht). split; [now apply sorted_accounts|exact Ht].
    + destruct H as [Ha Ht]. exists n. split; [now apply sorted_accounts|now split].
  - intros n p. rewrite H33. unfold st2.
    rewrite (fold_left_step_iff (low_variance_step df)
               (fun s => p ∈ patterns_of (account_patterns s) n)
               (fun a => n = a /\ p = "low_variance" /\ low_variance df a))
      by (intros; apply low_variance_step_patterns).
    unfold st1.
    rewrite (fold_left_step_iff (velocity_step df)
               (fun s => p ∈ patterns_of (account_patterns s) n)
               (fun a => n = a
                         /\ ((p = "high_velocity" /\ tier1 (events df a) = true)
                             \/ (p = "high_velocity_24h"
                                 /\ tier2 (map ev_ts (events df a)) = true))))
      by (intros; apply velocity_step_patterns).
    split.
    + intros [[H|(a & Ha & -> & H)]|(a & Ha & -> & H)]; [now left| |].
      * right. split; [now apply sorted_accounts|tauto].
      * right. split; [exact Ha|tauto].
    + intros [H|(Ha & [H|[H|H]])]; [left; now left| | |].
      * left. right. exists n. split; [now apply sorted_accounts|tauto].
      * left. right. exists n. split; [now apply sorted_accounts|tauto].
      * right. exists n. tauto.
  - eapply same_rings_trans; [|exact H34].
    eapply same_rings_trans.
    + apply (fold_left_step_rel (velocity_step df) Props.same_rings);
        [apply same_rings_refl|apply same_rings_trans|].
      intros s a. apply velocity_step_same.
    + apply (fold_left_step_rel (low_variance_step df) Props.same_rings);
        [apply same_rings_refl|apply same_rings_trans|].
      intros s a. apply low_variance_step_same.
Qed.

(** Tier 2 in terms of the rows of the account. *)
Lemma tier2_busy df acc :
  acc ∈ accounts df /\ tier2 (map ev_ts (events df acc)) = true <->
  exists t0, t0 ∈ account_timestamps df acc
             /\ (5 <= length (Props.in_window t0 HOURS_24
                                (account_timestamps df acc)))%nat.
Proof.
  rewrite (tier2_sorted _ (events_sorted df acc)).
  unfold Props.in_window.
  split.
  - intros (_ & t0 & Ht0 & Hc). exists t0.
    rewrite <- (events_timestamps df acc). now split.
  - intros (t0 & Ht0 & Hc). split.
    + apply elem_of_sides in Ht0 as (t & Ht & Hn & _).
      apply elem_of_accounts. now exists t.
    + exists t0. rewrite (events_timestamps df acc). now split.
Qed.

End VelocityFacts.

(** X20, [detect_velocity], tier 2. With a table loaded, the stage puts
    an account into the 24-hour velocity set, and labels it
    [high_velocity_24h], exactly when the account has five or more
    transaction events (one for each row it sends, one for each row it
    receives) within the 24 hours that start at one of them. *)
Theorem velocity_24h_five_in_a_day (st : Engine) (df : list Txn)
    (acc : string) :
  eng_df st = Some df ->
  let st' := Velocity.detect_velocity st in
  let busy :=
    exists t0, t0 ∈ account_timestamps df acc
               /\ (5 <= length (Props.in_window t0 Velocity.HOURS_24
                                  (account_timestamps df acc)))%nat in
  (acc ∈ velocity_24h_accounts st' <->
   acc ∈ velocity_24h_accounts st \/ busy)
  /\ ("high_velocity_24h" ∈ patterns_of (account_patterns st') acc <->
      "high_velocity_24h" ∈ patterns_of (account_patterns st) acc \/ busy).
Proof.
  intros Hdf st' busy. subst st' busy.
  destruct (detect_velocity_aux st df Hdf) as (_ & H2 & H3 & _).
  cbv zeta in H2, H3. split.
  - rewrite H2, tier2_busy. reflexivity.
  - rewrite H3, <- tier2_busy. split.
    + intros [H|(Ha & [[H _]|[[_ H]|[H _]]])]; try discriminate;
        [now left|right; now split].
    + intros [H|[Ha H]]; [now left|right]. split; [exact Ha|].
      right. left. now split.
Qed.

Lemma velocity_24h_five_in_a_day_witness :
  "v" ∈ velocity_24h_accounts (Velocity.detect_velocity Cases.busy_engine).
Proof.
  pose proof (velocity_24h_five_in_a_day Cases.busy_engine Cases.busy_table
                "v" eq_refl) as T.
  cbv zeta in T. destruct T as [T _]. apply T. right.
  exists 0%Z. split.
  - apply (bool_decide_unpack (0%Z ∈ account_timestamps Cases.busy_table "v")).
    vm_compute. exact I.
  - vm_compute. lia.
Defined.

(** ** Velocity, tier 1 *)

Section Tier1Facts.
Import Velocity.

Lemma StronglySorted_lookup_lt {A} (R : relation A) (l : list A) i j x y :
  StronglySorted R l ->
  (i < j)%nat -> l !! i = Some x -> l !! j = Some y -> R x y.
Proof.
  intros Hs. revert i j.
  induction Hs as [|a t Hs IH Hall]; intros i j Hij Hi Hj; [discriminate Hi|].
  destruct j as [|j]; [lia|]. destruct i as [|i]; simpl in Hi, Hj.
  - injection Hi as <-. rewrite Forall_forall in Hall.
    apply list_elem_of_lookup_2 in Hj. now apply Hall.
  - apply (IH i j); [lia|exact Hi|exact Hj].
Qed.

Lemma indices_of_spec d evs i :
  i ∈ indices_of d evs <-> exists e, evs !! i = Some e /\ ev_dir e = d.
Proof.
  unfold indices_of. rewrite list_elem_of_fmap. split.
  - intros ([j e] & -> & H). apply list_elem_of_filter in H as [Hd H].
    apply elem_of_imap_pair in H. exists e. now split.
  - intros (e & He & Hd). exists (i, e). split; [reflexivity|].
    apply list_elem_of_filter. split; [exact Hd|].
    now apply elem_of_imap_pair.
Qed.

Lemma imap_offset_sorted {A} (P : nat * A -> Prop)
    `{forall x, Decision (P x)} (l : list A) : forall k,
  StronglySorted lt (map fst (filter P (imap (fun i x => ((k + i)%nat, x)) l)))
  /\ Forall (fun j => (k <= j)%nat)
            (map fst (filter P (imap (fun i x => ((k + i)%nat, x)) l))).
Proof.
  induction l as [|a l IH]; intros k; [split; constructor|].
  cbn [imap].
  rewrite (imap_ext _ (fun i x => ((S k + i)%nat, x)) l)
    by (intros i x _; simpl; f_equal; lia).
  destruct (IH (S k)) as [I1 I2].
  rewrite filter_cons. destruct (decide (P ((k + 0)%nat, a))).
  - cbn [map fst]. split.
    + constructor; [exact I1|].
      eapply Forall_impl; [exact I2|]. intros j Hj. simpl in Hj. lia.
    + constructor; [lia|].
      eapply Forall_impl; [exact I2|]. intros j Hj. simpl in Hj. lia.
  - split; [exact I1|].
    eapply Forall_impl; [exact I2|]. intros j Hj. simpl in Hj. lia.
Qed.

Lemma indices_of_sorted d evs : StronglySorted lt (indices_of d evs).
Proof.
  unfold indices_of.
  exact (proj1 (imap_offset_sorted (fun ie => ev_dir ie.2 = d) evs 0)).
Qed.

Lemma skip_out_spec outs i : forall fuel p,
  (length outs <= p + fuel)%nat ->
  let p' := skip_out outs i p fuel in
  (p <= p')%nat
  /\ (forall o, outs !! p' = Some o -> (i < o)%nat)
  /\ (forall j o, (p <= j < p')%nat -> outs !! j = Some o -> (o <= i)%nat).
Proof.
  induction fuel as [|fuel IH]; intros p Hlen; cbn [skip_out]; cbv zeta.
  - split; [lia|]. split; [|intros; lia].
    intros o Ho. apply lookup_lt_Some in Ho. lia.
  - destruct (outs !! p) as [o|] eqn:E.
    + destruct (o <=? i)%nat eqn:El.
      * destruct (IH (S p)) as (I1 & I2 & I3); [lia|]. cbv zeta in I1, I2, I3.
        split; [lia|]. split; [exact I2|]. intros j o' Hj Ho'.
        destruct (decide (j = p)) as [->|Hne].
        -- rewrite E in Ho'. injection Ho' as <-. now apply Nat.leb_le in El.
        -- apply (I3 j); [lia|exact Ho'].
      * split; [lia|]. split; [|intros; lia].
        intros o' Ho'. rewrite E in Ho'. injection Ho' as <-.
        now apply Nat.leb_gt in El.
    + split; [lia|]. split; [|intros; lia]. intros o Ho. congruence.
Qed.

(** A hit of the loop is an inbound event and a later outbound event at
    most an hour apart. *)
Lemma tier1_loop_sound ts outs : forall ins p,
  tier1_loop ts outs ins p = true ->
  exists i o, i ∈ ins /\ o ∈ outs /\ (i < o)%nat
              /\ (default 0 (ts !! o) - default 0 (ts !! i) <= ONE_HOUR)%Z.
Proof.
  induction ins as [|i0 rest IH]; intros p; cbn [tier1_loop]; [discriminate|].
  cbv zeta.
  destruct (skip_out_spec outs i0 (length outs) p ltac:(lia)) as (_ & S2 & _).
  cbv zeta in S2.
  destruct (outs !! skip_out outs i0 p (length outs)) as [o|] eqn:E;
    [|discriminate].
  destruct (_ <=? _)%Z eqn:El.
  - intros _. exists i0, o. split; [now left|].
    split; [eapply list_elem_of_lookup_2; exact E|].
    split; [now apply S2|now apply Z.leb_le in El].
  - intros H. destruct (IH _ H) as (i & o' & Hi & Ho & Hlt & Hd).
    exists i, o'. split; [now right|]. now split.
Qed.

(** The loop finds every inbound event that has an outbound event after
    it and at most an hour later. *)
Lemma tier1_loop_complete ts outs :
  StronglySorted lt outs -> StronglySorted Z.le ts ->
  (forall o, o ∈ outs -> (o < length ts)%nat) ->
  forall ins p,
    StronglySorted lt ins ->
    (forall i, i ∈ ins -> (i < length ts)%nat) ->
    (forall j o' i', (j < p)%nat -> outs !! j = Some o' -> i' ∈ ins ->
                     (o' < i')%nat) ->
    forall i o, i ∈ ins -> o ∈ outs -> (i < o)%nat ->
                (default 0 (ts !! o) - default 0 (ts !! i) <= ONE_HOUR)%Z ->
                tier1_loop ts outs ins p = true.
Proof.
  intros Houts Hts Hvalid.
  induction ins as [|i0 rest IH]; intros p Hins Hiv Hinv i o Hi Ho Hlt Hd;
    [inversion Hi|].
  cbn [tier1_loop]. cbv zeta.
  destruct (skip_out_spec outs i0 (length outs) p ltac:(lia)) as (S1 & S2 & S3).
  cbv zeta in S1, S2, S3.
  set (p' := skip_out outs i0 p (length outs)) in *.
  apply StronglySorted_inv in Hins as [Hrest Hmin].
  rewrite Forall_forall in Hmin.
  assert (i0 <= i)%nat as Hi0.
  { apply elem_of_cons in Hi as [->|Hi]; [lia|]. specialize (Hmin i Hi). lia. }
  apply list_elem_of_lookup in Ho as (q & Hq).
  assert (p' <= q)%nat as Hpq.
  { destruct (decide (p' <= q)%nat) as [H|H]; [exact H|exfalso].
    destruct (decide (q < p)%nat) as [Hqp|Hqp].
    - specialize (Hinv q o i Hqp Hq Hi). lia.
    - specialize (S3 q o ltac:(lia) Hq). lia. }
  destruct (outs !! p') as [o'|] eqn:E.
  2:{ apply lookup_ge_None in E. apply lookup_lt_Some in Hq. lia. }
  assert (o' <= o)%nat as Ho'.
  { destruct (decide (p' = q)) as [Heq|Hne].
    - rewrite Heq in E. rewrite E in Hq. injection Hq as ->. lia.
    - pose proof (StronglySorted_lookup_lt lt outs p' q o' o Houts
                    ltac:(lia) E Hq). lia. }
  destruct (_ <=? _)%Z eqn:El; [reflexivity|].
  apply Z.leb_gt in El.
  assert (i ∈ rest) as Hir.
  { apply elem_of_cons in Hi as [->|Hi]; [exfalso|exact Hi].
    assert (o' < length ts)%nat as Hv'
      by (apply Hvalid; eapply list_elem_of_lookup_2; exact E).
    assert (o < length ts)%nat as Hv
      by (apply Hvalid; eapply list_elem_of_lookup_2; exact Hq).
    destruct (lookup_lt_is_Some_2 ts o' Hv') as [x' Hx'].
    destruct (lookup_lt_is_Some_2 ts o Hv) as [x Hx].
    rewrite Hx' in El. rewrite Hx in Hd. cbn [default] in El, Hd. unfold id in El, Hd.
    pose proof (StronglySorted_lookup_le ts o' o x' x Hts Ho' Hx' Hx). lia. }
  apply (IH p' Hrest) with (i := i) (o := o).
  - intros k Hk. apply Hiv. now right.
  - intros j o2 i' Hj Ho2 Hi'. specialize (Hmin i' Hi').
    destruct (decide (j < p)%nat) as [Hjp|Hjp].
    + apply (Hinv j o2 i' Hjp Ho2). now right.
    + specialize (S3 j o2 ltac:(lia) Ho2). lia.
  - exact Hir.
  - eapply list_elem_of_lookup_2; exact Hq.
  - exact Hlt.
  - exact Hd.
Qed.

(** An event of an account is one of its rows, sent or received. *)
Lemma elem_of_events df acc e :
  e ∈ events df acc <->
  exists t, t ∈ df /\ ev_ts e = timestamp t
            /\ ((ev_dir e = Out /\ sender_id t = acc)
                \/ (ev_dir e = In /\ receiver_id t = acc)).
Proof.
  unfold events. rewrite stable_sort_perm, elem_of_app, !list_elem_of_fmap.
  split.
  - intros [(t & -> & Ht)|(t & -> & Ht)];
      apply list_elem_of_filter in Ht as [Ha Ht]; exists t;
      (split; [exact Ht|]); (split; [reflexivity|]); [left|right]; now split.
  - intros (t & Ht & Hts & [[Hd Ha]|[Hd Ha]]); [left|right]; exists t;
      (split; [destruct e as [ts d]; simpl in *; congruence|]);
      apply list_elem_of_filter; now split.
Qed.

(** Tier 1 on the events of an account. *)
Lemma tier1_events evs :
  StronglySorted Z.le (map ev_ts evs) ->
  (tier1 evs = true ->
   exists i o ei eo, evs !! i = Some ei /\ evs !! o = Some eo
                     /\ ev_dir ei = In /\ ev_dir eo = Out /\ (i < o)%nat
                     /\ (ev_ts eo - ev_ts ei <= ONE_HOUR)%Z)
  /\ (forall i o ei eo, evs !! i = Some ei -> evs !! o = Some eo ->
                        ev_dir ei = In -> ev_dir eo = Out -> (i < o)%nat ->
                        (ev_ts eo - ev_ts ei <= ONE_HOUR)%Z ->
                        tier1 evs = true).
Proof.
  intros Hs. unfold tier1. cbv zeta. split.
  - destruct (indices_of In evs) as [|i0 ins] eqn:Ei; [discriminate|].
    destruct (indices_of Out evs) as [|o0 outs] eqn:Eo; [discriminate|].
    rewrite <- Ei, <- Eo. intros H.
    apply tier1_loop_sound in H as (i & o & Hi & Ho & Hlt & Hd).
    apply indices_of_spec in Hi as (ei & Hei & Hdi).
    apply indices_of_spec in Ho as (eo & Heo & Hdo).
    rewrite !list_lookup_fmap, Hei, Heo in Hd. cbn in Hd.
    exists i, o, ei, eo. repeat split; assumption.
  - intros i o ei eo Hei Heo Hdi Hdo Hlt Hd.
    assert (i ∈ indices_of In evs) as Hi
      by (apply indices_of_spec; now exists ei).
    assert (o ∈ indices_of Out evs) as Ho
      by (apply indices_of_spec; now exists eo).
    destruct (indices_of In evs) as [|i0 ins] eqn:Ei; [inversion Hi|].
    destruct (indices_of Out evs) as [|o0 outs] eqn:Eo; [inversion Ho|].
    rewrite <- Ei, <- Eo in *.
    apply (tier1_loop_complete (map ev_ts evs) (indices_of Out evs))
      with (i := i) (o := o).
    + apply indices_of_sorted.
    + exact Hs.
    + intros k Hk. apply indices_of_spec in Hk as (e & He & _).
      rewrite length_fmap. eapply lookup_lt_Some; exact He.
    + apply indices_of_sorted.
    + intros k Hk. apply indices_of_spec in Hk as (e & He & _).
      rewrite length_fmap. eapply lookup_lt_Some; exact He.
    + intros; lia.
    + exact Hi.
    + exact Ho.
    + exact Hlt.
    + rewrite !list_lookup_fmap, Hei, Heo. cbn. exact Hd.
Qed.

(** Of two events of an account at the same instant the outbound one
    comes first: an inbound event is strictly earlier than every
    outbound event after it. *)
Local Abbreviation in_before_out :=
  (fun x y : Event => ev_dir x = In -> ev_dir y = Out -> (ev_ts x < ev_ts y)%Z).

Lemma sort_insert_in_before_out x l :
  ev_dir x = Out \/ Forall (fun y => ev_dir y = In) l ->
  StronglySorted in_before_out l ->
  StronglySorted in_before_out (sort_insert ev_leb x l).
Proof.
  intros Hx Hs. induction Hs as [|y t Hs IH Hall]; simpl.
  - repeat constructor.
  - destruct (ev_leb x y) eqn:E.
    + constructor; [now constructor|]. apply Forall_forall.
      intros f Hf Hdx Hdf. destruct Hx as [Hx|Hx]; [congruence|].
      rewrite Forall_forall in Hx. specialize (Hx f Hf). congruence.
    + constructor.
      * apply IH. destruct Hx as [Hx|Hx]; [now left|right].
        now apply Forall_cons in Hx as [_ Hx].
      * apply Forall_forall. intros f Hf.
        rewrite sort_insert_perm in Hf.
        apply elem_of_cons in Hf as [->|Hf].
        -- intros _ _. unfold ev_leb in E. now apply Z.leb_gt in E.
        -- rewrite Forall_forall in Hall. now apply Hall.
Qed.

Lemma stable_sort_in_before_out outs ins :
  Forall (fun y => ev_dir y = Out) outs ->
  Forall (fun y => ev_dir y = In) ins ->
  StronglySorted in_before_out (stable_sort ev_leb (outs ++ ins)).
Proof.
  intros Ho Hi. induction Ho as [|x outs Hx Ho IH]; simpl.
  - induction Hi as [|x ins Hx Hi IH]; simpl; [constructor|].
    apply sort_insert_in_before_out; [right|exact IH].
    apply Forall_forall. intros y Hy. rewrite stable_sort_perm in Hy.
    rewrite Forall_forall in Hi. now apply Hi.
  - apply sort_insert_in_before_out; [now left|exact IH].
Qed.

Lemma events_in_before_out df acc :
  StronglySorted in_before_out (events df acc).
Proof.
  unfold events. apply stable_sort_in_before_out; apply Forall_forall;
    intros e He; apply list_elem_of_fmap in He as (t & -> & _); reflexivity.
Qed.

(** Tier 1 in terms of the rows of the table. *)
Lemma tier1_rows df acc :
  tier1 (events df acc) = true <->
  exists r_in r_out,
    r_in ∈ df /\ r_out ∈ df
    /\ receiver_id r_in = acc /\ sender_id r_out = acc
    /\ (timestamp r_in < timestamp r_out <= timestamp r_in + ONE_HOUR)%Z.
Proof.
  pose proof (events_sorted df acc) as Hs.
  destruct (tier1_events (events df acc) Hs) as [Hsound Hcomplete]. split.
  - intros H. destruct (Hsound H) as (i & o & ei & eo & Hei & Heo & Hdi & Hdo
                                        & Hlt & Hd).
    pose proof (StronglySorted_lookup_lt _ _ i o ei eo
                  (events_in_before_out df acc) Hlt Hei Heo Hdi Hdo) as Hstrict.
    apply list_elem_of_lookup_2 in Hei, Heo.
    apply elem_of_events in Hei as (r_in & Hin & Htin & [[Hx _]|[_ Hrin]]);
      [congruence|].
    apply elem_of_events in Heo as (r_out & Hout & Htout & [[_ Hrout]|[Hx _]]);
      [|congruence].
    exists r_in, r_out. rewrite <- Htin, <- Htout.
    repeat split; try assumption; lia.
  - intros (r_in & r_out & Hin & Hout & Hrin & Hrout & Ht).
    assert (mkEvent (timestamp r_in) In ∈ events df acc) as Hei
      by (apply elem_of_events; exists r_in; cbn; tauto).
    assert (mkEvent (timestamp r_out) Out ∈ events df acc) as Heo
      by (apply elem_of_events; exists r_out; cbn; tauto).
    apply list_elem_of_lookup in Hei as (i & Hei).
    apply list_elem_of_lookup in Heo as (o & Heo).
    apply (Hcomplete i o _ _ Hei Heo); cbn; try reflexivity; [|lia].
    destruct (decide (i < o)%nat) as [H|H]; [exact H|exfalso].
    assert (timestamp r_out <= timestamp r_in)%Z; [|lia].
    apply (StronglySorted_lookup_le (map ev_ts (events df acc)) o i);
      [exact Hs|lia| |]; rewrite list_lookup_fmap; [rewrite Heo|rewrite Hei];
      reflexivity.
Qed.

End Tier1Facts.

(** X21, [detect_velocity], tier 1. With a table loaded, the stage adds
    an account to the velocity set, and labels it [high_velocity],
    exactly when the account sent a transaction strictly after, and at
    most one hour after, one it received. A transaction sent at the
    very instant of a receipt does not count: at equal timestamps the
    events of an account are ordered with the outbound one first. *)
Theorem velocity_in_then_out_within_hour (st : Engine) (df : list Txn)
    (acc : string) :
  eng_df st = Some df ->
  let st' := Velocity.detect_velocity st in
  let relays :=
    exists r_in r_out,
      r_in ∈ df /\ r_out ∈ df
      /\ receiver_id r_in = acc /\ sender_id r_out = acc
      /\ (timestamp r_in < timestamp r_out
          <= timestamp r_in + Velocity.ONE_HOUR)%Z in
  (acc ∈ velocity_accounts st' <-> acc ∈ velocity_accounts st \/ relays)
  /\ ("high_velocity" ∈ patterns_of (account_patterns st') acc <->
      "high_velocity" ∈ patterns_of (account_patterns st) acc \/ relays).
Proof.
  intros Hdf st' relays. subst st' relays.
  destruct (detect_velocity_aux st df Hdf) as (H1 & _ & H3 & _).
  cbv zeta in H1, H3.
  pose proof (tier1_rows df acc) as Hrows.
  assert ((exists r_in r_out,
              r_in ∈ df /\ r_out ∈ df
              /\ receiver_id r_in = acc /\ sender_id r_out = acc
              /\ (timestamp r_in < timestamp r_out
                  <= timestamp r_in + Velocity.ONE_HOUR)%Z)
          -> acc ∈ accounts df) as Hacc.
  { intros (r_in & _ & Hi & _ & Hri & _).
    apply elem_of_accounts. exists r_in. tauto. }
  split.
  - rewrite H1. split.
    + intros [H|[_ H]]; [now left|right; now apply Hrows].
    + intros [H|H]; [now left|right]. split; [now apply Hacc|now apply Hrows].
  - rewrite H3. split.
    + intros [H|[_ [[_ H]|[[H _]|[H _]]]]]; [now left| | |]; try discriminate H.
      right. now apply Hrows.
    + intros [H|H]; [now left|right]. split; [now apply Hacc|].
      left. split; [reflexivity|now apply Hrows].
Qed.

Lemma velocity_in_then_out_within_hour_witness :
  "v" ∈ velocity_accounts (Velocity.detect_velocity Cases.busy_engine).
Proof.
  pose proof (velocity_in_then_out_within_hour Cases.busy_engine
                Cases.busy_table "v" eq_refl) as T.
  cbv zeta in T. destruct T as [T _]. apply T. right.
  exists (mkTxn "B1" "a" "v" 100 0),
         (mkTxn "B2" "v" "b" 100 (30 * Cases.MINUTE)).
  split; [unfold Cases.busy_table; left|].
  split; [unfold Cases.busy_table; right; left|].
  split; [reflexivity|]. split; [reflexivity|].
  vm_compute. split; [reflexivity|]. intros H. discriminate H.
Defined.

(** ** Low variance *)

Section LowVarianceFacts.

Lemma Qnat_S n : (Qnat (S n) == 1 + Qnat n)%Q.
Proof.
  unfold Qnat. rewrite Nat2Z.inj_succ. unfold Z.succ.
  rewrite inject_Z_plus. ring.
Qed.

Lemma Qnat_pos n : (0 < n)%nat -> (0 < Qnat n)%Q.
Proof.
  intros H. unfold Qnat. change 0%Q with (inject_Z 0).
  rewrite <- Zlt_Qlt. lia.
Qed.

Lemma Qsum_const (l : list Q) (a0 : Q) :
  Forall (fun a => (a == a0)%Q) l -> (Qsum l == Qnat (length l) * a0)%Q.
Proof.
  induction 1 as [|a l Ha _ IH].
  - unfold Qsum, Qnat. simpl. ring.
  - cbn [length]. rewrite Qnat_S. unfold Qsum in *. cbn [foldr].
    rewrite IH, Ha. ring.
Qed.

Lemma Qsum_zero (l : list Q) :
  Forall (fun a => (a == 0)%Q) l -> (Qsum l == 0)%Q.
Proof.
  intros H. rewrite (Qsum_const l 0 H). ring.
Qed.

(** Equal values have a coefficient of variation of 0. *)
Lemma cv_lt_const (l : list Q) (a0 c : Q) :
  (0 < c)%Q -> Forall (fun a => (a == a0)%Q) l -> cv_lt l c = true.
Proof.
  intros Hc Hall. unfold cv_lt.
  case_bool_decide as Hlen; [now apply QFacts.Qltb_lt|].
  cbv zeta.
  set (n := Qnat (length l)).
  assert (0 < n)%Q as Hn by (apply Qnat_pos; lia).
  assert (Qsum l / n == a0)%Q as Hmean.
  { rewrite (Qsum_const l a0 Hall). fold n. field.
    intros H0. rewrite H0 in Hn. now apply Qlt_irrefl in Hn. }
  destruct (Qeq_bool (Qsum l / n) 0) eqn:E0; [now apply QFacts.Qltb_lt|].
  destruct (Qltb 0 (Qsum l / n)) eqn:Epos; [|reflexivity].
  apply QFacts.Qltb_lt in Epos. apply QFacts.Qltb_lt.
  assert (Qsum (map (fun v => (v - Qsum l / n) * (v - Qsum l / n)) l) == 0)%Q
    as Hvar.
  { apply Qsum_zero. apply Forall_fmap.
    eapply Forall_impl; [exact Hall|]. intros v Hv. simpl.
    rewrite Hmean, Hv. ring. }
  rewrite Hvar.
  assert (0 / n == 0)%Q as -> by (unfold Qdiv; ring).
  assert (0 < c * (Qsum l / n))%Q as Hcm by now apply Qmult_lt_0_compat.
  now apply Qmult_lt_0_compat.
Qed.

End LowVarianceFacts.

(** X22, [detect_velocity], low variance. With a table loaded, an
    account that takes part in at least two transaction sides, all of
    the same whole amount [z], is labelled [low_variance]; the count of
    the sides times [|z|] is at most [2^53], the range in which the sum
    and the mean that [_coefficient_of_variation] forms in double
    precision are exact, so that the coefficient is 0. And the stage
    gives this label to no account with fewer than two transaction
    sides. *)
Theorem equal_amounts_are_low_variance (st : Engine) (df : list Txn) :
  eng_df st = Some df ->
  let st' := Velocity.detect_velocity st in
  (forall (acc : string) (z : Z),
      (2 <= length (account_amounts df acc))%nat ->
      Forall (fun a => (a == inject_Z z)%Q) (account_amounts df acc) ->
      (Z.of_nat (length (account_amounts df acc)) * Z.abs z <= 2 ^ 53)%Z ->
      "low_variance" ∈ patterns_of (account_patterns st') acc)
  /\ (forall n, "low_variance" ∈ patterns_of (account_patterns st') n ->
                "low_variance" ∉ patterns_of (account_patterns st) n ->
                (2 <= length (account_amounts df n))%nat).
Proof.
  intros Hdf st'. subst st'.
  destruct (detect_velocity_aux st df Hdf) as (_ & _ & H3 & _).
  cbv zeta in H3. split.
  - intros acc z Hlen Hall _. apply H3. right. split.
    + destruct (account_amounts df acc) as [|a l] eqn:E; [simpl in Hlen; lia|].
      assert (a ∈ account_amounts df acc) as Ha by (rewrite E; now left).
      apply elem_of_sides in Ha as (t & Ht & Hn & _).
      apply elem_of_accounts. now exists t.
    + right. right. split; [reflexivity|]. split; [exact Hlen|].
      apply (cv_lt_const _ (inject_Z z)); [reflexivity|exact Hall].
  - intros n Hin Hnot. apply H3 in Hin as [Hin|[_ Hin]]; [contradiction|].
    destruct Hin as [[Hp _]|[[Hp _]|[_ [Hl _]]]]; [discriminate|discriminate|].
    exact Hl.
Qed.

Lemma equal_amounts_are_low_variance_witness :
  "low_variance"
  ∈ patterns_of
      (account_patterns
         (Velocity.detect_velocity (Examples.loaded Examples.iso_table)))
      "n1".
Proof.
  refine (proj1 (equal_amounts_are_low_variance
                   (Examples.loaded Examples.iso_table) Examples.iso_table
                   eq_refl) "n1" 1000%Z _ _ _).
  - vm_compute. lia.
  - let l := eval vm_compute in (account_amounts Examples.iso_table "n1") in
    change (account_amounts Examples.iso_table "n1") with l.
    repeat (constructor; [reflexivity|]). constructor.
  - vm_compute. intros H. discriminate H.
Defined.

(** ** Structuring *)

Section StructuringFacts.
Import Structuring.
#[local] Set Warnings "-inconsistent-scopes".

Local Abbreviation count v band := (length (filter (fun t => (t <= v)%Z) band)).

Lemma WINDOW_48H_pos : (0 < WINDOW_48H)%Z.
Proof. reflexivity. Qed.

(** In a sorted list the entries up to a bound are an initial segment. *)
Lemma sorted_count_iff (l : list Z) (v : Z) :
  StronglySorted Z.le l ->
  forall j t, l !! j = Some t -> ((t <= v)%Z <-> (j < count v l)%nat).
Proof.
  induction 1 as [|a l Hs IH Hall]; intros j t Hj; [discriminate Hj|].
  rewrite filter_cons. destruct (decide (a <= v)%Z) as [Ha|Ha].
  - cbn [length]. destruct j as [|j]; simpl in Hj.
    + injection Hj as <-. split; [lia|tauto].
    + rewrite (IH j t Hj). lia.
  - assert (filter (fun t => (t <= v)%Z) l = []) as Hnil.
    { apply filter_none. eapply Forall_impl; [exact Hall|].
      intros x Hx. simpl. lia. }
    rewrite Hnil. cbn [length]. split; [|lia]. intros Ht. exfalso.
    destruct j as [|j]; simpl in Hj.
    + injection Hj as <-. lia.
    + rewrite Forall_forall in Hall.
      apply list_elem_of_lookup_2 in Hj. specialize (Hall t Hj). lia.
Qed.

Lemma count_mono (l : list Z) (v v' : Z) :
  (v <= v')%Z -> (count v l <= count v' l)%nat.
Proof.
  intros Hv. induction l as [|a l IH]; [reflexivity|].
  rewrite !filter_cons.
  destruct (decide (a <= v)%Z), (decide (a <= v')%Z); cbn [length]; lia.
Qed.

(** The pointer [right] ends at the number of entries up to the end of
    the window. *)
Lemma band_advance_exact (band : list Z) (w_end : Z) :
  StronglySorted Z.le band ->
  forall steps hi,
    (hi <= count w_end band)%nat -> (length band <= hi + steps)%nat ->
    advance band w_end hi steps = count w_end band.
Proof.
  intros Hs. induction steps as [|steps IH]; intros hi Hhi Hlen;
    cbn [advance].
  - pose proof (length_filter (fun t => (t <= w_end)%Z) band). lia.
  - destruct (band !! hi) as [t|] eqn:E.
    + pose proof (sorted_count_iff band w_end Hs hi t E) as Hiff.
      destruct (t <=? w_end)%Z eqn:El.
      * apply Z.leb_le in El. apply IH; [|lia]. apply Hiff in El. lia.
      * apply Z.leb_gt in El.
        destruct (decide (hi < count w_end band)%nat) as [H|H]; [|lia].
        apply Hiff in H. lia.
    + apply lookup_ge_None in E.
      pose proof (length_filter (fun t => (t <= w_end)%Z) band). lia.
Qed.

(** The distance test of the loop, in nanoseconds. *)
Lemma distance_test (w prev : Z) :
  Qleb (inject_Z (48 * 3600)) (Velocity.total_seconds (w - prev)) = true
  <-> (prev + WINDOW_48H <= w)%Z.
Proof.
  rewrite QFacts.Qleb_le. unfold Velocity.total_seconds, WINDOW_48H.
  change Cycles.NS_PER_HOUR with 3600000000000%Z.
  unfold Qdiv, Qle. cbn [Qnum Qden Qmult Qinv inject_Z].
  change (Qnum (Qinv 1000000000)) with 1%Z.
  change (Qden (Qinv 1000000000)) with 1000000000%positive.
  lia.
Qed.

(** One iteration of the loop, with the pointer in closed form. *)
Lemma windows_step (band : list Z) k rest hi q w :
  StronglySorted Z.le band ->
  band !! k = Some w ->
  (hi <= count (w + WINDOW_48H) band)%nat ->
  windows band (k :: rest) hi q
  = windows band rest (count (w + WINDOW_48H) band)
      (if bool_decide (5 <= count (w + WINDOW_48H) band - k)%nat
       then match last q with
            | None => q ++ [w]
            | Some prev =>
                if bool_decide (prev + WINDOW_48H <= w)%Z
                then q ++ [w] else q
            end
       else q).
Proof.
  intros Hs Hk Hhi. cbn [windows]. rewrite Hk. cbv zeta.
  rewrite (band_advance_exact band (w + WINDOW_48H) Hs (length band) hi Hhi)
    by lia.
  f_equal. unfold MIN_HITS_PER_WINDOW.
  destruct (bool_decide (5 <= _)%nat); [|reflexivity].
  destruct (last q) as [prev|]; [|reflexivity].
  destruct (Qleb _ _) eqn:E.
  - apply distance_test in E. now rewrite bool_decide_eq_true_2.
  - rewrite bool_decide_eq_false_2; [reflexivity|].
    intros H. apply distance_test in H. congruence.
Qed.

(** A qualifying start: an entry with at least five entries in the 48
    hours that begin with it. *)
Local Abbreviation full w band :=
  (w ∈ band /\ (5 <= length (Props.in_window w WINDOW_48H band))%nat).

(** The entries the loop appends are full windows, each at least 48
    hours after the one before. *)
Lemma windows_sound (band : list Z) :
  StronglySorted Z.le band ->
  forall m k hi q,
    (forall w, band !! k = Some w -> (hi <= count (w + WINDOW_48H) band)%nat) ->
    Forall (fun w => full w band) q ->
    (forall i a b, q !! i = Some a -> q !! S i = Some b ->
                   (a + WINDOW_48H <= b)%Z) ->
    let q' := windows band (seq k m) hi q in
    Forall (fun w => full w band) q'
    /\ (forall i a b, q' !! i = Some a -> q' !! S i = Some b ->
                      (a + WINDOW_48H <= b)%Z).
Proof.
  intros Hs. induction m as [|m IH]; intros k hi q Hhi Hq Hgap;
    [now split|].
  cbn [seq]. destruct (band !! k) as [w|] eqn:Ek.
  2:{ cbn [windows]. rewrite Ek. now split. }
  cbv zeta. rewrite (windows_step band k _ hi q w Hs Ek (Hhi w eq_refl)).
  apply IH.
  - intros w' Hw'. apply count_mono.
    pose proof (StronglySorted_lookup_le band k (S k) w w' Hs ltac:(lia) Ek Hw').
    lia.
  - case_bool_decide as Hc; [|exact Hq].
    assert (full w band) as Hfull.
    { split; [eapply list_elem_of_lookup_2; exact Ek|].
      unfold Props.in_window.
      pose proof WINDOW_48H_pos.
      rewrite (window_count band w (w + WINDOW_48H)) in Hc by lia.
      pose proof (below_count_le band k w Hs Ek). lia. }
    destruct (last q) as [prev|]; [case_bool_decide|];
      try exact Hq; (apply Forall_app; split; [exact Hq|]);
      now constructor.
  - case_bool_decide as Hc; [|exact Hgap].
    destruct (last q) as [prev|] eqn:El.
    + case_bool_decide as Hd; [|exact Hgap].
      intros i a b Ha Hb.
      destruct (decide (S i < length q)%nat) as [Hi|Hi].
      * rewrite lookup_app_l in Ha by lia. rewrite lookup_app_l in Hb by lia.
        now apply (Hgap i).
      * apply lookup_lt_Some in Hb as Hb'. rewrite length_app in Hb'.
        simpl in Hb'. assert (S i = length q) as Hi' by lia.
        rewrite lookup_app_l in Ha by lia.
        rewrite Hi', lookup_app_r, Nat.sub_diag in Hb by lia.
        simpl in Hb. injection Hb as <-.
        rewrite last_lookup in El. replace (pred (length q)) with i in El by lia.
        rewrite El in Ha. injection Ha as <-. exact Hd.
    + apply last_None in El. subst q. intros i a b Ha Hb.
      destruct i; discriminate Hb.
Qed.

(** Two full windows 48 hours apart leave two entries. *)
Lemma windows_complete (band : list Z) (w1 w2 : Z) :
  StronglySorted Z.le band ->
  full w1 band -> full w2 band -> (w1 + WINDOW_48H <= w2)%Z ->
  let l1 := length (filter (fun t => (t < w1)%Z) band) in
  let l2 := length (filter (fun t => (t < w2)%Z) band) in
  forall m k hi q,
    (k + m = length band)%nat ->
    (forall w, band !! k = Some w -> (hi <= count (w + WINDOW_48H) band)%nat) ->
    (forall x, x ∈ q -> exists j, (j < k)%nat /\ band !! j = Some x) ->
    ((l1 < k)%nat -> exists w0 rest, q = w0 :: rest /\ (w0 <= w1)%Z) ->
    ((l2 < k)%nat -> (2 <= length q)%nat) ->
    (2 <= length (windows band (seq k m) hi q))%nat.
Proof.
  intros Hs [Hw1 Hf1] [Hw2 Hf2] Hgap l1 l2.
  pose proof WINDOW_48H_pos as H48.
  pose proof (below_count_lookup band w1 Hs Hw1) as Hl1. fold l1 in Hl1.
  pose proof (below_count_lookup band w2 Hs Hw2) as Hl2. fold l2 in Hl2.
  assert (l1 < l2)%nat as Hl12.
  { destruct (decide (l1 < l2)%nat) as [H|H]; [exact H|exfalso].
    pose proof (StronglySorted_lookup_le band l2 l1 w2 w1 Hs ltac:(lia) Hl2 Hl1).
    lia. }
  assert (5 <= count (w1 + WINDOW_48H) band - l1)%nat as Hc1.
  { unfold Props.in_window in Hf1.
    rewrite (window_count band w1 (w1 + WINDOW_48H)) by lia. fold l1. lia. }
  assert (5 <= count (w2 + WINDOW_48H) band - l2)%nat as Hc2.
  { unfold Props.in_window in Hf2.
    rewrite (window_count band w2 (w2 + WINDOW_48H)) by lia. fold l2. lia. }
  induction m as [|m IH]; intros k hi q Hkm Hhi Hfrom Hfirst Hsecond.
  - cbn [seq windows]. apply Hsecond. apply lookup_lt_Some in Hl2. lia.
  - cbn [seq].
    assert (k < length band)%nat as Hk by lia.
    destruct (lookup_lt_is_Some_2 band k Hk) as [w Ek].
    rewrite (windows_step band k _ hi q w Hs Ek (Hhi w Ek)).
    set (q' := if bool_decide (5 <= count (w + WINDOW_48H) band - k)%nat
               then _ else q).
    assert (exists ext, q' = q ++ ext /\ (ext = [] \/ ext = [w]))
      as (ext & Hq' & Hext).
    { unfold q'. case_bool_decide; [|exists []; rewrite app_nil_r; tauto].
      destruct (last q); [case_bool_decide|];
        first [exists [w]; tauto|exists []; rewrite app_nil_r; tauto]. }
    apply IH.
    + lia.
    + intros w' Hw'. apply count_mono.
      pose proof (StronglySorted_lookup_le band k (S k) w w' Hs ltac:(lia)
                    Ek Hw'). lia.
    + intros x Hx. rewrite Hq' in Hx. apply elem_of_app in Hx as [Hx|Hx].
      * destruct (Hfrom x Hx) as (j & Hj & Hbj). exists j. split; [lia|exact Hbj].
      * destruct Hext as [->| ->]; [inversion Hx|].
        apply list_elem_of_singleton in Hx as ->. exists k. split; [lia|exact Ek].
    + intros Hlt. destruct (decide (l1 < k)%nat) as [Hold|Hnew].
      * destruct (Hfirst Hold) as (w0 & rest & -> & Hw0).
        exists w0, (rest ++ ext). split; [rewrite Hq'; reflexivity|exact Hw0].
      * assert (k = l1) as -> by lia.
        rewrite Hl1 in Ek. injection Ek as <-.
        destruct q as [|w0 rest].
        -- exists w1, []. split; [|lia]. unfold q'.
           rewrite bool_decide_eq_true_2 by exact Hc1. reflexivity.
        -- exists w0, (rest ++ ext). split; [rewrite Hq'; reflexivity|].
           destruct (Hfrom w0 ltac:(now left)) as (j & Hj & Hbj).
           apply (StronglySorted_lookup_le band j l1 w0 w1 Hs); [lia|exact Hbj|].
           exact Hl1.
    + intros Hlt. destruct (decide (l2 < k)%nat) as [Hold|Hnew].
      * specialize (Hsecond Hold). rewrite Hq', length_app. lia.
      * assert (k = l2) as -> by lia.
        rewrite Hl2 in Ek. injection Ek as <-.
        destruct (Hfirst Hl12) as (w0 & rest & -> & Hw0).
        destruct rest as [|w0' rest].
        -- unfold q'. rewrite bool_decide_eq_true_2 by exact Hc2.
           cbn [last]. rewrite bool_decide_eq_true_2 by lia. simpl. lia.
        -- rewrite Hq', length_app. simpl. lia.
Qed.

(** The loop over the band transactions of an account. *)
Lemma qualifying_two (band : list Z) :
  StronglySorted Z.le band ->
  (2 <= length (qualifying band))%nat <->
  exists w1 w2, full w1 band /\ full w2 band /\ (w1 + WINDOW_48H <= w2)%Z.
Proof.
  intros Hs. unfold qualifying. split.
  - intros Hlen.
    destruct (windows_sound band Hs (length band) 0 0 []) as [Hall Hgap].
    + intros; lia.
    + constructor.
    + intros i a b Ha. discriminate Ha.
    + cbv zeta in Hall, Hgap.
      destruct (windows band (seq 0 (length band)) 0 []) as [|a [|b l]];
        simpl in Hlen; try lia.
      exists a, b. apply Forall_cons in Hall as [Ha Hall].
      apply Forall_cons in Hall as [Hb _].
      split; [exact Ha|]. split; [exact Hb|]. now apply (Hgap 0%nat).
  - intros (w1 & w2 & H1 & H2 & Hgap).
    apply (windows_complete band w1 w2 Hs H1 H2 Hgap).
    + reflexivity.
    + intros; lia.
    + intros x Hx. inversion Hx.
    + intros; lia.
    + intros; lia.
Qed.

Lemma ts_leb_total' x y :
  Ingest.ts_leb x y = true \/ Ingest.ts_leb y x = true.
Proof. unfold Ingest.ts_leb. rewrite !Z.leb_le. lia. Qed.

Lemma ts_leb_trans' x y z :
  Ingest.ts_leb x y = true -> Ingest.ts_leb y z = true ->
  Ingest.ts_leb x z = true.
Proof. unfold Ingest.ts_leb. rewrite !Z.leb_le. lia. Qed.

Lemma StronglySorted_filter {A} (R : relation A) (P : A -> Prop)
    `{forall x, Decision (P x)} (l : list A) :
  StronglySorted R l -> StronglySorted R (filter P l).
Proof.
  induction 1 as [|a l Hs IH Hall]; [constructor|].
  rewrite filter_cons. destruct (decide (P a)); [|exact IH].
  constructor; [exact IH|]. apply Forall_forall. intros x Hx.
  apply list_elem_of_filter in Hx as [_ Hx].
  rewrite Forall_forall in Hall. now apply Hall.
Qed.

Lemma band_txns_sorted df acc : StronglySorted Z.le (band_txns df acc).
Proof.
  unfold band_txns.
  pose proof (StronglySorted_filter _ (fun t => in_band (amount t) = true) _
                (stable_sort_sorted Ingest.ts_leb ts_leb_total' ts_leb_trans'
                   (filter (fun t => sender_id t = acc \/ receiver_id t = acc)
                           df))) as Hs.
  induction Hs as [|a l Hs IH Hall]; [constructor|].
  cbn [map]. constructor; [exact IH|].
  apply Forall_fmap. eapply Forall_impl; [exact Hall|].
  intros x Hx. simpl. unfold Ingest.ts_leb in Hx. now apply Z.leb_le in Hx.
Qed.

Lemma in_band_spec (amt : Q) :
  in_band amt = true <->
  (8000 <= amt <= 9999)%Q \/ (4000 <= amt <= 4999)%Q.
Proof.
  unfold in_band, BANDS. cbn [existsb].
  rewrite !orb_true_iff, !andb_true_iff, !QFacts.Qleb_le.
  split; [intros [H|[H|H]]; [now left|now right|discriminate]|].
  intros [H|H]; [now left|right; now left].
Qed.

(** The band transactions are the timestamps of the rows of the account
    with an amount in one of the two bands. *)
Lemma elem_of_band_txns df acc t :
  t ∈ band_txns df acc <->
  exists r, r ∈ df /\ (sender_id r = acc \/ receiver_id r = acc)
            /\ timestamp r = t
            /\ ((8000 <= amount r <= 9999)%Q \/ (4000 <= amount r <= 4999)%Q).
Proof.
  unfold band_txns. rewrite list_elem_of_fmap. split.
  - intros (r & -> & Hr). apply list_elem_of_filter in Hr as [Hb Hr].
    rewrite stable_sort_perm in Hr. apply list_elem_of_filter in Hr as [Ha Hr].
    exists r. split; [exact Hr|]. split; [exact Ha|]. split; [reflexivity|].
    now apply in_band_spec.
  - intros (r & Hr & Ha & <- & Hb). exists r. split; [reflexivity|].
    apply list_elem_of_filter. split; [now apply in_band_spec|].
    rewrite stable_sort_perm. apply list_elem_of_filter. now split.
Qed.

Lemma structuring_step_same df st a :
  Props.same_rings st (structuring_step df st a)
  /\ velocity_accounts (structuring_step df st a) = velocity_accounts st
  /\ velocity_24h_accounts (structuring_step df st a)
     = velocity_24h_accounts st
  /\ high_degree_hubs (structuring_step df st a) = high_degree_hubs st.
Proof.
  unfold structuring_step. destruct (is_structuring df a); repeat split.
Qed.

Lemma structuring_step_patterns df n p st a :
  p ∈ patterns_of (account_patterns (structuring_step df st a)) n <->
  p ∈ patterns_of (account_patterns st) n
  \/ (n = a /\ p = "structuring" /\ is_structuring df a = true).
Proof.
  unfold structuring_step. destruct (is_structuring df a).
  - cbn [account_patterns set_account_patterns].
    rewrite patterns_of_add_pattern. case_bool_decide as Hn.
    + rewrite elem_of_union, elem_of_singleton. subst. tauto.
    + split; [now left|]. intros [H|(H & _)]; [exact H|congruence].
  - split; [now left|]. intros [H|(_ & _ & H)]; [exact H|discriminate].
Qed.

(** The labels after [detect_structuring]. *)
Lemma detect_structuring_aux st df :
  eng_df st = Some df ->
  let st' := detect_structuring st in
  (forall n p, p ∈ patterns_of (account_patterns st') n <->
               p ∈ patterns_of (account_patterns st) n
               \/ (n ∈ accounts df /\ p = "structuring"
                   /\ is_structuring df n = true))
  /\ Props.same_rings st st'
  /\ velocity_accounts st' = velocity_accounts st
  /\ velocity_24h_accounts st' = velocity_24h_accounts st
  /\ high_degree_hubs st' = high_degree_hubs st.
Proof.
  intros Hdf st'. subst st'. unfold detect_structuring. rewrite Hdf.
  destruct df as [|r df0].
  { split; [|repeat split]. intros n p. split; [now left|].
    intros [H|[H _]]; [exact H|inversion H]. }
  set (df := r :: df0). split; [|split; [|split; [|split]]].
  - intros n p.
    rewrite (fold_left_step_iff (structuring_step df)
               (fun s => p ∈ patterns_of (account_patterns s) n)
               (fun a => n = a /\ p = "structuring"
                         /\ is_structuring df a = true))
      by (intros; apply structuring_step_patterns).
    split; (intros [H|H]; [now left|right]).
    + destruct H as (a & Ha & -> & H). now split.
    + exists n. tauto.
  - apply (fold_left_step_rel (structuring_step df) Props.same_rings);
      [apply same_rings_refl|apply same_rings_trans|].
    intros s a. apply structuring_step_same.
  - apply (fold_left_step_rel (structuring_step df)
             (fun a b => velocity_accounts b = velocity_accounts a));
      [reflexivity|intros; congruence|].
    intros s a. apply structuring_step_same.
  - apply (fold_left_step_rel (structuring_step df)
             (fun a b => velocity_24h_accounts b = velocity_24h_accounts a));
      [reflexivity|intros; congruence|].
    intros s a. apply structuring_step_same.
  - apply (fold_left_step_rel (structuring_step df)
             (fun a b => high_degree_hubs b = high_degree_hubs a));
      [reflexivity|intros; congruence|].
    intros s a. apply structuring_step_same.
Qed.

End StructuringFacts.

(** X23, [detect_structuring]. With a table loaded, the stage labels
    an account [structuring] exactly when its band transactions (the
    rows it sends or receives with an amount from 8000 to 9999 or from
    4000 to 4999) contain two that are at least 48 hours apart and each
    open a 48-hour window with five or more band transactions. *)
Theorem structuring_two_distant_windows (st : Engine) (df : list Txn)
    (acc : string) :
  eng_df st = Some df ->
  let st' := Structuring.detect_structuring st in
  let band := Structuring.band_txns df acc in
  (forall t, t ∈ band <->
             exists r, r ∈ df /\ (sender_id r = acc \/ receiver_id r = acc)
                       /\ timestamp r = t
                       /\ ((8000 <= amount r <= 9999)%Q
                           \/ (4000 <= amount r <= 4999)%Q))
  /\ ("structuring" ∈ patterns_of (account_patterns st') acc <->
      "structuring" ∈ patterns_of (account_patterns st) acc
      \/ exists w1 w2,
           w1 ∈ band /\ w2 ∈ band
           /\ (w1 + Structuring.WINDOW_48H <= w2)%Z
           /\ (5 <= length (Props.in_window w1 Structuring.WINDOW_48H band))%nat
           /\ (5 <= length (Props.in_window w2 Structuring.WINDOW_48H band))%nat).
Proof.
  intros Hdf st' band. subst st' band.
  destruct (detect_structuring_aux st df Hdf) as (H1 & _).
  cbv zeta in H1. split; [intros t; apply elem_of_band_txns|].
  rewrite H1. unfold Structuring.is_structuring. cbv zeta.
  pose proof (qualifying_two _ (band_txns_sorted df acc)) as Hq.
  split.
  - intros [H|(Ha & _ & H)]; [now left|right].
    case_bool_decide as Hlen; [discriminate|].
    apply bool_decide_eq_true in H. apply Hq in H
      as (w1 & w2 & [Hw1 Hf1] & [Hw2 Hf2] & Hgap).
    exists w1, w2. tauto.
  - intros [H|(w1 & w2 & Hw1 & Hw2 & Hgap & Hf1 & Hf2)]; [now left|right].
    split; [|split; [reflexivity|]].
    + apply elem_of_band_txns in Hw1 as (r & Hr & Ha & _).
      apply elem_of_accounts. now exists r.
    + rewrite bool_decide_eq_false_2.
      * apply bool_decide_eq_true. apply Hq. exists w1, w2. tauto.
      * unfold Structuring.MIN_HITS_PER_WINDOW.
        pose proof (length_filter
                      (fun t => (w1 <= t <= w1 + Structuring.WINDOW_48H)%Z)
                      (Structuring.band_txns df acc)) as Hle.
        unfold Props.in_window in Hf1. lia.
Qed.

Lemma structuring_two_distant_windows_witness :
  "structuring"
  ∈ patterns_of
      (account_patterns
         (Structuring.detect_structuring Cases.structured_engine)) "s".
Proof.
  pose proof (structuring_two_distant_windows Cases.structured_engine
                Cases.structured_table "s" eq_refl) as T.
  cbv zeta in T. destruct T as [_ T]. apply T. right.
  exists 0%Z, (168 * Cases.HOUR)%Z.
  let l := eval vm_compute in
             (Structuring.band_txns Cases.structured_table "s") in
  change (Structuring.band_txns Cases.structured_table "s") with l.
  split; [apply (bool_decide_unpack (_ ∈ _)); vm_compute; exact I|].
  split; [apply (bool_decide_unpack (_ ∈ _)); vm_compute; exact I|].
  split; [vm_compute; intros H; discriminate H|].
  split; vm_compute; lia.
Defined.

(** ** The label stages within the run *)

Section LabelStageFacts.

Lemma more_labels_refl extra ap : Props.more_labels extra ap ap.
Proof. intros n. split; [reflexivity|apply union_subseteq_l]. Qed.

Lemma more_labels_trans extra a b c :
  Props.more_labels extra a b -> Props.more_labels extra b c ->
  Props.more_labels extra a c.
Proof.
  intros H1 H2 n. destruct (H1 n) as [A1 A2]. destruct (H2 n) as [B1 B2].
  split; [set_solver|set_solver].
Qed.

Lemma more_labels_add extra a l ap ap' :
  Props.more_labels extra ap ap' ->
  Props.more_labels extra (add_pattern a l ap) (add_pattern a l ap').
Proof.
  intros H n. destruct (H n) as [H1 H2].
  rewrite !patterns_of_add_pattern. case_bool_decide; set_solver.
Qed.

Lemma label_fold_rel extra immune c members : forall ap ap',
  Props.more_labels extra ap ap' ->
  Props.more_labels extra
    (fold_left (Smurf.label_member immune c) members ap)
    (fold_left (Smurf.label_member immune c) members ap').
Proof.
  induction members as [|m members IH]; intros ap ap' H; cbn [fold_left];
    [exact H|].
  apply IH. unfold Smurf.label_member.
  repeat case_bool_decide; repeat apply more_labels_add; exact H.
Qed.

Lemma score_fold_rel extra G immune cands : forall ss ss',
  Smurf.ss_seen ss = Smurf.ss_seen ss' ->
  Smurf.ss_rings ss = Smurf.ss_rings ss' ->
  Props.more_labels extra (Smurf.ss_patterns ss) (Smurf.ss_patterns ss') ->
  Smurf.ss_rings (fold_left (Smurf.score_step G immune) cands ss)
  = Smurf.ss_rings (fold_left (Smurf.score_step G immune) cands ss')
  /\ Props.more_labels extra
       (Smurf.ss_patterns (fold_left (Smurf.score_step G immune) cands ss))
       (Smurf.ss_patterns (fold_left (Smurf.score_step G immune) cands ss')).
Proof.
  induction cands as [|c cands IH]; intros ss ss' Hseen Hrings Hpat;
    cbn [fold_left]; [now split|].
  apply IH; unfold Smurf.score_step; rewrite <- Hseen;
    destruct (Smurf.score_candidate G immune (Smurf.ss_seen ss) c) as [ring|];
    cbn [Smurf.ss_seen Smurf.ss_rings Smurf.ss_patterns];
    try assumption; try congruence.
  now apply label_fold_rel.
Qed.

(** The smurf stage on two engines that differ in their labels only. *)
Lemma smurf_stage_rel extra (a b : Engine) :
  Props.same_rings a b ->
  Props.more_labels extra (account_patterns a) (account_patterns b) ->
  Props.same_rings (Run.smurf_stage a) (Run.smurf_stage b)
  /\ Props.more_labels extra (account_patterns (Run.smurf_stage a))
                       (account_patterns (Run.smurf_stage b)).
Proof.
  intros Hsame Hpat. pose proof Hsame as Hsame'.
  destruct Hsame' as (S1 & S2 & S3 & S4 & S5 & S6 & S7 & S8 & S9 & S10).
  unfold Run.smurf_stage. rewrite S2.
  destruct (eng_G a) as [G|] eqn:EG; [|now split].
  unfold Smurf.score_smurf_candidates. cbv zeta. rewrite S6, S3.
  destruct (score_fold_rel extra G (immune_accounts a)
              (Smurf.extract_smurf_candidates G)
              {| Smurf.ss_seen := []; Smurf.ss_rings := candidate_rings a;
                 Smurf.ss_patterns := account_patterns a |}
              {| Smurf.ss_seen := []; Smurf.ss_rings := candidate_rings a;
                 Smurf.ss_patterns := account_patterns b |}
              eq_refl eq_refl Hpat) as [R1 R2].
  split; [|exact R2].
  unfold Props.same_rings.
  cbn [eng_df eng_G candidate_rings fraud_rings suspicion_scores
       immune_accounts explanations median_degree degree_std
       adaptive_ext_degree_limit set_candidate_rings set_account_patterns].
  repeat split; congruence.
Qed.

Lemma same_rings_sym a b : Props.same_rings a b -> Props.same_rings b a.
Proof.
  unfold Props.same_rings.
  intros (S1 & S2 & S3 & S4 & S5 & S6 & S7 & S8 & S9 & S10).
  repeat split; congruence.
Qed.

(** The labels of [detect_velocity], whatever the engine holds. *)
Lemma detect_velocity_labels st :
  Props.same_rings st (Velocity.detect_velocity st)
  /\ Props.more_labels Props.LABEL_STAGE_LABELS (account_patterns st)
       (account_patterns (Velocity.detect_velocity st)).
Proof.
  destruct (eng_df st) as [df|] eqn:Hdf.
  - destruct (detect_velocity_aux st df Hdf) as (_ & _ & H3 & H4).
    cbv zeta in H3, H4. split; [exact H4|]. intros n. split.
    + intros p Hp. apply H3. now left.
    + intros p Hp. apply H3 in Hp as [Hp|(_ & [[-> _]|[[-> _]|[-> _]]])];
        [set_solver| | |]; apply elem_of_union; right;
        apply (bool_decide_unpack (_ ∈ Props.LABEL_STAGE_LABELS));
        vm_compute; exact I.
  - unfold Velocity.detect_velocity. rewrite Hdf.
    split; [apply same_rings_refl|apply more_labels_refl].
Qed.

(** The labels of [detect_structuring], whatever the engine holds. *)
Lemma detect_structuring_labels st :
  Props.same_rings st (Structuring.detect_structuring st)
  /\ Props.more_labels Props.LABEL_STAGE_LABELS (account_patterns st)
       (account_patterns (Structuring.detect_structuring st)).
Proof.
  destruct (eng_df st) as [df|] eqn:Hdf.
  - destruct (detect_structuring_aux st df Hdf) as (H1 & H2 & _).
    cbv zeta in H1, H2. split; [exact H2|]. intros n. split.
    + intros p Hp. apply H1. now left.
    + intros p Hp. apply H1 in Hp as [Hp|(_ & -> & _)]; [set_solver|].
      apply elem_of_union; right.
      apply (bool_decide_unpack (_ ∈ Props.LABEL_STAGE_LABELS)).
      vm_compute. exact I.
  - unfold Structuring.detect_structuring. rewrite Hdf.
    split; [apply same_rings_refl|apply more_labels_refl].
Qed.

(** The rings of the report depend on the candidate rings, the immune
    accounts and the rings already there. *)
Lemma finish_run_rings (anomaly_bonus : nat -> Q) (a b : Engine) :
  Props.same_rings a b ->
  fraud_rings (Pipeline.finish_run anomaly_bonus a)
  = fraud_rings (Pipeline.finish_run anomaly_bonus b).
Proof.
  intros (S1 & S2 & S3 & S4 & S5 & S6 & S7 & S8 & S9 & S10).
  unfold Pipeline.finish_run. rewrite !calculate_rings.
  unfold Pipeline.before_scoring, Pipeline.apply_pattern_hierarchy.
  cbn [fraud_rings set_account_patterns].
  unfold Rings.consolidate_rings, Pipeline.immune_cleanup.
  cbn [candidate_rings set_candidate_rings set_account_patterns].
  rewrite S3, S6.
  destruct (Pipeline.clean_candidates (immune_accounts a) (candidate_rings a));
    cbn [fraud_rings set_fraud_rings set_candidate_rings set_account_patterns];
    congruence.
Qed.

End LabelStageFacts.

(** X24, [run_all], stage 1. Within the run [detect_velocity] and
    [detect_structuring] only label: the detectors of [run_all] leave
    the same candidate rings, immune accounts, graph and table as the
    detectors without these two stages, every label those give, and
    beyond them only the labels [high_velocity], [high_velocity_24h],
    [low_variance] and [structuring]; so the fraud rings of the report
    are the same with and without the two stages. *)
Theorem label_stages_leave_rings (anomaly_bonus : nat -> Q) (fuel : nat)
    (st : Engine) :
  let base := Pipeline.ring_detectors fuel st in
  let full := Run.detectors fuel st in
  Props.same_rings base full
  /\ Props.more_labels Props.LABEL_STAGE_LABELS
       (account_patterns base) (account_patterns full)
  /\ rep_fraud_rings (Run.run_all anomaly_bonus fuel st)
     = rep_fraud_rings (Pipeline.run_all_after_detection anomaly_bonus base).
Proof.
  intros base full.
  set (pre := Shells.detect_shells fuel
                (CycleDetection.detect_cycles
                   (Immunity.detect_business_immunity st))).
  assert (base = Run.smurf_stage pre) as Hbase by reflexivity.
  assert (full = Structuring.detect_structuring
                   (Run.smurf_stage (Velocity.detect_velocity pre)))
    as Hfull by reflexivity.
  destruct (detect_velocity_labels pre) as [V1 V2].
  destruct (smurf_stage_rel _ _ _ V1 V2) as [M1 M2].
  destruct (detect_structuring_labels
              (Run.smurf_stage (Velocity.detect_velocity pre))) as [T1 T2].
  assert (Props.same_rings base full) as Hsame.
  { rewrite Hbase, Hfull. eapply same_rings_trans; [exact M1|exact T1]. }
  split; [exact Hsame|]. split.
  - rewrite Hbase, Hfull. eapply more_labels_trans; [exact M2|exact T2].
  - unfold Run.run_all, Pipeline.run_all_after_detection, Json.generate_json.
    cbn [rep_fraud_rings]. fold full. symmetry.
    now apply finish_run_rings.
Qed.

(** ** The graph for the front end *)

Section GraphDataFacts.
Import GraphData.

Local Abbreviation key e := (e_src e, e_dst e).

Lemma pair_get_set k k' v d :
  pair_get k (pair_set k' v d)
  = if bool_decide (k = k') then Some v else pair_get k d.
Proof.
  induction d as [|[k0 v0] d IH]; cbn [pair_set pair_get].
  - now case_bool_decide.
  - destruct (decide (k' = k0)) as [->|Hne].
    + rewrite bool_decide_eq_true_2 by reflexivity. cbn [pair_get].
      now case_bool_decide.
    + rewrite (bool_decide_eq_false_2 _ Hne). cbn [pair_get]. rewrite IH.
      destruct (decide (k = k0)) as [->|Hk].
      * rewrite bool_decide_eq_true_2 by reflexivity.
        now rewrite bool_decide_eq_false_2 by congruence.
      * now rewrite (bool_decide_eq_false_2 _ Hk).
Qed.

Lemma pair_get_None k d : pair_get k d = None <-> k ∉ map fst d.
Proof.
  induction d as [|[k0 v0] d IH]; cbn [pair_get map fst].
  - split; [intros _ H; inversion H|reflexivity].
  - rewrite not_elem_of_cons. case_bool_decide as E.
    + split; [discriminate|]. intros [H _]. contradiction.
    + rewrite IH. tauto.
Qed.

Lemma pair_set_keys k v d :
  map fst (pair_set k v d)
  = if bool_decide (k ∈ map fst d) then map fst d else map fst d ++ [k].
Proof.
  induction d as [|[k0 v0] d IH]; cbn [pair_set map fst].
  - rewrite bool_decide_eq_false_2; [reflexivity|]. intros H. inversion H.
  - destruct (decide (k = k0)) as [->|Hne].
    + rewrite !bool_decide_eq_true_2; [reflexivity|now left|reflexivity].
    + rewrite (bool_decide_eq_false_2 _ Hne). cbn [map fst]. rewrite IH.
      destruct (decide (k ∈ map fst d)) as [Hin|Hin].
      * rewrite !bool_decide_eq_true_2; [reflexivity|now right|exact Hin].
      * rewrite !bool_decide_eq_false_2; [reflexivity| |exact Hin].
        rewrite not_elem_of_cons. tauto.
Qed.

Lemma pair_set_NoDup k v d :
  NoDup (map fst d) -> NoDup (map fst (pair_set k v d)).
Proof.
  intros H. rewrite pair_set_keys. case_bool_decide as E; [exact H|].
  apply NoDup_app. split; [exact H|]. split; [|apply NoDup_singleton].
  intros x Hx Hx'. apply list_elem_of_singleton in Hx'. now subst.
Qed.

Lemma pair_get_elem_of k v d :
  NoDup (map fst d) -> (k, v) ∈ d -> pair_get k d = Some v.
Proof.
  induction d as [|[k0 v0] d IH]; intros Hnd Hin; [inversion Hin|].
  cbn [map fst] in Hnd. apply NoDup_cons in Hnd as [Hk0 Hnd].
  cbn [pair_get]. apply elem_of_cons in Hin as [Heq|Hin].
  - injection Heq as -> ->. now rewrite bool_decide_eq_true_2.
  - rewrite bool_decide_eq_false_2; [now apply IH|].
    intros ->. apply Hk0. apply list_elem_of_fmap. now exists (k0, v).
Qed.

(** The running totals of the loop over the edges. *)
Local Abbreviation add_edge :=
  (fun (d : list (string * string * Q)) (e : Edge) =>
     pair_set (key e) (default 0%Q (pair_get (key e) d) + e_amount e)%Q d).

Lemma edge_fold_spec (L : list Edge) : forall d0,
  NoDup (map fst d0) ->
  let d := fold_left add_edge L d0 in
  NoDup (map fst d)
  /\ (forall k, k ∈ map fst d <->
                k ∈ map fst d0 \/ exists e, e ∈ L /\ key e = k)
  /\ (forall k, (default 0 (pair_get k d)
                 == default 0 (pair_get k d0)
                    + Qsum (map e_amount (filter (fun e => key e = k) L)))%Q).
Proof.
  induction L as [|e L IH]; intros d0 Hnd; cbn [fold_left].
  - split; [exact Hnd|]. split.
    + intros k. split; [now left|].
      intros [H|(e & He & _)]; [exact H|inversion He].
    + intros k. unfold Qsum. simpl. ring.
  - destruct (IH (add_edge d0 e) (pair_set_NoDup _ _ _ Hnd)) as (I1 & I2 & I3).
    cbv zeta in I1, I2, I3. split; [exact I1|]. split.
    + intros k. rewrite I2, pair_set_keys.
      assert (k ∈ (if bool_decide (key e ∈ map fst d0) then map fst d0
                   else map fst d0 ++ [key e])
              <-> k ∈ map fst d0 \/ key e = k) as ->.
      { case_bool_decide as E.
        - split; [now left|]. intros [H| <-]; assumption.
        - rewrite elem_of_app, list_elem_of_singleton. split; intros [H|H];
            auto. }
      split.
      * intros [[H|H]|(e' & He' & Hk)]; [now left| |].
        -- right. exists e. split; [now left|exact H].
        -- right. exists e'. split; [now right|exact Hk].
      * intros [H|(e' & He' & Hk)]; [left; now left|].
        apply elem_of_cons in He' as [->|He']; [left; now right|].
        right. now exists e'.
    + intros k. rewrite I3, pair_get_set, filter_cons.
      destruct (decide (key e = k)) as [Hk|Hk].
      * rewrite bool_decide_eq_true_2 by congruence. cbn [default map].
        unfold id. rewrite Hk. unfold Qsum. cbn [foldr]. ring.
      * rewrite bool_decide_eq_false_2 by congruence. reflexivity.
Qed.

Lemma uniq_NoDup l : NoDup (uniq l).
Proof.
  unfold uniq.
  assert (forall acc, NoDup acc ->
            NoDup (fold_left (fun acc n => add_node n acc) l acc)) as H.
  { induction l as [|a l IH]; intros acc Hacc; cbn [fold_left]; [exact Hacc|].
    apply IH. now apply add_node_NoDup. }
  apply H. constructor.
Qed.

(** Filtering a concatenation whose pieces are told apart by a tag. *)
Lemma filter_flat_map_tag {A B} (P : B -> Prop) `{forall x, Decision (P x)}
    `{EqDecision A} (f : A -> list B) (a : A) (l : list A) :
  NoDup l ->
  (forall x y, x ∈ l -> y ∈ f x -> P y -> x = a) ->
  filter P (flat_map f l) = if bool_decide (a ∈ l) then filter P (f a) else [].
Proof.
  intros Hnd Htag. induction l as [|x l IH]; cbn [flat_map].
  - rewrite bool_decide_eq_false_2; [reflexivity|]. intros Hx. inversion Hx.
  - apply NoDup_cons in Hnd as [Hx Hnd]. rewrite filter_app.
    rewrite IH; [|exact Hnd|intros x' y Hx'; apply Htag; now right].
    destruct (decide (x = a)) as [->|Hne].
    + rewrite (bool_decide_eq_true_2 (a ∈ a :: l)) by now left.
      rewrite (bool_decide_eq_false_2 (a ∈ l)) by exact Hx.
      now rewrite app_nil_r.
    + assert (filter P (f x) = []) as ->.
      { apply filter_none. apply Forall_forall. intros y Hy HP.
        apply Hne. apply (Htag x y); [now left|exact Hy|exact HP]. }
      cbn [app]. destruct (decide (a ∈ l)) as [Ha|Ha].
      * rewrite (bool_decide_eq_true_2 (a ∈ l)) by exact Ha.
        now rewrite (bool_decide_eq_true_2 (a ∈ x :: l)) by now right.
      * rewrite (bool_decide_eq_false_2 (a ∈ l)) by exact Ha.
        rewrite (bool_decide_eq_false_2 (a ∈ x :: l)); [reflexivity|].
        rewrite not_elem_of_cons. split; [congruence|exact Ha].
Qed.

Lemma filter_idem_between G u v :
  filter (fun e => key e = (u, v)) (get_edges_between G u v)
  = get_edges_between G u v.
Proof.
  unfold get_edges_between, Graph in *.
  induction G as [|e G IH]; [reflexivity|].
  rewrite filter_cons.
  destruct (decide (e_src e = u /\ e_dst e = v)) as [[Hs Hd]|Hn];
    [|exact IH].
  rewrite filter_cons, decide_True by (subst; reflexivity). now rewrite IH.
Qed.

(** The edges of one pair, as the iteration over the graph yields
    them. *)
Lemma edges_iter_between G u v :
  filter (fun e => key e = (u, v)) (edges_iter G) = get_edges_between G u v.
Proof.
  unfold edges_iter.
  rewrite (filter_flat_map_tag _ _ u (nodes G) (nodes_NoDup G)).
  2:{ intros x y _ Hy Hk. apply list_elem_of_In, in_flat_map in Hy
        as (w & _ & Hy).
      apply list_elem_of_In, list_elem_of_filter in Hy as [[Hs _] _].
      injection Hk as Hk _. congruence. }
  rewrite (filter_flat_map_tag _ _ v (successors G u) (uniq_NoDup _)).
  2:{ intros x y _ Hy Hk.
      apply list_elem_of_filter in Hy as [[_ Hd] _].
      injection Hk as _ Hk. congruence. }
  rewrite filter_idem_between.
  destruct (get_edges_between G u v) as [|e l] eqn:E;
    [now repeat case_bool_decide|].
  assert (e ∈ get_edges_between G u v) as He by (rewrite E; now left).
  apply list_elem_of_filter in He as [[Hs Hd] He].
  rewrite !bool_decide_eq_true_2; [reflexivity| |].
  - unfold successors. apply elem_of_uniq. apply list_elem_of_fmap.
    exists e. split; [now symmetry|]. apply list_elem_of_filter. now split.
  - apply elem_of_nodes. exists e. split; [exact He|now left].
Qed.

Lemma elem_of_edges_iter G e : e ∈ edges_iter G <-> e ∈ G.
Proof.
  split.
  - intros H. apply list_elem_of_In, in_flat_map in H as (u & _ & H).
    apply in_flat_map in H as (v & _ & H).
    now apply list_elem_of_In, list_elem_of_filter in H as [_ H].
  - intros H.
    assert (e ∈ filter (fun x => key x = key e) (edges_iter G)) as H'.
    { rewrite (edges_iter_between G (e_src e) (e_dst e)).
      apply list_elem_of_filter. now split. }
    now apply list_elem_of_filter in H' as [_ H'].
Qed.

(** The table of totals of [get_graph_data]. *)
Lemma edge_map_spec G :
  NoDup (map fst (edge_map G))
  /\ (forall u v, (u, v) ∈ map fst (edge_map G) <->
                  get_edges_between G u v <> [])
  /\ (forall u v total,
         (u, v, total) ∈ edge_map G ->
         (total == Qsum (map e_amount (get_edges_between G u v)))%Q).
Proof.
  destruct (edge_fold_spec (edges_iter G) [] ltac:(constructor))
    as (H1 & H2 & H3).
  cbv zeta in H1, H2, H3. fold (edge_map G) in H1, H2, H3.
  split; [exact H1|]. split.
  - intros u v. rewrite H2. split.
    + intros [H|(e & He & Hk)]; [inversion H|].
      apply (proj1 (elem_of_edges_iter G e)) in He. intros Hnil.
      assert (e ∈ get_edges_between G u v) as Hin.
      { apply list_elem_of_filter. injection Hk as Hs Hd.
        split; [now split|exact He]. }
      rewrite Hnil in Hin. inversion Hin.
    + intros Hne. right.
      destruct (get_edges_between G u v) as [|e l] eqn:E; [contradiction|].
      assert (e ∈ get_edges_between G u v) as He by (rewrite E; now left).
      apply list_elem_of_filter in He as [[Hs Hd] He].
      exists e. split; [now apply elem_of_edges_iter|]. now subst.
  - intros u v total Hin.
    specialize (H3 (u, v)).
    rewrite (pair_get_elem_of _ _ _ H1 Hin), edges_iter_between in H3.
    cbn [default pair_get] in H3. unfold id in H3. rewrite H3. ring.
Qed.

Lemma value_bounds (x : Q) :
  (1 <= Qmax 1 (Qmin 6 x))%Q /\ (Qmax 1 (Qmin 6 x) <= 6)%Q.
Proof.
  unfold Qmax, Qmin.
  destruct (Qleb 6 x) eqn:E6.
  - assert (Qleb 1 6 = true) as -> by reflexivity. split; [discriminate|].
    apply Qle_refl.
  - destruct (Qleb 1 x) eqn:E1.
    + apply QFacts.Qleb_le in E1. apply QFacts.Qleb_gt in E6.
      split; [exact E1|now apply Qlt_le_weak].
    + split; [apply Qle_refl|discriminate].
Qed.

End GraphDataFacts.

(** X25, [get_graph_data], edges. With a graph loaded, the edge list
    for the front end has one entry for every ordered pair of accounts
    that has a transaction, and no other; the total kept for a pair is
    the sum of the amounts of all its transactions; and every edge
    width lies between 1 and 6. *)
Theorem graph_edges_conserve_amounts (st : Engine) (G : Graph) :
  eng_G st = Some G ->
  let edges_list := (GraphData.get_graph_data st).2 in
  NoDup (map (fun e => (ve_from e, ve_to e)) edges_list)
  /\ (forall u v,
         (exists e, e ∈ edges_list /\ ve_from e = u /\ ve_to e = v) <->
         get_edges_between G u v <> [])
  /\ (forall u v total,
         (u, v, total) ∈ GraphData.edge_map G ->
         (total == Qsum (map e_amount (get_edges_between G u v)))%Q)
  /\ Forall (fun e => (1 <= ve_value e <= 6)%Q) edges_list.
Proof.
  intros HG edges_list. subst edges_list.
  unfold GraphData.get_graph_data. rewrite HG. cbn [snd].
  destruct (edge_map_spec G) as (H1 & H2 & H3).
  assert (map (fun e => (ve_from e, ve_to e))
              (map GraphData.vis_edge (GraphData.edge_map G))
          = map fst (GraphData.edge_map G)) as Hkeys.
  { rewrite map_map. apply map_ext. now intros [[u v] total]. }
  split; [rewrite Hkeys; exact H1|]. split; [|split; [exact H3|]].
  - intros u v. rewrite <- H2, <- Hkeys. rewrite list_elem_of_fmap. split.
    + intros (e & He & <- & <-). now exists e.
    + intros (e & Hk & He). injection Hk as -> ->. now exists e.
  - apply Forall_fmap, Forall_forall. intros [[u v] total] _.
    cbn. apply value_bounds.
Qed.

Lemma graph_edges_conserve_amounts_witness :
  exists e, e ∈ (GraphData.get_graph_data Cases.parallel_engine).2
            /\ ve_from e = "a" /\ ve_to e = "b".
Proof.
  pose proof (graph_edges_conserve_amounts Cases.parallel_engine
                (map Ingest.edge_of Cases.parallel_table) eq_refl) as T.
  cbv zeta in T. destruct T as (_ & T & _). apply T.
  vm_compute. discriminate.
Defined.

(** ** Graph nodes and report entries *)

Section GraphNodeFacts.
Import GraphData.

Lemma dict_get_elem_of {V} k (v : V) d :
  NoDup (map fst d) -> (k, v) ∈ d -> dict_get k d = Some v.
Proof.
  induction d as [|[k0 v0] d IH]; intros Hnd Hin; [inversion Hin|].
  cbn [map fst] in Hnd. apply NoDup_cons in Hnd as [Hk0 Hnd].
  cbn [dict_get]. apply elem_of_cons in Hin as [Heq|Hin].
  - injection Heq as -> ->. now rewrite String.eqb_refl.
  - destruct (String.eqb k k0) eqn:E; [|now apply IH].
    apply String.eqb_eq in E as ->. exfalso. apply Hk0.
    apply list_elem_of_fmap. now exists (k0, v).
Qed.

Lemma dict_get_Some_elem_of {V} k (v : V) d :
  dict_get k d = Some v -> (k, v) ∈ d.
Proof.
  induction d as [|[k0 v0] d IH]; cbn [dict_get]; [discriminate|].
  destruct (String.eqb k k0) eqn:E.
  - apply String.eqb_eq in E as ->. intros [= ->]. now left.
  - intros H. right. now apply IH.
Qed.

Lemma head_ring_ids acc rings :
  match map ring_id (filter (fun r => acc ∈ member_accounts r) rings) with
  | rid :: _ => rid
  | [] => "NONE"
  end
  = match List.find (fun r => bool_decide (acc ∈ member_accounts r)) rings with
    | Some r => ring_id r
    | None => "NONE"
    end.
Proof.
  induction rings as [|r rings IH]; [reflexivity|].
  rewrite filter_cons. cbn [List.find].
  destruct (decide (acc ∈ member_accounts r)) as [H|H].
  - now rewrite bool_decide_eq_true_2.
  - now rewrite bool_decide_eq_false_2.
Qed.

Lemma vis_node_fields st n :
  vn_id (vis_node st n) = n
  /\ vn_suspicion_score (vis_node st n)
     = default 0%Q (dict_get n (suspicion_scores st))
  /\ vn_detected_patterns (vis_node st n)
     = PyStr.sorted_set (patterns_of (account_patterns st) n)
  /\ vn_explanation (vis_node st n) = default "" (explanations st !! n)
  /\ vn_ring_ids (vis_node st n)
     = map ring_id (filter (fun r => n ∈ member_accounts r) (fraud_rings st))
  /\ (vn_background (vis_node st n), vn_border (vis_node st n),
      vn_size (vis_node st n))
     = style (default 0%Q (dict_get n (suspicion_scores st))).
Proof.
  unfold vis_node. cbv zeta.
  destruct (style _) as [[c b] s]. cbn. repeat split.
Qed.

End GraphNodeFacts.

(** X26, [get_graph_data] and [generate_json]. With a graph loaded and
    every account scored once, the node list for the front end has one
    node for every node of the graph, in graph order; a node and the
    report entry of the same account carry the same score, labels and
    explanation, and the ring of the entry is the first of the rings of
    the node; a node whose account the report leaves out is drawn in
    the smallest size and in blue. *)
Theorem graph_nodes_agree_with_report (st : Engine) (G : Graph) :
  eng_G st = Some G ->
  NoDup (map fst (suspicion_scores st)) ->
  let nodes_list := (GraphData.get_graph_data st).1 in
  let report := Json.generate_json st in
  map vn_id nodes_list = nodes G
  /\ (forall nd a,
         nd ∈ nodes_list -> a ∈ rep_suspicious_accounts report ->
         vn_id nd = sa_account_id a ->
         vn_suspicion_score nd = sa_suspicion_score a
         /\ vn_detected_patterns nd = sa_detected_patterns a
         /\ vn_explanation nd = sa_explanation a
         /\ sa_ring_id a = match vn_ring_ids nd with
                           | rid :: _ => rid
                           | [] => "NONE"
                           end)
  /\ (forall nd,
         nd ∈ nodes_list ->
         (forall a, a ∈ rep_suspicious_accounts report ->
                    sa_account_id a <> vn_id nd) ->
         vn_size nd = 16%nat /\ vn_background nd = "#3498DB").
Proof.
  intros HG Hnd nodes_list report. subst nodes_list report.
  unfold GraphData.get_graph_data. rewrite HG. cbn [fst].
  unfold Json.generate_json. cbn [rep_suspicious_accounts].
  split; [|split].
  - rewrite map_map. rewrite <- (map_id (nodes G)) at 2.
    apply map_ext. intros n. apply vis_node_fields.
  - intros nd a Hin Ha Hid.
    apply list_elem_of_fmap in Hin as (n & -> & Hn).
    rewrite stable_sort_perm in Ha.
    apply elem_of_collect in Ha as (acc & score & Hitem & Hpos & ->).
    destruct (vis_node_fields st n) as (F1 & F2 & F3 & F4 & F5 & _).
    rewrite F1 in Hid. cbn [Json.entry sa_account_id] in Hid. subst acc.
    rewrite F2, F3, F4, F5.
    rewrite (dict_get_elem_of n score _ Hnd Hitem).
    split; [reflexivity|]. split; [reflexivity|]. split; [reflexivity|].
    rewrite entry_ring_id. symmetry. apply head_ring_ids.
  - intros nd Hin Hout.
    apply list_elem_of_fmap in Hin as (n & -> & Hn).
    destruct (vis_node_fields st n) as (F1 & _ & _ & _ & _ & F6).
    assert (~ (0 < default 0%Q (dict_get n (suspicion_scores st)))%Q)
      as Hscore.
    { destruct (dict_get n (suspicion_scores st)) as [s|] eqn:E;
        [|intros H; now apply Qlt_irrefl in H].
      cbn [default]. unfold id. intros Hs.
      apply dict_get_Some_elem_of in E.
      apply (Hout (Json.entry st (Json.account_rings (fraud_rings st)) n s));
        [|now rewrite F1].
      rewrite stable_sort_perm. apply elem_of_collect.
      exists n, s. split; [exact E|]. split; [|reflexivity].
      now apply QFacts.Qleb_gt. }
    unfold GraphData.style in F6.
    destruct (Qltb 70 _) eqn:E70.
    { exfalso. apply Hscore. apply QFacts.Qltb_lt in E70.
      eapply Qlt_trans; [|exact E70]. reflexivity. }
    destruct (Qltb 30 _) eqn:E30.
    { exfalso. apply Hscore. apply QFacts.Qltb_lt in E30.
      eapply Qlt_trans; [|exact E30]. reflexivity. }
    injection F6 as -> _ ->. now split.
Qed.

Lemma graph_nodes_agree_with_report_witness :
  map vn_id (GraphData.get_graph_data Examples.iso_final).1
  = nodes Examples.iso_graph.
Proof.
  pose proof (graph_nodes_agree_with_report Examples.iso_final
                Examples.iso_graph) as T.
  cbv zeta in T. destruct T as (T & _).
  - vm_compute. reflexivity.
  - apply (bool_decide_unpack
             (NoDup (map fst (suspicion_scores Examples.iso_final)))).
    vm_compute. exact I.
  - exact T.
Defined.
